(** * Device radix sort pass pipeline (rocPRIM, device/detail/device_radix_sort.hpp)

    A shallow embedding of the four kernels of one least-significant-digit
    radix pass -- [fill_digit_counts], [scan_batches], [scan_digits] and
    [sort_and_scatter] -- together with the properties of the pass that the
    specification states.

    Conventions of the embedding:
    - [unsigned int] values are integers in [Z]; every arithmetic operation
      the kernels perform on them is written with its wrap-around
      ([add32], [sub32], [mul32]); [unsigned short] stores go through
      [wrap16]; the 64-bit lane masks of [ballot] are complemented with
      [not64].
    - device arrays and [__shared__] arrays are functions from indices to
      contents, updated with [upd]; per-thread register arrays of a
      cooperative block are functions of the flat thread id and the item
      index.
    - a barrier-delimited phase of a block is a loop over its threads; the
      instruction a warp executes in lockstep reads the state from before
      the instruction.
    - stores to the output arrays are collected in a log, in the order the
      model performs them. *)

From Stdlib Require Import ZArith List Bool Lia Permutation Sorted FinFun.
From Stdlib Require Strings.Byte.
Import ListNotations.
Local Open Scope Z_scope.

(** ** Machine arithmetic *)

Definition wrap16 (x : Z) : Z := x mod 2 ^ 16.
Definition wrap32 (x : Z) : Z := x mod 2 ^ 32.
Definition add32 (a b : Z) : Z := wrap32 (a + b).
Definition sub32 (a b : Z) : Z := wrap32 (a - b).
Definition mul32 (a b : Z) : Z := wrap32 (a * b).
Definition not64 (m : Z) : Z := Z.lxor m (Z.ones 64).

(** ** Loops and arrays *)

(** The indices [0, 1, ..., n-1] of a counted loop. *)
Definition zrange (n : Z) : list Z := map Z.of_nat (seq 0 (Z.to_nat n)).

(** [for(unsigned int i = 0; i < n; i++) body] threading a state. *)
Definition for_loop {S : Type} (n : Z) (body : Z -> S -> S) (s : S) : S :=
  fold_left (fun acc i => body i acc) (zrange n) s.

Definition upd {A : Type} (a : Z -> A) (i : Z) (v : A) : Z -> A :=
  fun j => if j =? i then v else a j.

Definition upd2 {A : Type} (a : Z -> Z -> A) (i j : Z) (v : A) : Z -> Z -> A :=
  fun i' j' => if (i' =? i) && (j' =? j) then v else a i' j'.

(** Pointer arithmetic [p + off]. *)
Definition offset_ptr {A : Type} (p : Z -> A) (off : Z) : Z -> A :=
  fun j => p (off + j).

(** Register arrays of a block: flat thread id, then item index. *)
Definition regs (A : Type) : Type := Z -> Z -> A.

(** ** functional.hpp *)

(** [rocprim::min]: [a < b ? a : b]. *)
Definition min (a b : Z) : Z := if a <? b then a else b.

(** [rocprim::max]: [a < b ? b : a]. *)
Definition max (a b : Z) : Z := if a <? b then b else a.

(** [rocprim::not_equal_to<unsigned int>]. *)
Definition not_equal_to (a b : Z) : bool := negb (a =? b).

(** ** Collaborators outside the kernels *)

(** Modelled from the spec: the key codec [radix_key_codec<Key, Descending>]
    of detail/radix_sort.hpp is not part of the sources at hand.  [encode]
    maps a key to its bit key, an unsigned integer of [key_bits] bits whose
    unsigned order is the requested order of the keys; [decode] is its
    inverse. *)
Class radix_key_codec (Key : Type) : Type := {
  encode : Key -> Z;
  decode : Z -> Key
}.

(** The contract of a codec for bit keys of [W] bits, for the key order
    [key_le] and the direction [Descending]. *)
Record codec_contract {Key : Type} (C : radix_key_codec Key) (W : Z)
       (key_le : Key -> Key -> Prop) (Descending : bool) : Prop := {
  encode_range : forall k, 0 <= encode k < 2 ^ W;
  decode_encode : forall k, decode (encode k) = k;
  encode_decode : forall b, 0 <= b < 2 ^ W -> encode (decode b) = b;
  encode_order : forall a b,
      encode a <= encode b <-> (if Descending then key_le b a else key_le a b)
}.

(** Modelled from the spec: [rocprim::empty_type] (types.hpp), the payload
    type of a keys-only sort. *)
Inductive empty_type : Type := empty_value.

(** Modelled from the spec: the warp intrinsics (intrinsics.hpp) are not part
    of the sources at hand.  [ballot] returns the mask with bit [l] set when
    lane [l] of the warp holds a non-zero predicate; lane [l] of warp [w] is
    the thread with flat id [w * warp_size + l]. *)
Definition ballot (warp_size : Z) (predicate : Z -> bool) (warp : Z) : Z :=
  fold_left
    (fun m l => Z.lor m (if predicate (warp * warp_size + l)
                         then Z.shiftl 1 l else 0))
    (zrange warp_size) 0.

(** Modelled from the spec: [bit_count] is the population count of a 64-bit
    mask. *)
Definition bit_count (m : Z) : Z :=
  fold_left (fun c l => c + Z.b2z (Z.testbit m l)) (zrange 64) 0.

(** Modelled from the spec: [masked_bit_count] counts the set bits of the
    mask below the calling lane. *)
Definition masked_bit_count (m : Z) (lane_id : Z) : Z :=
  bit_count (Z.land m (Z.ones lane_id)).

(** Modelled from the spec: block_load_func.hpp is not part of the sources at
    hand.  A striped load gives thread [flat_id] the items
    [flat_id + i * BlockSize]; the guarded overload leaves the registers of
    items at or beyond [valid] as they were ([old]). *)
Definition block_load_direct_striped {A : Type} (BlockSize : Z)
    (flat_id : Z) (input : Z -> A) : Z -> A :=
  fun i => input (flat_id + i * BlockSize).

Definition block_load_direct_striped_valid {A : Type} (BlockSize : Z)
    (flat_id : Z) (input : Z -> A) (old : Z -> A) (valid : Z) : Z -> A :=
  fun i => if flat_id + i * BlockSize <? valid
           then input (flat_id + i * BlockSize) else old i.

(** Modelled from the spec: block_load.hpp is not part of the sources at
    hand.  [block_load] with [block_load_transpose] leaves the tile in the
    blocked arrangement: thread [t] holds the items [t * ItemsPerThread + i].
    The guarded overloads read only items below [valid]; the others keep
    their previous register contents, or take the fill value
    [out_of_bounds]. *)
Definition block_load {A : Type} (ItemsPerThread : Z)
    (input : Z -> A) : regs A :=
  fun t i => input (t * ItemsPerThread + i).

Definition block_load_valid {A : Type} (ItemsPerThread : Z)
    (input : Z -> A) (old : regs A) (valid : Z) : regs A :=
  fun t i => if t * ItemsPerThread + i <? valid
             then input (t * ItemsPerThread + i) else old t i.

Definition block_load_valid_default {A : Type} (ItemsPerThread : Z)
    (input : Z -> A) (valid : Z) (out_of_bounds : A) : regs A :=
  fun t i => if t * ItemsPerThread + i <? valid
             then input (t * ItemsPerThread + i) else out_of_bounds.

(** The tile of a block read off its registers, in the blocked order. *)
Definition blocked_tile {A : Type} (BlockSize ItemsPerThread : Z)
    (r : regs A) : list A :=
  map (fun p => r (p / ItemsPerThread) (p mod ItemsPerThread))
      (zrange (BlockSize * ItemsPerThread)).

(** Registers in the blocked arrangement holding a tile. *)
Definition blocked_regs {A : Type} (ItemsPerThread : Z)
    (tile : list A) (old : regs A) : regs A :=
  fun t i => nth (Z.to_nat (t * ItemsPerThread + i)) tile (old t i).

(** Modelled from the spec: block_exchange.hpp is not part of the sources at
    hand.  [blocked_to_striped] gives thread [t] as its item [i] the item of
    the tile at position [i * BlockSize + t]. *)
Definition blocked_to_striped {A : Type} (BlockSize ItemsPerThread : Z)
    (r : regs A) : regs A :=
  fun t i => r ((i * BlockSize + t) / ItemsPerThread)
               ((i * BlockSize + t) mod ItemsPerThread).

(** Modelled from the spec: block_scan.hpp is not part of the sources at
    hand.  The exclusive prefix sum of a tile in the blocked order, starting
    from [init], in [unsigned int] arithmetic, and the sum of the whole
    tile. *)
Fixpoint exclusive_sums (acc : Z) (l : list Z) : list Z :=
  match l with
  | [] => []
  | x :: r => acc :: exclusive_sums (add32 acc x) r
  end.

Definition exclusive_scan (BlockSize ItemsPerThread : Z)
    (input : regs Z) (init : Z) : regs Z * Z :=
  let tile := blocked_tile BlockSize ItemsPerThread input in
  (blocked_regs ItemsPerThread (exclusive_sums init tile) input,
   fold_left add32 tile 0).

(** Modelled from the spec: block_discontinuity.hpp is not part of the
    sources at hand.  In the blocked order, an item is a head when it is the
    first of the tile or [flag_op] holds between its predecessor and itself,
    and a tail when it is the last of the tile or [flag_op] holds between
    itself and its successor. *)
Definition flag_heads_and_tails (BlockSize ItemsPerThread : Z)
    (input : regs Z) (flag_op : Z -> Z -> bool) : regs bool * regs bool :=
  let at_pos p := input (p / ItemsPerThread) (p mod ItemsPerThread) in
  let last := BlockSize * ItemsPerThread - 1 in
  (fun t i => let p := t * ItemsPerThread + i in
              (p =? 0) || flag_op (at_pos (p - 1)) (at_pos p),
   fun t i => let p := t * ItemsPerThread + i in
              (p =? last) || flag_op (at_pos p) (at_pos (p + 1))).

(** Modelled from the spec: block_radix_sort.hpp is not part of the sources
    at hand.  The block sort is a stable sort of the tile, in the blocked
    order, by the bits [[begin_bit, end_bit)] of the bit keys; it is given
    here as the stable insertion sort on that bit field. *)
Definition bit_field (begin_bit end_bit : Z) (k : Z) : Z :=
  Z.land (Z.shiftr k begin_bit) (Z.ones (end_bit - begin_bit)).

Fixpoint insert_by {A : Type} (f : A -> Z) (x : A) (l : list A) : list A :=
  match l with
  | [] => [x]
  | y :: r => if f x <=? f y then x :: y :: r else y :: insert_by f x r
  end.

Fixpoint stable_sort_by {A : Type} (f : A -> Z) (l : list A) : list A :=
  match l with
  | [] => []
  | x :: r => insert_by f x (stable_sort_by f r)
  end.

(** [block_radix_sort::sort(keys, values, storage, begin_bit, end_bit)]. *)
Definition sort_pairs {Value : Type} (BlockSize ItemsPerThread : Z)
    (keys : regs Z) (values : regs Value) (begin_bit end_bit : Z)
  : regs Z * regs Value :=
  let tile := combine (blocked_tile BlockSize ItemsPerThread keys)
                      (blocked_tile BlockSize ItemsPerThread values) in
  let sorted := stable_sort_by (fun kv => bit_field begin_bit end_bit (fst kv)) tile in
  (blocked_regs ItemsPerThread (map fst sorted) keys,
   blocked_regs ItemsPerThread (map snd sorted) values).

(** [block_radix_sort::sort(keys, storage, begin_bit, end_bit)]. *)
Definition sort_keys (BlockSize ItemsPerThread : Z)
    (keys : regs Z) (begin_bit end_bit : Z) : regs Z :=
  let sorted := stable_sort_by (bit_field begin_bit end_bit)
                               (blocked_tile BlockSize ItemsPerThread keys) in
  blocked_regs ItemsPerThread sorted keys.

(** The stores a counted loop performs, in order. *)
Definition for_stores {E : Type} (n : Z) (body : Z -> list E) : list E :=
  flat_map body (zrange n).

Definition shl32 (a b : Z) : Z := wrap32 (Z.shiftl a b).

(** ** The kernels *)

(** A store to the output arrays of [sort_and_scatter]. *)
Inductive store (KeyOut Value : Type) : Type :=
| store_key (dst : Z) (k : KeyOut)
| store_value (dst : Z) (v : Value).
Arguments store_key {KeyOut Value} dst k.
Arguments store_value {KeyOut Value} dst v.

(** The [__shared__] storage of [sort_and_scatter] (the union of the
    scratch areas of the block primitives belongs to their models). *)
Record scatter_storage : Type := {
  starts : Z -> Z;        (* unsigned short starts[radix_size] *)
  ends : Z -> Z;          (* unsigned short ends[radix_size] *)
  block_starts : Z -> Z   (* unsigned int block_starts[radix_size] *)
}.

Definition set_starts (s : scatter_storage) (d v : Z) : scatter_storage :=
  {| starts := upd (starts s) d (wrap16 v); ends := ends s;
     block_starts := block_starts s |}.
Definition set_ends (s : scatter_storage) (d v : Z) : scatter_storage :=
  {| starts := starts s; ends := upd (ends s) d (wrap16 v);
     block_starts := block_starts s |}.
Definition set_block_starts (s : scatter_storage) (d v : Z) : scatter_storage :=
  {| starts := starts s; ends := ends s;
     block_starts := upd (block_starts s) d v |}.

Section Kernels.

  (** Template parameters, and the two constants of the target. *)
Variables BlockSize ItemsPerThread RadixBits : Z.
Variable warp_size : Z.   (* rocprim::warp_size() *)
Variable key_bits : Z.    (* width of bit_key_type *)

Definition items_per_block : Z := BlockSize * ItemsPerThread.
Definition radix_size : Z := Z.shiftl 1 RadixBits.
Definition warps_no : Z := BlockSize / warp_size.

  (** The blocks of a batch: its first block and the number of its blocks,
      then the offset of its first item.  Both [fill_digit_counts]
      (lines 93-105) and [sort_and_scatter] (lines 318-330) compute them
      with this code. *)
Definition batch_block_range (blocks_per_full_batch full_batches batch_id : Z)
    : Z * Z :=
    if batch_id <? full_batches
    then let blocks_per_batch := blocks_per_full_batch in
         (mul32 batch_id blocks_per_batch, blocks_per_batch)
    else let blocks_per_batch := sub32 blocks_per_full_batch 1 in
         (add32 (mul32 batch_id blocks_per_batch) full_batches, blocks_per_batch).

Definition batch_blocks (blocks_per_full_batch full_batches batch_id : Z) : Z * Z :=
    let '(block_offset, blocks_per_batch) :=
      batch_block_range blocks_per_full_batch full_batches batch_id in
    (mul32 block_offset items_per_block, blocks_per_batch).

  (** *** fill_digit_counts *)
Section FillDigitCounts.
Context {KeyIn : Type} {key_in_codec : radix_key_codec KeyIn}.
    (** Register and shared-memory contents before their first write. *)
Variable keys_uninit : Z -> regs KeyIn.
Variable counts_uninit : Z -> Z -> Z.

    (** Lines 133-139 for the thread [flat_id]. *)
Definition same_digit_lanes (digit : Z -> Z) (in_range : Z -> bool)
        (flat_id : Z) : Z :=
      let warp_id := flat_id / warp_size in
      for_loop RadixBits
        (fun b same_digit_lanes_mask =>
           let bit_set t := Z.land (digit t) (shl32 1 b) in
           let bit_set_mask :=
             ballot warp_size (fun t => negb (bit_set t =? 0)) warp_id in
           Z.land same_digit_lanes_mask
                  (if negb (bit_set flat_id =? 0)
                   then bit_set_mask else not64 bit_set_mask))
        (ballot warp_size in_range warp_id).

    (** Lines 140-147 for every warp of the block; the lanes of a warp read
        their counter before any of them writes it. *)
Definition tally (digit : Z -> Z) (in_range : Z -> bool)
        (digit_counts : Z -> Z -> Z) : Z -> Z -> Z :=
      for_loop warps_no
        (fun warp_id before =>
           for_loop warp_size
             (fun lane_id counts =>
                let flat_id := warp_id * warp_size + lane_id in
                let mask := same_digit_lanes digit in_range flat_id in
                let same_digit_count := bit_count mask in
                let prev_same_digit_count := masked_bit_count mask lane_id in
                if prev_same_digit_count =? 0
                then upd2 counts warp_id (digit flat_id)
                          (add32 (before warp_id (digit flat_id)) same_digit_count)
                else counts)
             before)
        digit_counts.

    (** One iteration of the loop over the blocks of the batch
        (lines 107-151). *)
Definition count_block (keys_input : Z -> KeyIn) (size bit current_radix_bits : Z)
        (bi : Z) (st : Z * (Z -> Z -> Z)) : Z * (Z -> Z -> Z) :=
      let '(block_offset, digit_counts) := st in
      let radix_mask := sub32 (shl32 1 current_radix_bits) 1 in
      let full := add32 block_offset items_per_block <=? size in
      let valid_count := if full then items_per_block else sub32 size block_offset in
      let keys : regs KeyIn := fun flat_id =>
        if full
        then block_load_direct_striped BlockSize flat_id
               (offset_ptr keys_input block_offset)
        else block_load_direct_striped_valid BlockSize flat_id
               (offset_ptr keys_input block_offset) (keys_uninit bi flat_id) valid_count in
      let bit_keys : regs Z := fun flat_id i => encode (keys flat_id i) in
      let digit_counts :=
        for_loop ItemsPerThread
          (fun i counts =>
             let digit flat_id := Z.land (Z.shiftr (bit_keys flat_id i) bit) radix_mask in
             let pos flat_id := add32 (mul32 i BlockSize) flat_id in
             tally digit (fun flat_id => pos flat_id <? valid_count) counts)
          digit_counts in
      (add32 block_offset items_per_block, digit_counts).

    (** The kernel, for the block [batch_id] of the grid. *)
Definition fill_digit_counts (keys_input : Z -> KeyIn) (size : Z)
        (batch_digit_counts : Z -> Z)
        (bit current_radix_bits blocks_per_full_batch full_batches : Z)
        (batch_id : Z) : Z -> Z :=
      let zeroed :=
        for_loop BlockSize
          (fun flat_id counts =>
             if flat_id <? radix_size
             then for_loop warps_no (fun w c => upd2 c w flat_id 0) counts
             else counts)
          counts_uninit in
      let '(block_offset, blocks_per_batch) :=
        batch_blocks blocks_per_full_batch full_batches batch_id in
      let '(_, digit_counts) :=
        for_loop blocks_per_batch
          (count_block keys_input size bit current_radix_bits)
          (block_offset, zeroed) in
      for_loop BlockSize
        (fun flat_id out =>
           if flat_id <? radix_size
           then let digit_count :=
                  for_loop warps_no
                    (fun w c => add32 c (digit_counts w flat_id)) 0 in
                upd out (add32 (mul32 batch_id radix_size) flat_id) digit_count
           else out)
        batch_digit_counts.
End FillDigitCounts.

  (** *** scan_batches, for the block [digit] of the grid *)
Definition scan_batches (batch_digit_counts digit_counts : Z -> Z)
      (batches : Z) (digit : Z) : (Z -> Z) * (Z -> Z) :=
    let batch_of flat_id i := add32 (mul32 flat_id ItemsPerThread) i in
    let values : regs Z := fun flat_id i =>
      let batch_id := batch_of flat_id i in
      if batch_id <? batches
      then batch_digit_counts (add32 (mul32 batch_id radix_size) digit)
      else 0 in
    let '(values, digit_count) := exclusive_scan BlockSize ItemsPerThread values 0 in
    (for_loop BlockSize
       (fun flat_id table =>
          for_loop ItemsPerThread
            (fun i table =>
               let batch_id := batch_of flat_id i in
               if batch_id <? batches
               then upd table (add32 (mul32 batch_id radix_size) digit) (values flat_id i)
               else table)
            table)
       batch_digit_counts,
     upd digit_counts digit digit_count).

  (** *** scan_digits, a single block of [radix_size] threads *)
Definition scan_digits (digit_counts : Z -> Z) : Z -> Z :=
    let value : regs Z := fun flat_id _ => digit_counts flat_id in
    let '(value, _) := exclusive_scan radix_size 1 value 0 in
    for_loop radix_size (fun flat_id out => upd out flat_id (value flat_id 0))
             digit_counts.

  (** *** sort_block *)

  (** The overload for a payload (lines 224-234). *)
Definition sort_block_values {Value : Type}
      (keys : regs Z) (values : regs Value) (begin_bit end_bit : Z)
    : regs Z * regs Value :=
    sort_pairs BlockSize ItemsPerThread keys values begin_bit end_bit.

  (** The overload for [empty_type] (lines 236-247). *)
Definition sort_block_empty
      (keys : regs Z) (values : regs empty_type) (begin_bit end_bit : Z)
    : regs Z * regs empty_type :=
    (sort_keys BlockSize ItemsPerThread keys begin_bit end_bit, values).

  (** What the compiler resolves from the payload type: the constant
      [with_values] (line 274) and the overload of [sort_block]. *)
Class payload (Value : Type) : Type := {
    with_values : bool;
    sort_block : regs Z -> regs Value -> Z -> Z -> regs Z * regs Value
  }.

#[export] Instance payload_empty : payload empty_type | 0 :=
    {| with_values := false; sort_block := sort_block_empty |}.

#[export] Instance payload_values (Value : Type) : payload Value | 10 :=
    {| with_values := true; sort_block := sort_block_values |}.

  (** *** sort_and_scatter *)
Section SortAndScatter.
Context {KeyIn KeyOut Value : Type}.
Context {key_in_codec : radix_key_codec KeyIn}.
Context {key_out_codec : radix_key_codec KeyOut}.
Context {value_payload : payload Value}.
    (** Register and shared-memory contents before their first write. *)
Variable values_uninit : Z -> regs Value.
Variable storage_uninit : scatter_storage.

(** Lines 337-339 and 349: the number of items of the block that lie
    inside the input. *)
Definition block_valid_count (size block_offset : Z) : Z :=
  if add32 block_offset items_per_block <=? size
  then items_per_block else sub32 size block_offset.

(** Lines 340 and 351-352: the keys of the block, in the blocked
    arrangement; the tail of a partial block is filled with the key that
    decodes the bit key of all ones. *)
Definition load_keys (keys_input : Z -> KeyIn) (size block_offset : Z) : regs KeyIn :=
  if add32 block_offset items_per_block <=? size
  then block_load ItemsPerThread (offset_ptr keys_input block_offset)
  else let valid_count := sub32 size block_offset in
       let out_of_bounds : KeyIn := decode (Z.ones key_bits) in
       block_load_valid_default ItemsPerThread
         (offset_ptr keys_input block_offset) valid_count out_of_bounds.

(** Lines 341-345 and 353-357: the values of the block, read only when
    there is a payload. *)
Definition load_values (values_input : Z -> Value) (size block_offset : Z)
    (values : regs Value) : regs Value :=
  if with_values
  then if add32 block_offset items_per_block <=? size
       then block_load ItemsPerThread (offset_ptr values_input block_offset)
       else let valid_count := sub32 size block_offset in
            block_load_valid ItemsPerThread
              (offset_ptr values_input block_offset) values valid_count
  else values.

(** Lines 365-369: the runs of all digits start out empty. *)
Definition reset_runs (valid_count : Z) (storage : scatter_storage) : scatter_storage :=
  for_loop BlockSize
    (fun flat_id s =>
       if flat_id <? radix_size
       then set_ends (set_starts s flat_id valid_count) flat_id valid_count
       else s)
    storage.

(** Lines 387-400: the first and the last position of the run of every
    digit of the sorted tile. *)
Definition find_runs (digits : regs Z) (head_flags tail_flags : regs bool)
    (storage : scatter_storage) : scatter_storage :=
  for_loop ItemsPerThread
    (fun i s =>
       for_loop BlockSize
         (fun flat_id s =>
            let digit := digits flat_id i in
            let pos := add32 (mul32 flat_id ItemsPerThread) i in
            let s := if head_flags flat_id i then set_starts s digit pos else s in
            if tail_flags flat_id i then set_ends s digit pos else s)
         s)
    storage.

(** Lines 412-425: the stores of the block, from the striped
    arrangement. *)
Definition scatter_stores (bit_keys : regs Z) (values : regs Value)
    (bit radix_mask valid_count : Z) (storage : scatter_storage)
  : list (store KeyOut Value) :=
  for_stores ItemsPerThread
    (fun i =>
       for_stores BlockSize
         (fun flat_id =>
            let digit := Z.land (Z.shiftr (bit_keys flat_id i) bit) radix_mask in
            let pos := add32 (mul32 i BlockSize) flat_id in
            if pos <? valid_count
            then let dst := add32 (sub32 pos (starts storage digit))
                                  (block_starts storage digit) in
                 store_key dst (decode (bit_keys flat_id i))
                 :: (if with_values
                     then [store_value dst (values flat_id i)] else [])
            else [])).

(** Lines 429-439: the running offsets move past the items of the block. *)
Definition advance_block_starts (valid_count : Z) (storage : scatter_storage)
  : scatter_storage :=
  for_loop BlockSize
    (fun flat_id s =>
       if flat_id <? radix_size
       then let digit := flat_id in
            let start := starts s digit in
            let end_ := ends s digit in
            if start <? valid_count
            then set_block_starts s digit
                   (add32 (block_starts s digit)
                          (add32 (sub32 (min (sub32 valid_count 1) end_) start) 1))
            else s
       else s)
    storage.

(** One iteration of the loop over the blocks of the batch
    (lines 332-442): the next offset, the shared storage and the stores
    performed. *)
Definition scatter_block (keys_input : Z -> KeyIn) (values_input : Z -> Value)
    (size bit current_radix_bits : Z)
    (bi : Z) (st : Z * scatter_storage)
  : Z * scatter_storage * list (store KeyOut Value) :=
  let '(block_offset, storage) := st in
  let radix_mask := sub32 (shl32 1 current_radix_bits) 1 in
  let valid_count := block_valid_count size block_offset in
  let keys := load_keys keys_input size block_offset in
  let values := load_values values_input size block_offset (values_uninit bi) in
  let bit_keys : regs Z := fun flat_id i => encode (keys flat_id i) in
  let storage := reset_runs valid_count storage in
  let '(bit_keys, values) :=
    sort_block bit_keys values bit (add32 bit current_radix_bits) in
  let digits : regs Z := fun flat_id i =>
    Z.land (Z.shiftr (bit_keys flat_id i) bit) radix_mask in
  let '(head_flags, tail_flags) :=
    flag_heads_and_tails BlockSize ItemsPerThread digits not_equal_to in
  let storage := find_runs digits head_flags tail_flags storage in
  let bit_keys := blocked_to_striped BlockSize ItemsPerThread bit_keys in
  let values :=
    if with_values
    then blocked_to_striped BlockSize ItemsPerThread values else values in
  let stores := scatter_stores bit_keys values bit radix_mask valid_count storage in
  let storage := advance_block_starts valid_count storage in
  (add32 block_offset items_per_block, storage, stores).

    (** The kernel, for the block [batch_id] of the grid: the stores it
        performs on [keys_output] and [values_output], and the shared
        running offsets it ends with. *)
Definition sort_and_scatter_run (keys_input : Z -> KeyIn) (values_input : Z -> Value)
        (size : Z) (batch_digit_starts digit_starts : Z -> Z)
        (bit current_radix_bits blocks_per_full_batch full_batches : Z)
        (batch_id : Z) : Z * scatter_storage * list (store KeyOut Value) :=
      let storage :=
        for_loop BlockSize
          (fun flat_id s =>
             if flat_id <? radix_size
             then set_block_starts s flat_id
                    (add32 (digit_starts flat_id)
                           (batch_digit_starts (add32 (mul32 batch_id radix_size) flat_id)))
             else s)
          storage_uninit in
      let '(block_offset, blocks_per_batch) :=
        batch_blocks blocks_per_full_batch full_batches batch_id in
      for_loop blocks_per_batch
        (fun bi acc =>
           let '(block_offset, storage, log) := acc in
           let '(block_offset, storage, stores) :=
             scatter_block keys_input values_input size bit current_radix_bits
                           bi (block_offset, storage) in
           (block_offset, storage, log ++ stores))
        (block_offset, storage, []).

Definition sort_and_scatter (keys_input : Z -> KeyIn) (values_input : Z -> Value)
        (size : Z) (batch_digit_starts digit_starts : Z -> Z)
        (bit current_radix_bits blocks_per_full_batch full_batches : Z)
        (batch_id : Z) : list (store KeyOut Value) :=
      snd (sort_and_scatter_run keys_input values_input size batch_digit_starts
             digit_starts bit current_radix_bits blocks_per_full_batch
             full_batches batch_id).
End SortAndScatter.

End Kernels.

(** ** Notions the properties are stated with *)

(** Sums and counts over the indices [0 .. n-1]. *)
Fixpoint sum_n (f : Z -> Z) (n : nat) : Z :=
  match n with
  | O => 0
  | S k => sum_n f k + f (Z.of_nat k)
  end.

Definition zsum (f : Z -> Z) (n : Z) : Z := sum_n f (Z.to_nat n).

Definition zcount (P : Z -> bool) (n : Z) : Z := zsum (fun i => Z.b2z (P i)) n.

(** The number of indices of [[lo, hi)] that satisfy [P]. *)
Definition count_between (P : Z -> bool) (lo hi : Z) : Z :=
  zcount (fun i => P (lo + i)) (hi - lo).

(** The digit of a bit key in the window of [current_radix_bits] bits at
    [bit]. *)
Definition digit_of (bit current_radix_bits : Z) (bit_key : Z) : Z :=
  Z.land (Z.shiftr bit_key bit) (Z.ones current_radix_bits).

(** The items of a batch: from the offset of its first block up to the end
    of its last block, cut at [size]. *)
Definition batch_slice (BlockSize ItemsPerThread : Z)
    (size blocks_per_full_batch full_batches batch_id : Z) : Z * Z :=
  let '(block_offset, blocks_per_batch) :=
    batch_blocks BlockSize ItemsPerThread blocks_per_full_batch full_batches batch_id in
  (Z.min size block_offset,
   Z.min size (block_offset + blocks_per_batch * items_per_block BlockSize ItemsPerThread)).

(** The intermediate states of one iteration of [scatter_block]: the tile
    after the block sort of line 359, the digits of its keys (line 392), and
    the shared storage once the runs of the digits are found (line 400). *)
Definition sorted_tile (BlockSize ItemsPerThread key_bits : Z)
    {KeyIn Value : Type} {key_in_codec : radix_key_codec KeyIn}
    {value_payload : payload Value}
    (values_uninit : Z -> regs Value) (keys_input : Z -> KeyIn)
    (values_input : Z -> Value) (size bit current_radix_bits bi block_offset : Z)
  : regs Z * regs Value :=
  sort_block
    (fun flat_id i =>
       encode (load_keys BlockSize ItemsPerThread key_bits keys_input size
                 block_offset flat_id i))
    (load_values BlockSize ItemsPerThread values_input size block_offset
       (values_uninit bi))
    bit (add32 bit current_radix_bits).

Definition tile_digits (sorted_keys : regs Z) (bit current_radix_bits : Z) : regs Z :=
  fun flat_id i =>
    Z.land (Z.shiftr (sorted_keys flat_id i) bit)
           (sub32 (shl32 1 current_radix_bits) 1).

Definition block_runs (BlockSize ItemsPerThread RadixBits : Z)
    (sorted_keys : regs Z) (bit current_radix_bits valid_count : Z)
    (storage : scatter_storage) : scatter_storage :=
  let digits := tile_digits sorted_keys bit current_radix_bits in
  let flags := flag_heads_and_tails BlockSize ItemsPerThread digits not_equal_to in
  find_runs BlockSize ItemsPerThread digits (fst flags) (snd flags)
    (reset_runs BlockSize RadixBits valid_count storage).

(** ** Loops, ranges and sums *)

Lemma zrange_succ n : 0 <= n -> zrange (n + 1) = zrange n ++ [n].
Proof.
  intros Hn. unfold zrange.
  replace (Z.to_nat (n + 1)) with (S (Z.to_nat n)) by lia.
  rewrite seq_S, map_app. simpl. now rewrite Z2Nat.id.
Qed.

Lemma zrange_nonpos n : n <= 0 -> zrange n = [].
Proof.
  intros Hn. unfold zrange. now replace (Z.to_nat n) with O by lia.
Qed.

Lemma in_zrange i n : In i (zrange n) <-> 0 <= i < n.
Proof.
  unfold zrange. rewrite in_map_iff. split.
  - intros (k & <- & Hk). apply in_seq in Hk. lia.
  - intros Hi. exists (Z.to_nat i). split; [lia|]. apply in_seq. lia.
Qed.

Lemma length_zrange n : length (zrange n) = Z.to_nat n.
Proof. unfold zrange. now rewrite length_map, length_seq. Qed.

Lemma nth_zrange i n d : 0 <= i < n -> nth (Z.to_nat i) (zrange n) d = i.
Proof.
  intros Hi. unfold zrange.
  rewrite (nth_indep _ d (Z.of_nat 0)) by (rewrite length_map, length_seq; lia).
  rewrite map_nth, seq_nth by lia. lia.
Qed.

Lemma for_loop_succ {S : Type} n (body : Z -> S -> S) s :
  0 <= n -> for_loop (n + 1) body s = body n (for_loop n body s).
Proof.
  intros Hn. unfold for_loop. now rewrite zrange_succ, fold_left_app.
Qed.

Lemma for_loop_nonpos {S : Type} n (body : Z -> S -> S) s :
  n <= 0 -> for_loop n body s = s.
Proof. intros Hn. unfold for_loop. now rewrite zrange_nonpos. Qed.

(** The loop rule: an invariant indexed by the iteration count. *)
Lemma for_loop_inv {St : Type} (I : Z -> St -> Prop) n (body : Z -> St -> St) s :
  0 <= n -> I 0 s ->
  (forall i acc, 0 <= i < n -> I i acc -> I (i + 1) (body i acc)) ->
  I n (for_loop n body s).
Proof.
  intros Hn H0 Hstep.
  assert (Hk : forall k, (k <= Z.to_nat n)%nat ->
                         I (Z.of_nat k) (for_loop (Z.of_nat k) body s)).
  { induction k as [|k IH]; intros Hk.
    - rewrite for_loop_nonpos by (simpl; lia). exact H0.
    - replace (Z.of_nat (S k)) with (Z.of_nat k + 1) by lia.
      rewrite for_loop_succ by lia. apply Hstep; [lia|]. apply IH. lia. }
  specialize (Hk (Z.to_nat n) (Nat.le_refl _)).
  now rewrite Z2Nat.id in Hk.
Qed.

Lemma for_stores_succ {E : Type} n (body : Z -> list E) :
  0 <= n -> for_stores (n + 1) body = for_stores n body ++ body n.
Proof.
  intros Hn. unfold for_stores.
  rewrite zrange_succ, flat_map_app by assumption. simpl. now rewrite app_nil_r.
Qed.

Lemma for_stores_nonpos {E : Type} n (body : Z -> list E) :
  n <= 0 -> for_stores n body = [].
Proof. intros Hn. unfold for_stores. now rewrite zrange_nonpos. Qed.

Lemma zsum_succ f n : 0 <= n -> zsum f (n + 1) = zsum f n + f n.
Proof.
  intros Hn. unfold zsum.
  replace (Z.to_nat (n + 1)) with (S (Z.to_nat n)) by lia.
  simpl. now rewrite Z2Nat.id.
Qed.

Lemma zsum_nonpos f n : n <= 0 -> zsum f n = 0.
Proof. intros Hn. unfold zsum. now replace (Z.to_nat n) with O by lia. Qed.

(** Induction on a non-negative bound. *)
Lemma zrange_ind (P : Z -> Prop) :
  P 0 -> (forall n, 0 <= n -> P n -> P (n + 1)) -> forall n, 0 <= n -> P n.
Proof. intros H0 Hs n Hn. now apply natlike_ind; [| unfold Z.succ in *; auto |]. Qed.

Lemma zsum_ext f g n :
  (forall i, 0 <= i < n -> f i = g i) -> zsum f n = zsum g n.
Proof.
  destruct (Z.le_gt_cases 0 n) as [Hn|Hn]; [|now rewrite !zsum_nonpos by lia].
  revert n Hn. apply (zrange_ind (fun n => _ -> _)).
  - now rewrite !zsum_nonpos by lia.
  - intros n Hn IH Hfg. rewrite !zsum_succ by lia.
    rewrite IH, Hfg by (try intros; try apply Hfg; lia). reflexivity.
Qed.

Lemma zsum_nonneg f n : (forall i, 0 <= i < n -> 0 <= f i) -> 0 <= zsum f n.
Proof.
  destruct (Z.le_gt_cases 0 n) as [Hn|Hn]; [|rewrite zsum_nonpos by lia; lia].
  revert n Hn. apply (zrange_ind (fun n => _ -> _)).
  - rewrite zsum_nonpos; lia.
  - intros n Hn IH Hf. rewrite zsum_succ by lia.
    specialize (Hf n ltac:(lia)) as Hfn.
    assert (0 <= zsum f n) by (apply IH; intros; apply Hf; lia). lia.
Qed.

Lemma zsum_split f n m :
  0 <= n -> 0 <= m -> zsum f (n + m) = zsum f n + zsum (fun i => f (n + i)) m.
Proof.
  intros Hn Hm. revert m Hm. apply zrange_ind.
  - rewrite Z.add_0_r, (zsum_nonpos _ 0); lia.
  - intros m Hm IH. rewrite Z.add_assoc, !zsum_succ by lia. rewrite IH. lia.
Qed.

Lemma zsum_add f g n : zsum (fun i => f i + g i) n = zsum f n + zsum g n.
Proof.
  destruct (Z.le_gt_cases 0 n) as [Hn|Hn]; [|now rewrite !zsum_nonpos by lia].
  revert n Hn. apply zrange_ind.
  - now rewrite !zsum_nonpos by lia.
  - intros n Hn IH. rewrite !zsum_succ by lia. lia.
Qed.

Lemma zsum_zero f n : (forall i, 0 <= i < n -> f i = 0) -> zsum f n = 0.
Proof.
  destruct (Z.le_gt_cases 0 n) as [Hn|Hn]; [|intros; now rewrite zsum_nonpos by lia].
  revert n Hn. apply (zrange_ind (fun n => _ -> _)).
  - intros. now rewrite zsum_nonpos.
  - intros n Hn IH Hf. rewrite zsum_succ by lia.
    rewrite IH, Hf by (try intros; try apply Hf; lia). lia.
Qed.

Lemma zsum_le f g n :
  (forall i, 0 <= i < n -> f i <= g i) -> zsum f n <= zsum g n.
Proof.
  destruct (Z.le_gt_cases 0 n) as [Hn|Hn]; [|rewrite !zsum_nonpos by lia; lia].
  revert n Hn. apply (zrange_ind (fun n => _ -> _)).
  - rewrite !zsum_nonpos; lia.
  - intros n Hn IH Hf. rewrite !zsum_succ by lia.
    specialize (Hf n ltac:(lia)) as Hfn.
    assert (zsum f n <= zsum g n) by (apply IH; intros; apply Hf; lia). lia.
Qed.

(** Exchanging two finite sums. *)
Lemma zsum_swap (f : Z -> Z -> Z) n m :
  zsum (fun i => zsum (fun j => f i j) m) n = zsum (fun j => zsum (fun i => f i j) n) m.
Proof.
  destruct (Z.le_gt_cases 0 n) as [Hn|Hn].
  2:{ rewrite (zsum_nonpos _ n) by lia. symmetry. apply zsum_zero.
      intros. apply zsum_nonpos. lia. }
  revert n Hn. apply zrange_ind.
  - rewrite (zsum_nonpos _ 0) by lia. symmetry. apply zsum_zero.
    intros. apply zsum_nonpos. lia.
  - intros n Hn IH. rewrite zsum_succ, IH by lia. rewrite <- zsum_add.
    apply zsum_ext. intros. now rewrite zsum_succ by lia.
Qed.

Lemma zcount_succ P n : 0 <= n -> zcount P (n + 1) = zcount P n + Z.b2z (P n).
Proof. intros. unfold zcount. now rewrite zsum_succ. Qed.

Lemma zcount_bounds P n : 0 <= n -> 0 <= zcount P n <= n.
Proof.
  revert n. apply zrange_ind.
  - unfold zcount. rewrite zsum_nonpos; lia.
  - intros n Hn IH. rewrite zcount_succ by lia. destruct (P n); simpl; lia.
Qed.

Lemma zcount_ext P Q n :
  (forall i, 0 <= i < n -> P i = Q i) -> zcount P n = zcount Q n.
Proof. intros H. apply zsum_ext. intros. now rewrite H. Qed.

Lemma wrap32_small x : 0 <= x < 2 ^ 32 -> wrap32 x = x.
Proof. apply Z.mod_small. Qed.

Lemma wrap16_small x : 0 <= x < 2 ^ 16 -> wrap16 x = x.
Proof. apply Z.mod_small. Qed.

Lemma wrap32_range x : 0 <= wrap32 x < 2 ^ 32.
Proof. apply Z.mod_pos_bound. lia. Qed.

(** Discharging the wrap-around of an operation whose result is
    representable. *)
Ltac unwrap_by tac :=
  unfold add32, sub32, mul32, shl32 in *;
  repeat match goal with
         | |- context [wrap32 ?x] =>
             lazymatch x with
             | context [wrap32 _] => fail
             | _ => rewrite (wrap32_small x) by tac
             end
         end.

Ltac unwrap := unwrap_by ltac:(first [lia | nia]).

Lemma zsum_mono f n a b :
  (forall i, 0 <= i < n -> 0 <= f i) -> 0 <= a <= b -> b <= n ->
  zsum f a <= zsum f b.
Proof.
  intros Hf Hab Hbn.
  replace b with (a + (b - a)) by lia. rewrite zsum_split by lia.
  assert (0 <= zsum (fun i => f (a + i)) (b - a)); [|lia].
  apply zsum_nonneg. intros. apply Hf. lia.
Qed.

(** Every index below a sum of non-negative sizes falls into one segment. *)
Lemma zsum_locate f n k :
  (forall i, 0 <= i < n -> 0 <= f i) -> 0 <= n -> 0 <= k < zsum f n ->
  exists b, 0 <= b < n /\ zsum f b <= k < zsum f b + f b.
Proof.
  intros Hf Hn. revert n Hn Hf. apply (zrange_ind (fun n => _ -> _ -> _)).
  - rewrite zsum_nonpos by lia. lia.
  - intros n Hn IH Hf Hk. rewrite zsum_succ in Hk by lia.
    destruct (Z_lt_le_dec k (zsum f n)) as [Hlt|Hge].
    + destruct IH as (b & Hb & Hkb); [intros; apply Hf; lia | lia |].
      exists b. split; [lia | assumption].
    + exists n. split; lia.
Qed.

Lemma zsum_segment_unique f n k b b' :
  (forall i, 0 <= i < n -> 0 <= f i) ->
  0 <= b < n -> 0 <= b' < n ->
  zsum f b <= k < zsum f b + f b ->
  zsum f b' <= k < zsum f b' + f b' ->
  b' = b.
Proof.
  intros Hf Hb Hb' Hk Hk'.
  destruct (Z.lt_trichotomy b b') as [Hlt|[Heq|Hgt]]; [exfalso| now symmetry |exfalso].
  - pose proof (zsum_mono f n (b + 1) b' Hf ltac:(lia) ltac:(lia)) as Hm.
    rewrite zsum_succ in Hm by lia. lia.
  - pose proof (zsum_mono f n (b' + 1) b Hf ltac:(lia) ltac:(lia)) as Hm.
    rewrite zsum_succ in Hm by lia. lia.
Qed.

(** ** The batching scheme *)

Section Batching.
Variables T B blocks_per_full_batch full_batches : Z.
Hypothesis full_le : 0 <= full_batches <= B.
Hypothesis B_range : B < 2 ^ 32.
Hypothesis per_batch_range : 0 <= blocks_per_full_batch < 2 ^ 32.
Hypothesis T_range : 0 <= T < 2 ^ 32.
Hypothesis batching :
    full_batches * blocks_per_full_batch
    + (B - full_batches) * (blocks_per_full_batch - 1) = T.

Let first b := fst (batch_block_range blocks_per_full_batch full_batches b).
Let blocks b := snd (batch_block_range blocks_per_full_batch full_batches b).

Lemma batch_block_range_closed b :
    0 <= b < B ->
    batch_block_range blocks_per_full_batch full_batches b =
    if b <? full_batches
    then (b * blocks_per_full_batch, blocks_per_full_batch)
    else (full_batches * blocks_per_full_batch
          + (b - full_batches) * (blocks_per_full_batch - 1),
          blocks_per_full_batch - 1).
  Proof.
    intros Hb. unfold batch_block_range.
    destruct (b <? full_batches) eqn:E.
    - apply Z.ltb_lt in E. unwrap. reflexivity.
    - apply Z.ltb_ge in E.
      assert (1 <= blocks_per_full_batch) by nia.
      pose proof (Z.mul_nonneg_nonneg (B - 1 - b) (blocks_per_full_batch - 1)).
      pose proof (Z.mul_nonneg_nonneg b (blocks_per_full_batch - 1)).
      assert (b * (blocks_per_full_batch - 1) + full_batches <= T) by lia.
      unwrap. f_equal. lia.
  Qed.

Lemma blocks_nonneg b : 0 <= b < B -> 0 <= blocks b.
  Proof.
    intros Hb. unfold blocks. rewrite batch_block_range_closed by assumption.
    destruct (b <? full_batches) eqn:E; simpl; [lia|].
    apply Z.ltb_ge in E. nia.
  Qed.

Lemma first_is_sum b : 0 <= b <= B -> 
    zsum blocks b =
    if b <? full_batches
    then b * blocks_per_full_batch
    else full_batches * blocks_per_full_batch
         + (b - full_batches) * (blocks_per_full_batch - 1).
  Proof.
    intros [Hb0 HbB]. revert b Hb0 HbB. apply (zrange_ind (fun b => _ -> _)).
    - intros _. rewrite zsum_nonpos by lia.
      destruct (0 <? full_batches) eqn:E; [lia|]. apply Z.ltb_ge in E.
      assert (Hz : full_batches = 0) by lia. rewrite Hz. lia.
    - intros b Hb IH HbB. rewrite zsum_succ, IH by lia.
      unfold blocks. rewrite batch_block_range_closed by lia.
      destruct (b <? full_batches) eqn:E1; destruct (b + 1 <? full_batches) eqn:E2;
        simpl; try apply Z.ltb_lt in E1; try apply Z.ltb_ge in E1;
        try apply Z.ltb_lt in E2; try apply Z.ltb_ge in E2; try lia.
  Qed.

Lemma first_block_sum b : 0 <= b < B -> first b = zsum blocks b.
  Proof.
    intros Hb. rewrite first_is_sum by lia.
    unfold first. rewrite batch_block_range_closed by lia.
    now destruct (b <? full_batches).
  Qed.

Lemma blocks_total : zsum blocks B = T.
  Proof.
    rewrite first_is_sum by lia.
    destruct (B <? full_batches) eqn:E; [apply Z.ltb_lt in E; lia|].
    exact batching.
  Qed.

Lemma block_owner k :
    0 <= k < T ->
    exists b, 0 <= b < B /\ first b <= k < first b + blocks b /\
      forall b', 0 <= b' < B -> first b' <= k < first b' + blocks b' -> b' = b.
  Proof.
    intros Hk. rewrite <- blocks_total in Hk.
    destruct (zsum_locate blocks B k) as (b & Hb & Hkb);
      [apply blocks_nonneg | lia | assumption |].
    exists b. split; [assumption|]. rewrite first_block_sum by assumption.
    split; [assumption|]. intros b' Hb' Hk'. rewrite first_block_sum in Hk' by assumption.
    eapply zsum_segment_unique; eauto using blocks_nonneg.
  Qed.

Lemma batch_blocks_items BlockSize ItemsPerThread b :
    0 <= b < B -> 0 <= BlockSize * ItemsPerThread ->
    T * (BlockSize * ItemsPerThread) < 2 ^ 32 ->
    batch_blocks BlockSize ItemsPerThread blocks_per_full_batch full_batches b =
    (first b * (BlockSize * ItemsPerThread), blocks b).
  Proof.
    intros Hb Hipb HT. unfold batch_blocks, first, blocks, items_per_block.
    pose proof (blocks_nonneg b Hb) as Hnn.
    pose proof (first_block_sum b Hb) as Hf.
    pose proof (zsum_mono blocks B b B blocks_nonneg ltac:(lia) ltac:(lia)) as Hm.
    rewrite blocks_total, <- Hf in Hm. unfold first in Hm.
    pose proof (zsum_nonneg blocks b) as Hs.
    rewrite <- Hf in Hs. unfold first in Hs.
    destruct (batch_block_range _ _ b) as [bo bn]. simpl in *.
    assert (0 <= bo) by (apply Hs; intros; apply blocks_nonneg; lia).
    unwrap. reflexivity.
  Qed.
End Batching.

(** ** Loops of stores to an array *)

Lemma div_mul_add n m k : 0 <= k < m -> (n * m + k) / m = n.
Proof. intros H. rewrite Z.div_add_l by lia. rewrite Z.div_small; lia. Qed.

Lemma mod_mul_add n m k : 0 <= k < m -> (n * m + k) mod m = k.
Proof. intros H. rewrite Z.add_comm, Z.mod_add by lia. apply Z.mod_small. lia. Qed.

(** A nested loop runs its body in the order of the flattened index. *)
Lemma for_loop_nested {St : Type} n m (body : Z -> Z -> St -> St) s :
  0 <= n -> 0 < m ->
  for_loop n (fun i acc => for_loop m (fun j acc => body i j acc) acc) s =
  for_loop (n * m) (fun p acc => body (p / m) (p mod m) acc) s.
Proof.
  intros Hn Hm. revert n Hn. apply zrange_ind.
  - now rewrite !for_loop_nonpos by lia.
  - intros n Hn IH. rewrite for_loop_succ, IH by lia.
    assert (Hk : forall k, 0 <= k -> k <= m ->
      for_loop (n * m + k) (fun p acc => body (p / m) (p mod m) acc) s =
      for_loop k (fun j acc => body n j acc)
        (for_loop (n * m) (fun p acc => body (p / m) (p mod m) acc) s)).
    { apply (zrange_ind (fun k => _ -> _)).
      - intros _. now rewrite Z.add_0_r, (for_loop_nonpos 0) by lia.
      - intros k Hk IHk Hkm. rewrite Z.add_assoc, !for_loop_succ by nia.
        rewrite IHk by lia. f_equal.
        + apply div_mul_add. lia.
        + apply mod_mul_add. lia. }
    rewrite <- Hk by lia. f_equal. lia.
Qed.

Lemma for_stores_nested {E : Type} n m (body : Z -> Z -> list E) :
  0 <= n -> 0 < m ->
  for_stores n (fun i => for_stores m (fun j => body i j)) =
  for_stores (n * m) (fun p => body (p / m) (p mod m)).
Proof.
  intros Hn Hm. revert n Hn. apply zrange_ind.
  - now rewrite (for_stores_nonpos 0), (for_stores_nonpos (0 * m)) by lia.
  - intros n Hn IH. rewrite for_stores_succ, IH by lia.
    assert (Hk : forall k, 0 <= k -> k <= m ->
      for_stores (n * m + k) (fun p => body (p / m) (p mod m)) =
      for_stores (n * m) (fun p => body (p / m) (p mod m))
      ++ for_stores k (fun j => body n j)).
    { apply (zrange_ind (fun k => _ -> _)).
      - intros _. rewrite (for_stores_nonpos 0) by lia.
        now rewrite Z.add_0_r, app_nil_r.
      - intros k Hk IHk Hkm. rewrite Z.add_assoc, !for_stores_succ by nia.
        rewrite IHk by lia. rewrite <- app_assoc. do 3 f_equal.
        + apply div_mul_add. lia.
        + apply mod_mul_add. lia. }
    rewrite <- Hk by lia. f_equal. lia.
Qed.

Lemma for_loop_ext {St : Type} n (f g : Z -> St -> St) s :
  (forall i acc, 0 <= i < n -> f i acc = g i acc) ->
  for_loop n f s = for_loop n g s.
Proof.
  intros H. destruct (Z.le_gt_cases 0 n) as [Hn|Hn];
    [|now rewrite !for_loop_nonpos by lia].
  revert n Hn H. apply (zrange_ind (fun n => _ -> _)).
  - intros. now rewrite !for_loop_nonpos by lia.
  - intros n Hn IH H. rewrite !for_loop_succ by lia.
    rewrite IH by (intros; apply H; lia). apply H. lia.
Qed.

Section Writes.
Context {A : Type}.
Variables (cond : Z -> bool) (addr : Z -> Z) (val : Z -> A).

Definition writes (n : Z) (a0 : Z -> A) : Z -> A :=
    for_loop n (fun q a => if cond q then upd a (addr q) (val q) else a) a0.

  (** An address none of the writes hits keeps its content. *)
Lemma writes_miss n a0 a :
    (forall q, 0 <= q < n -> cond q = true -> addr q <> a) ->
    writes n a0 a = a0 a.
  Proof.
    unfold writes. destruct (Z.le_gt_cases 0 n) as [Hn|Hn];
      [|now rewrite for_loop_nonpos by lia].
    revert n Hn. apply (zrange_ind (fun n => _ -> _)).
    - now rewrite for_loop_nonpos by lia.
    - intros n Hn IH H. rewrite for_loop_succ by lia.
      destruct (cond n) eqn:E.
      + unfold upd. destruct (a =? addr n) eqn:Ea.
        * apply Z.eqb_eq in Ea. exfalso. apply (H n); [lia | assumption | congruence].
        * apply IH. intros. apply H; [lia | assumption].
      + apply IH. intros. apply H; [lia | assumption].
  Qed.

  (** An address all of whose writes carry the same value ends with it. *)
Lemma writes_hit n a0 a v q0 :
    0 <= q0 < n -> cond q0 = true -> addr q0 = a ->
    (forall q, 0 <= q < n -> cond q = true -> addr q = a -> val q = v) ->
    writes n a0 a = v.
  Proof.
    unfold writes. intros Hq0. assert (Hn : 0 <= n) by lia.
    revert n Hn Hq0. apply (zrange_ind (fun n => _ -> _ -> _ -> _ -> _)); [lia|].
    intros n Hn IH Hq0 Hc Ha Hv. rewrite for_loop_succ by lia.
    destruct (cond n) eqn:E.
    - unfold upd. destruct (a =? addr n) eqn:Ea.
      + apply Z.eqb_eq in Ea. apply Hv; [lia | assumption | congruence].
      + apply Z.eqb_neq in Ea.
        apply IH; [|assumption|assumption|intros; apply Hv; try lia; assumption].
        assert (q0 <> n) by congruence. lia.
    - apply IH; [|assumption|assumption|intros; apply Hv; try lia; assumption].
      assert (q0 <> n) by congruence. lia.
  Qed.
End Writes.

(** ** The block scan *)

Definition lsum (l : list Z) : Z := fold_right Z.add 0 l.

Lemma lsum_app l1 l2 : lsum (l1 ++ l2) = lsum l1 + lsum l2.
Proof. induction l1 as [|x l1 IH]; simpl; lia. Qed.

Lemma lsum_map_zrange f n : lsum (map f (zrange n)) = zsum f n.
Proof.
  destruct (Z.le_gt_cases 0 n) as [Hn|Hn];
    [|now rewrite zrange_nonpos, zsum_nonpos by lia].
  revert n Hn. apply zrange_ind.
  - now rewrite zrange_nonpos, zsum_nonpos by lia.
  - intros n Hn IH. rewrite zrange_succ, map_app, lsum_app, IH, zsum_succ by lia.
    simpl. lia.
Qed.

Lemma zrange_app k n :
  0 <= k <= n -> zrange n = zrange k ++ map (Z.add k) (zrange (n - k)).
Proof.
  intros Hk. replace n with (k + (n - k)) at 1 by lia.
  assert (Hj : 0 <= n - k) by lia. revert Hj. generalize (n - k) as j.
  apply zrange_ind.
  - rewrite Z.add_0_r, (zrange_nonpos 0) by lia. simpl. now rewrite app_nil_r.
  - intros j Hj IH. rewrite Z.add_assoc, !zrange_succ, IH by lia.
    now rewrite map_app, app_assoc.
Qed.

Lemma firstn_zrange k n : 0 <= k <= n -> firstn (Z.to_nat k) (zrange n) = zrange k.
Proof.
  intros Hk. rewrite (zrange_app k n Hk).
  rewrite <- (length_zrange k) at 1.
  rewrite firstn_app, Nat.sub_diag, firstn_all. simpl. apply app_nil_r.
Qed.

Lemma nth_map_zrange {A : Type} (f : Z -> A) n p d :
  0 <= p < n -> nth (Z.to_nat p) (map f (zrange n)) d = f p.
Proof.
  intros Hp. rewrite (nth_indep _ d (f 0)) by (rewrite length_map, length_zrange; lia).
  rewrite map_nth. now rewrite nth_zrange.
Qed.

Lemma exclusive_sums_length l : forall acc, length (exclusive_sums acc l) = length l.
Proof. induction l as [|x l IH]; intros acc; simpl; [reflexivity|]. now rewrite IH. Qed.

Lemma exclusive_sums_nth l : forall acc k d,
  (k < length l)%nat ->
  nth k (exclusive_sums acc l) d = fold_left add32 (firstn k l) acc.
Proof.
  induction l as [|x l IH]; intros acc k d Hk; simpl in Hk; [lia|].
  destruct k as [|k]; simpl; [reflexivity|]. apply IH. lia.
Qed.

Lemma lsum_nonneg l : (forall x, In x l -> 0 <= x) -> 0 <= lsum l.
Proof.
  induction l as [|y l IH]; intros Hl; simpl; [lia|].
  assert (0 <= y) by (apply Hl; now left).
  assert (0 <= lsum l) by (apply IH; intros; apply Hl; now right).
  lia.
Qed.

Lemma fold_add32_exact l : forall acc,
  (forall x, In x l -> 0 <= x) -> 0 <= acc -> acc + lsum l < 2 ^ 32 ->
  fold_left add32 l acc = acc + lsum l.
Proof.
  induction l as [|x l IH]; intros acc Hl Hacc Hsum; simpl in *; [lia|].
  assert (0 <= x) by (apply Hl; now left).
  assert (0 <= lsum l) by (apply lsum_nonneg; intros; apply Hl; now right).
  unfold add32 at 2. rewrite wrap32_small by lia.
  rewrite IH; [lia | intros; apply Hl; now right | lia | lia].
Qed.

Section BlockScan.
Variables BlockSize ItemsPerThread : Z.
Hypothesis BlockSize_pos : 0 < BlockSize.
Hypothesis ItemsPerThread_pos : 0 < ItemsPerThread.
Variable input : regs Z.

Let at_pos p := input (p / ItemsPerThread) (p mod ItemsPerThread).

Hypothesis input_nonneg :
    forall p, 0 <= p < BlockSize * ItemsPerThread -> 0 <= at_pos p.
Hypothesis total_small : zsum at_pos (BlockSize * ItemsPerThread) < 2 ^ 32.

Lemma exclusive_scan_total :
    snd (exclusive_scan BlockSize ItemsPerThread input 0) =
    zsum at_pos (BlockSize * ItemsPerThread).
  Proof.
    unfold exclusive_scan, blocked_tile. simpl.
    rewrite fold_add32_exact.
    - rewrite lsum_map_zrange. apply Z.add_0_l.
    - intros x Hx. apply in_map_iff in Hx as (p & <- & Hp).
      apply in_zrange in Hp. now apply input_nonneg.
    - lia.
    - rewrite lsum_map_zrange. exact total_small.
  Qed.

Lemma exclusive_scan_values flat_id i :
    0 <= flat_id < BlockSize -> 0 <= i < ItemsPerThread ->
    fst (exclusive_scan BlockSize ItemsPerThread input 0) flat_id i =
    zsum at_pos (flat_id * ItemsPerThread + i).
  Proof.
    intros Ht Hi. unfold exclusive_scan, blocked_tile, blocked_regs. simpl.
    set (p := flat_id * ItemsPerThread + i).
    assert (Hp : 0 <= p < BlockSize * ItemsPerThread) by (unfold p; nia).
    rewrite exclusive_sums_nth by (rewrite length_map, length_zrange; lia).
    rewrite firstn_map, firstn_zrange by lia.
    pose proof (zsum_mono at_pos (BlockSize * ItemsPerThread) p
                  (BlockSize * ItemsPerThread) input_nonneg ltac:(lia) ltac:(lia)).
    rewrite fold_add32_exact.
    - rewrite lsum_map_zrange. apply Z.add_0_l.
    - intros x Hx. apply in_map_iff in Hx as (q & <- & Hq).
      apply in_zrange in Hq. apply input_nonneg. lia.
    - lia.
    - rewrite lsum_map_zrange. change (0 + zsum at_pos p < 2 ^ 32). lia.
  Qed.
End BlockScan.

(** ** scan_batches and scan_digits *)

Lemma radix_size_pow RadixBits : 0 <= RadixBits -> radix_size RadixBits = 2 ^ RadixBits.
Proof. intros H. unfold radix_size. now rewrite Z.shiftl_1_l. Qed.

Lemma radix_size_pos RadixBits : 0 <= RadixBits -> 0 < radix_size RadixBits.
Proof. intros H. rewrite radix_size_pow by assumption. now apply Z.pow_pos_nonneg. Qed.

Section ScanBatches.
Variables BlockSize ItemsPerThread RadixBits : Z.
Hypothesis BlockSize_pos : 0 < BlockSize.
Hypothesis ItemsPerThread_pos : 0 < ItemsPerThread.
Hypothesis RadixBits_nonneg : 0 <= RadixBits.
Hypothesis tile_range : BlockSize * ItemsPerThread < 2 ^ 32.

Variables (batch_digit_counts digit_counts : Z -> Z) (batches digit : Z).
Let rs := radix_size RadixBits.
Let column b := batch_digit_counts (b * rs + digit).

Hypothesis batches_fit : 0 <= batches <= BlockSize * ItemsPerThread.
Hypothesis digit_range : 0 <= digit < rs.
Hypothesis table_range : batches * rs <= 2 ^ 32.
Hypothesis column_nonneg : forall b, 0 <= b < batches -> 0 <= column b.
Hypothesis column_small : zsum column batches < 2 ^ 32.

Let values : regs Z := fun flat_id i =>
    let batch_id := add32 (mul32 flat_id ItemsPerThread) i in
    if batch_id <? batches
    then batch_digit_counts (add32 (mul32 batch_id rs) digit) else 0.
Let at_pos p := values (p / ItemsPerThread) (p mod ItemsPerThread).
Let padded b := if b <? batches then column b else 0.

Lemma batch_of_pos p :
    0 <= p < BlockSize * ItemsPerThread ->
    add32 (mul32 (p / ItemsPerThread) ItemsPerThread) (p mod ItemsPerThread) = p.
  Proof.
    intros Hp.
    pose proof (Z.div_mod p ItemsPerThread ltac:(lia)).
    pose proof (Z.mod_pos_bound p ItemsPerThread ltac:(lia)).
    assert (0 <= p / ItemsPerThread) by (apply Z.div_pos; lia).
    unwrap. lia.
  Qed.

Lemma entry_address b :
    0 <= b < batches -> add32 (mul32 b rs) digit = b * rs + digit.
  Proof. intros Hb. unwrap. reflexivity. Qed.

Lemma at_pos_padded p :
    0 <= p < BlockSize * ItemsPerThread -> at_pos p = padded p.
  Proof.
    intros Hp. unfold at_pos, values, padded. rewrite batch_of_pos by assumption.
    destruct (p <? batches) eqn:E; [|reflexivity].
    apply Z.ltb_lt in E. now rewrite entry_address by lia.
  Qed.

Lemma zsum_padded n :
    0 <= n -> zsum padded n = zsum column (Z.min n batches).
  Proof.
    revert n. apply zrange_ind.
    - now rewrite Z.min_l, !zsum_nonpos by lia.
    - intros n Hn IH. rewrite zsum_succ, IH by lia. unfold padded.
      destruct (n <? batches) eqn:E.
      + apply Z.ltb_lt in E. rewrite !Z.min_l by lia. now rewrite zsum_succ.
      + apply Z.ltb_ge in E. rewrite !Z.min_r by lia. lia.
  Qed.

Lemma scan_batches_inputs_nonneg p :
    0 <= p < BlockSize * ItemsPerThread -> 0 <= at_pos p.
  Proof.
    intros Hp. rewrite at_pos_padded by assumption. unfold padded.
    destruct (p <? batches) eqn:E; [|lia]. apply Z.ltb_lt in E.
    apply column_nonneg. lia.
  Qed.

Lemma scan_batches_inputs_small :
    zsum at_pos (BlockSize * ItemsPerThread) < 2 ^ 32.
  Proof.
    rewrite (zsum_ext at_pos padded) by (intros; now apply at_pos_padded).
    rewrite zsum_padded, Z.min_r by lia. exact column_small.
  Qed.

Lemma scan_batches_unfold :
    scan_batches BlockSize ItemsPerThread RadixBits
      batch_digit_counts digit_counts batches digit =
    (for_loop BlockSize
       (fun flat_id table =>
          for_loop ItemsPerThread
            (fun i table =>
               let batch_id := add32 (mul32 flat_id ItemsPerThread) i in
               if batch_id <? batches
               then upd table (add32 (mul32 batch_id rs) digit)
                        (fst (exclusive_scan BlockSize ItemsPerThread values 0) flat_id i)
               else table)
            table)
       batch_digit_counts,
     upd digit_counts digit (snd (exclusive_scan BlockSize ItemsPerThread values 0))).
  Proof. reflexivity. Qed.

  (** The carry-out of the scan is the total of the column. *)
Lemma scan_batches_total :
    snd (scan_batches BlockSize ItemsPerThread RadixBits
           batch_digit_counts digit_counts batches digit) digit =
    zsum column batches.
  Proof.
    rewrite scan_batches_unfold.
    pose proof (exclusive_scan_total BlockSize ItemsPerThread values
                  scan_batches_inputs_nonneg scan_batches_inputs_small) as Ht.
    cbn [snd]. unfold upd. rewrite Z.eqb_refl, Ht.
    rewrite (zsum_ext _ padded) by (intros; now apply at_pos_padded).
    now rewrite zsum_padded, Z.min_r by lia.
  Qed.

Lemma scan_batches_total_other d :
    d <> digit ->
    snd (scan_batches BlockSize ItemsPerThread RadixBits
           batch_digit_counts digit_counts batches digit) d = digit_counts d.
  Proof.
    intros Hd. rewrite scan_batches_unfold. cbn [snd]. unfold upd.
    destruct (d =? digit) eqn:E; [apply Z.eqb_eq in E; contradiction | reflexivity].
  Qed.

Let scanned := fst (exclusive_scan BlockSize ItemsPerThread values 0).

Lemma scan_batches_table :
    fst (scan_batches BlockSize ItemsPerThread RadixBits
           batch_digit_counts digit_counts batches digit) =
    writes (fun p => p <? batches) (fun p => p * rs + digit)
           (fun p => scanned (p / ItemsPerThread) (p mod ItemsPerThread))
           (BlockSize * ItemsPerThread) batch_digit_counts.
  Proof.
    rewrite scan_batches_unfold. unfold scanned.
    cbn [fst]. rewrite for_loop_nested by lia. unfold writes.
    apply for_loop_ext. intros p acc Hp.
    rewrite batch_of_pos by assumption.
    destruct (p <? batches) eqn:E; [|reflexivity].
    apply Z.ltb_lt in E. fold rs. now rewrite entry_address by lia.
  Qed.

  (** Each entry of the column becomes the sum of the entries before it. *)
Lemma scan_batches_entry b :
    0 <= b < batches ->
    fst (scan_batches BlockSize ItemsPerThread RadixBits
           batch_digit_counts digit_counts batches digit) (b * rs + digit) =
    zsum column b.
  Proof.
    intros Hb. rewrite scan_batches_table.
    apply writes_hit with (q0 := b); [lia | now apply Z.ltb_lt | reflexivity |].
    intros q Hq Hc Ha. assert (q = b) by nia. subst q. unfold scanned.
    pose proof (Z.div_mod b ItemsPerThread ltac:(lia)).
    pose proof (Z.mod_pos_bound b ItemsPerThread ltac:(lia)).
    assert (0 <= b / ItemsPerThread < BlockSize).
    { split; [apply Z.div_pos; lia|]. apply Z.div_lt_upper_bound; nia. }
    rewrite (exclusive_scan_values BlockSize ItemsPerThread BlockSize_pos
               ItemsPerThread_pos values scan_batches_inputs_nonneg
               scan_batches_inputs_small) by lia.
    replace (b / ItemsPerThread * ItemsPerThread + b mod ItemsPerThread) with b by lia.
    rewrite (zsum_ext _ padded) by (intros; apply at_pos_padded; lia).
    now rewrite zsum_padded, Z.min_l by lia.
  Qed.

  (** The entries of the other columns are left alone. *)
Lemma scan_batches_other a :
    (forall b, 0 <= b < batches -> a <> b * rs + digit) ->
    fst (scan_batches BlockSize ItemsPerThread RadixBits
           batch_digit_counts digit_counts batches digit) a =
    batch_digit_counts a.
  Proof.
    intros Ha. rewrite scan_batches_table. apply writes_miss.
    intros q Hq Hc Heq. apply Z.ltb_lt in Hc. apply (Ha q); [lia | now symmetry].
  Qed.
End ScanBatches.

Section ScanDigits.
Variable RadixBits : Z.
Hypothesis RadixBits_nonneg : 0 <= RadixBits.
Variable digit_counts : Z -> Z.
Let rs := radix_size RadixBits.
Hypothesis counts_nonneg : forall d, 0 <= d < rs -> 0 <= digit_counts d.
Hypothesis counts_small : zsum digit_counts rs < 2 ^ 32.

Let value : regs Z := fun flat_id _ => digit_counts flat_id.

Lemma scan_digits_unfold :
    scan_digits RadixBits digit_counts =
    writes (fun _ => true) (fun d => d)
           (fun d => fst (exclusive_scan rs 1 value 0) d 0) rs digit_counts.
  Proof. reflexivity. Qed.

  (** Each total becomes the sum of the totals of the smaller digits. *)
Lemma scan_digits_entry d :
    0 <= d < rs -> scan_digits RadixBits digit_counts d = zsum digit_counts d.
  Proof.
    intros Hd. rewrite scan_digits_unfold.
    pose proof (radix_size_pos RadixBits RadixBits_nonneg) as Hrs. fold rs in Hrs.
    assert (Hext : forall n, zsum (fun p => value (p / 1) (p mod 1)) n = zsum digit_counts n).
    { intros n. apply zsum_ext. intros i Hi. unfold value. now rewrite Z.div_1_r. }
    apply writes_hit with (q0 := d); [lia | reflexivity | reflexivity |].
    intros q Hq _ ->.
    rewrite exclusive_scan_values; try lia.
    - rewrite Hext. f_equal. lia.
    - intros p Hp. unfold value. rewrite Z.div_1_r. apply counts_nonneg. lia.
    - rewrite Hext, Z.mul_1_r. exact counts_small.
  Qed.

Lemma scan_digits_other d :
    ~ 0 <= d < rs -> scan_digits RadixBits digit_counts d = digit_counts d.
  Proof.
    intros Hd. rewrite scan_digits_unfold. apply writes_miss.
    intros q Hq _ ->. contradiction.
  Qed.
End ScanDigits.

(** ** Lane masks *)

Lemma fold_add_zrange (f : Z -> Z) n c :
  fold_left (fun c l => c + f l) (zrange n) c = c + zsum f n.
Proof.
  destruct (Z.le_gt_cases 0 n) as [Hn|Hn];
    [|rewrite zrange_nonpos, zsum_nonpos by lia; simpl; lia].
  revert n Hn. apply zrange_ind.
  - rewrite zrange_nonpos, zsum_nonpos by lia. simpl. lia.
  - intros n Hn IH. rewrite zrange_succ, fold_left_app, IH, zsum_succ by lia.
    simpl. lia.
Qed.

Lemma bit_count_spec m : bit_count m = zcount (Z.testbit m) 64.
Proof.
  unfold bit_count.
  rewrite (fold_add_zrange (fun l => Z.b2z (Z.testbit m l)) 64 0).
  unfold zcount. now rewrite Z.add_0_l.
Qed.

Lemma zcount_prefix P k n :
  0 <= k <= n -> zcount (fun l => P l && (l <? k)) n = zcount P k.
Proof.
  intros Hk. replace n with (k + (n - k)) by lia.
  unfold zcount. rewrite zsum_split by lia.
  rewrite (zsum_zero (fun i => Z.b2z (P (k + i) && (k + i <? k)))).
  - rewrite Z.add_0_r. apply zsum_ext. intros i Hi.
    replace (i <? k) with true by (symmetry; apply Z.ltb_lt; lia).
    now rewrite andb_true_r.
  - intros i Hi. replace (k + i <? k) with false by (symmetry; apply Z.ltb_ge; lia).
    now rewrite andb_false_r.
Qed.

Lemma masked_bit_count_spec m lane_id :
  0 <= lane_id <= 64 -> masked_bit_count m lane_id = zcount (Z.testbit m) lane_id.
Proof.
  intros Hl. unfold masked_bit_count. rewrite bit_count_spec.
  rewrite <- (zcount_prefix (Z.testbit m) lane_id 64) by lia.
  apply zcount_ext. intros i Hi.
  rewrite Z.land_spec, Z.testbit_ones_nonneg by lia. reflexivity.
Qed.

Lemma ballot_spec warp_size predicate warp l :
  0 <= warp_size -> 0 <= l ->
  Z.testbit (ballot warp_size predicate warp) l =
  (l <? warp_size) && predicate (warp * warp_size + l).
Proof.
  intros Hws Hl. unfold ballot. generalize warp_size at 2 3 as n, Hws.
  apply zrange_ind.
  - rewrite zrange_nonpos by lia. simpl. rewrite Z.bits_0.
    symmetry. replace (l <? 0) with false by (symmetry; apply Z.ltb_ge; lia).
    reflexivity.
  - intros n Hn IH. rewrite zrange_succ, fold_left_app by lia. simpl.
    rewrite Z.lor_spec, IH.
    destruct (Z.eq_dec l n) as [->|Hne].
    + replace (n <? n) with false by (symmetry; apply Z.ltb_ge; lia).
      replace (n <? n + 1) with true by (symmetry; apply Z.ltb_lt; lia).
      simpl. destruct (predicate (warp * warp_size + n)).
      * rewrite Z.shiftl_1_l. now apply Z.pow2_bits_true.
      * apply Z.bits_0.
    + replace (Z.testbit (if predicate (warp * warp_size + n)
                          then Z.shiftl 1 n else 0) l) with false.
      * rewrite orb_false_r. f_equal.
        destruct (l <? n) eqn:E1; destruct (l <? n + 1) eqn:E2;
          try apply Z.ltb_lt in E1; try apply Z.ltb_ge in E1;
          try apply Z.ltb_lt in E2; try apply Z.ltb_ge in E2; try reflexivity; lia.
      * symmetry. destruct (predicate (warp * warp_size + n)); [|apply Z.bits_0].
        rewrite Z.shiftl_1_l. apply Z.pow2_bits_false. congruence.
Qed.

Lemma not64_spec m l :
  0 <= l < 64 -> Z.testbit (not64 m) l = negb (Z.testbit m l).
Proof.
  intros Hl. unfold not64.
  rewrite Z.lxor_spec, Z.testbit_ones_nonneg by lia.
  replace (l <? 64) with true by (symmetry; apply Z.ltb_lt; lia).
  now destruct (Z.testbit m l).
Qed.

(** Testing one bit of a digit the way line 136 does. *)
Lemma bit_set_spec x b :
  0 <= b < 32 -> negb (Z.land x (shl32 1 b) =? 0) = Z.testbit x b.
Proof.
  intros Hb. unfold shl32. rewrite Z.shiftl_1_l.
  assert (0 < 2 ^ b) by (apply Z.pow_pos_nonneg; lia).
  assert (2 ^ b < 2 ^ 32) by (apply Z.pow_lt_mono_r; lia).
  rewrite wrap32_small by lia.
  assert (Hland : Z.land x (2 ^ b) = if Z.testbit x b then 2 ^ b else 0).
  { apply Z.bits_inj'. intros k Hk. rewrite Z.land_spec, Z.pow2_bits_eqb by lia.
    destruct (Z.eqb_spec b k) as [->|Hne].
    - destruct (Z.testbit x k); simpl;
        [now rewrite Z.pow2_bits_true | now rewrite Z.bits_0].
    - rewrite andb_false_r. destruct (Z.testbit x b);
        [now rewrite Z.pow2_bits_false | now rewrite Z.bits_0]. }
  rewrite Hland. destruct (Z.testbit x b); simpl.
  - destruct (Z.eqb_spec (2 ^ b) 0); [lia | reflexivity].
  - reflexivity.
Qed.

(** Two numbers agree on their [b + 1] low bits when they agree on their
    [b] low bits and on bit [b]. *)
Lemma low_bits_step x y b :
  0 <= b ->
  (x mod 2 ^ (b + 1) =? y mod 2 ^ (b + 1)) =
  (x mod 2 ^ b =? y mod 2 ^ b) && Bool.eqb (Z.testbit x b) (Z.testbit y b).
Proof.
  intros Hb.
  assert (Hp : 0 < 2 ^ b) by (apply Z.pow_pos_nonneg; lia).
  rewrite Z.pow_add_r, Z.pow_1_r by lia.
  rewrite !Z.rem_mul_r by lia.
  rewrite <- !Z.testbit_spec' by lia.
  pose proof (Z.mod_pos_bound x (2 ^ b) Hp).
  pose proof (Z.mod_pos_bound y (2 ^ b) Hp).
  destruct (Z.testbit x b), (Z.testbit y b); simpl;
    destruct (Z.eqb_spec (x mod 2 ^ b) (y mod 2 ^ b)); simpl;
    match goal with
    | |- (?a =? ?c) = true => apply Z.eqb_eq; lia
    | |- (?a =? ?c) = false => apply Z.eqb_neq; lia
    end.
Qed.

Lemma zsum_blocks f n m :
  0 <= n -> 0 <= m ->
  zsum (fun i => zsum (fun j => f (i * m + j)) m) n = zsum f (n * m).
Proof.
  intros Hn Hm. revert n Hn. apply zrange_ind.
  - now rewrite !zsum_nonpos by lia.
  - intros n Hn IH. rewrite zsum_succ, IH by lia.
    replace ((n + 1) * m) with (n * m + m) by lia.
    now rewrite zsum_split by nia.
Qed.

(** A positive count has a first hit. *)
Lemma zcount_first P n :
  0 < zcount P n ->
  exists l, 0 <= l < n /\ P l = true /\ zcount P l = 0.
Proof.
  destruct (Z.le_gt_cases 0 n) as [Hn|Hn];
    [|unfold zcount; rewrite zsum_nonpos by lia; lia].
  revert n Hn. apply (zrange_ind (fun n => _ -> _)).
  - unfold zcount. rewrite zsum_nonpos by lia. lia.
  - intros n Hn IH Hpos. rewrite zcount_succ in Hpos by lia.
    destruct (Z.eq_dec (zcount P n) 0) as [Hz|Hnz].
    + exists n. repeat split; try lia. destruct (P n); [reflexivity|simpl in Hpos; lia].
    + pose proof (zcount_bounds P n Hn).
      destruct IH as (l & Hl & HP & Hc); [lia|]. exists l. repeat split; auto; lia.
Qed.

Section Writes2.
Context {A : Type}.
Variables (cond : Z -> bool) (addr1 addr2 : Z -> Z) (val : Z -> A).

Definition writes2 (n : Z) (a0 : Z -> Z -> A) : Z -> Z -> A :=
    for_loop n
      (fun q a => if cond q then upd2 a (addr1 q) (addr2 q) (val q) else a) a0.

Lemma writes2_cases n a0 i j :
    writes2 n a0 i j = a0 i j \/
    exists q, 0 <= q < n /\ cond q = true /\ addr1 q = i /\ addr2 q = j /\
              writes2 n a0 i j = val q.
  Proof.
    unfold writes2. destruct (Z.le_gt_cases 0 n) as [Hn|Hn];
      [|left; now rewrite for_loop_nonpos by lia].
    revert n Hn. apply zrange_ind.
    - left. now rewrite for_loop_nonpos by lia.
    - intros n Hn IH. rewrite for_loop_succ by lia.
      destruct (cond n) eqn:E.
      + unfold upd2 at 1 3. destruct ((i =? addr1 n) && (j =? addr2 n)) eqn:Ea.
        * apply andb_true_iff in Ea as [E1 E2].
          apply Z.eqb_eq in E1, E2. right. exists n. repeat split; auto; lia.
        * destruct IH as [IH|(q & Hq & IH)]; [now left|].
          right. exists q. split; [lia | assumption].
      + destruct IH as [IH|(q & Hq & IH)]; [now left|].
        right. exists q. split; [lia | assumption].
  Qed.

Lemma writes2_hit n a0 i j v q0 :
    0 <= q0 < n -> cond q0 = true -> addr1 q0 = i -> addr2 q0 = j ->
    (forall q, 0 <= q < n -> cond q = true -> addr1 q = i -> addr2 q = j ->
               val q = v) ->
    writes2 n a0 i j = v.
  Proof.
    unfold writes2. intros Hq0. assert (Hn : 0 <= n) by lia.
    revert n Hn Hq0. apply (zrange_ind (fun n => _ -> _ -> _ -> _ -> _ -> _)); [lia|].
    intros n Hn IH Hq0 Hc H1 H2 Hv. rewrite for_loop_succ by lia.
    assert (Hrec : q0 <> n ->
      for_loop n (fun q a => if cond q then upd2 a (addr1 q) (addr2 q) (val q) else a)
               a0 i j = v).
    { intros Hne. apply IH; [lia|assumption|assumption|assumption|].
      intros; apply Hv; try lia; assumption. }
    destruct (cond n) eqn:E.
    - unfold upd2. destruct ((i =? addr1 n) && (j =? addr2 n)) eqn:Ea.
      + apply andb_true_iff in Ea as [E1 E2]. apply Z.eqb_eq in E1, E2.
        apply Hv; [lia | assumption | congruence | congruence].
      + apply Hrec. intros ->. rewrite H1, H2, !Z.eqb_refl in Ea. discriminate.
    - apply Hrec. congruence.
  Qed.
End Writes2.

(** ** The ballot tally of fill_digit_counts *)

Section Tally.
Variables BlockSize RadixBits warp_size : Z.
Hypothesis warp_size_range : 0 < warp_size <= 64.
Hypothesis RadixBits_range : 0 <= RadixBits < 32.
Hypothesis whole_warps : BlockSize mod warp_size = 0.
Hypothesis BlockSize_pos : 0 < BlockSize.
Variables (digit : Z -> Z) (in_range : Z -> bool).
Hypothesis digit_range : forall t, 0 <= digit t < 2 ^ RadixBits.

  (** The in-range lanes of a warp that hold the digit [d]. *)
Definition lane_hits (w d : Z) : Z :=
    zcount (fun l => in_range (w * warp_size + l) && (digit (w * warp_size + l) =? d))
           warp_size.

Lemma same_digit_lanes_spec w l0 l :
    0 <= l0 < warp_size -> 0 <= l ->
    Z.testbit (same_digit_lanes RadixBits warp_size digit in_range (w * warp_size + l0)) l =
    (l <? warp_size) &&
    (in_range (w * warp_size + l)
     && (digit (w * warp_size + l) =? digit (w * warp_size + l0))).
  Proof.
    intros Hl0 Hl. unfold same_digit_lanes. rewrite div_mul_add by lia.
    set (body := fun (b : Z) (m : Z) => Z.land m _).
    assert (Hinv : forall l, 0 <= l ->
      Z.testbit (for_loop RadixBits body (ballot warp_size in_range w)) l =
      (l <? warp_size) &&
      (in_range (w * warp_size + l)
       && (digit (w * warp_size + l) mod 2 ^ RadixBits
           =? digit (w * warp_size + l0) mod 2 ^ RadixBits))).
    { apply (for_loop_inv (fun b m => forall l, 0 <= l ->
        Z.testbit m l =
        (l <? warp_size) &&
        (in_range (w * warp_size + l)
         && (digit (w * warp_size + l) mod 2 ^ b
             =? digit (w * warp_size + l0) mod 2 ^ b)))); [lia| |].
      - intros k Hk. rewrite ballot_spec by lia.
        rewrite !Z.pow_0_r, !Z.mod_1_r. simpl. now rewrite andb_true_r.
      - intros b m Hb IH k Hk. unfold body.
        rewrite Z.land_spec, IH, low_bits_step by lia.
        rewrite !bit_set_spec by lia.
        destruct (k <? warp_size) eqn:Ek; [|reflexivity].
        apply Z.ltb_lt in Ek. simpl.
        destruct (in_range (w * warp_size + k)); [|reflexivity]. simpl.
        assert (Hbit : Z.testbit
                  (ballot warp_size
                     (fun t => negb (Z.land (digit t) (shl32 1 b) =? 0)) w) k =
                Z.testbit (digit (w * warp_size + k)) b).
        { rewrite ballot_spec by lia. rewrite bit_set_spec by lia.
          replace (k <? warp_size) with true by (symmetry; apply Z.ltb_lt; lia).
          reflexivity. }
        destruct (Z.testbit (digit (w * warp_size + l0)) b);
          [|rewrite not64_spec by lia]; rewrite Hbit;
          destruct (Z.testbit (digit (w * warp_size + k)) b);
          simpl; now rewrite ?andb_true_r, ?andb_false_r. }
    rewrite Hinv by assumption.
    now rewrite !Z.mod_small by apply digit_range.
  Qed.

Lemma same_digit_count_spec w l0 :
    0 <= l0 < warp_size ->
    bit_count (same_digit_lanes RadixBits warp_size digit in_range (w * warp_size + l0)) =
    lane_hits w (digit (w * warp_size + l0)).
  Proof.
    intros Hl0. rewrite bit_count_spec. unfold lane_hits.
    rewrite <- (zcount_prefix _ warp_size 64) by lia.
    apply zcount_ext. intros l Hl. rewrite same_digit_lanes_spec by lia.
    now rewrite andb_comm.
  Qed.

Lemma prev_same_digit_count_spec w l0 :
    0 <= l0 < warp_size ->
    masked_bit_count
      (same_digit_lanes RadixBits warp_size digit in_range (w * warp_size + l0)) l0 =
    zcount (fun l => in_range (w * warp_size + l)
                     && (digit (w * warp_size + l) =? digit (w * warp_size + l0))) l0.
  Proof.
    intros Hl0. rewrite masked_bit_count_spec by lia.
    apply zcount_ext. intros l Hl. rewrite same_digit_lanes_spec by lia.
    replace (l <? warp_size) with true by (symmetry; apply Z.ltb_lt; lia).
    reflexivity.
  Qed.

Lemma lane_hits_bounds w d : 0 <= lane_hits w d <= warp_size.
  Proof. apply zcount_bounds. lia. Qed.

  (** One lockstep instruction of the warp [w]. *)
Definition tally_warp (w : Z) (before : Z -> Z -> Z) : Z -> Z -> Z :=
    writes2
      (fun l => masked_bit_count
                  (same_digit_lanes RadixBits warp_size digit in_range
                     (w * warp_size + l)) l =? 0)
      (fun _ => w)
      (fun l => digit (w * warp_size + l))
      (fun l => add32 (before w (digit (w * warp_size + l)))
                  (bit_count (same_digit_lanes RadixBits warp_size digit in_range
                                (w * warp_size + l))))
      warp_size before.

Lemma tally_unfold counts :
    tally BlockSize RadixBits warp_size digit in_range counts =
    for_loop (warps_no BlockSize warp_size) tally_warp counts.
  Proof. reflexivity. Qed.

Lemma tally_warp_other w before w' d :
    w' <> w -> tally_warp w before w' d = before w' d.
  Proof.
    intros Hw. unfold tally_warp.
    match goal with
    | |- writes2 ?c ?a1 ?a2 ?v ?n ?a0 ?i ?j = _ =>
        destruct (writes2_cases c a1 a2 v n a0 i j) as [H|(q & _ & _ & H & _)]
    end; [assumption | congruence].
  Qed.

Lemma tally_warp_row w before d :
    0 <= before w d -> before w d + lane_hits w d < 2 ^ 32 ->
    tally_warp w before w d = before w d + lane_hits w d.
  Proof.
    intros Hb Hsum. pose proof (lane_hits_bounds w d) as Hh.
    destruct (Z.eq_dec (lane_hits w d) 0) as [Hz|Hnz].
    - unfold tally_warp.
      match goal with
      | |- writes2 ?c ?a1 ?a2 ?v ?n ?a0 ?i ?j = _ =>
          destruct (writes2_cases c a1 a2 v n a0 i j)
            as [H|(q & Hq & _ & _ & Hd & H)]
      end; rewrite H; [lia|].
      rewrite same_digit_count_spec, Hd, Hz by lia. unwrap. reflexivity.
    - assert (Hpos : 0 < lane_hits w d) by lia. unfold lane_hits in Hpos.
      apply zcount_first in Hpos as (l & Hl & HP & Hfirst).
      apply andb_true_iff in HP as [_ Hdl]. apply Z.eqb_eq in Hdl.
      unfold tally_warp. apply writes2_hit with (q0 := l); auto.
      + rewrite prev_same_digit_count_spec, Hdl by lia. now apply Z.eqb_eq.
      + intros q Hq _ _ Hd. rewrite same_digit_count_spec, Hd by lia.
        unwrap. reflexivity.
  Qed.

Lemma tally_spec counts :
    (forall w d, 0 <= w < warps_no BlockSize warp_size -> 0 <= d < 2 ^ RadixBits ->
                 0 <= counts w d /\ counts w d + lane_hits w d < 2 ^ 32) ->
    forall w d, 0 <= w < warps_no BlockSize warp_size -> 0 <= d < 2 ^ RadixBits ->
      tally BlockSize RadixBits warp_size digit in_range counts w d =
      counts w d + lane_hits w d.
  Proof.
    intros Hc. rewrite tally_unfold.
    assert (Hwn : 0 <= warps_no BlockSize warp_size)
      by (unfold warps_no; apply Z.div_pos; lia).
    assert (Hinv : forall w d, 0 <= d < 2 ^ RadixBits ->
      for_loop (warps_no BlockSize warp_size) tally_warp counts w d =
      if (0 <=? w) && (w <? warps_no BlockSize warp_size)
      then counts w d + lane_hits w d else counts w d).
    { apply (for_loop_inv (fun k acc => forall w d, 0 <= d < 2 ^ RadixBits ->
        acc w d = if (0 <=? w) && (w <? k)
                  then counts w d + lane_hits w d else counts w d)); [lia| |].
      - intros w d Hd. destruct (0 <=? w) eqn:E1; destruct (w <? 0) eqn:E2;
          try reflexivity. apply Z.leb_le in E1. apply Z.ltb_lt in E2. lia.
      - intros k acc Hk IH w d Hd.
        destruct (Z.eq_dec w k) as [->|Hne].
        + replace ((0 <=? k) && (k <? k + 1)) with true
            by (symmetry; apply andb_true_iff; split;
                [apply Z.leb_le | apply Z.ltb_lt]; lia).
          pose proof (IH k d Hd) as Hacc.
          replace ((0 <=? k) && (k <? k)) with false in Hacc
            by (symmetry; apply andb_false_iff; right; apply Z.ltb_ge; lia).
          destruct (Hc k d Hk Hd).
          rewrite tally_warp_row; rewrite Hacc; lia.
        + rewrite tally_warp_other, IH by assumption.
          destruct (0 <=? w); simpl; [|reflexivity].
          destruct (w <? k) eqn:E1; destruct (w <? k + 1) eqn:E2;
          try apply Z.ltb_lt in E1; try apply Z.ltb_ge in E1;
          try apply Z.ltb_lt in E2; try apply Z.ltb_ge in E2; try reflexivity; lia. }
    intros w d Hw Hd. rewrite Hinv by assumption.
    replace ((0 <=? w) && (w <? warps_no BlockSize warp_size)) with true; [reflexivity|].
    symmetry; apply andb_true_iff; split; [apply Z.leb_le | apply Z.ltb_lt]; lia.
  Qed.

Lemma warps_cover : warps_no BlockSize warp_size * warp_size = BlockSize.
  Proof.
    unfold warps_no. pose proof (Z.div_mod BlockSize warp_size ltac:(lia)). lia.
  Qed.

  (** Over the warps of the block, the hits add up to the in-range threads
      that hold the digit. *)
Lemma lane_hits_total d :
    zsum (fun w => lane_hits w d) (warps_no BlockSize warp_size) =
    zcount (fun t => in_range t && (digit t =? d)) BlockSize.
  Proof.
    unfold lane_hits, zcount.
    rewrite (zsum_blocks (fun t => Z.b2z (in_range t && (digit t =? d)))).
    - now rewrite warps_cover.
    - unfold warps_no; apply Z.div_pos; lia.
    - lia.
  Qed.
End Tally.

(** ** fill_digit_counts *)

Lemma count_between_split P a b c :
  a <= b <= c -> count_between P a c = count_between P a b + count_between P b c.
Proof.
  intros H. unfold count_between, zcount.
  replace (c - a) with ((b - a) + (c - b)) by lia.
  rewrite zsum_split by lia. f_equal. apply zsum_ext. intros i Hi.
  do 2 f_equal. lia.
Qed.

Lemma count_between_empty P a b : b <= a -> count_between P a b = 0.
Proof. intros H. unfold count_between, zcount. apply zsum_nonpos. lia. Qed.

Lemma count_between_bounds P a b : a <= b -> 0 <= count_between P a b <= b - a.
Proof. intros H. apply zcount_bounds. lia. Qed.

Lemma count_between_range P a b : 0 <= count_between P a b <= Z.max 0 (b - a).
Proof.
  destruct (Z.le_gt_cases a b) as [H|H].
  - pose proof (count_between_bounds P a b H). lia.
  - rewrite count_between_empty by lia. lia.
Qed.

Lemma zsum_term_le f n i :
  (forall j, 0 <= j < n -> 0 <= f j) -> 0 <= i < n -> f i <= zsum f n.
Proof.
  intros Hf Hi.
  pose proof (zsum_mono f n (i + 1) n Hf ltac:(lia) ltac:(lia)) as Hm.
  rewrite zsum_succ in Hm by lia.
  assert (0 <= zsum f i) by (apply zsum_nonneg; intros; apply Hf; lia). lia.
Qed.

Lemma radix_mask_ones current_radix_bits :
  0 <= current_radix_bits < 32 ->
  sub32 (shl32 1 current_radix_bits) 1 = Z.ones current_radix_bits.
Proof.
  intros H. rewrite Z.ones_equiv. unfold shl32. rewrite Z.shiftl_1_l.
  assert (0 < 2 ^ current_radix_bits) by (apply Z.pow_pos_nonneg; lia).
  assert (2 ^ current_radix_bits < 2 ^ 32) by (apply Z.pow_lt_mono_r; lia).
  unwrap. lia.
Qed.

Lemma digit_of_range bit current_radix_bits bit_key :
  0 <= current_radix_bits ->
  0 <= digit_of bit current_radix_bits bit_key < 2 ^ current_radix_bits.
Proof.
  intros H. unfold digit_of. rewrite Z.land_ones by assumption.
  apply Z.mod_pos_bound. now apply Z.pow_pos_nonneg.
Qed.

Lemma for_loop_add32_exact f n :
  0 <= n -> (forall i, 0 <= i < n -> 0 <= f i) -> zsum f n < 2 ^ 32 ->
  for_loop n (fun i c => add32 c (f i)) 0 = zsum f n.
Proof.
  intros Hn. revert n Hn. apply (zrange_ind (fun n => _ -> _ -> _)).
  - intros. now rewrite for_loop_nonpos, zsum_nonpos by lia.
  - intros n Hn IH Hf Hs. rewrite zsum_succ in * by lia.
    assert (0 <= f n) by (apply Hf; lia).
    assert (0 <= zsum f n) by (apply zsum_nonneg; intros; apply Hf; lia).
    rewrite for_loop_succ, IH by (try intros; try apply Hf; lia).
    unwrap. reflexivity.
Qed.

Section Histogram.
Variables BlockSize ItemsPerThread RadixBits warp_size : Z.
Context {KeyIn : Type} {key_in_codec : radix_key_codec KeyIn}.
Variable keys_uninit : Z -> regs KeyIn.
Variable counts_uninit : Z -> Z -> Z.
Variable keys_input : Z -> KeyIn.
Variables size bit current_radix_bits : Z.

Hypothesis warp_size_range : 0 < warp_size <= 64.
Hypothesis BlockSize_pos : 0 < BlockSize.
Hypothesis whole_warps : BlockSize mod warp_size = 0.
Hypothesis ItemsPerThread_pos : 0 < ItemsPerThread.
Hypothesis RadixBits_range : 0 <= RadixBits < 32.
Hypothesis radix_fits : radix_size RadixBits <= BlockSize.
Hypothesis window_fits : 0 <= current_radix_bits <= RadixBits.
Hypothesis size_range : 0 <= size.
Hypothesis size_small : size + BlockSize * ItemsPerThread <= 2 ^ 32.

Let ipb := items_per_block BlockSize ItemsPerThread.
Let wn := warps_no BlockSize warp_size.
Let rs := radix_size RadixBits.

  (** The digit of the key at an index of the input. *)
Let G g := digit_of bit current_radix_bits (encode (keys_input g)).

Lemma G_range g : 0 <= G g < 2 ^ RadixBits.
  Proof.
    pose proof (digit_of_range bit current_radix_bits (encode (keys_input g))
                  ltac:(lia)) as H.
    assert (2 ^ current_radix_bits <= 2 ^ RadixBits)
      by (apply Z.pow_le_mono_r; lia).
    unfold G. lia.
  Qed.

Lemma wn_nonneg : 0 <= wn.
  Proof. unfold wn, warps_no. apply Z.div_pos; lia. Qed.

  (** The counters of the warps: non-negative, and adding up to [c d] for
      every digit. *)
Definition tallied (counts : Z -> Z -> Z) (c : Z -> Z) : Prop :=
    forall d, 0 <= d < 2 ^ RadixBits ->
      (forall w, 0 <= w < wn -> 0 <= counts w d) /\
      zsum (fun w => counts w d) wn = c d.

Lemma count_block_spec bi block_offset counts c :
    0 <= block_offset < size ->
    tallied counts c ->
    (forall d, 0 <= c d <= block_offset) ->
    let '(next, counts') :=
      count_block BlockSize ItemsPerThread RadixBits warp_size keys_uninit
                  keys_input size bit current_radix_bits bi (block_offset, counts) in
    next = block_offset + ipb /\
    tallied counts'
      (fun d => c d + count_between (fun g => G g =? d) block_offset
                        (Z.min size (block_offset + ipb))).
  Proof.
    intros Hbo Htal Hc. unfold count_block.
    assert (Hipb : 0 < ipb) by (unfold ipb, items_per_block; nia).
    fold ipb. rewrite radix_mask_ones by lia.
    assert (Hnext : add32 block_offset ipb = block_offset + ipb)
      by (unfold ipb, items_per_block in *; unwrap; reflexivity).
    rewrite Hnext. split; [reflexivity|].
    set (valid_count := if block_offset + ipb <=? size then ipb
                        else sub32 size block_offset).
    assert (Hvc : block_offset + valid_count = Z.min size (block_offset + ipb)
                  /\ 0 < valid_count <= ipb).
    { unfold valid_count. destruct (block_offset + ipb <=? size) eqn:E.
      - apply Z.leb_le in E. lia.
      - apply Z.leb_gt in E. unwrap. lia. }
    destruct Hvc as [Hvc Hvcr]. rewrite <- Hvc.
    clearbody valid_count.
    pose (keys := fun flat_id : Z =>
            if block_offset + ipb <=? size
            then block_load_direct_striped BlockSize flat_id
                   (offset_ptr keys_input block_offset)
            else block_load_direct_striped_valid BlockSize flat_id
                   (offset_ptr keys_input block_offset) (keys_uninit bi flat_id)
                   valid_count).
    assert (Hkeys : forall t i, 0 <= i * BlockSize + t < valid_count ->
              keys t i = keys_input (block_offset + (i * BlockSize + t))).
    { intros t i Hp. unfold keys.
      destruct (block_offset + ipb <=? size).
      - unfold block_load_direct_striped, offset_ptr. f_equal. lia.
      - unfold block_load_direct_striped_valid, offset_ptr.
        replace (t + i * BlockSize <? valid_count) with true
          by (symmetry; apply Z.ltb_lt; lia).
        f_equal. lia. }
    set (P := fun d p => (p <? valid_count) && (G (block_offset + p) =? d)).
    assert (Hinv : tallied
      (for_loop ItemsPerThread
         (fun i counts0 =>
            tally BlockSize RadixBits warp_size
              (fun flat_id =>
                 Z.land (Z.shiftr (encode (keys flat_id i)) bit)
                        (Z.ones current_radix_bits))
              (fun flat_id => add32 (mul32 i BlockSize) flat_id <? valid_count)
              counts0) counts)
      (fun d => c d + zcount (P d) (ItemsPerThread * BlockSize))).
    { apply (for_loop_inv (fun i acc =>
               tallied acc (fun d => c d + zcount (P d) (i * BlockSize)))); [lia| |].
      - intros d Hd. destruct (Htal d Hd) as [H1 H2]. split; [assumption|].
        rewrite H2. unfold zcount. rewrite (zsum_nonpos _ (0 * BlockSize)); lia.
      - intros i acc Hi IH d Hd. destruct (IH d Hd) as [Hnn Hsum].
        set (digit := fun flat_id : Z => Z.land _ _).
        set (in_range := fun flat_id : Z => _ <? valid_count).
        assert (Hdr : forall t, 0 <= digit t < 2 ^ RadixBits).
        { intros t. unfold digit.
          pose proof (digit_of_range bit current_radix_bits
                        (encode (keys t i)) ltac:(lia)) as H. unfold digit_of in H.
          assert (2 ^ current_radix_bits <= 2 ^ RadixBits)
            by (apply Z.pow_le_mono_r; lia). lia. }
        assert (Hstep : zcount (fun t => in_range t && (digit t =? d)) BlockSize =
                        zcount (fun t => P d (i * BlockSize + t)) BlockSize).
        { apply zcount_ext. intros t Ht. unfold in_range, P.
          replace (add32 (mul32 i BlockSize) t) with (i * BlockSize + t)
            by (unfold ipb, items_per_block in *; unwrap; reflexivity).
          destruct (i * BlockSize + t <? valid_count) eqn:E; [|reflexivity].
          apply Z.ltb_lt in E. simpl. unfold digit, G, digit_of.
          rewrite Hkeys by nia. reflexivity. }
        assert (Hchunk : zcount (P d) ((i + 1) * BlockSize) =
                         zcount (P d) (i * BlockSize)
                         + zcount (fun t => P d (i * BlockSize + t)) BlockSize).
        { unfold zcount. replace ((i + 1) * BlockSize) with (i * BlockSize + BlockSize) by lia.
          now rewrite zsum_split by nia. }
        pose proof (lane_hits_total BlockSize warp_size warp_size_range whole_warps
                      BlockSize_pos digit in_range d) as Htot. fold wn in Htot.
        pose proof (zcount_bounds (P d) (i * BlockSize) ltac:(nia)) as Hb1.
        pose proof (zcount_bounds (fun t => P d (i * BlockSize + t)) BlockSize
                      ltac:(lia)) as Hb2.
        assert (Hlh : forall w, 0 <= w < wn ->
                  0 <= lane_hits warp_size digit in_range w d) by
          (intros; apply lane_hits_bounds; lia).
        assert (Hsmall : forall w d', 0 <= w < wn -> 0 <= d' < 2 ^ RadixBits ->
                  0 <= acc w d' /\
                  acc w d' + lane_hits warp_size digit in_range w d' < 2 ^ 32).
        { intros w d' Hw Hd'. destruct (IH d' Hd') as [Hnn' Hsum'].
          split; [now apply Hnn'|].
          pose proof (zsum_term_le (fun w => acc w d') wn w Hnn' Hw) as Hle.
          simpl in Hle. rewrite Hsum' in Hle.
          pose proof (lane_hits_bounds warp_size warp_size_range digit in_range w d').
          pose proof (zcount_bounds (P d') (i * BlockSize) ltac:(nia)).
          pose proof (Hc d').
          assert (warp_size <= BlockSize).
          { pose proof (warps_cover BlockSize warp_size warp_size_range whole_warps).
            assert (0 < warps_no BlockSize warp_size) by nia. nia. }
          unfold ipb, items_per_block in *. nia. }
        split.
        + intros w Hw.
          rewrite (tally_spec BlockSize RadixBits warp_size warp_size_range
                     RadixBits_range BlockSize_pos digit in_range Hdr acc Hsmall)
            by assumption.
          specialize (Hnn w Hw). specialize (Hlh w Hw). lia.
        + rewrite (zsum_ext _ (fun w => acc w d + lane_hits warp_size digit in_range w d)).
          * rewrite zsum_add, Hsum, Htot, Hstep, Hchunk. lia.
          * intros w Hw.
            now rewrite (tally_spec BlockSize RadixBits warp_size warp_size_range
                     RadixBits_range BlockSize_pos digit in_range Hdr acc Hsmall)
              by assumption. }
    intros d Hd. destruct (Hinv d Hd) as [H1 H2]. split; [exact H1|].
    etransitivity; [exact H2|]. f_equal. unfold count_between.
    replace (block_offset + valid_count - block_offset) with valid_count by lia.
    replace (ItemsPerThread * BlockSize) with ipb by (unfold ipb, items_per_block; lia).
    unfold P. rewrite <- (zcount_prefix _ valid_count ipb) by lia.
    apply zcount_ext. intros p Hp. apply andb_comm.
  Qed.

Lemma rs_pow : rs = 2 ^ RadixBits.
  Proof. apply radix_size_pow. lia. Qed.

  (** Lines 84-90: the counters of every digit are cleared. *)
Lemma zeroed_spec w d :
    0 <= w < wn -> 0 <= d < rs ->
    for_loop BlockSize
      (fun flat_id counts =>
         if flat_id <? rs
         then for_loop wn (fun w c => upd2 c w flat_id 0) counts
         else counts)
      counts_uninit w d = 0.
  Proof.
    intros Hw Hd.
    assert (Hinv : forall w d, 0 <= w < wn -> 0 <= d < rs -> d < BlockSize ->
      for_loop BlockSize
        (fun flat_id counts =>
           if flat_id <? rs
           then for_loop wn (fun w c => upd2 c w flat_id 0) counts
           else counts)
        counts_uninit w d = 0).
    { apply (for_loop_inv (fun k acc =>
        forall w d, 0 <= w < wn -> 0 <= d < rs -> d < k -> acc w d = 0)); [lia|lia|].
      intros k acc Hk IH w' d' Hw' Hd' Hlt.
      destruct (k <? rs) eqn:E.
      - change (for_loop wn (fun w c => upd2 c w k 0) acc)
          with (writes2 (fun _ => true) (fun w => w) (fun _ => k) (fun _ : Z => 0) wn acc).
        destruct (Z.eq_dec d' k) as [->|Hne].
        + apply writes2_hit with (q0 := w'); auto.
        + match goal with
          | |- writes2 ?c ?a1 ?a2 ?v ?n ?a0 ?i ?j = _ =>
              destruct (writes2_cases c a1 a2 v n a0 i j) as [H|(q & _ & _ & _ & _ & H)]
          end; rewrite H; [apply IH; lia | reflexivity].
      - apply Z.ltb_ge in E. apply IH; lia. }
    apply Hinv; try assumption. unfold rs in *. lia.
  Qed.

Section Batch.
Variables (table : Z -> Z) (blocks_per_full_batch full_batches batch_id : Z).
Variables block_offset blocks_per_batch : Z.
Hypothesis batch_range :
      batch_blocks BlockSize ItemsPerThread blocks_per_full_batch full_batches batch_id
      = (block_offset, blocks_per_batch).
Hypothesis offset_nonneg : 0 <= block_offset.
Hypothesis blocks_nonneg : 0 <= blocks_per_batch.
Hypothesis blocks_in_range :
      forall k, 0 <= k < blocks_per_batch -> block_offset + k * ipb < size.
Hypothesis batch_nonneg : 0 <= batch_id.
Hypothesis row_fits : batch_id * rs + rs <= 2 ^ 32.

Lemma count_blocks_spec counts0 :
      tallied counts0 (fun _ => 0) ->
      let '(next, counts) :=
        for_loop blocks_per_batch
          (count_block BlockSize ItemsPerThread RadixBits warp_size keys_uninit
                       keys_input size bit current_radix_bits)
          (block_offset, counts0) in
      tallied counts
        (fun d => count_between (fun g => G g =? d) block_offset
                    (Z.min size (block_offset + blocks_per_batch * ipb))).
    Proof.
      intros H0.
      assert (Hipb : 0 < ipb) by (unfold ipb, items_per_block; nia).
      pose proof (for_loop_inv (fun k (st : Z * (Z -> Z -> Z)) =>
        fst st = block_offset + k * ipb /\
        tallied (snd st)
          (fun d => count_between (fun g => G g =? d) block_offset
                      (Z.min size (block_offset + k * ipb))))
        blocks_per_batch
        (count_block BlockSize ItemsPerThread RadixBits warp_size keys_uninit
                     keys_input size bit current_radix_bits)
        (block_offset, counts0) blocks_nonneg) as Hloop.
      destruct Hloop as [_ Hloop].
      - split; [simpl; lia|]. simpl. intros d Hd. destruct (H0 d Hd) as [H1 H2].
        split; [assumption|]. rewrite H2, count_between_empty; lia.
      - intros k [off acc] Hk [Hoff Hacc]. simpl in Hoff, Hacc. subst off.
        pose proof (blocks_in_range k Hk) as Hin.
        pose proof (count_block_spec k (block_offset + k * ipb) acc _
                      ltac:(nia) Hacc) as Hstep.
        destruct (count_block _ _ _ _ _ _ _ _ _ _ _) as [next counts'].
        destruct Hstep as [Hnext Htal].
        + intros d. rewrite Z.min_r by lia.
          pose proof (count_between_bounds (fun g => G g =? d) block_offset
                        (block_offset + k * ipb) ltac:(nia)). nia.
        + simpl. split; [lia|]. intros d Hd. destruct (Htal d Hd) as [H1 H2].
          split; [assumption|]. rewrite H2.
          rewrite (Z.min_r size (block_offset + k * ipb)) by lia.
          replace (block_offset + (k + 1) * ipb) with (block_offset + k * ipb + ipb) by lia.
          symmetry. apply count_between_split. nia.
      - destruct (for_loop _ _ _) as [next counts]. exact Hloop.
    Qed.

Lemma fill_digit_counts_spec :
      let out := fill_digit_counts BlockSize ItemsPerThread RadixBits warp_size
                   keys_uninit counts_uninit keys_input size table bit
                   current_radix_bits blocks_per_full_batch full_batches batch_id in
      (forall d, 0 <= d < rs ->
         out (batch_id * rs + d) =
         count_between (fun g => G g =? d) block_offset
           (Z.min size (block_offset + blocks_per_batch * ipb))) /\
      (forall a, ~ batch_id * rs <= a < batch_id * rs + rs -> out a = table a).
    Proof.
      assert (Hipb : 0 < ipb) by (unfold ipb, items_per_block; nia).
      unfold fill_digit_counts. rewrite batch_range.
      match goal with
      | |- context [for_loop blocks_per_batch ?f (block_offset, ?z)] =>
          pose proof (count_blocks_spec z) as Hcnt
      end.
      destruct (for_loop blocks_per_batch _ _) as [next counts].
      assert (Htal : tallied counts
        (fun d => count_between (fun g => G g =? d) block_offset
                    (Z.min size (block_offset + blocks_per_batch * ipb)))).
      { apply Hcnt. intros d Hd. rewrite <- rs_pow in Hd. split.
        - intros w Hw. fold rs wn. rewrite zeroed_spec by assumption. lia.
        - apply zsum_zero. intros w Hw. fold rs wn. now apply zeroed_spec. }
      clear Hcnt.
      match goal with
      | |- context [for_loop BlockSize ?body table] =>
          change (for_loop BlockSize body table)
            with (writes (fun flat_id => flat_id <? rs)
                         (fun flat_id => add32 (mul32 batch_id rs) flat_id)
                         (fun flat_id => for_loop wn
                            (fun w c => add32 c (counts w flat_id)) 0)
                         BlockSize table)
      end.
      split.
      - intros d Hd. destruct (Htal d ltac:(rewrite <- rs_pow; lia)) as [H1 H2].
        apply writes_hit with (q0 := d).
        + unfold rs in *. lia.
        + apply Z.ltb_lt. lia.
        + unwrap. reflexivity.
        + intros q Hq Hc Ha. apply Z.ltb_lt in Hc.
          assert (q = d) by (revert Ha; unwrap; lia). subst q.
          rewrite for_loop_add32_exact; [exact H2 | apply wn_nonneg | exact H1 |].
          rewrite H2.
          pose proof (count_between_range (fun g => G g =? d) block_offset
                        (Z.min size (block_offset + blocks_per_batch * ipb))).
          unfold ipb, items_per_block in *. lia.
      - intros a Ha. apply writes_miss. intros q Hq Hc Heq.
        apply Z.ltb_lt in Hc. apply Ha. revert Heq. unwrap. lia.
    Qed.
End Batch.
End Histogram.

(** ** The stable block sort *)

Section StableSort.
Context {A : Type}.
Variable f : A -> Z.

Definition sorted_by (l : list A) : Prop :=
    StronglySorted (fun a b => f a <= f b) l.

Lemma insert_by_perm x l : Permutation (x :: l) (insert_by f x l).
  Proof.
    induction l as [|y l IH]; simpl; [reflexivity|].
    destruct (f x <=? f y); [reflexivity|].
    rewrite perm_swap. now constructor.
  Qed.

Lemma stable_sort_by_perm l : Permutation l (stable_sort_by f l).
  Proof.
    induction l as [|x l IH]; simpl; [reflexivity|].
    rewrite <- insert_by_perm. now constructor.
  Qed.

Lemma stable_sort_by_length l : length (stable_sort_by f l) = length l.
  Proof. symmetry. apply Permutation_length, stable_sort_by_perm. Qed.

Lemma insert_by_sorted x l : sorted_by l -> sorted_by (insert_by f x l).
  Proof.
    induction l as [|y l IH]; intros Hs; simpl.
    - constructor; constructor.
    - destruct (f x <=? f y) eqn:E.
      + apply Z.leb_le in E. constructor; [assumption|].
        inversion Hs as [|? ? Hs' Hall]; subst. constructor; [assumption|].
        eapply Forall_impl; [|exact Hall]. simpl. intros. lia.
      + apply Z.leb_gt in E. inversion Hs as [|? ? Hs' Hall]; subst.
        constructor; [now apply IH|].
        eapply Permutation_Forall; [apply insert_by_perm|].
        constructor; [lia | assumption].
  Qed.

Lemma stable_sort_by_sorted l : sorted_by (stable_sort_by f l).
  Proof.
    induction l as [|x l IH]; simpl; [constructor|]. now apply insert_by_sorted.
  Qed.

  (** Where the insertion goes: behind the smaller items, before the others. *)
Lemma insert_by_split x l :
    sorted_by l ->
    exists l1 l2, l = l1 ++ l2 /\ insert_by f x l = l1 ++ x :: l2 /\
                  Forall (fun y => f y < f x) l1 /\ Forall (fun y => f x <= f y) l2.
  Proof.
    induction l as [|y l IH]; intros Hs; simpl.
    - exists [], []. repeat split; constructor.
    - inversion Hs as [|? ? Hs' Hall]; subst.
      destruct (f x <=? f y) eqn:E.
      + apply Z.leb_le in E. exists [], (y :: l). repeat split; [constructor|].
        constructor; [assumption|]. eapply Forall_impl; [|exact Hall]. simpl. intros. lia.
      + apply Z.leb_gt in E. destruct (IH Hs') as (l1 & l2 & -> & Hi & H1 & H2).
        exists (y :: l1), l2. rewrite Hi. repeat split; [|assumption].
        constructor; [lia | assumption].
  Qed.

  (** A sorted tile is left as it is. *)
Lemma stable_sort_by_id l : sorted_by l -> stable_sort_by f l = l.
  Proof.
    induction l as [|x l IH]; intros Hs; simpl; [reflexivity|].
    inversion Hs as [|? ? Hs' Hall]; subst. rewrite IH by assumption.
    destruct l as [|y l]; simpl; [reflexivity|].
    inversion Hall; subst.
    replace (f x <=? f y) with true by (symmetry; apply Z.leb_le; lia).
    reflexivity.
  Qed.

Lemma insert_by_app x l1 l2 :
    Forall (fun y => f x <= f y) l2 ->
    insert_by f x (l1 ++ l2) = insert_by f x l1 ++ l2.
  Proof.
    intros H2. induction l1 as [|y l1 IH]; simpl.
    - destruct l2 as [|z l2]; simpl; [reflexivity|].
      inversion H2; subst.
      replace (f x <=? f z) with true by (symmetry; apply Z.leb_le; lia).
      reflexivity.
    - destruct (f x <=? f y); [reflexivity|]. simpl. now rewrite IH.
  Qed.

  (** Items that are not below any other, and sorted among themselves, stay
      behind the rest of the tile, in their order. *)
Lemma stable_sort_by_app l pads :
    sorted_by pads ->
    Forall (fun x => Forall (fun y => f x <= f y) pads) l ->
    stable_sort_by f (l ++ pads) = stable_sort_by f l ++ pads.
  Proof.
    intros Hp. induction l as [|x l IH]; intros Hl; simpl.
    - now apply stable_sort_by_id.
    - inversion Hl; subst. rewrite IH by assumption. now apply insert_by_app.
  Qed.
End StableSort.

Lemma map_fst_insert_by {A B : Type} (f : A -> Z) (x : A * B) l :
  map fst (insert_by (fun kv => f (fst kv)) x l) = insert_by f (fst x) (map fst l).
Proof.
  induction l as [|y l IH]; simpl; [reflexivity|].
  destruct (f (fst x) <=? f (fst y)); simpl; [reflexivity|]. now rewrite IH.
Qed.

(** Sorting the keys alone gives the keys of the sorted pairs. *)
Lemma map_fst_stable_sort_by {A B : Type} (f : A -> Z) (l : list (A * B)) :
  map fst (stable_sort_by (fun kv => f (fst kv)) l) = stable_sort_by f (map fst l).
Proof.
  induction l as [|x l IH]; simpl; [reflexivity|].
  now rewrite map_fst_insert_by, IH.
Qed.

(** ** Ranks among the items of the same digit *)

(** Every item of a tile with the number of earlier items of its digit,
    counted from [seen]. *)
Fixpoint tag_ranks {A : Type} (f : A -> Z) (seen : Z -> Z) (l : list A)
  : list (Z * A) :=
  match l with
  | [] => []
  | x :: r => (seen (f x), x) :: tag_ranks f (upd seen (f x) (seen (f x) + 1)) r
  end.

Lemma upd_other {A : Type} (a : Z -> A) i v j : j <> i -> upd a i v j = a j.
Proof. intros H. unfold upd. now destruct (Z.eqb_spec j i). Qed.

Lemma upd_same {A : Type} (a : Z -> A) i v : upd a i v i = v.
Proof. unfold upd. now rewrite Z.eqb_refl. Qed.

Section Ranks.
Context {A : Type}.
Variable f : A -> Z.

Lemma tag_ranks_ext seen seen' l :
  (forall d, seen d = seen' d) -> tag_ranks f seen l = tag_ranks f seen' l.
Proof.
  revert seen seen'. induction l as [|x l IH]; intros seen seen' H; simpl;
    [reflexivity|].
  rewrite H. f_equal. apply IH. intros d. unfold upd. now rewrite !H.
Qed.

Lemma tag_ranks_length seen l : length (tag_ranks f seen l) = length l.
Proof. revert seen. induction l as [|x l IH]; intros; simpl; congruence. Qed.

(** An item may move in front of items of other digits. *)
Lemma tag_ranks_move x l1 l2 : forall seen,
  Forall (fun y => f y <> f x) l1 ->
  Permutation (tag_ranks f seen (l1 ++ x :: l2)) (tag_ranks f seen (x :: l1 ++ l2)).
Proof.
  induction l1 as [|y l1 IH]; intros seen Hl1; [reflexivity|].
  inversion Hl1 as [|? ? Hy Hl1']; subst.
  change ((y :: l1) ++ x :: l2) with (y :: (l1 ++ x :: l2)).
  cbn [tag_ranks app].
  etransitivity; [apply perm_skip, IH; assumption|].
  cbn [tag_ranks]. rewrite !upd_other by congruence.
  etransitivity; [apply perm_swap|].
  do 2 apply perm_skip. erewrite tag_ranks_ext; [reflexivity|].
  intros d. unfold upd.
  destruct (Z.eqb_spec d (f x)), (Z.eqb_spec d (f y)); congruence.
Qed.

Lemma tag_ranks_insert x l seen :
  sorted_by f l ->
  Permutation (tag_ranks f seen (insert_by f x l)) (tag_ranks f seen (x :: l)).
Proof.
  intros Hs. destruct (insert_by_split f x l Hs) as (l1 & l2 & -> & -> & H1 & _).
  apply tag_ranks_move. eapply Forall_impl; [|exact H1]. simpl. intros. lia.
Qed.

Lemma tag_ranks_perm_tail x l l' seen :
  (forall seen, Permutation (tag_ranks f seen l) (tag_ranks f seen l')) ->
  Permutation (tag_ranks f seen (x :: l)) (tag_ranks f seen (x :: l')).
Proof. intros H. simpl. constructor. apply H. Qed.

(** The stable sort keeps the rank of every item. *)
Lemma tag_ranks_sort l : forall seen,
  Permutation (tag_ranks f seen (stable_sort_by f l)) (tag_ranks f seen l).
Proof.
  induction l as [|x l IH]; intros seen; [reflexivity|].
  cbn [stable_sort_by]. rewrite tag_ranks_insert by apply stable_sort_by_sorted.
  now apply tag_ranks_perm_tail.
Qed.

Lemma tag_ranks_snoc l x : forall seen,
  tag_ranks f seen (l ++ [x]) =
  tag_ranks f seen l
  ++ [(seen (f x) + Z.of_nat (length (filter (fun y => f y =? f x) l)), x)].
Proof.
  induction l as [|y l IH]; intros seen; simpl.
  - now rewrite Z.add_0_r.
  - rewrite IH. do 3 f_equal. unfold upd.
    destruct (Z.eqb_spec (f x) (f y)) as [E|E].
    + rewrite E, Z.eqb_refl. simpl length. f_equal. lia.
    + replace (f y =? f x) with false by (symmetry; apply Z.eqb_neq; congruence).
      reflexivity.
Qed.

Lemma filter_length_zrange (item : Z -> A) (P : A -> bool) n :
  Z.of_nat (length (filter P (map item (zrange n)))) = zcount (fun q => P (item q)) n.
Proof.
  destruct (Z.le_gt_cases 0 n) as [Hn|Hn];
    [|unfold zcount; now rewrite zrange_nonpos, zsum_nonpos by lia].
  revert n Hn. apply zrange_ind.
  - unfold zcount. now rewrite zrange_nonpos, zsum_nonpos by lia.
  - intros n Hn IH.
    rewrite zrange_succ, map_app, filter_app, length_app, zcount_succ by lia.
    rewrite Nat2Z.inj_add, IH. simpl. now destruct (P (item n)).
Qed.

(** The ranks of a tile given by its items. *)
Lemma tag_ranks_zrange (item : Z -> A) seen n :
  tag_ranks f seen (map item (zrange n)) =
  map (fun q => (seen (f (item q))
                 + zcount (fun q' => f (item q') =? f (item q)) q, item q))
      (zrange n).
Proof.
  destruct (Z.le_gt_cases 0 n) as [Hn|Hn]; [|now rewrite zrange_nonpos by lia].
  revert n Hn. apply zrange_ind.
  - now rewrite zrange_nonpos by lia.
  - intros n Hn IH. rewrite zrange_succ, !map_app by lia. cbn [map].
    now rewrite tag_ranks_snoc, IH, filter_length_zrange.
Qed.
End Ranks.

(** ** Runs of a sorted tile *)

Section Runs.
Variables (sdig : Z -> Z) (n : Z).
Hypothesis sdig_mono : forall q p, 0 <= q <= p -> p < n -> sdig q <= sdig p.

(** The number of items below the digit [d]: where the run of [d] starts. *)
Definition run_start (d : Z) : Z := zcount (fun q => sdig q <? d) n.

Lemma run_start_bounds d : 0 <= n -> 0 <= run_start d <= n.
Proof. apply zcount_bounds. Qed.

Lemma zcount_all P k : 0 <= k -> (forall q, 0 <= q < k -> P q = true) -> zcount P k = k.
Proof.
  intros Hk. revert k Hk. apply (zrange_ind (fun k => _ -> _)).
  - intros. unfold zcount. now rewrite zsum_nonpos.
  - intros k Hk IH H. rewrite zcount_succ, IH, H by (try intros; try apply H; lia).
    simpl. lia.
Qed.

Lemma zcount_none P k : (forall q, 0 <= q < k -> P q = false) -> zcount P k = 0.
Proof. intros H. apply zsum_zero. intros. now rewrite H. Qed.

Lemma zcount_split P a b :
  0 <= a -> 0 <= b -> zcount P (a + b) = zcount P a + zcount (fun q => P (a + q)) b.
Proof. intros. unfold zcount. now rewrite zsum_split. Qed.

Lemma run_start_prefix d q : 0 <= q < n -> sdig q < d <-> q < run_start d.
Proof.
  intros Hq. unfold run_start. split; intros H.
  - replace n with ((q + 1) + (n - (q + 1))) by lia.
    rewrite zcount_split by lia.
    rewrite (zcount_all _ (q + 1)); [|lia|].
    + pose proof (zcount_bounds (fun q0 => sdig (q + 1 + q0) <? d) (n - (q + 1))
                    ltac:(lia)). lia.
    + intros q' Hq'. apply Z.ltb_lt. specialize (sdig_mono q' q). lia.
  - destruct (Z_lt_le_dec (sdig q) d) as [Hlt|Hge]; [assumption|exfalso].
    replace n with (q + (n - q)) in H by lia.
    rewrite zcount_split in H by lia.
    rewrite (zcount_none (fun q0 => sdig (q + q0) <? d)) in H.
    + pose proof (zcount_bounds (fun q0 => sdig q0 <? d) q ltac:(lia)). lia.
    + intros q' Hq'. apply Z.ltb_ge. specialize (sdig_mono q (q + q')). lia.
Qed.

(** Within a sorted tile, the rank of an item among the items of its digit
    is its distance from the start of the run. *)
Lemma rank_in_run p :
  0 <= p < n -> zcount (fun q => sdig q =? sdig p) p = p - run_start (sdig p).
Proof.
  intros Hp.
  assert (Hsplit : run_start (sdig p) = zcount (fun q => sdig q <? sdig p) p).
  { unfold run_start. replace n with (p + (n - p)) at 1 by lia.
    rewrite zcount_split by lia.
    rewrite (zcount_none (fun q => sdig (p + q) <? sdig p)); [lia|].
    intros q Hq. apply Z.ltb_ge. apply sdig_mono; lia. }
  rewrite Hsplit.
  assert (Hsum : zcount (fun q => sdig q =? sdig p) p
                 + zcount (fun q => sdig q <? sdig p) p = p).
  { unfold zcount. rewrite <- zsum_add.
    rewrite <- (zcount_all (fun _ => true) p) at 2 by (intros; lia || reflexivity).
    apply zsum_ext. intros q Hq. specialize (sdig_mono q p ltac:(lia) ltac:(lia)).
    destruct (Z.eqb_spec (sdig q) (sdig p)), (Z.ltb_spec (sdig q) (sdig p));
      simpl; lia. }
  lia.
Qed.

(** The head of a run sits at the start of the run. *)
Lemma head_at_run_start p :
  0 <= p < n -> (p = 0 \/ sdig (p - 1) <> sdig p) -> p = run_start (sdig p).
Proof.
  intros Hp Hhead.
  pose proof (run_start_bounds (sdig p) ltac:(lia)).
  pose proof (run_start_prefix (sdig p) p Hp) as Hpre.
  destruct Hhead as [->|Hne]; [lia|].
  destruct (Z.eq_dec p 0) as [->|Hpos]; [lia|].
  pose proof (run_start_prefix (sdig p) (p - 1) ltac:(lia)) as Hpre'.
  specialize (sdig_mono (p - 1) p ltac:(lia) ltac:(lia)). lia.
Qed.

Lemma run_start_is_head d p :
  0 <= p < n -> sdig p = d ->
  0 <= run_start d <= p /\ sdig (run_start d) = d /\
  (run_start d = 0 \/ sdig (run_start d - 1) <> d).
Proof.
  intros Hp Hd.
  pose proof (run_start_bounds d ltac:(lia)).
  pose proof (run_start_prefix d p Hp) as Hpre.
  assert (Hle : run_start d <= p) by lia.
  pose proof (run_start_prefix d (run_start d) ltac:(lia)) as Hpre0.
  pose proof (sdig_mono (run_start d) p ltac:(lia) ltac:(lia)).
  repeat split; try lia.
  destruct (Z.eq_dec (run_start d) 0) as [Hz|Hnz]; [now left|right].
  pose proof (run_start_prefix d (run_start d - 1) ltac:(lia)). lia.
Qed.

(** The tail of a run sits just before the start of the next run. *)
Lemma tail_at_run_end p :
  0 <= p < n -> (p = n - 1 \/ sdig p <> sdig (p + 1)) ->
  p = run_start (sdig p + 1) - 1.
Proof.
  intros Hp Htail.
  pose proof (run_start_bounds (sdig p + 1) ltac:(lia)).
  pose proof (run_start_prefix (sdig p + 1) p Hp) as Hpre.
  destruct Htail as [->|Hne]; [lia|].
  destruct (Z.eq_dec p (n - 1)) as [->|Hlt]; [lia|].
  pose proof (run_start_prefix (sdig p + 1) (p + 1) ltac:(lia)) as Hpre'.
  specialize (sdig_mono p (p + 1) ltac:(lia) ltac:(lia)). lia.
Qed.

Lemma run_end_is_tail d p :
  0 <= p < n -> sdig p = d ->
  p <= run_start (d + 1) - 1 < n /\ sdig (run_start (d + 1) - 1) = d /\
  (run_start (d + 1) - 1 = n - 1 \/
   sdig (run_start (d + 1) - 1) <> sdig (run_start (d + 1))).
Proof.
  intros Hp Hd.
  pose proof (run_start_bounds (d + 1) ltac:(lia)).
  pose proof (run_start_prefix (d + 1) p Hp) as Hpre.
  assert (Hle : p < run_start (d + 1)) by lia.
  pose proof (run_start_prefix (d + 1) (run_start (d + 1) - 1) ltac:(lia)) as Hpre0.
  pose proof (sdig_mono p (run_start (d + 1) - 1) ltac:(lia) ltac:(lia)).
  assert (Hlast : sdig (run_start (d + 1) - 1) = d) by lia.
  repeat split; try lia.
  destruct (Z.eq_dec (run_start (d + 1)) n) as [Hz|Hnz]; [left; lia|right].
  pose proof (run_start_prefix (d + 1) (run_start (d + 1)) ltac:(lia)). lia.
Qed.

(** The items of the digit [d] among the first [k] items of the tile. *)
Lemma run_count d k :
  0 <= k <= n ->
  zcount (fun q => sdig q =? d) k =
  Z.max 0 (Z.min k (run_start (d + 1)) - run_start d).
Proof.
  intros Hk.
  assert (Heq : forall q, 0 <= q < n ->
            (sdig q =? d) = (q <? run_start (d + 1)) && negb (q <? run_start d)).
  { intros q Hq. pose proof (run_start_prefix (d + 1) q Hq).
    pose proof (run_start_prefix d q Hq).
    destruct (Z.eqb_spec (sdig q) d), (Z.ltb_spec q (run_start (d + 1))),
      (Z.ltb_spec q (run_start d)); simpl; try reflexivity; lia. }
  rewrite (zcount_ext _ (fun q => (q <? run_start (d + 1)) && negb (q <? run_start d)))
    by (intros; apply Heq; lia).
  pose proof (run_start_bounds d ltac:(lia)) as Hb1.
  pose proof (run_start_bounds (d + 1) ltac:(lia)) as Hb2.
  assert (Hmono : run_start d <= run_start (d + 1)).
  { unfold run_start, zcount. apply zsum_le. intros q Hq.
    destruct (Z.ltb_spec (sdig q) d), (Z.ltb_spec (sdig q) (d + 1)); simpl; lia. }
  clear Heq. generalize dependent (run_start (d + 1)). generalize dependent (run_start d).
  intros a Ha b Hb Hab.
  destruct Hk as [Hk0 Hkn]. clear Hkn. revert k Hk0. apply zrange_ind.
  - unfold zcount. rewrite zsum_nonpos; lia.
  - intros k Hk IH. rewrite zcount_succ, IH by lia.
    destruct (Z.ltb_spec k b), (Z.ltb_spec k a); simpl; lia.
Qed.
End Runs.

(** ** sort_and_scatter: one block *)

Lemma combine_map {A B C : Type} (g : A -> B) (h : A -> C) l :
  combine (map g l) (map h l) = map (fun x => (g x, h x)) l.
Proof. induction l as [|x l IH]; simpl; congruence. Qed.

Lemma flat_map_map {A B C : Type} (g : A -> B) (h : B -> list C) l :
  flat_map h (map g l) = flat_map (fun x => h (g x)) l.
Proof. induction l as [|x l IH]; simpl; congruence. Qed.

Lemma flat_map_ext_in {A B : Type} (g h : A -> list B) l :
  (forall x, In x l -> g x = h x) -> flat_map g l = flat_map h l.
Proof.
  induction l as [|x l IH]; intros H; simpl; [reflexivity|].
  rewrite H by now left. f_equal. apply IH. intros. apply H. now right.
Qed.

Lemma flat_map_nil {A B : Type} (g : A -> list B) l :
  (forall x, In x l -> g x = []) -> flat_map g l = [].
Proof.
  induction l as [|x l IH]; intros H; simpl; [reflexivity|].
  rewrite H by now left. apply IH. intros. apply H. now right.
Qed.

Lemma for_stores_guard {E : Type} (g : Z -> list E) k n :
  0 <= k <= n ->
  for_stores n (fun q => if q <? k then g q else []) = for_stores k g.
Proof.
  intros Hk. unfold for_stores. rewrite (zrange_app k n Hk), flat_map_app.
  rewrite <- app_nil_r. f_equal.
  - apply flat_map_ext_in. intros q Hq. apply in_zrange in Hq.
    now replace (q <? k) with true by (symmetry; apply Z.ltb_lt; lia).
  - apply flat_map_nil. intros q Hq. apply in_map_iff in Hq as (y & <- & Hy).
    apply in_zrange in Hy.
    now replace (k + y <? k) with false by (symmetry; apply Z.ltb_ge; lia).
Qed.

Lemma map_nth_zrange {A : Type} (l : list A) d :
  map (fun q => nth (Z.to_nat q) l d) (zrange (Z.of_nat (length l))) = l.
Proof.
  apply nth_ext with (d := d) (d' := d).
  - now rewrite length_map, length_zrange, Nat2Z.id.
  - intros k Hk. rewrite length_map, length_zrange, Nat2Z.id in Hk.
    rewrite <- (Nat2Z.id k) at 1.
    rewrite (nth_map_zrange (fun q => nth (Z.to_nat q) l d)) by lia.
    now rewrite Nat2Z.id.
Qed.

Lemma sorted_by_nth {A : Type} (f : A -> Z) (l : list A) d q p :
  sorted_by f l -> (q <= p < length l)%nat -> f (nth q l d) <= f (nth p l d).
Proof.
  intros Hs. revert q p. induction Hs as [|x l Hs IH Hall]; intros q p Hqp;
    simpl in Hqp; [lia|].
  destruct q as [|q], p as [|p]; simpl; try lia.
  - rewrite Forall_forall in Hall. apply Hall. apply nth_In. lia.
  - apply IH. lia.
Qed.

Section ScatterPhases.
Variables BlockSize ItemsPerThread RadixBits : Z.
Hypothesis BlockSize_pos : 0 < BlockSize.
Hypothesis ItemsPerThread_pos : 0 < ItemsPerThread.
Hypothesis RadixBits_nonneg : 0 <= RadixBits.
Hypothesis radix_fits : radix_size RadixBits <= BlockSize.
Hypothesis tile_small : BlockSize * ItemsPerThread < 2 ^ 16.

Let rs := radix_size RadixBits.
Let ipb := items_per_block BlockSize ItemsPerThread.

Lemma reset_runs_spec valid_count s :
  block_starts (reset_runs BlockSize RadixBits valid_count s) = block_starts s /\
  forall d, 0 <= d < rs ->
    starts (reset_runs BlockSize RadixBits valid_count s) d = wrap16 valid_count /\
    ends (reset_runs BlockSize RadixBits valid_count s) d = wrap16 valid_count.
Proof.
  unfold reset_runs.
  pose proof (for_loop_inv (fun k acc =>
    block_starts acc = block_starts s /\
    forall d, 0 <= d < k -> d < rs ->
      starts acc d = wrap16 valid_count /\ ends acc d = wrap16 valid_count)
    BlockSize
    (fun flat_id s0 =>
       if flat_id <? radix_size RadixBits
       then set_ends (set_starts s0 flat_id valid_count) flat_id valid_count
       else s0) s ltac:(lia)) as Hloop.
  destruct Hloop as [Hbs Hruns].
  - split; [reflexivity | intros; lia].
  - intros k acc Hk [Hbs IH]. fold rs. destruct (k <? rs) eqn:E.
    + split; [exact Hbs|]. intros d Hd Hdr. simpl.
      destruct (Z.eq_dec d k) as [->|Hne]; [now rewrite !upd_same|].
      rewrite !upd_other by assumption. apply IH; lia.
    + apply Z.ltb_ge in E. split; [exact Hbs|]. intros d Hd Hdr. apply IH; lia.
  - split; [exact Hbs|]. intros d Hd. apply Hruns; unfold rs in *; lia.
Qed.

Lemma find_runs_spec digits head_flags tail_flags s :
  let pos q := add32 (mul32 (q mod BlockSize) ItemsPerThread) (q / BlockSize) in
  let r := find_runs BlockSize ItemsPerThread digits head_flags tail_flags s in
  starts r =
    writes (fun q => head_flags (q mod BlockSize) (q / BlockSize))
           (fun q => digits (q mod BlockSize) (q / BlockSize))
           (fun q => wrap16 (pos q)) (ItemsPerThread * BlockSize) (starts s) /\
  ends r =
    writes (fun q => tail_flags (q mod BlockSize) (q / BlockSize))
           (fun q => digits (q mod BlockSize) (q / BlockSize))
           (fun q => wrap16 (pos q)) (ItemsPerThread * BlockSize) (ends s) /\
  block_starts r = block_starts s.
Proof.
  intros pos r. subst r. unfold find_runs. rewrite for_loop_nested by lia.
  apply (for_loop_inv (fun k acc =>
    starts acc =
      writes (fun q => head_flags (q mod BlockSize) (q / BlockSize))
             (fun q => digits (q mod BlockSize) (q / BlockSize))
             (fun q => wrap16 (pos q)) k (starts s) /\
    ends acc =
      writes (fun q => tail_flags (q mod BlockSize) (q / BlockSize))
             (fun q => digits (q mod BlockSize) (q / BlockSize))
             (fun q => wrap16 (pos q)) k (ends s) /\
    block_starts acc = block_starts s)); [nia| |].
  - unfold writes. now rewrite !for_loop_nonpos by lia.
  - intros k acc Hk (Hs & He & Hb). unfold writes in *.
    rewrite !for_loop_succ by lia. rewrite <- Hs, <- He.
    destruct (head_flags (k mod BlockSize) (k / BlockSize)),
      (tail_flags (k mod BlockSize) (k / BlockSize)); simpl; auto.
Qed.

Lemma advance_block_starts_spec valid_count s :
  let r := advance_block_starts BlockSize RadixBits valid_count s in
  starts r = starts s /\ ends r = ends s /\
  forall d, 0 <= d < rs ->
    block_starts r d =
    if starts s d <? valid_count
    then add32 (block_starts s d)
               (add32 (sub32 (min (sub32 valid_count 1) (ends s d)) (starts s d)) 1)
    else block_starts s d.
Proof.
  intros r. subst r. unfold advance_block_starts.
  pose proof (for_loop_inv (fun k acc =>
    starts acc = starts s /\ ends acc = ends s /\
    forall d,
      block_starts acc d =
      if (0 <=? d) && (d <? k) && (d <? rs) && (starts s d <? valid_count)
      then add32 (block_starts s d)
                 (add32 (sub32 (min (sub32 valid_count 1) (ends s d)) (starts s d)) 1)
      else block_starts s d)
    BlockSize
    (fun flat_id s0 =>
       if flat_id <? radix_size RadixBits
       then if starts s0 flat_id <? valid_count
            then set_block_starts s0 flat_id
                   (add32 (block_starts s0 flat_id)
                      (add32 (sub32 (min (sub32 valid_count 1) (ends s0 flat_id))
                                (starts s0 flat_id)) 1))
            else s0
       else s0) s ltac:(lia)) as Hloop.
  destruct Hloop as (Hs & He & Hb).
  - repeat split. intros d.
    replace (d <? 0) with (negb (0 <=? d)) by
      (destruct (Z.leb_spec 0 d), (Z.ltb_spec d 0); simpl; lia || reflexivity).
    now rewrite andb_negb_r.
  - intros k acc Hk (Hs & He & Hb). fold rs.
    assert (Hother : forall d,
      (if (0 <=? d) && (d <? k) && (d <? rs) && (starts s d <? valid_count)
       then add32 (block_starts s d)
              (add32 (sub32 (min (sub32 valid_count 1) (ends s d)) (starts s d)) 1)
       else block_starts s d) =
      (if (0 <=? d) && (d <? k + 1) && (d <? rs) && (starts s d <? valid_count)
       then add32 (block_starts s d)
              (add32 (sub32 (min (sub32 valid_count 1) (ends s d)) (starts s d)) 1)
       else block_starts s d) \/ d = k).
    { intros d. destruct (Z.eq_dec d k); [now right|left].
      replace (d <? k + 1) with (d <? k); [reflexivity|].
      destruct (Z.ltb_spec d k), (Z.ltb_spec d (k + 1)); lia || reflexivity. }
    destruct (k <? rs) eqn:E1.
    + rewrite Hs, He. destruct (starts s k <? valid_count) eqn:E2.
      * repeat split; try assumption. intros d. simpl.
        destruct (Z.eq_dec d k) as [->|Hne].
        -- rewrite upd_same, Hb, E1, E2.
           replace (k <? k) with false by (symmetry; apply Z.ltb_ge; lia).
           replace (k <? k + 1) with true by (symmetry; apply Z.ltb_lt; lia).
           replace (0 <=? k) with true by (symmetry; apply Z.leb_le; lia).
           reflexivity.
        -- rewrite upd_other, Hb by assumption.
           destruct (Hother d); [assumption | contradiction].
      * repeat split; try assumption. intros d. rewrite Hb.
        destruct (Hother d) as [H| ->]; [assumption|].
        now rewrite E2, !andb_false_r.
    + repeat split; try assumption. intros d. rewrite Hb.
      destruct (Hother d) as [H| ->]; [assumption|].
      now rewrite E1, !andb_false_r.
  - repeat split; try assumption. intros d Hd. rewrite Hb.
    replace (0 <=? d) with true by (symmetry; apply Z.leb_le; lia).
    replace (d <? BlockSize) with true by (symmetry; apply Z.ltb_lt; unfold rs in *; lia).
    replace (d <? rs) with true by (symmetry; apply Z.ltb_lt; lia).
    reflexivity.
Qed.
End ScatterPhases.

Lemma blocked_pos_decompose ItemsPerThread BlockSize p :
  0 < ItemsPerThread -> 0 <= p < BlockSize * ItemsPerThread ->
  0 <= p / ItemsPerThread < BlockSize /\ 0 <= p mod ItemsPerThread < ItemsPerThread /\
  p / ItemsPerThread * ItemsPerThread + p mod ItemsPerThread = p.
Proof.
  intros Hi Hp.
  pose proof (Z.div_mod p ItemsPerThread ltac:(lia)).
  pose proof (Z.mod_pos_bound p ItemsPerThread ltac:(lia)).
  assert (0 <= p / ItemsPerThread) by (apply Z.div_pos; lia).
  assert (p / ItemsPerThread < BlockSize) by (apply Z.div_lt_upper_bound; nia).
  lia.
Qed.

Lemma zcount_zero_none P n q :
  zcount P n = 0 -> 0 <= q < n -> P q = false.
Proof.
  intros Hz Hq. destruct (P q) eqn:E; [exfalso|reflexivity].
  unfold zcount in Hz.
  assert (Hnn : forall j, 0 <= j < n -> 0 <= Z.b2z (P j))
    by (intros j _; destruct (P j); simpl; lia).
  pose proof (zsum_term_le (fun i => Z.b2z (P i)) n q Hnn Hq) as Hle.
  simpl in Hle. rewrite E in Hle. simpl in Hle. lia.
Qed.

(** *** The runs found by lines 374-400 *)

Section RunsOfTile.
Variables BlockSize ItemsPerThread RadixBits : Z.
Hypothesis BlockSize_pos : 0 < BlockSize.
Hypothesis ItemsPerThread_pos : 0 < ItemsPerThread.
Hypothesis RadixBits_nonneg : 0 <= RadixBits.
Hypothesis radix_fits : radix_size RadixBits <= BlockSize.
Hypothesis tile_small : BlockSize * ItemsPerThread < 2 ^ 16.

Let rs := radix_size RadixBits.
Let n := BlockSize * ItemsPerThread.

Variables (sdig : Z -> Z) (digits : regs Z) (valid_count : Z) (s1 : scatter_storage).
Hypothesis sdig_mono : forall q p, 0 <= q <= p -> p < n -> sdig q <= sdig p.
Hypothesis digits_at :
  forall p, 0 <= p < n -> digits (p / ItemsPerThread) (p mod ItemsPerThread) = sdig p.
Hypothesis valid_count_range : 0 <= valid_count <= n.
Hypothesis runs_reset :
  forall d, 0 <= d < rs -> starts s1 d = valid_count /\ ends s1 d = valid_count.

Let flags := flag_heads_and_tails BlockSize ItemsPerThread digits not_equal_to.
Let s2 := find_runs BlockSize ItemsPerThread digits (fst flags) (snd flags) s1.

(** The thread and item that hold the position [p] of the blocked tile,
    as an iteration of the flattened loop of lines 388-400. *)
Let slot p := p mod ItemsPerThread * BlockSize + p / ItemsPerThread.

Lemma slot_spec p :
  0 <= p < n ->
  0 <= slot p < ItemsPerThread * BlockSize /\
  slot p mod BlockSize = p / ItemsPerThread /\
  slot p / BlockSize = p mod ItemsPerThread.
Proof.
  intros Hp. unfold slot.
  destruct (blocked_pos_decompose ItemsPerThread BlockSize p ItemsPerThread_pos Hp)
    as (H1 & H2 & H3).
  rewrite mod_mul_add, div_mul_add by lia. repeat split; nia.
Qed.

Lemma slot_pos q :
  0 <= q < ItemsPerThread * BlockSize ->
  let p := q mod BlockSize * ItemsPerThread + q / BlockSize in
  0 <= p < n /\ p / ItemsPerThread = q mod BlockSize /\
  p mod ItemsPerThread = q / BlockSize /\
  wrap16 (add32 (mul32 (q mod BlockSize) ItemsPerThread) (q / BlockSize)) = p.
Proof.
  intros Hq p.
  destruct (blocked_pos_decompose BlockSize ItemsPerThread q BlockSize_pos
              ltac:(lia)) as (H1 & H2 & H3).
  assert (Hp : 0 <= p < n) by (unfold p, n; nia).
  split; [exact Hp|]. unfold p.
  rewrite div_mul_add, mod_mul_add by lia. repeat split.
  unfold n in *. unwrap. apply wrap16_small. lia.
Qed.

Lemma head_flag_spec p :
  0 <= p < n ->
  fst flags (p / ItemsPerThread) (p mod ItemsPerThread) = true <->
  (p = 0 \/ sdig (p - 1) <> sdig p).
Proof.
  intros Hp. unfold flags, flag_heads_and_tails. cbn [fst].
  destruct (blocked_pos_decompose ItemsPerThread BlockSize p ItemsPerThread_pos Hp)
    as (_ & _ & ->).
  rewrite orb_true_iff, Z.eqb_eq. unfold not_equal_to. rewrite negb_true_iff, Z.eqb_neq.
  split; (intros [H|H]; [now left|]).
  - destruct (Z.eq_dec p 0); [now left|right].
    now rewrite !digits_at in H by (fold n; lia).
  - destruct (Z.eq_dec p 0); [now left|right].
    now rewrite !digits_at by (fold n; lia).
Qed.

Lemma tail_flag_spec p :
  0 <= p < n ->
  snd flags (p / ItemsPerThread) (p mod ItemsPerThread) = true <->
  (p = n - 1 \/ sdig p <> sdig (p + 1)).
Proof.
  intros Hp. unfold flags, flag_heads_and_tails. cbn [snd].
  destruct (blocked_pos_decompose ItemsPerThread BlockSize p ItemsPerThread_pos Hp)
    as (_ & _ & ->).
  rewrite orb_true_iff, Z.eqb_eq. unfold not_equal_to. rewrite negb_true_iff, Z.eqb_neq.
  fold n.
  split; (intros [H|H]; [now left|]).
  - destruct (Z.eq_dec p (n - 1)); [now left|right].
    now rewrite !digits_at in H by lia.
  - destruct (Z.eq_dec p (n - 1)); [now left|right].
    now rewrite !digits_at by lia.
Qed.

Lemma block_starts_kept : block_starts s2 = block_starts s1.
Proof. apply find_runs_spec; assumption. Qed.

(** The run of a digit of the tile starts at [run_start]. *)
Lemma starts_present d p :
  0 <= p < n -> sdig p = d -> starts s2 d = run_start sdig n d.
Proof.
  intros Hp Hd.
  destruct (find_runs_spec BlockSize ItemsPerThread RadixBits BlockSize_pos
              ItemsPerThread_pos digits (fst flags) (snd flags) s1) as (Hs & _ & _).
  fold s2 in Hs. rewrite Hs.
  destruct (run_start_is_head sdig n sdig_mono d p Hp Hd) as (Hr & Hrd & Hhead).
  set (p0 := run_start sdig n d) in *.
  destruct (slot_spec p0 ltac:(lia)) as (Hq & Hqm & Hqd).
  apply writes_hit with (q0 := slot p0); [lia | | |].
  - rewrite Hqm, Hqd. apply head_flag_spec; [lia|]. now rewrite Hrd.
  - rewrite Hqm, Hqd, digits_at by lia. exact Hrd.
  - intros q Hq' Hc Ha.
    destruct (slot_pos q Hq') as (Hpr & Hpd & Hpm & ->).
    set (p' := q mod BlockSize * ItemsPerThread + q / BlockSize) in *.
    rewrite <- Hpd, <- Hpm in Hc, Ha.
    rewrite digits_at in Ha by assumption.
    apply head_flag_spec in Hc; [|assumption].
    rewrite (head_at_run_start sdig n sdig_mono p' Hpr Hc). now rewrite Ha.
Qed.

(** ... and ends just before the run of the next digit. *)
Lemma ends_present d p :
  0 <= p < n -> sdig p = d -> ends s2 d = run_start sdig n (d + 1) - 1.
Proof.
  intros Hp Hd.
  destruct (find_runs_spec BlockSize ItemsPerThread RadixBits BlockSize_pos
              ItemsPerThread_pos digits (fst flags) (snd flags) s1) as (_ & He & _).
  fold s2 in He. rewrite He.
  destruct (run_end_is_tail sdig n sdig_mono d p Hp Hd) as (Hr & Hrd & Htail).
  set (p0 := run_start sdig n (d + 1) - 1) in *.
  destruct (slot_spec p0 ltac:(lia)) as (Hq & Hqm & Hqd).
  apply writes_hit with (q0 := slot p0); [lia | | |].
  - rewrite Hqm, Hqd. apply tail_flag_spec; [lia|].
    destruct Htail as [Ht|Ht]; [now left|right].
    replace (p0 + 1) with (run_start sdig n (d + 1)) by (unfold p0; lia).
    exact Ht.
  - rewrite Hqm, Hqd, digits_at by lia. exact Hrd.
  - intros q Hq' Hc Ha.
    destruct (slot_pos q Hq') as (Hpr & Hpd & Hpm & ->).
    set (p' := q mod BlockSize * ItemsPerThread + q / BlockSize) in *.
    rewrite <- Hpd, <- Hpm in Hc, Ha.
    rewrite digits_at in Ha by assumption.
    apply tail_flag_spec in Hc; [|assumption].
    rewrite (tail_at_run_end sdig n sdig_mono p' Hpr Hc). now rewrite Ha.
Qed.

(** A digit that the tile does not hold keeps the initial bounds. *)
Lemma runs_absent d :
  0 <= d < rs -> (forall p, 0 <= p < n -> sdig p <> d) ->
  starts s2 d = valid_count /\ ends s2 d = valid_count.
Proof.
  intros Hd Habs.
  destruct (find_runs_spec BlockSize ItemsPerThread RadixBits BlockSize_pos
              ItemsPerThread_pos digits (fst flags) (snd flags) s1) as (Hs & He & _).
  fold s2 in Hs, He. rewrite Hs, He.
  destruct (runs_reset d Hd) as [Hr1 Hr2].
  split; (etransitivity; [apply writes_miss | eassumption]); intros q Hq _ Ha;
    destruct (slot_pos q Hq) as (Hpr & Hpd & Hpm & _);
    set (p' := q mod BlockSize * ItemsPerThread + q / BlockSize) in *;
    rewrite <- Hpd, <- Hpm, digits_at in Ha by assumption;
    exact (Habs _ Hpr Ha).
Qed.

(** Lines 429-439 move the offset of every digit past the valid items of
    the tile that hold it. *)
Lemma advance_spec d :
  0 <= d < rs -> 0 < valid_count -> 0 <= block_starts s1 d < 2 ^ 32 ->
  block_starts (advance_block_starts BlockSize RadixBits valid_count s2) d =
  add32 (block_starts s1 d) (zcount (fun q => sdig q =? d) valid_count).
Proof.
  intros Hd Hvc Hbs.
  destruct (advance_block_starts_spec BlockSize ItemsPerThread RadixBits
              BlockSize_pos radix_fits valid_count s2) as (_ & _ & Hadv).
  rewrite (Hadv d Hd), block_starts_kept.
  rewrite (run_count sdig n sdig_mono d valid_count valid_count_range).
  pose proof (run_start_bounds sdig n d ltac:(unfold n; lia)) as Hb1.
  pose proof (run_start_bounds sdig n (d + 1) ltac:(unfold n; lia)) as Hb2.
  destruct (Z.eq_dec (zcount (fun q => sdig q =? d) n) 0) as [Hz|Hnz].
  - destruct (runs_absent d Hd) as [Hs He].
    { intros p Hp Heq. pose proof (zcount_zero_none _ n p Hz Hp) as Hf.
      simpl in Hf. apply Z.eqb_neq in Hf. contradiction. }
    rewrite Hs. replace (valid_count <? valid_count) with false
      by (symmetry; apply Z.ltb_ge; lia).
    rewrite (run_count sdig n sdig_mono d n ltac:(unfold n; lia)) in Hz.
    replace (Z.max 0 (Z.min valid_count (run_start sdig n (d + 1)) - run_start sdig n d))
      with 0 by lia.
    unwrap. lia.
  - pose proof (zcount_bounds (fun q => sdig q =? d) n ltac:(unfold n; lia)) as Hcb.
    assert (Hpos : 0 < zcount (fun q => sdig q =? d) n) by lia.
    apply zcount_first in Hpos as (p & Hp & Hpd & _). apply Z.eqb_eq in Hpd.
    rewrite (starts_present d p Hp Hpd), (ends_present d p Hp Hpd).
    destruct (run_start_is_head sdig n sdig_mono d p Hp Hpd) as (Hr & _ & _).
    destruct (run_end_is_tail sdig n sdig_mono d p Hp Hpd) as (Hr' & _ & _).
    unfold n in *.
    destruct (Z.ltb_spec (run_start sdig (BlockSize * ItemsPerThread) d) valid_count).
    + unfold min. unwrap.
      destruct (Z.ltb_spec (valid_count - 1)
                  (run_start sdig (BlockSize * ItemsPerThread) (d + 1) - 1));
        unwrap; f_equal; lia.
    + replace (Z.max 0 _) with 0 by lia. unwrap. lia.
Qed.
(** The amount of lines 436-437, under the guard of line 435, is the number
    of valid items of the tile that hold the digit. *)
Lemma advance_amount d :
  0 <= d < rs -> 0 < valid_count ->
  (if starts s2 d <? valid_count
   then add32 (sub32 (min (sub32 valid_count 1) (ends s2 d)) (starts s2 d)) 1
   else 0) = zcount (fun q => sdig q =? d) valid_count.
Proof.
  intros Hd Hvc.
  rewrite (run_count sdig n sdig_mono d valid_count valid_count_range).
  pose proof (run_start_bounds sdig n d ltac:(unfold n; lia)) as Hb1.
  pose proof (run_start_bounds sdig n (d + 1) ltac:(unfold n; lia)) as Hb2.
  destruct (Z.eq_dec (zcount (fun q => sdig q =? d) n) 0) as [Hz|Hnz].
  - destruct (runs_absent d Hd) as [Hs He].
    { intros p Hp Heq. pose proof (zcount_zero_none _ n p Hz Hp) as Hf.
      simpl in Hf. apply Z.eqb_neq in Hf. contradiction. }
    rewrite Hs. replace (valid_count <? valid_count) with false
      by (symmetry; apply Z.ltb_ge; lia).
    rewrite (run_count sdig n sdig_mono d n ltac:(unfold n; lia)) in Hz.
    lia.
  - pose proof (zcount_bounds (fun q => sdig q =? d) n ltac:(unfold n; lia)) as Hcb.
    assert (Hpos : 0 < zcount (fun q => sdig q =? d) n) by lia.
    apply zcount_first in Hpos as (p & Hp & Hpd & _). apply Z.eqb_eq in Hpd.
    rewrite (starts_present d p Hp Hpd), (ends_present d p Hp Hpd).
    destruct (run_start_is_head sdig n sdig_mono d p Hp Hpd) as (Hr & _ & _).
    destruct (run_end_is_tail sdig n sdig_mono d p Hp Hpd) as (Hr' & _ & _).
    unfold n in *.
    destruct (Z.ltb_spec (run_start sdig (BlockSize * ItemsPerThread) d) valid_count).
    + unfold min. unwrap.
      destruct (Z.ltb_spec (valid_count - 1)
                  (run_start sdig (BlockSize * ItemsPerThread) (d + 1) - 1));
        unwrap; lia.
    + lia.
Qed.
End RunsOfTile.

(** *** The payload *)

(** What [sort_and_scatter] relies on from the resolution of [sort_block]:
    the keys come back as the keys of the stably sorted pairs, and so do the
    values when there is a payload. *)
Definition payload_ok (BlockSize ItemsPerThread : Z) {Value : Type}
    (P : payload Value) : Prop :=
  forall keys values b e,
    let sorted :=
      stable_sort_by (fun kv => bit_field b e (fst kv))
        (combine (blocked_tile BlockSize ItemsPerThread keys)
                 (blocked_tile BlockSize ItemsPerThread values)) in
    fst (@sort_block Value P keys values b e) =
      blocked_regs ItemsPerThread (map fst sorted) keys /\
    (@with_values Value P = true ->
     snd (@sort_block Value P keys values b e) =
       blocked_regs ItemsPerThread (map snd sorted) values).

Lemma payload_values_ok BlockSize ItemsPerThread (Value : Type) :
  payload_ok BlockSize ItemsPerThread (payload_values BlockSize ItemsPerThread Value).
Proof. intros keys values b e. split; [reflexivity | intros _; reflexivity]. Qed.

Lemma payload_empty_ok BlockSize ItemsPerThread :
  payload_ok BlockSize ItemsPerThread (payload_empty BlockSize ItemsPerThread).
Proof.
  intros keys values b e. split; [|discriminate].
  cbn [sort_block payload_empty sort_block_empty fst]. unfold sort_keys.
  rewrite map_fst_stable_sort_by. unfold blocked_tile.
  now rewrite combine_map, map_map.
Qed.

Lemma blocked_regs_at {A : Type} ItemsPerThread (tile : list A) old d t i :
  0 <= t * ItemsPerThread + i < Z.of_nat (length tile) ->
  blocked_regs ItemsPerThread tile old t i = nth (Z.to_nat (t * ItemsPerThread + i)) tile d.
Proof. intros H. unfold blocked_regs. apply nth_indep. lia. Qed.

Lemma pad_digit bit current_radix_bits key_bits :
  0 <= bit -> 0 <= current_radix_bits -> bit + current_radix_bits <= key_bits ->
  digit_of bit current_radix_bits (Z.ones key_bits) = Z.ones current_radix_bits.
Proof.
  intros Hb Hc Hk. unfold digit_of. apply Z.bits_inj'. intros k Hk0.
  rewrite Z.land_spec, Z.shiftr_spec, !Z.testbit_ones_nonneg by lia.
  destruct (Z.ltb_spec k current_radix_bits); [|now rewrite andb_false_r].
  rewrite andb_true_r. apply Z.ltb_lt. lia.
Qed.

Lemma digit_le_ones bit current_radix_bits k :
  0 <= current_radix_bits ->
  digit_of bit current_radix_bits k <= Z.ones current_radix_bits.
Proof.
  intros Hc. pose proof (digit_of_range bit current_radix_bits k Hc).
  rewrite Z.ones_equiv. lia.
Qed.

Lemma insert_by_ext {A : Type} (f g : A -> Z) x l :
  (forall y, f y = g y) -> insert_by f x l = insert_by g x l.
Proof.
  intros H. induction l as [|y l IH]; simpl; [reflexivity|].
  now rewrite !H, IH.
Qed.

Lemma stable_sort_by_ext {A : Type} (f g : A -> Z) l :
  (forall y, f y = g y) -> stable_sort_by f l = stable_sort_by g l.
Proof.
  intros H. induction l as [|y l IH]; simpl; [reflexivity|].
  now rewrite IH, (insert_by_ext f g).
Qed.

Lemma filter_length_perm {A : Type} (P : A -> bool) l l' :
  Permutation l l' -> length (filter P l) = length (filter P l').
Proof.
  intros H. induction H; simpl; try congruence.
  - destruct (P x); simpl; congruence.
  - destruct (P x), (P y); reflexivity.
Qed.

(** The stores of lines 419-423 for one item. *)
Definition item_stores {KeyOut Value : Type} {key_out_codec : radix_key_codec KeyOut}
    {value_payload : payload Value} (dst : Z) (kv : Z * Value)
  : list (store KeyOut Value) :=
  store_key dst (decode (fst kv))
  :: (if with_values then [store_value dst (snd kv)] else []).

(** The stores of lines 419-423 for the item [g] of the input. *)
Definition stores_of_item {KeyIn KeyOut Value : Type}
    {key_in_codec : radix_key_codec KeyIn} {key_out_codec : radix_key_codec KeyOut}
    {value_payload : payload Value}
    (keys_input : Z -> KeyIn) (values_input : Z -> Value) (dst g : Z)
  : list (store KeyOut Value) :=
  item_stores dst (encode (keys_input g), values_input g).

Section ScatterBlock.
Variables BlockSize ItemsPerThread RadixBits key_bits : Z.
Context {KeyIn KeyOut Value : Type}.
Context {key_in_codec : radix_key_codec KeyIn}.
Context {key_out_codec : radix_key_codec KeyOut}.
Context {value_payload : payload Value}.
Variable values_uninit : Z -> regs Value.
Variable keys_input : Z -> KeyIn.
Variable values_input : Z -> Value.
Variables size bit current_radix_bits : Z.

Hypothesis BlockSize_pos : 0 < BlockSize.
Hypothesis ItemsPerThread_pos : 0 < ItemsPerThread.
Hypothesis RadixBits_range : 0 <= RadixBits < 32.
Hypothesis radix_fits : radix_size RadixBits <= BlockSize.
Hypothesis tile_small : BlockSize * ItemsPerThread < 2 ^ 16.
Hypothesis window_fits : 0 <= current_radix_bits <= RadixBits.
Hypothesis window_in_key : 0 <= bit /\ bit + current_radix_bits <= key_bits.
Hypothesis key_bits_small : key_bits < 2 ^ 32.
Hypothesis size_range : 0 <= size.
Hypothesis size_small : size + BlockSize * ItemsPerThread <= 2 ^ 32.
Hypothesis sentinel : encode (decode (Z.ones key_bits) : KeyIn) = Z.ones key_bits.
Hypothesis sort_block_ok : payload_ok BlockSize ItemsPerThread value_payload.

Let ipb := items_per_block BlockSize ItemsPerThread.
Let rs := radix_size RadixBits.
Let G g := digit_of bit current_radix_bits (encode (keys_input g)).
Let fd (kv : Z * Value) := digit_of bit current_radix_bits (fst kv).

Variables bi block_offset : Z.
Hypothesis offset_range : 0 <= block_offset < size.

Let vc := block_valid_count BlockSize ItemsPerThread size block_offset.
Let keys0 : regs KeyIn :=
  load_keys BlockSize ItemsPerThread key_bits keys_input size block_offset.
Let vals0 : regs Value :=
  load_values BlockSize ItemsPerThread values_input size block_offset (values_uninit bi).
Let cell p :=
  (encode (keys0 (p / ItemsPerThread) (p mod ItemsPerThread)),
   vals0 (p / ItemsPerThread) (p mod ItemsPerThread)).
Let sorted := stable_sort_by fd (map cell (zrange ipb)).
Let snth p := nth (Z.to_nat p) sorted (cell 0).
Let sdig p := fd (snth p).

Lemma ipb_pos : 0 < ipb.
Proof. unfold ipb, items_per_block. nia. Qed.

Lemma vc_spec : vc = Z.min ipb (size - block_offset) /\ 0 < vc <= ipb.
Proof.
  pose proof ipb_pos. unfold vc, block_valid_count. fold ipb.
  assert (Hnext : add32 block_offset ipb = block_offset + ipb)
    by (unfold ipb, items_per_block in *; unwrap; reflexivity).
  rewrite Hnext. destruct (Z.leb_spec (block_offset + ipb) size); [lia|].
  unwrap. lia.
Qed.

Lemma full_test :
  (add32 block_offset (items_per_block BlockSize ItemsPerThread) <=? size) =
  (ipb <=? vc).
Proof.
  destruct vc_spec as [Hvc Hr]. pose proof ipb_pos. fold ipb.
  assert (Hnext : add32 block_offset ipb = block_offset + ipb)
    by (unfold ipb, items_per_block in *; unwrap; reflexivity).
  rewrite Hnext.
  destruct (Z.leb_spec (block_offset + ipb) size), (Z.leb_spec ipb vc);
    lia || reflexivity.
Qed.

Lemma partial_count :
  vc < ipb -> sub32 size block_offset = vc.
Proof.
  intros H. unfold vc, block_valid_count. rewrite full_test.
  destruct (Z.leb_spec ipb vc); [lia | reflexivity].
Qed.

Lemma cell_valid p :
  0 <= p < vc ->
  fst (cell p) = encode (keys_input (block_offset + p)) /\
  (with_values = true -> snd (cell p) = values_input (block_offset + p)).
Proof.
  intros Hp. destruct vc_spec as [_ Hr].
  destruct (blocked_pos_decompose ItemsPerThread BlockSize p ItemsPerThread_pos
              ltac:(unfold ipb, items_per_block in *; lia)) as (_ & _ & Hdm).
  unfold cell, keys0, vals0, load_keys, load_values. cbn [fst snd].
  rewrite full_test. destruct (Z.leb_spec ipb vc).
  - unfold block_load, offset_ptr. rewrite Hdm. split; [reflexivity|].
    intros ->. cbn beta. now rewrite Hdm.
  - rewrite partial_count by lia.
    unfold block_load_valid_default, block_load_valid, offset_ptr. rewrite Hdm.
    replace (p <? vc) with true by (symmetry; apply Z.ltb_lt; lia).
    split; [reflexivity|]. intros ->. cbn beta. rewrite Hdm.
    now replace (p <? vc) with true by (symmetry; apply Z.ltb_lt; lia).
Qed.

Lemma cell_pad p :
  vc <= p < ipb -> fst (cell p) = Z.ones key_bits.
Proof.
  intros Hp. destruct vc_spec as [_ Hr].
  destruct (blocked_pos_decompose ItemsPerThread BlockSize p ItemsPerThread_pos
              ltac:(unfold ipb, items_per_block in *; lia)) as (_ & _ & Hdm).
  unfold cell, keys0, load_keys. cbn [fst]. rewrite full_test.
  destruct (Z.leb_spec ipb vc); [lia|].
  rewrite partial_count by lia. unfold block_load_valid_default. rewrite Hdm.
  replace (p <? vc) with false by (symmetry; apply Z.ltb_ge; lia).
  exact sentinel.
Qed.

Lemma fd_valid p : 0 <= p < vc -> fd (cell p) = G (block_offset + p).
Proof. intros Hp. unfold fd, G. now rewrite (proj1 (cell_valid p Hp)). Qed.

(** The padding stays behind the valid items, which are sorted among
    themselves. *)
Lemma sorted_split :
  sorted = stable_sort_by fd (map cell (zrange vc))
           ++ map cell (map (Z.add vc) (zrange (ipb - vc))).
Proof.
  destruct vc_spec as [_ Hr]. unfold sorted.
  rewrite (zrange_app vc ipb ltac:(lia)), map_app.
  assert (Hpad : forall y, In y (map cell (map (Z.add vc) (zrange (ipb - vc)))) ->
                           fd y = Z.ones current_radix_bits).
  { intros y Hy. apply in_map_iff in Hy as (p & <- & Hp).
    apply in_map_iff in Hp as (k & <- & Hk). apply in_zrange in Hk.
    unfold fd. rewrite cell_pad by lia. apply pad_digit; lia. }
  apply stable_sort_by_app.
  - unfold sorted_by.
    induction (map cell (map (Z.add vc) (zrange (ipb - vc)))) as [|y l IH];
      constructor.
    + apply IH. intros. apply Hpad. now right.
    + apply Forall_forall. intros z Hz.
      rewrite (Hpad y), (Hpad z) by (simpl; auto). lia.
  - apply Forall_forall. intros x _. apply Forall_forall. intros y Hy.
    rewrite (Hpad y Hy). apply digit_le_ones. lia.
Qed.

Lemma sorted_length : length sorted = Z.to_nat ipb.
Proof. unfold sorted. now rewrite stable_sort_by_length, length_map, length_zrange. Qed.

Lemma sdig_mono q p : 0 <= q <= p -> p < ipb -> sdig q <= sdig p.
Proof.
  intros Hq Hp. unfold sdig, snth. apply sorted_by_nth.
  - apply stable_sort_by_sorted.
  - rewrite sorted_length. lia.
Qed.

Lemma snth_valid p :
  0 <= p < vc ->
  snth p = nth (Z.to_nat p) (stable_sort_by fd (map cell (zrange vc))) (cell 0).
Proof.
  intros Hp. unfold snth. rewrite sorted_split. apply app_nth1.
  rewrite stable_sort_by_length, length_map, length_zrange. lia.
Qed.

Lemma snth_pad p : vc <= p < ipb -> snth p = cell p.
Proof.
  intros Hp. destruct vc_spec as [_ Hr]. unfold snth. rewrite sorted_split.
  rewrite app_nth2; rewrite stable_sort_by_length, length_map, length_zrange; [|lia].
  rewrite map_map.
  replace (Z.to_nat p - Z.to_nat vc)%nat with (Z.to_nat (p - vc)) by lia.
  rewrite (nth_map_zrange (fun x => cell (vc + x))) by lia. f_equal. lia.
Qed.

Variable storage : scatter_storage.
Hypothesis block_starts_range :
  forall d, 0 <= d < rs -> 0 <= block_starts storage d < 2 ^ 32.

Let radix_mask := sub32 (shl32 1 current_radix_bits) 1.
Let sb := sort_block (fun flat_id i => encode (keys0 flat_id i)) vals0
            bit (add32 bit current_radix_bits).
Let digits : regs Z := fun flat_id i =>
  Z.land (Z.shiftr (fst sb flat_id i) bit) radix_mask.
Let flags := flag_heads_and_tails BlockSize ItemsPerThread digits not_equal_to.
Let s1 := reset_runs BlockSize RadixBits vc storage.
Let s2 := find_runs BlockSize ItemsPerThread digits (fst flags) (snd flags) s1.

Lemma scatter_block_unfold :
  scatter_block BlockSize ItemsPerThread RadixBits key_bits values_uninit
    keys_input values_input size bit current_radix_bits bi (block_offset, storage) =
  (add32 block_offset ipb,
   advance_block_starts BlockSize RadixBits vc s2,
   scatter_stores BlockSize ItemsPerThread
     (blocked_to_striped BlockSize ItemsPerThread (fst sb))
     (if with_values
      then blocked_to_striped BlockSize ItemsPerThread (snd sb) else snd sb)
     bit radix_mask vc s2).
Proof.
  unfold scatter_block, s2, flags, digits, s1, sb, radix_mask, vc, vals0, keys0.
  destruct (sort_block _ _ _ _) as [bk1 v1]. reflexivity.
Qed.

Lemma radix_mask_eq : radix_mask = Z.ones current_radix_bits.
Proof. apply radix_mask_ones. lia. Qed.

Lemma sorted_pairs :
  stable_sort_by (fun kv => bit_field bit (add32 bit current_radix_bits) (fst kv))
    (combine (blocked_tile BlockSize ItemsPerThread
                (fun flat_id i => encode (keys0 flat_id i)))
             (blocked_tile BlockSize ItemsPerThread vals0)) = sorted.
Proof.
  unfold sorted, blocked_tile. rewrite combine_map. fold ipb.
  apply stable_sort_by_ext. intros kv. unfold bit_field, fd, digit_of.
  replace (add32 bit current_radix_bits - bit) with current_radix_bits;
    [reflexivity|]. unwrap. lia.
Qed.

Lemma sorted_keys_at p :
  0 <= p < ipb -> fst sb (p / ItemsPerThread) (p mod ItemsPerThread) = fst (snth p).
Proof.
  intros Hp. unfold sb. rewrite (proj1 (sort_block_ok _ _ _ _)), sorted_pairs.
  destruct (blocked_pos_decompose ItemsPerThread BlockSize p ItemsPerThread_pos
              ltac:(unfold ipb, items_per_block in *; lia)) as (_ & _ & Hdm).
  rewrite (blocked_regs_at _ _ _ (fst (cell 0)))
    by (rewrite Hdm, length_map, sorted_length; lia).
  rewrite Hdm. unfold snth. apply map_nth.
Qed.

Lemma sorted_values_at p :
  with_values = true -> 0 <= p < ipb ->
  snd sb (p / ItemsPerThread) (p mod ItemsPerThread) = snd (snth p).
Proof.
  intros Hw Hp. unfold sb. rewrite (proj2 (sort_block_ok _ _ _ _) Hw), sorted_pairs.
  destruct (blocked_pos_decompose ItemsPerThread BlockSize p ItemsPerThread_pos
              ltac:(unfold ipb, items_per_block in *; lia)) as (_ & _ & Hdm).
  rewrite (blocked_regs_at _ _ _ (snd (cell 0)))
    by (rewrite Hdm, length_map, sorted_length; lia).
  rewrite Hdm. unfold snth. apply map_nth.
Qed.

Lemma digits_at p :
  0 <= p < BlockSize * ItemsPerThread ->
  digits (p / ItemsPerThread) (p mod ItemsPerThread) = sdig p.
Proof.
  intros Hp. unfold digits. rewrite sorted_keys_at, radix_mask_eq by exact Hp.
  reflexivity.
Qed.

Lemma runs_reset d :
  0 <= d < rs -> starts s1 d = vc /\ ends s1 d = vc.
Proof.
  intros Hd. destruct vc_spec as [_ Hr].
  destruct (reset_runs_spec BlockSize ItemsPerThread RadixBits BlockSize_pos
              radix_fits vc storage) as [_ H].
  destruct (H d Hd) as [H1 H2]. fold s1 in H1, H2. rewrite H1, H2.
  rewrite wrap16_small by (unfold ipb, items_per_block in *; lia). auto.
Qed.

Lemma block_starts_s1 : block_starts s1 = block_starts storage.
Proof.
  apply (reset_runs_spec BlockSize ItemsPerThread RadixBits BlockSize_pos
           radix_fits vc storage).
Qed.

Lemma sdig_mono_tile q p :
  0 <= q <= p -> p < BlockSize * ItemsPerThread -> sdig q <= sdig p.
Proof. apply sdig_mono. Qed.

Lemma vc_range : 0 <= vc <= BlockSize * ItemsPerThread.
Proof. destruct vc_spec as [_ H]. unfold ipb, items_per_block in H. lia. Qed.

Lemma block_starts_s2 : block_starts s2 = block_starts storage.
Proof.
  unfold s2, flags. rewrite block_starts_kept by (assumption || exact 0).
  apply block_starts_s1.
Qed.

(** The stores of the block, by position of the sorted tile: every valid
    position is stored at the running offset of its digit plus its rank
    among the items of that digit. *)
Lemma block_stores_eq :
  scatter_stores BlockSize ItemsPerThread
    (blocked_to_striped BlockSize ItemsPerThread (fst sb))
    (if with_values
     then blocked_to_striped BlockSize ItemsPerThread (snd sb) else snd sb)
    bit radix_mask vc s2 =
  for_stores vc
    (fun q => item_stores
                (add32 (zcount (fun q' => sdig q' =? sdig q) q)
                       (block_starts storage (sdig q)))
                (snth q)).
Proof.
  pose proof vc_range as Hvc. unfold scatter_stores.
  rewrite for_stores_nested by lia.
  rewrite <- (for_stores_guard _ vc (ItemsPerThread * BlockSize)) by lia.
  apply flat_map_ext_in. intros q Hq. apply in_zrange in Hq.
  destruct (blocked_pos_decompose BlockSize ItemsPerThread q BlockSize_pos
              ltac:(lia)) as (Hd & Hm & Hdm).
  assert (Hpos : add32 (mul32 (q / BlockSize) BlockSize) (q mod BlockSize) = q)
    by (unwrap; lia).
  cbv zeta. rewrite Hpos.
  destruct (Z.ltb_spec q vc) as [Hlt|Hge]; [|reflexivity].
  unfold blocked_to_striped. rewrite !Hdm.
  rewrite sorted_keys_at by (unfold ipb, items_per_block; lia).
  rewrite radix_mask_eq.
  change (Z.land (Z.shiftr (fst (snth q)) bit) (Z.ones current_radix_bits))
    with (sdig q).
  assert (Hstart : starts s2 (sdig q) =
                   run_start sdig (BlockSize * ItemsPerThread) (sdig q)).
  { unfold s2, flags.
    apply (starts_present BlockSize ItemsPerThread RadixBits BlockSize_pos
             ItemsPerThread_pos tile_small sdig digits s1 sdig_mono_tile digits_at
             (sdig q) q); [lia | reflexivity]. }
  rewrite Hstart, block_starts_s2.
  pose proof (rank_in_run sdig (BlockSize * ItemsPerThread) sdig_mono_tile q
                ltac:(lia)) as Hrank.
  pose proof (run_start_is_head sdig (BlockSize * ItemsPerThread) sdig_mono_tile
                (sdig q) q ltac:(lia) eq_refl) as (Hr & _ & _).
  replace (sub32 q (run_start sdig (BlockSize * ItemsPerThread) (sdig q)))
    with (zcount (fun q' => sdig q' =? sdig q) q) by (rewrite Hrank; unwrap; lia).
  unfold item_stores. f_equal.
  destruct with_values eqn:Hw; [|reflexivity].
  unfold blocked_to_striped. rewrite Hdm.
  now rewrite sorted_values_at by (auto; unfold ipb, items_per_block; lia).
Qed.

Let sorted_valid := stable_sort_by fd (map cell (zrange vc)).

Lemma sorted_valid_items :
  sorted_valid = map snth (zrange vc).
Proof.
  destruct vc_spec as [_ Hr].
  rewrite <- (map_nth_zrange sorted_valid (cell 0)) at 1.
  unfold sorted_valid at 2.
  rewrite stable_sort_by_length, length_map, length_zrange, Z2Nat.id by lia.
  apply map_ext_in. intros q Hq. apply in_zrange in Hq.
  symmetry. now apply snth_valid.
Qed.

(** By item of the input instead: the stable sort keeps the rank of every
    item among the items of its digit. *)
Lemma block_stores_perm (bs : Z -> Z) :
  Permutation
    (for_stores vc
       (fun q => item_stores (add32 (zcount (fun q' => sdig q' =? sdig q) q)
                                    (bs (sdig q)))
                             (snth q)))
    (for_stores vc
       (fun j => item_stores
                   (add32 (zcount (fun j' => fd (cell j') =? fd (cell j)) j)
                          (bs (fd (cell j))))
                   (cell j))).
Proof.
  set (E := fun rk : Z * (Z * Value) =>
              item_stores (KeyOut := KeyOut) (add32 (fst rk) (bs (fd (snd rk)))) (snd rk)).
  assert (Hl : for_stores vc
       (fun q => item_stores (add32 (zcount (fun q' => sdig q' =? sdig q) q)
                                    (bs (sdig q)))
                             (snth q)) =
     flat_map E (tag_ranks fd (fun _ => 0) sorted_valid)).
  { rewrite sorted_valid_items, tag_ranks_zrange, flat_map_map. reflexivity. }
  assert (Hr : for_stores vc
       (fun j => item_stores
                   (add32 (zcount (fun j' => fd (cell j') =? fd (cell j)) j)
                          (bs (fd (cell j))))
                   (cell j)) =
     flat_map E (tag_ranks fd (fun _ => 0) (map cell (zrange vc)))).
  { rewrite tag_ranks_zrange, flat_map_map. reflexivity. }
  rewrite Hl, Hr. apply Permutation_flat_map. apply tag_ranks_sort.
Qed.

(** The valid items of the sorted tile that hold a digit are the items of
    the block that hold it. *)
Lemma sorted_count d :
  zcount (fun q => sdig q =? d) vc = zcount (fun j => fd (cell j) =? d) vc.
Proof.
  rewrite <- (filter_length_zrange snth (fun kv => fd kv =? d)).
  rewrite <- (filter_length_zrange cell (fun kv => fd kv =? d)).
  rewrite <- sorted_valid_items. f_equal. symmetry.
  apply filter_length_perm, stable_sort_by_perm.
Qed.

Lemma block_count d :
  zcount (fun j => fd (cell j) =? d) vc =
  count_between (fun g => G g =? d) block_offset (block_offset + vc).
Proof.
  unfold count_between. replace (block_offset + vc - block_offset) with vc by lia.
  apply zcount_ext. intros j Hj. now rewrite fd_valid.
Qed.

(** One iteration of the loop over the blocks of a batch. *)
Lemma scatter_block_spec :
  exists storage',
    scatter_block BlockSize ItemsPerThread RadixBits key_bits values_uninit
      keys_input values_input size bit current_radix_bits bi (block_offset, storage) =
    (block_offset + ipb, storage',
     for_stores vc
       (fun q => item_stores
                   (add32 (zcount (fun q' => sdig q' =? sdig q) q)
                          (block_starts storage (sdig q)))
                   (snth q))) /\
    forall d, 0 <= d < rs ->
      block_starts storage' d =
      add32 (block_starts storage d)
            (count_between (fun g => G g =? d) block_offset (block_offset + vc)).
Proof.
  exists (advance_block_starts BlockSize RadixBits vc s2). split.
  - rewrite scatter_block_unfold, block_stores_eq. do 2 f_equal.
    pose proof ipb_pos. unfold ipb, items_per_block in *. unwrap. reflexivity.
  - intros d Hd. destruct vc_spec as [_ Hr].
    unfold s2, flags.
    rewrite (advance_spec BlockSize ItemsPerThread RadixBits BlockSize_pos
               ItemsPerThread_pos radix_fits tile_small sdig digits vc s1
               sdig_mono_tile digits_at vc_range runs_reset d Hd ltac:(lia)).
    + now rewrite block_starts_s1, sorted_count, block_count.
    + rewrite block_starts_s1. now apply block_starts_range.
Qed.

Lemma item_stores_cell dst j :
  0 <= j < vc ->
  item_stores (KeyOut := KeyOut) dst (cell j) =
  stores_of_item keys_input values_input dst (block_offset + j).
Proof.
  intros Hj. destruct (cell_valid j Hj) as [Hk Hv].
  unfold stores_of_item, item_stores. cbn [fst snd]. rewrite Hk. f_equal.
  destruct with_values; [|reflexivity]. now rewrite Hv.
Qed.

(** One iteration of the loop over the blocks of a batch, by item of the
    input: every item of the block inside the input is stored once, at the
    running offset of its digit plus the number of earlier items of the
    block that hold the digit; the running offsets move past the items of
    the block. *)
Lemma scatter_block_correct :
  exists storage' stores,
    scatter_block BlockSize ItemsPerThread RadixBits key_bits values_uninit
      keys_input values_input size bit current_radix_bits bi (block_offset, storage) =
    (block_offset + ipb, storage', stores) /\
    (forall d, 0 <= d < rs ->
       block_starts storage' d =
       add32 (block_starts storage d)
             (count_between (fun g => G g =? d) block_offset (block_offset + vc))) /\
    Permutation stores
      (for_stores vc
         (fun j => stores_of_item keys_input values_input
                     (add32 (count_between (fun g => G g =? G (block_offset + j))
                                           block_offset (block_offset + j))
                            (block_starts storage (G (block_offset + j))))
                     (block_offset + j))).
Proof.
  destruct scatter_block_spec as (storage' & Hrun & Hadv).
  eexists storage', _. split; [exact Hrun|]. split; [exact Hadv|].
  rewrite (block_stores_perm (block_starts storage)).
  unfold for_stores. erewrite flat_map_ext_in; [reflexivity|].
  intros j Hj. apply in_zrange in Hj. cbv beta.
  rewrite item_stores_cell, fd_valid by assumption. do 2 f_equal.
  unfold count_between. replace (block_offset + j - block_offset) with j by lia.
  apply zcount_ext. intros j' Hj'. now rewrite fd_valid by lia.
Qed.

(** The padding of a partial block is behind the valid items after the
    block sort, each padding item where it was loaded. *)
Lemma sorted_tile_padding p :
  vc <= p < ipb ->
  fst sb (p / ItemsPerThread) (p mod ItemsPerThread) = Z.ones key_bits /\
  (with_values = true ->
   snd sb (p / ItemsPerThread) (p mod ItemsPerThread) =
   values_uninit bi (p / ItemsPerThread) (p mod ItemsPerThread)).
Proof.
  intros Hp. destruct vc_spec as [_ Hr]. split.
  - rewrite sorted_keys_at, snth_pad by lia. now apply cell_pad.
  - intros Hw. rewrite sorted_values_at, snth_pad by (auto; lia).
    unfold cell, vals0, load_values. cbn [snd]. rewrite Hw, full_test.
    destruct (Z.leb_spec ipb vc); [lia|].
    rewrite partial_count by lia. unfold block_load_valid.
    destruct (blocked_pos_decompose ItemsPerThread BlockSize p ItemsPerThread_pos
                ltac:(unfold ipb, items_per_block in *; lia)) as (_ & _ & Hdm).
    rewrite Hdm.
    now replace (p <? vc) with false by (symmetry; apply Z.ltb_ge; lia).
Qed.

(** ... and every position before the padding holds an item of the
    input. *)
Lemma sorted_tile_valid p :
  0 <= p < vc ->
  exists j, 0 <= j < vc /\
    fst sb (p / ItemsPerThread) (p mod ItemsPerThread)
    = encode (keys_input (block_offset + j)) /\
    (with_values = true ->
     snd sb (p / ItemsPerThread) (p mod ItemsPerThread)
     = values_input (block_offset + j)).
Proof.
  intros Hp. destruct vc_spec as [_ Hr].
  assert (Hin : In (snth p) (map cell (zrange vc))).
  { eapply Permutation_in; [symmetry; apply (stable_sort_by_perm fd)|].
    fold sorted_valid. rewrite sorted_valid_items. apply in_map, in_zrange. lia. }
  apply in_map_iff in Hin as (j & Hj & Hjr). apply in_zrange in Hjr.
  exists j. split; [assumption|]. destruct (cell_valid j Hjr) as [Hk Hv].
  split.
  - rewrite sorted_keys_at, <- Hj by lia. exact Hk.
  - intros Hw. rewrite sorted_values_at, <- Hj by (auto; lia). now apply Hv.
Qed.
(** The tail of a partial block is loaded with the key that decodes the
    bit key of all ones. *)
Lemma load_keys_pad p :
  vc <= p < ipb ->
  keys0 (p / ItemsPerThread) (p mod ItemsPerThread) = decode (Z.ones key_bits).
Proof.
  intros Hp. destruct vc_spec as [_ Hr].
  destruct (blocked_pos_decompose ItemsPerThread BlockSize p ItemsPerThread_pos
              ltac:(unfold ipb, items_per_block in *; lia)) as (_ & _ & Hdm).
  unfold keys0, load_keys. rewrite full_test.
  destruct (Z.leb_spec ipb vc); [lia|].
  rewrite partial_count by lia. unfold block_load_valid_default. rewrite Hdm.
  now replace (p <? vc) with false by (symmetry; apply Z.ltb_ge; lia).
Qed.

(** The subtraction of line 419: the run of the digit of a stored item
    starts at or before the item, at the first item of the sorted tile that
    holds the digit. *)
Lemma scatter_no_underflow i flat_id :
  0 <= i < ItemsPerThread -> 0 <= flat_id < BlockSize ->
  let pos := add32 (mul32 i BlockSize) flat_id in
  let digit :=
    Z.land (Z.shiftr (blocked_to_striped BlockSize ItemsPerThread (fst sb) flat_id i)
                     bit) radix_mask in
  let start := starts s2 digit in
  pos < vc ->
  0 <= start <= pos /\ sub32 pos start = pos - start /\
  digits (start / ItemsPerThread) (start mod ItemsPerThread) = digit /\
  (forall q, 0 <= q < start ->
     digits (q / ItemsPerThread) (q mod ItemsPerThread) <> digit).
Proof.
  intros Hi Hf. cbv zeta.
  pose proof vc_range as Hvc.
  assert (Hq : 0 <= i * BlockSize + flat_id < BlockSize * ItemsPerThread) by nia.
  assert (Hpos : add32 (mul32 i BlockSize) flat_id = i * BlockSize + flat_id)
    by (unwrap; lia).
  rewrite Hpos. set (q := i * BlockSize + flat_id) in *. intros Hlt.
  unfold blocked_to_striped. fold q.
  rewrite sorted_keys_at by (unfold ipb, items_per_block; lia).
  rewrite radix_mask_eq.
  change (Z.land (Z.shiftr (fst (snth q)) bit) (Z.ones current_radix_bits))
    with (sdig q).
  assert (Hstart : starts s2 (sdig q) =
                   run_start sdig (BlockSize * ItemsPerThread) (sdig q)).
  { unfold s2, flags.
    apply (starts_present BlockSize ItemsPerThread RadixBits BlockSize_pos
             ItemsPerThread_pos tile_small sdig digits s1 sdig_mono_tile digits_at
             (sdig q) q); [lia | reflexivity]. }
  rewrite Hstart.
  pose proof (run_start_is_head sdig (BlockSize * ItemsPerThread) sdig_mono_tile
                (sdig q) q ltac:(lia) eq_refl) as (Hr & Hd & _).
  split; [exact Hr|]. split; [unwrap; lia|]. split.
  - rewrite digits_at by lia. exact Hd.
  - intros q' Hq'. rewrite digits_at by lia.
    pose proof (proj2 (run_start_prefix sdig (BlockSize * ItemsPerThread)
                         sdig_mono_tile (sdig q) q' ltac:(lia)) ltac:(lia)).
    lia.
Qed.
(** The amount by which lines 435-438 advance the offset of a digit. *)
Lemma block_advance_amount d :
  0 <= d < rs ->
  (if starts s2 d <? vc
   then add32 (sub32 (min (sub32 vc 1) (ends s2 d)) (starts s2 d)) 1
   else 0)
  = count_between (fun g => G g =? d) block_offset (block_offset + vc).
Proof.
  intros Hd. destruct vc_spec as [_ Hr]. unfold s2, flags.
  rewrite (advance_amount BlockSize ItemsPerThread RadixBits BlockSize_pos
             ItemsPerThread_pos tile_small sdig digits vc s1
             sdig_mono_tile digits_at vc_range runs_reset d Hd ltac:(lia)).
  now rewrite sorted_count, block_count.
Qed.

Lemma block_advance_formula d :
  0 <= d < rs ->
  block_starts (advance_block_starts BlockSize RadixBits vc s2) d =
  if starts s2 d <? vc
  then add32 (block_starts storage d)
             (add32 (sub32 (min (sub32 vc 1) (ends s2 d)) (starts s2 d)) 1)
  else block_starts storage d.
Proof.
  intros Hd.
  destruct (advance_block_starts_spec BlockSize ItemsPerThread RadixBits
              BlockSize_pos radix_fits vc s2) as (_ & _ & Hadv).
  rewrite (Hadv d Hd), block_starts_s2. reflexivity.
Qed.

End ScatterBlock.

(** ** sort_and_scatter: one batch *)

Lemma add32_wrap_r a b : add32 a (wrap32 b) = wrap32 (a + b).
Proof. unfold add32, wrap32. now rewrite Z.add_mod_idemp_r by lia. Qed.

Lemma add32_wrap_l a b : add32 (wrap32 a) b = wrap32 (a + b).
Proof. unfold add32, wrap32. now rewrite Z.add_mod_idemp_l by lia. Qed.

Section ScatterBatch.
Variables BlockSize ItemsPerThread RadixBits key_bits : Z.
Context {KeyIn KeyOut Value : Type}.
Context {key_in_codec : radix_key_codec KeyIn}.
Context {key_out_codec : radix_key_codec KeyOut}.
Context {value_payload : payload Value}.
Variable values_uninit : Z -> regs Value.
Variable storage_uninit : scatter_storage.
Variable keys_input : Z -> KeyIn.
Variable values_input : Z -> Value.
Variables size bit current_radix_bits : Z.
Variables batch_digit_starts digit_starts : Z -> Z.

Hypothesis BlockSize_pos : 0 < BlockSize.
Hypothesis ItemsPerThread_pos : 0 < ItemsPerThread.
Hypothesis RadixBits_range : 0 <= RadixBits < 32.
Hypothesis radix_fits : radix_size RadixBits <= BlockSize.
Hypothesis tile_small : BlockSize * ItemsPerThread < 2 ^ 16.
Hypothesis window_fits : 0 <= current_radix_bits <= RadixBits.
Hypothesis window_in_key : 0 <= bit /\ bit + current_radix_bits <= key_bits.
Hypothesis key_bits_small : key_bits < 2 ^ 32.
Hypothesis size_small : size + BlockSize * ItemsPerThread <= 2 ^ 32.
Hypothesis sentinel : encode (decode (Z.ones key_bits) : KeyIn) = Z.ones key_bits.
Hypothesis sort_block_ok : payload_ok BlockSize ItemsPerThread value_payload.

Variables blocks_per_full_batch full_batches batch_id : Z.
Variables block_offset blocks_per_batch : Z.
Hypothesis batch_range :
  batch_blocks BlockSize ItemsPerThread blocks_per_full_batch full_batches batch_id
  = (block_offset, blocks_per_batch).
Hypothesis offset_nonneg : 0 <= block_offset.
Hypothesis blocks_nonneg : 0 <= blocks_per_batch.
Hypothesis blocks_in_range :
  forall k, 0 <= k < blocks_per_batch ->
            block_offset + k * (BlockSize * ItemsPerThread) < size.
Hypothesis batch_nonneg : 0 <= batch_id.
Hypothesis row_fits : batch_id * radix_size RadixBits + radix_size RadixBits <= 2 ^ 32.

Let ipb := items_per_block BlockSize ItemsPerThread.
Let rs := radix_size RadixBits.
Let G g := digit_of bit current_radix_bits (encode (keys_input g)).

(** The destination of the item [g] of the batch (the formula of the
    specification, in [unsigned int] arithmetic). *)
Let D g :=
  wrap32 (digit_starts (G g) + batch_digit_starts (batch_id * rs + G g)
          + count_between (fun g' => G g' =? G g) block_offset g).

Lemma G_in_radix g : 0 <= G g < rs.
Proof.
  pose proof (digit_of_range bit current_radix_bits (encode (keys_input g))
                ltac:(lia)) as H.
  assert (2 ^ current_radix_bits <= 2 ^ RadixBits) by (apply Z.pow_le_mono_r; lia).
  unfold rs. rewrite radix_size_pow by lia. unfold G. lia.
Qed.

(** Lines 313-316. *)
Lemma initial_block_starts d :
  0 <= d < rs ->
  block_starts
    (for_loop BlockSize
       (fun flat_id s =>
          if flat_id <? radix_size RadixBits
          then set_block_starts s flat_id
                 (add32 (digit_starts flat_id)
                    (batch_digit_starts
                       (add32 (mul32 batch_id (radix_size RadixBits)) flat_id)))
          else s)
       storage_uninit) d =
  wrap32 (digit_starts d + batch_digit_starts (batch_id * rs + d)).
Proof.
  intros Hd.
  assert (Hinv : forall d, 0 <= d < BlockSize -> d < rs ->
    block_starts
      (for_loop BlockSize
         (fun flat_id s =>
            if flat_id <? radix_size RadixBits
            then set_block_starts s flat_id
                   (add32 (digit_starts flat_id)
                      (batch_digit_starts
                         (add32 (mul32 batch_id (radix_size RadixBits)) flat_id)))
            else s)
         storage_uninit) d =
    wrap32 (digit_starts d + batch_digit_starts (batch_id * rs + d))).
  { apply (for_loop_inv (fun k s => forall d, 0 <= d < k -> d < rs ->
      block_starts s d =
      wrap32 (digit_starts d + batch_digit_starts (batch_id * rs + d)))); [lia|lia|].
    intros k acc Hk IH d' Hd' Hr. fold rs. destruct (Z.ltb_spec k rs).
    - simpl. destruct (Z.eq_dec d' k) as [->|Hne].
      + rewrite upd_same. unfold add32 at 1. do 3 f_equal.
        unfold rs in *. unwrap. reflexivity.
      + rewrite upd_other by assumption. apply IH; lia.
    - apply IH; lia. }
  apply Hinv; unfold rs in *; lia.
Qed.

(** The stores of the batch after [k] of its blocks. *)
Lemma scatter_blocks_spec k :
  0 <= k <= blocks_per_batch ->
  exists storage log,
    for_loop k
      (fun bi acc =>
         let '(block_offset, storage, log) := acc in
         let '(block_offset, storage, stores) :=
           scatter_block BlockSize ItemsPerThread RadixBits key_bits values_uninit
             keys_input values_input size bit current_radix_bits
             bi (block_offset, storage) in
         (block_offset, storage, log ++ stores))
      (block_offset,
       for_loop BlockSize
         (fun flat_id s =>
            if flat_id <? radix_size RadixBits
            then set_block_starts s flat_id
                   (add32 (digit_starts flat_id)
                      (batch_digit_starts
                         (add32 (mul32 batch_id (radix_size RadixBits)) flat_id)))
            else s)
         storage_uninit, []) =
    (block_offset + k * ipb, storage, log) /\
    (forall d, 0 <= d < rs ->
       block_starts storage d =
       wrap32 (digit_starts d + batch_digit_starts (batch_id * rs + d)
               + count_between (fun g => G g =? d) block_offset
                   (Z.min size (block_offset + k * ipb)))) /\
    Permutation log
      (flat_map (fun g => stores_of_item keys_input values_input (D g) g)
         (map (Z.add block_offset)
              (zrange (Z.min size (block_offset + k * ipb) - block_offset)))).
Proof.
  intros [Hk0 Hk]. revert k Hk0 Hk.
  assert (Hipb : 0 < ipb) by (unfold ipb, items_per_block; nia).
  apply (zrange_ind (fun k => _ -> _)).
  - intros _. eexists _, _. rewrite for_loop_nonpos by lia.
    split; [f_equal; f_equal; lia|]. split.
    + intros d Hd. rewrite initial_block_starts by assumption.
      rewrite count_between_empty by lia. f_equal. lia.
    + rewrite zrange_nonpos by lia. reflexivity.
  - intros k Hk0 IH Hk.
    destruct IH as (storage & log & Hrun & Hbs & Hlog); [lia|].
    rewrite for_loop_succ, Hrun by lia.
    pose proof (blocks_in_range k ltac:(lia)) as Hin.
    change (BlockSize * ItemsPerThread) with ipb in Hin.
    set (off := block_offset + k * ipb) in *.
    assert (Hoff : 0 <= off < size) by (unfold off; nia).
    destruct (scatter_block_correct BlockSize ItemsPerThread RadixBits key_bits
                values_uninit keys_input values_input size bit current_radix_bits
                BlockSize_pos ItemsPerThread_pos RadixBits_range radix_fits tile_small
                window_fits window_in_key key_bits_small size_small sentinel
                sort_block_ok k off Hoff storage)
      as (storage' & stores & Hblock & Hadv & Hstores).
    { intros d Hd. rewrite Hbs by assumption. apply wrap32_range. }
    rewrite Hblock. eexists storage', (log ++ stores).
    destruct (vc_spec BlockSize ItemsPerThread RadixBits size BlockSize_pos
                ItemsPerThread_pos size_small off Hoff) as [Hvc Hvcr].
    fold ipb in Hvc, Hvcr.
    set (vc := block_valid_count BlockSize ItemsPerThread size off) in *.
    assert (Hhi : Z.min size (block_offset + (k + 1) * ipb) = off + vc)
      by (unfold off in *; lia).
    assert (Hlo : Z.min size off = off) by lia.
    split; [f_equal; f_equal; unfold off; fold ipb; lia|]. split.
    + intros d Hd. rewrite Hadv, Hbs, Hhi, Hlo by assumption.
      rewrite add32_wrap_l. f_equal.
      rewrite (count_between_split _ block_offset off (off + vc)) by (unfold off; nia).
      unfold G. lia.
    + rewrite Hhi. replace (off + vc - block_offset) with ((off - block_offset) + vc) by lia.
      rewrite (zrange_app (off - block_offset) (off - block_offset + vc))
        by (unfold off; nia).
      rewrite map_app, flat_map_app. apply Permutation_app.
      * rewrite Hlog, Hlo. reflexivity.
      * rewrite Hstores. unfold for_stores.
        replace (off - block_offset + vc - (off - block_offset)) with vc by lia.
        rewrite !map_map, flat_map_map.
        erewrite flat_map_ext_in; [reflexivity|].
        intros j Hj. apply in_zrange in Hj. cbv beta.
        replace (block_offset + (off - block_offset + j)) with (off + j) by lia.
        f_equal. unfold D. fold G. rewrite Hbs by apply G_in_radix.
        rewrite Hlo, add32_wrap_r. f_equal.
        rewrite (count_between_split _ block_offset off (off + j)) by (unfold off; nia).
        unfold G. lia.
Qed.

(** The stores of the batch: every item of its slice, once, at the start
    of its digit, plus the offset of the batch for the digit, plus the
    number of earlier items of the batch that hold the digit. *)
Lemma sort_and_scatter_spec :
  Permutation
    (sort_and_scatter BlockSize ItemsPerThread RadixBits key_bits values_uninit
       storage_uninit keys_input values_input size batch_digit_starts digit_starts
       bit current_radix_bits blocks_per_full_batch full_batches batch_id)
    (flat_map (fun g => stores_of_item keys_input values_input (D g) g)
       (map (Z.add block_offset)
            (zrange (Z.min size (block_offset + blocks_per_batch * ipb)
                     - block_offset)))).
Proof.
  unfold sort_and_scatter, sort_and_scatter_run. rewrite batch_range.
  destruct (scatter_blocks_spec blocks_per_batch ltac:(lia))
    as (storage & log & Hrun & _ & Hlog).
  rewrite Hrun. exact Hlog.
Qed.
End ScatterBatch.

(** ** One radix pass *)

(** Modelled from the spec: the host orchestrator (device_radix_sort.hpp of
    the device directory) is not part of the sources at hand.  One pass
    launches the four kernels in sequence; a launch runs the kernel once per
    block of its grid, here in the order of the block ids.  Registers and
    shared memory of a block hold indeterminate contents when the kernel
    starts; they are given per block of the grid. *)
Section PassModel.
Variables BlockSize ItemsPerThread RadixBits warp_size key_bits : Z.
(** The block size and items per thread of the [scan_batches] launch. *)
Variables ScanBlockSize ScanItemsPerThread : Z.
Context {KeyIn KeyOut Value : Type}.
Context {key_in_codec : radix_key_codec KeyIn}.
Context {key_out_codec : radix_key_codec KeyOut}.
Context {value_payload : payload Value}.

Record indeterminate : Type := {
  keys_uninit_of : Z -> Z -> regs KeyIn;
  counts_uninit_of : Z -> Z -> Z -> Z;
  values_uninit_of : Z -> Z -> regs Value;
  storage_uninit_of : Z -> scatter_storage;
  table_uninit : Z -> Z;
  totals_uninit : Z -> Z
}.

Variable junk : indeterminate.
Variable keys_input : Z -> KeyIn.
Variable values_input : Z -> Value.
Variables size bit current_radix_bits : Z.
(** The grid of the histogram and scatter launches, and its batching. *)
Variables batches blocks_per_full_batch full_batches : Z.

Definition histogram_stage : Z -> Z :=
  for_loop batches
    (fun batch_id table =>
       fill_digit_counts BlockSize ItemsPerThread RadixBits warp_size
         (keys_uninit_of junk batch_id) (counts_uninit_of junk batch_id)
         keys_input size table bit current_radix_bits
         blocks_per_full_batch full_batches batch_id)
    (table_uninit junk).

Definition scan_batches_stage (table : Z -> Z) : (Z -> Z) * (Z -> Z) :=
  for_loop (radix_size RadixBits)
    (fun digit st =>
       scan_batches ScanBlockSize ScanItemsPerThread RadixBits
         (fst st) (snd st) batches digit)
    (table, totals_uninit junk).

Definition scatter_stage (batch_digit_starts digit_starts : Z -> Z)
  : list (store KeyOut Value) :=
  for_stores batches
    (fun batch_id =>
       sort_and_scatter BlockSize ItemsPerThread RadixBits key_bits
         (values_uninit_of junk batch_id) (storage_uninit_of junk batch_id)
         keys_input values_input size batch_digit_starts digit_starts
         bit current_radix_bits blocks_per_full_batch full_batches batch_id).

(** The tables after stages 1 to 3: the per-batch starts, the totals of
    the digits and the starts of the digits. *)
Definition pass_tables : (Z -> Z) * (Z -> Z) * (Z -> Z) :=
  let scanned := scan_batches_stage histogram_stage in
  (fst scanned, snd scanned, scan_digits RadixBits (snd scanned)).

Definition radix_pass : list (store KeyOut Value) :=
  let '(batch_digit_starts, _, digit_starts) := pass_tables in
  scatter_stage batch_digit_starts digit_starts.
End PassModel.

(** The preconditions of a pass: the constraints on the template
    parameters, the representability of the sizes in [unsigned int], and a
    batching that covers the blocks of the input. *)
Record launch_ok (BlockSize ItemsPerThread RadixBits warp_size key_bits
                  ScanBlockSize ScanItemsPerThread
                  size bit current_radix_bits
                  batches blocks_per_full_batch full_batches : Z) : Prop := {
  ok_warp_size : 0 < warp_size <= 64;
  ok_BlockSize : 0 < BlockSize;
  ok_whole_warps : BlockSize mod warp_size = 0;
  ok_ItemsPerThread : 0 < ItemsPerThread;
  ok_RadixBits : 0 <= RadixBits < 32;
  ok_radix_fits : radix_size RadixBits <= BlockSize;
  ok_tile : BlockSize * ItemsPerThread < 2 ^ 16;
  ok_window : 0 <= current_radix_bits <= RadixBits;
  ok_window_in_key : 0 <= bit /\ bit + current_radix_bits <= key_bits;
  ok_key_bits : key_bits < 2 ^ 32;
  ok_size : 0 <= size;
  ok_size_small : size + BlockSize * ItemsPerThread <= 2 ^ 32;
  ok_full_batches : 0 <= full_batches <= batches;
  ok_per_batch : 0 <= blocks_per_full_batch < 2 ^ 32;
  ok_batches : batches < 2 ^ 32;
  ok_table : batches * radix_size RadixBits <= 2 ^ 32;
  ok_batching :
    full_batches * blocks_per_full_batch
    + (batches - full_batches) * (blocks_per_full_batch - 1)
    = (size + BlockSize * ItemsPerThread - 1) / (BlockSize * ItemsPerThread);
  ok_ScanBlockSize : 0 < ScanBlockSize;
  ok_ScanItemsPerThread : 0 < ScanItemsPerThread;
  ok_scan_tile : ScanBlockSize * ScanItemsPerThread < 2 ^ 32;
  ok_batches_fit : batches <= ScanBlockSize * ScanItemsPerThread
}.

(** Where an item goes in a stable partition by digit: behind the items of
    smaller digits and the earlier items of its own digit. *)
Definition stable_dest (dig : Z -> Z) (size g : Z) : Z :=
  zcount (fun g' => dig g' <? dig g) size + zcount (fun g' => dig g' =? dig g) g.

Lemma count_between_zero P n : count_between P 0 n = zcount P n.
Proof.
  unfold count_between. rewrite Z.sub_0_r. now apply zcount_ext.
Qed.

(** Summing the counts of the digits below [m] counts the items whose
    digit is below [m]. *)
Lemma sum_over_digits (dig : Z -> Z) n m :
  0 <= m ->
  zsum (fun d => zcount (fun g => dig g =? d) n) m =
  zcount (fun g => (0 <=? dig g) && (dig g <? m)) n.
Proof.
  intros Hm. unfold zcount. rewrite zsum_swap. apply zsum_ext. intros g Hg.
  revert m Hm. apply zrange_ind.
  - rewrite zsum_nonpos by lia.
    destruct (Z.leb_spec 0 (dig g)), (Z.ltb_spec (dig g) 0); simpl; lia.
  - intros m Hm IH. rewrite zsum_succ, IH by lia.
    destruct (Z.leb_spec 0 (dig g)), (Z.ltb_spec (dig g) m),
      (Z.ltb_spec (dig g) (m + 1)), (Z.eqb_spec (dig g) m); simpl; lia.
Qed.

Lemma zcount_le P Q n :
  (forall g, 0 <= g < n -> P g = true -> Q g = true) -> zcount P n <= zcount Q n.
Proof.
  intros H. apply zsum_le. intros g Hg. specialize (H g Hg).
  destruct (P g), (Q g); simpl; lia.
Qed.

Lemma zcount_hit P n q : 0 <= q < n -> P q = true -> 1 <= zcount P n.
Proof.
  intros Hq HP.
  assert (Hnn : forall j, 0 <= j < n -> 0 <= Z.b2z (P j))
    by (intros j _; destruct (P j); simpl; lia).
  pose proof (zsum_term_le (fun i => Z.b2z (P i)) n q Hnn Hq) as Hle.
  simpl in Hle. rewrite HP in Hle. exact Hle.
Qed.

Lemma stable_dest_bounds dig size g :
  0 <= g < size -> 0 <= stable_dest dig size g < size.
Proof.
  intros Hg. unfold stable_dest.
  pose proof (zcount_bounds (fun g' => dig g' <? dig g) size ltac:(lia)).
  pose proof (zcount_bounds (fun g' => dig g' =? dig g) g ltac:(lia)).
  split; [lia|].
  assert (Hsplit : zcount (fun g' => dig g' =? dig g) size =
                   zcount (fun g' => dig g' =? dig g) g
                   + zcount (fun q => dig (g + q) =? dig g) (size - g)).
  { replace size with (g + (size - g)) at 1 by lia. apply zcount_split; lia. }
  assert (Hself : 1 <= zcount (fun q => dig (g + q) =? dig g) (size - g)).
  { apply (zcount_hit _ _ 0); [lia|]. rewrite Z.add_0_r. apply Z.eqb_refl. }
  assert (Hboth : zcount (fun g' => dig g' <? dig g) size
                  + zcount (fun g' => dig g' =? dig g) size <= size).
  { unfold zcount. rewrite <- zsum_add.
    rewrite <- (zcount_all (fun _ => true) size) at 2 by (intros; lia || reflexivity).
    apply zsum_le. intros q Hq.
    destruct (Z.ltb_spec (dig q) (dig g)), (Z.eqb_spec (dig q) (dig g)); simpl; lia. }
  lia.
Qed.

(** A stable partition keeps the order of the items of a digit, and puts
    the items of a smaller digit first. *)
Lemma stable_dest_same_digit dig size i j :
  0 <= i < j -> j < size -> dig i = dig j ->
  stable_dest dig size i < stable_dest dig size j.
Proof.
  intros Hi Hj Hd. unfold stable_dest. rewrite Hd.
  assert (Hsplit : zcount (fun g' => dig g' =? dig j) j =
                   zcount (fun g' => dig g' =? dig j) i
                   + zcount (fun q => dig (i + q) =? dig j) (j - i)).
  { rewrite <- zcount_split by lia. f_equal. lia. }
  assert (Hself : 1 <= zcount (fun q => dig (i + q) =? dig j) (j - i)).
  { apply (zcount_hit _ _ 0); [lia|]. rewrite Z.add_0_r, Hd. apply Z.eqb_refl. }
  lia.
Qed.

Lemma stable_dest_smaller_digit dig size i j :
  0 <= i < size -> 0 <= j < size -> dig i < dig j ->
  stable_dest dig size i < stable_dest dig size j.
Proof.
  intros Hi Hj Hd. unfold stable_dest.
  pose proof (zcount_bounds (fun g' => dig g' =? dig j) j ltac:(lia)).
  assert (Hsplit : zcount (fun g' => dig g' =? dig i) size =
                   zcount (fun g' => dig g' =? dig i) i
                   + zcount (fun q => dig (i + q) =? dig i) (size - i)).
  { replace size with (i + (size - i)) at 1 by lia. apply zcount_split; lia. }
  assert (Hself : 1 <= zcount (fun q => dig (i + q) =? dig i) (size - i)).
  { apply (zcount_hit _ _ 0); [lia|]. rewrite Z.add_0_r. apply Z.eqb_refl. }
  assert (Hboth : zcount (fun g' => dig g' <? dig i) size
                  + zcount (fun g' => dig g' =? dig i) size
                  <= zcount (fun g' => dig g' <? dig j) size).
  { unfold zcount. rewrite <- zsum_add. apply zsum_le. intros q Hq.
    destruct (Z.ltb_spec (dig q) (dig i)), (Z.eqb_spec (dig q) (dig i)),
      (Z.ltb_spec (dig q) (dig j)); simpl; lia. }
  lia.
Qed.

Lemma flat_map_flat_map {A B C : Type} (f : B -> list C) (g : A -> list B) l :
  flat_map f (flat_map g l) = flat_map (fun a => flat_map f (g a)) l.
Proof.
  induction l as [|a l IH]; [reflexivity|].
  simpl. now rewrite flat_map_app, IH.
Qed.

Lemma Permutation_flat_map_in {A B : Type} (f g : A -> list B) l :
  (forall a, In a l -> Permutation (f a) (g a)) ->
  Permutation (flat_map f l) (flat_map g l).
Proof.
  induction l as [|a l IH]; intros H; [constructor|].
  simpl. apply Permutation_app.
  - apply H. now left.
  - apply IH. intros a' Ha'. apply H. now right.
Qed.

Lemma row_col_distinct rs b b' d k :
  0 <= d < rs -> 0 <= k < rs -> d <> k -> b * rs + d <> b' * rs + k.
Proof.
  intros Hd Hk Hne E.
  assert (H : (b - b') * rs = k - d) by lia.
  assert (b - b' = 0) by nia. nia.
Qed.

Section PassProofs.
Variables BlockSize ItemsPerThread RadixBits warp_size key_bits : Z.
Variables ScanBlockSize ScanItemsPerThread : Z.
Context {KeyIn KeyOut Value : Type}.
Context {key_in_codec : radix_key_codec KeyIn}.
Context {key_out_codec : radix_key_codec KeyOut}.
Context {value_payload : payload Value}.
Variable junk : indeterminate (KeyIn := KeyIn) (Value := Value).
Variable keys_input : Z -> KeyIn.
Variable values_input : Z -> Value.
Variables size bit current_radix_bits : Z.
Variables batches blocks_per_full_batch full_batches : Z.

Hypothesis ok :
  launch_ok BlockSize ItemsPerThread RadixBits warp_size key_bits
            ScanBlockSize ScanItemsPerThread size bit current_radix_bits
            batches blocks_per_full_batch full_batches.

Let ipb := BlockSize * ItemsPerThread.
Let rs := radix_size RadixBits.
Let T := (size + ipb - 1) / ipb.
Let G g := digit_of bit current_radix_bits (encode (keys_input g)).
Let blocks b := snd (batch_block_range blocks_per_full_batch full_batches b).
Let F b := zsum blocks b.
Let cut k := Z.min size (k * ipb).

Lemma pass_ipb_pos : 0 < ipb.
Proof. destruct ok. unfold ipb. nia. Qed.

Lemma pass_rs_pos : 0 < rs.
Proof. destruct ok. apply radix_size_pos. lia. Qed.

Lemma T_spec : 0 <= T /\ size <= T * ipb < size + ipb.
Proof.
  pose proof pass_ipb_pos as Hipb. destruct ok. unfold T.
  pose proof (Z.div_mod (size + ipb - 1) ipb ltac:(lia)).
  pose proof (Z.mod_pos_bound (size + ipb - 1) ipb Hipb).
  assert (0 <= (size + ipb - 1) / ipb) by (apply Z.div_pos; lia).
  nia.
Qed.

Lemma T_range : 0 <= T < 2 ^ 32.
Proof.
  pose proof pass_ipb_pos as Hipb. destruct T_spec as [H0 H1]. destruct ok.
  fold ipb in ok_size_small0. nia.
Qed.

Lemma pass_batching :
  full_batches * blocks_per_full_batch
  + (batches - full_batches) * (blocks_per_full_batch - 1) = T.
Proof. destruct ok. exact ok_batching0. Qed.

Lemma pass_blocks_nonneg b : 0 <= b < batches -> 0 <= blocks b.
Proof.
  destruct ok.
  apply (blocks_nonneg T batches blocks_per_full_batch full_batches);
    auto using T_range, pass_batching.
Qed.

Lemma F_total : F batches = T.
Proof.
  destruct ok.
  apply (blocks_total T batches blocks_per_full_batch full_batches);
    auto using T_range, pass_batching.
Qed.

Lemma F_succ b : 0 <= b -> F (b + 1) = F b + blocks b.
Proof. intros Hb. unfold F. now rewrite zsum_succ. Qed.

Lemma F_bounds b : 0 <= b <= batches -> 0 <= F b <= T.
Proof.
  intros Hb. rewrite <- F_total. split.
  - apply zsum_nonneg. intros. apply pass_blocks_nonneg. lia.
  - apply (zsum_mono blocks batches); [apply pass_blocks_nonneg | lia | lia].
Qed.

(** The blocks of a batch, and the items they hold. *)
Lemma batch_geometry b :
  0 <= b < batches ->
  batch_blocks BlockSize ItemsPerThread blocks_per_full_batch full_batches b
  = (F b * ipb, blocks b) /\
  0 <= F b * ipb /\ 0 <= blocks b /\
  (forall k, 0 <= k < blocks b -> F b * ipb + k * ipb < size).
Proof.
  intros Hb. pose proof pass_ipb_pos as Hipb. destruct T_spec as [HT0 HT].
  pose proof (F_bounds b ltac:(lia)) as HF.
  pose proof (F_bounds (b + 1) ltac:(lia)) as HF'.
  rewrite F_succ in HF' by lia.
  pose proof (pass_blocks_nonneg b Hb) as Hnn.
  destruct ok.
  rewrite (batch_blocks_items T batches blocks_per_full_batch full_batches)
    by (auto using T_range, pass_batching; fold ipb; nia).
  rewrite (first_block_sum T batches blocks_per_full_batch full_batches)
    by (auto using T_range, pass_batching).
  split; [reflexivity|]. split; [nia|]. split; [assumption|].
  intros k Hk. nia.
Qed.

Lemma cut_mono a b : 0 <= a <= b -> 0 <= cut a <= cut b.
Proof. intros Hab. pose proof pass_ipb_pos. destruct ok. unfold cut. nia. Qed.

Lemma cut_total : cut (F batches) = size.
Proof. rewrite F_total. destruct T_spec. unfold cut. lia. Qed.

(** The slice of a batch, counted between the cuts of its first block and
    of the first block of the next batch. *)
Lemma slice_count P b :
  0 <= b < batches ->
  count_between P (F b * ipb) (Z.min size (F b * ipb + blocks b * ipb)) =
  count_between P (cut (F b)) (cut (F (b + 1))).
Proof.
  intros Hb. pose proof pass_ipb_pos as Hipb.
  destruct (batch_geometry b Hb) as (_ & H0 & Hnn & Hin).
  rewrite F_succ by lia. unfold cut.
  replace ((F b + blocks b) * ipb) with (F b * ipb + blocks b * ipb) by lia.
  destruct (Z.eq_dec (blocks b) 0) as [Hz|Hnz].
  - rewrite Hz, Z.mul_0_l, Z.add_0_r. rewrite !count_between_empty; lia.
  - specialize (Hin 0 ltac:(lia)). rewrite (Z.min_r size (F b * ipb)) by lia.
    reflexivity.
Qed.

Lemma slice_items b :
  0 <= b < batches ->
  map (Z.add (F b * ipb))
      (zrange (Z.min size (F b * ipb + blocks b * ipb) - F b * ipb)) =
  map (Z.add (cut (F b))) (zrange (cut (F (b + 1)) - cut (F b))).
Proof.
  intros Hb. pose proof pass_ipb_pos as Hipb.
  destruct (batch_geometry b Hb) as (_ & H0 & Hnn & Hin).
  rewrite F_succ by lia. unfold cut.
  replace ((F b + blocks b) * ipb) with (F b * ipb + blocks b * ipb) by lia.
  destruct (Z.eq_dec (blocks b) 0) as [Hz|Hnz].
  - rewrite Hz, Z.mul_0_l, Z.add_0_r. rewrite !zrange_nonpos by lia. reflexivity.
  - specialize (Hin 0 ltac:(lia)). rewrite (Z.min_r size (F b * ipb)) by lia.
    reflexivity.
Qed.

Lemma cut_telescope P b :
  0 <= b <= batches ->
  zsum (fun b' => count_between P (cut (F b')) (cut (F (b' + 1)))) b =
  count_between P 0 (cut (F b)).
Proof.
  intros [Hb0 Hb]. revert b Hb0 Hb. apply (zrange_ind (fun b => _ -> _)).
  - intros _. rewrite zsum_nonpos by lia. unfold F. rewrite zsum_nonpos by lia.
    unfold cut. pose proof pass_ipb_pos. destruct ok.
    rewrite count_between_empty; lia.
  - intros b Hb0 IH Hb. rewrite zsum_succ, IH by lia.
    symmetry. apply count_between_split.
    pose proof (F_bounds b ltac:(lia)). pose proof (pass_blocks_nonneg b ltac:(lia)).
    pose proof (cut_mono 0 (F b) ltac:(lia)).
    pose proof (cut_mono (F b) (F (b + 1)) ltac:(rewrite F_succ; lia)).
    unfold cut in *. lia.
Qed.

Lemma slices_cover b :
  0 <= b <= batches ->
  flat_map (fun b' => map (Z.add (cut (F b'))) (zrange (cut (F (b' + 1)) - cut (F b'))))
           (zrange b) = zrange (cut (F b)).
Proof.
  intros [Hb0 Hb]. revert b Hb0 Hb. apply (zrange_ind (fun b => _ -> _)).
  - intros _. rewrite (zrange_nonpos 0) by lia. unfold F. rewrite zsum_nonpos by lia.
    unfold cut. pose proof pass_ipb_pos. destruct ok.
    rewrite zrange_nonpos; [reflexivity | lia].
  - intros b Hb0 IH Hb. rewrite zrange_succ, flat_map_app, IH by lia. simpl.
    rewrite app_nil_r. symmetry. apply zrange_app.
    pose proof (F_bounds b ltac:(lia)). pose proof (pass_blocks_nonneg b ltac:(lia)).
    pose proof (cut_mono 0 (F b) ltac:(lia)).
    pose proof (cut_mono (F b) (F (b + 1)) ltac:(rewrite F_succ; lia)).
    unfold cut in *. lia.
Qed.

Let hist :=
  histogram_stage BlockSize ItemsPerThread RadixBits warp_size junk keys_input
    size bit current_radix_bits batches blocks_per_full_batch full_batches.

(** Stage 1: every entry of the table is the number of keys of the slice
    of its batch that hold its digit. *)
Lemma histogram_entry b d :
  0 <= b < batches -> 0 <= d < rs ->
  hist (b * rs + d) =
  count_between (fun g => G g =? d) (cut (F b)) (cut (F (b + 1))).
Proof.
  intros Hb Hd. unfold hist, histogram_stage.
  assert (Hinv : forall b d, 0 <= b < batches -> 0 <= d < rs ->
    for_loop batches
      (fun batch_id table =>
         fill_digit_counts BlockSize ItemsPerThread RadixBits warp_size
           (keys_uninit_of junk batch_id) (counts_uninit_of junk batch_id)
           keys_input size table bit current_radix_bits
           blocks_per_full_batch full_batches batch_id)
      (table_uninit junk) (b * rs + d) =
    count_between (fun g => G g =? d) (cut (F b)) (cut (F (b + 1))));
    [|now apply Hinv].
  assert (HB : 0 <= batches) by (destruct ok; lia).
  apply (for_loop_inv (fun k table => forall b d, 0 <= b < k -> 0 <= d < rs ->
    table (b * rs + d) =
    count_between (fun g => G g =? d) (cut (F b)) (cut (F (b + 1)))));
    [exact HB | intros; lia |].
  intros k table Hk IH b' d' Hb' Hd'.
  destruct (batch_geometry k Hk) as (Hbb & H0 & Hnn & Hin).
  pose proof pass_rs_pos as Hrs.
  assert (Hrow : k * radix_size RadixBits + radix_size RadixBits <= 2 ^ 32).
  { pose proof (ok_table _ _ _ _ _ _ _ _ _ _ _ _ _ ok) as Ht.
    unfold rs in Hrs. nia. }
  assert (Hk0 : 0 <= k) by lia.
  destruct ok.
  pose proof (fill_digit_counts_spec BlockSize ItemsPerThread RadixBits warp_size
              (keys_uninit_of junk k) (counts_uninit_of junk k) keys_input
              size bit current_radix_bits ok_warp_size0 ok_BlockSize0
              ok_whole_warps0 ok_ItemsPerThread0 ok_RadixBits0 ok_radix_fits0
              ok_window0 ok_size0 ok_size_small0 table
              blocks_per_full_batch full_batches k (F k * ipb) (blocks k)
              Hbb H0 Hnn Hin Hk0 Hrow) as Hfill.
  cbv zeta in Hfill. destruct Hfill as [Hrowk Hother].
  change (radix_size RadixBits) with rs in Hrowk, Hother.
  destruct (Z.eq_dec b' k) as [->|Hne].
  - rewrite (Hrowk d' Hd'). apply slice_count. exact Hk.
  - rewrite Hother by nia. apply IH; lia.
Qed.

Lemma histogram_prefix b d :
  0 <= b <= batches -> 0 <= d < rs ->
  zsum (fun b' => hist (b' * rs + d)) b = zcount (fun g => G g =? d) (cut (F b)).
Proof.
  intros Hb Hd. rewrite <- count_between_zero, <- (cut_telescope _ b Hb).
  apply zsum_ext. intros b' Hb'. apply histogram_entry; lia.
Qed.

Lemma digit_total_small d : zcount (fun g => G g =? d) size < 2 ^ 32.
Proof.
  destruct ok. pose proof (zcount_bounds (fun g => G g =? d) size ok_size0).
  pose proof pass_ipb_pos. fold ipb in ok_size_small0. lia.
Qed.

(** Stage 2: the entries become the counts of the earlier batches, and the
    totals the counts over the whole input. *)
Lemma scan_batches_stage_spec :
  let st := scan_batches_stage RadixBits ScanBlockSize ScanItemsPerThread junk
              batches hist in
  (forall b d, 0 <= b < batches -> 0 <= d < rs ->
     fst st (b * rs + d) = zcount (fun g => G g =? d) (cut (F b))) /\
  (forall d, 0 <= d < rs -> snd st d = zcount (fun g => G g =? d) size).
Proof.
  pose proof pass_rs_pos as Hrs.
  assert (HB : 0 <= batches) by (destruct ok; lia).
  assert (Hinv :
    let st := scan_batches_stage RadixBits ScanBlockSize ScanItemsPerThread junk
                batches hist in
    (forall b d, 0 <= b < batches -> 0 <= d < rs ->
       fst st (b * rs + d) =
       if d <? rs then zcount (fun g => G g =? d) (cut (F b))
       else hist (b * rs + d)) /\
    (forall d, 0 <= d < rs -> snd st d = zcount (fun g => G g =? d) size)).
  { unfold scan_batches_stage. fold rs.
    apply (for_loop_inv (fun k st =>
      (forall b d, 0 <= b < batches -> 0 <= d < rs ->
         fst st (b * rs + d) =
         if d <? k then zcount (fun g => G g =? d) (cut (F b))
         else hist (b * rs + d)) /\
      (forall d, 0 <= d < k -> snd st d = zcount (fun g => G g =? d) size)));
      [lia | |].
    - split; [|intros; lia]. intros b d Hb Hd. cbn [fst].
      now replace (d <? 0) with false by (symmetry; apply Z.ltb_ge; lia).
    - intros k st Hk [Htab Htot].
      assert (Hcol : forall b, 0 <= b < batches ->
                fst st (b * rs + k) = hist (b * rs + k)).
      { intros b Hb. rewrite Htab by lia.
        now replace (k <? k) with false by (symmetry; apply Z.ltb_ge; lia). }
      assert (Hsum : forall b, 0 <= b <= batches ->
                zsum (fun b0 => fst st (b0 * rs + k)) b =
                zcount (fun g => G g =? k) (cut (F b))).
      { intros b Hb. rewrite <- histogram_prefix by lia.
        apply zsum_ext. intros b0 Hb0. apply Hcol. lia. }
      assert (Hnn : forall b, 0 <= b < batches -> 0 <= fst st (b * rs + k)).
      { intros b Hb. rewrite Hcol, histogram_entry by lia.
        apply count_between_range. }
      assert (Hsmall : zsum (fun b => fst st (b * rs + k)) batches < 2 ^ 32).
      { rewrite Hsum, cut_total by lia. apply digit_total_small. }
      destruct ok. split.
      + intros b d Hb Hd. destruct (Z.eq_dec d k) as [->|Hne].
        * replace (k <? k + 1) with true by (symmetry; apply Z.ltb_lt; lia).
          rewrite <- Hsum by lia.
          exact (scan_batches_entry ScanBlockSize ScanItemsPerThread RadixBits
                   ok_ScanBlockSize0 ok_ScanItemsPerThread0 ok_scan_tile0
                   (fst st) (snd st) batches k (conj HB ok_batches_fit0) Hd
                   ok_table0 Hnn Hsmall b Hb).
        * rewrite (scan_batches_other ScanBlockSize ScanItemsPerThread RadixBits
                     ok_ScanBlockSize0 ok_ScanItemsPerThread0 ok_scan_tile0
                     (fst st) (snd st) batches k (conj HB ok_batches_fit0) Hk
                     ok_table0)
            by (intros b' Hb'; change (radix_size RadixBits) with rs;
                apply row_col_distinct; assumption).
          rewrite Htab by assumption.
          destruct (Z.ltb_spec d k), (Z.ltb_spec d (k + 1)); lia || reflexivity.
      + intros d Hd. destruct (Z.eq_dec d k) as [->|Hne].
        * rewrite <- cut_total, <- Hsum by lia.
          exact (scan_batches_total ScanBlockSize ScanItemsPerThread RadixBits
                   ok_ScanBlockSize0 ok_ScanItemsPerThread0 ok_scan_tile0
                   (fst st) (snd st) batches k (conj HB ok_batches_fit0) Hk
                   ok_table0 Hnn Hsmall).
        * rewrite scan_batches_total_other by assumption. apply Htot. lia. }
  destruct Hinv as [Htab Htot]. split; [|exact Htot].
  intros b d Hb Hd. rewrite Htab by assumption.
  now replace (d <? rs) with true by (symmetry; apply Z.ltb_lt; lia).
Qed.

Lemma G_radix g : 0 <= G g < rs.
Proof.
  destruct ok.
  pose proof (digit_of_range bit current_radix_bits (encode (keys_input g))
                ltac:(lia)) as H.
  assert (2 ^ current_radix_bits <= 2 ^ RadixBits) by (apply Z.pow_le_mono_r; lia).
  unfold rs. rewrite radix_size_pow by lia. unfold G. lia.
Qed.

Lemma digits_below d n :
  0 <= d ->
  zsum (fun d' => zcount (fun g => G g =? d') n) d = zcount (fun g => G g <? d) n.
Proof.
  intros Hd. rewrite sum_over_digits by assumption. apply zcount_ext.
  intros g _. pose proof (G_radix g).
  now replace (0 <=? G g) with true by (symmetry; apply Z.leb_le; lia).
Qed.

(** Stage 3: the start of a digit is the number of keys of smaller
    digits. *)
Lemma scan_digits_stage_spec totals d :
  (forall d, 0 <= d < rs -> totals d = zcount (fun g => G g =? d) size) ->
  0 <= d < rs ->
  scan_digits RadixBits totals d = zcount (fun g => G g <? d) size.
Proof.
  intros Htot Hd.
  assert (Hsum : forall k, 0 <= k <= rs ->
            zsum totals k = zcount (fun g => G g <? k) size).
  { intros k Hk. rewrite <- digits_below by lia.
    apply zsum_ext. intros d' Hd'. apply Htot. lia. }
  destruct ok.
  rewrite scan_digits_entry; try assumption; try lia.
  - apply Hsum. lia.
  - intros d' Hd'. rewrite Htot by assumption. apply zcount_bounds. lia.
  - fold rs. rewrite Hsum by (pose proof pass_rs_pos; lia).
    pose proof (zcount_bounds (fun g => G g <? rs) size ok_size0).
    pose proof pass_ipb_pos. fold ipb in ok_size_small0. lia.
Qed.

Hypothesis sentinel : encode (decode (Z.ones key_bits) : KeyIn) = Z.ones key_bits.
Hypothesis sort_block_ok : payload_ok BlockSize ItemsPerThread value_payload.

(** Stage 4: with the tables of stages 2 and 3, the launch stores every
    item once, at its place in the stable partition by digit. *)
Lemma scatter_stage_spec batch_digit_starts digit_starts :
  (forall b d, 0 <= b < batches -> 0 <= d < rs ->
     batch_digit_starts (b * rs + d) = zcount (fun g => G g =? d) (cut (F b))) ->
  (forall d, 0 <= d < rs ->
     digit_starts d = zcount (fun g => G g <? d) size) ->
  Permutation
    (scatter_stage BlockSize ItemsPerThread RadixBits key_bits junk keys_input
       values_input size bit current_radix_bits batches blocks_per_full_batch
       full_batches batch_digit_starts digit_starts)
    (flat_map (fun g => stores_of_item (KeyOut := KeyOut) keys_input values_input
                          (stable_dest G size g) g)
              (zrange size)).
Proof.
  intros Hbds Hds.
  assert (HB : 0 <= batches) by (destruct ok; lia).
  pose proof pass_ipb_pos as Hipb. pose proof pass_rs_pos as Hrs.
  rewrite <- cut_total at 2. rewrite <- (slices_cover batches) by lia.
  rewrite flat_map_flat_map. unfold scatter_stage, for_stores.
  apply Permutation_flat_map_in. intros b Hb. apply in_zrange in Hb.
  destruct (batch_geometry b Hb) as (Hbb & H0 & Hnn & Hin).
  assert (Hrow : b * radix_size RadixBits + radix_size RadixBits <= 2 ^ 32).
  { pose proof (ok_table _ _ _ _ _ _ _ _ _ _ _ _ _ ok) as Ht.
    unfold rs in Hrs. nia. }
  assert (Hb0 : 0 <= b) by lia.
  pose proof (@sort_and_scatter_spec BlockSize ItemsPerThread RadixBits key_bits
                KeyIn KeyOut Value _ _ _
                (values_uninit_of junk b) (storage_uninit_of junk b)
                keys_input values_input size bit current_radix_bits
                batch_digit_starts digit_starts
                (ok_BlockSize _ _ _ _ _ _ _ _ _ _ _ _ _ ok)
                (ok_ItemsPerThread _ _ _ _ _ _ _ _ _ _ _ _ _ ok)
                (ok_RadixBits _ _ _ _ _ _ _ _ _ _ _ _ _ ok)
                (ok_radix_fits _ _ _ _ _ _ _ _ _ _ _ _ _ ok)
                (ok_tile _ _ _ _ _ _ _ _ _ _ _ _ _ ok)
                (ok_window _ _ _ _ _ _ _ _ _ _ _ _ _ ok)
                (ok_window_in_key _ _ _ _ _ _ _ _ _ _ _ _ _ ok)
                (ok_key_bits _ _ _ _ _ _ _ _ _ _ _ _ _ ok)
                (ok_size_small _ _ _ _ _ _ _ _ _ _ _ _ _ ok)
                sentinel sort_block_ok
                blocks_per_full_batch full_batches b (F b * ipb) (blocks b)
                Hbb H0 Hnn Hin Hb0 Hrow) as Hperm.
  etransitivity; [exact Hperm|]. clear Hperm.
  change (items_per_block BlockSize ItemsPerThread) with ipb.
  rewrite (slice_items b Hb).
  erewrite flat_map_ext_in; [reflexivity|].
  intros g Hg. apply in_map_iff in Hg. destruct Hg as (j & <- & Hj).
  apply in_zrange in Hj.
  (* the slice is not empty, so its first block begins inside the input *)
  assert (Hcut : cut (F b) = F b * ipb).
  { destruct (Z.eq_dec (blocks b) 0) as [Hz|Hnz].
    - rewrite F_succ, Hz, Z.add_0_r in Hj by lia. lia.
    - specialize (Hin 0 ltac:(lia)). unfold cut. fold ipb in Hin. lia. }
  pose proof (F_bounds b ltac:(lia)) as HFb.
  pose proof (cut_mono (F b) (F (b + 1))) as Hmono.
  assert (Hle : cut (F (b + 1)) <= size) by (unfold cut; lia).
  assert (Hc0 : 0 <= cut (F b)) by (rewrite Hcut; nia).
  set (g := cut (F b) + j) in *.
  assert (Hg : 0 <= g < size) by (unfold g; lia).
  f_equal.
  change (digit_of bit current_radix_bits (encode (keys_input g))) with (G g).
  change (radix_size RadixBits) with rs.
  pose proof (G_radix g) as HG.
  rewrite Hds, Hbds by assumption.
  rewrite <- Hcut.
  change (fun g' : Z => digit_of bit current_radix_bits (encode (keys_input g'))
                        =? G g)
    with (fun g' : Z => G g' =? G g).
  rewrite <- (count_between_zero (fun g' => G g' =? G g) (cut (F b))).
  rewrite <- Z.add_assoc.
  rewrite <- (count_between_split (fun g' => G g' =? G g) 0 (cut (F b)) g)
    by (unfold g; lia).
  rewrite count_between_zero.
  change (wrap32 (stable_dest G size g) = stable_dest G size g).
  apply wrap32_small.
  pose proof (stable_dest_bounds G size g Hg).
  pose proof (ok_size_small _ _ _ _ _ _ _ _ _ _ _ _ _ ok). fold ipb in H1. lia.
Qed.

(** The four stages in sequence: the pass stores every item once, at its
    place in the stable partition by digit. *)
Lemma radix_pass_spec :
  Permutation
    (radix_pass BlockSize ItemsPerThread RadixBits warp_size key_bits
       ScanBlockSize ScanItemsPerThread junk keys_input values_input size bit
       current_radix_bits batches blocks_per_full_batch full_batches)
    (flat_map (fun g => stores_of_item (KeyOut := KeyOut) keys_input values_input
                          (stable_dest G size g) g)
              (zrange size)).
Proof.
  unfold radix_pass, pass_tables. cbv zeta.
  pose proof scan_batches_stage_spec as Hscan. cbv zeta in Hscan.
  destruct Hscan as [Htab Htot]. fold hist.
  apply scatter_stage_spec.
  - exact Htab.
  - intros d Hd. apply scan_digits_stage_spec; assumption.
Qed.

(** The tables after stages 1 to 3. *)
Lemma pass_tables_spec :
  let tables := pass_tables BlockSize ItemsPerThread RadixBits warp_size
                  ScanBlockSize ScanItemsPerThread junk keys_input size bit
                  current_radix_bits batches blocks_per_full_batch full_batches in
  (forall b d, 0 <= b < batches -> 0 <= d < rs ->
     fst (fst tables) (b * rs + d) = zcount (fun g => G g =? d) (cut (F b))) /\
  (forall d, 0 <= d < rs ->
     snd (fst tables) d = zcount (fun g => G g =? d) size) /\
  (forall d, 0 <= d < rs ->
     snd tables d = zcount (fun g => G g <? d) size).
Proof.
  unfold pass_tables. cbv zeta. cbn [fst snd].
  pose proof scan_batches_stage_spec as Hscan. cbv zeta in Hscan.
  destruct Hscan as [Htab Htot]. fold hist.
  split; [exact Htab|]. split; [exact Htot|].
  intros d Hd. apply scan_digits_stage_spec; assumption.
Qed.

Lemma digits_all n : 0 <= n -> zcount (fun g => G g <? rs) n = n.
Proof.
  intros Hn. apply zcount_all; [exact Hn|]. intros g _.
  pose proof (G_radix g). apply Z.ltb_lt. lia.
Qed.

(** The counts of stage 1, over all batches and digits, are the items of
    the input. *)
Lemma histogram_total :
  zsum (fun b => zsum (fun d => hist (b * rs + d)) rs) batches = size.
Proof.
  assert (HB : 0 <= batches) by (destruct ok; lia).
  pose proof pass_rs_pos as Hrs.
  rewrite zsum_swap.
  rewrite (zsum_ext _ (fun d => zcount (fun g => G g =? d) size)).
  - rewrite digits_below by lia. apply digits_all. destruct ok; lia.
  - intros d Hd. cbv beta. rewrite histogram_prefix by lia.
    now rewrite cut_total.
Qed.

(** The ranges of the digits in the output: in the order of the digits,
    each from the end of the one before, from 0 to [size]. *)
Lemma digit_ranges_partition (digit_counts digit_starts : Z -> Z) :
  (forall d, 0 <= d < rs -> digit_counts d = zcount (fun g => G g =? d) size) ->
  (forall d, 0 <= d < rs -> digit_starts d = zcount (fun g => G g <? d) size) ->
  (forall d, 0 <= d < rs -> 0 <= digit_counts d) /\
  (forall d, 0 <= d < rs -> digit_starts d = zsum digit_counts d) /\
  zsum digit_counts rs = size /\
  (forall d d', 0 <= d < d' -> d' < rs ->
     digit_starts d + digit_counts d <= digit_starts d') /\
  (forall x, 0 <= x < size ->
     exists d, 0 <= d < rs /\
       digit_starts d <= x < digit_starts d + digit_counts d /\
       forall d', 0 <= d' < rs ->
         digit_starts d' <= x < digit_starts d' + digit_counts d' -> d' = d) /\
  (forall d x, 0 <= d < rs ->
     digit_starts d <= x < digit_starts d + digit_counts d -> 0 <= x < size).
Proof.
  intros Hdc Hds. pose proof pass_rs_pos as Hrs.
  assert (Hsize : 0 <= size) by (destruct ok; lia).
  assert (Hnn : forall d, 0 <= d < rs -> 0 <= digit_counts d).
  { intros d Hd. rewrite Hdc by assumption. apply zcount_bounds. exact Hsize. }
  assert (Hsum : forall d, 0 <= d <= rs ->
            zsum digit_counts d = zcount (fun g => G g <? d) size).
  { intros d Hd. rewrite <- digits_below by lia.
    apply zsum_ext. intros d' Hd'. apply Hdc. lia. }
  assert (Hstart : forall d, 0 <= d < rs -> digit_starts d = zsum digit_counts d).
  { intros d Hd. rewrite Hds, Hsum by lia. reflexivity. }
  assert (Htot : zsum digit_counts rs = size).
  { rewrite Hsum by lia. now apply digits_all. }
  assert (Hnext : forall d, 0 <= d < rs ->
            zsum digit_counts d + digit_counts d = zsum digit_counts (d + 1)).
  { intros d Hd. now rewrite zsum_succ by lia. }
  split; [exact Hnn|]. split; [exact Hstart|]. split; [exact Htot|]. split; [|split].
  - intros d d' Hd Hd'. rewrite !Hstart by lia. rewrite Hnext by lia.
    apply (zsum_mono digit_counts rs); [exact Hnn | lia | lia].
  - intros x Hx.
    destruct (zsum_locate digit_counts rs x Hnn ltac:(lia) ltac:(lia))
      as (d & Hd & Hin).
    exists d. split; [exact Hd|]. split; [now rewrite Hstart|].
    intros d' Hd' Hin'. rewrite Hstart in Hin' by assumption.
    exact (zsum_segment_unique digit_counts rs x d d' Hnn Hd Hd' Hin Hin').
  - intros d x Hd Hin. rewrite Hstart in Hin by assumption.
    pose proof (zsum_nonneg digit_counts d ltac:(intros; apply Hnn; lia)).
    pose proof (zsum_mono digit_counts rs (d + 1) rs Hnn ltac:(lia) ltac:(lia)).
    rewrite <- Hnext in H0 by assumption. lia.
Qed.

(** The slice of a batch lies between the cuts of its first block and of
    the first block of the next batch. *)
Lemma batch_slice_cuts b :
  0 <= b < batches ->
  batch_slice BlockSize ItemsPerThread size blocks_per_full_batch full_batches b
  = (cut (F b), cut (F (b + 1))).
Proof.
  intros Hb. destruct (batch_geometry b Hb) as (Hbb & _).
  unfold batch_slice. rewrite Hbb. rewrite F_succ by lia. unfold cut.
  change (items_per_block BlockSize ItemsPerThread) with ipb.
  f_equal. f_equal. ring.
Qed.

Lemma batch_slice_bounds b :
  0 <= b < batches ->
  0 <= fst (batch_slice BlockSize ItemsPerThread size blocks_per_full_batch
              full_batches b)
    <= snd (batch_slice BlockSize ItemsPerThread size blocks_per_full_batch
              full_batches b) /\
  snd (batch_slice BlockSize ItemsPerThread size blocks_per_full_batch
         full_batches b) <= size.
Proof.
  intros Hb. rewrite batch_slice_cuts by assumption. cbn [fst snd].
  pose proof pass_ipb_pos as Hipb.
  pose proof (F_bounds b ltac:(lia)) as HFb.
  pose proof (pass_blocks_nonneg b ltac:(lia)) as Hnn.
  assert (Hsize : 0 <= size) by (destruct ok; lia).
  rewrite F_succ by lia. unfold cut. nia.
Qed.

(** One block of the grid of stage 1, on any table and with any contents of
    its registers and shared memory: the row of its batch. *)
Lemma fill_digit_counts_batch keys_uninit counts_uninit table b d :
  0 <= b < batches -> 0 <= d < rs ->
  fill_digit_counts BlockSize ItemsPerThread RadixBits warp_size keys_uninit
    counts_uninit keys_input size table bit current_radix_bits
    blocks_per_full_batch full_batches b (b * rs + d) =
  count_between (fun g => G g =? d) (cut (F b)) (cut (F (b + 1))).
Proof.
  intros Hb Hd.
  destruct (batch_geometry b Hb) as (Hbb & H0 & Hnn & Hin).
  pose proof pass_rs_pos as Hrs.
  assert (Hrow : b * radix_size RadixBits + radix_size RadixBits <= 2 ^ 32).
  { pose proof (ok_table _ _ _ _ _ _ _ _ _ _ _ _ _ ok) as Ht.
    unfold rs in Hrs. nia. }
  assert (Hb0 : 0 <= b) by lia.
  destruct ok.
  pose proof (fill_digit_counts_spec BlockSize ItemsPerThread RadixBits warp_size
              keys_uninit counts_uninit keys_input
              size bit current_radix_bits ok_warp_size0 ok_BlockSize0
              ok_whole_warps0 ok_ItemsPerThread0 ok_RadixBits0 ok_radix_fits0
              ok_window0 ok_size0 ok_size_small0 table
              blocks_per_full_batch full_batches b (F b * ipb) (blocks b)
              Hbb H0 Hnn Hin Hb0 Hrow) as Hfill.
  cbv zeta in Hfill. destruct Hfill as [Hrowb _].
  change (radix_size RadixBits) with rs in Hrowb.
  rewrite (Hrowb d Hd). apply slice_count. exact Hb.
Qed.
End PassProofs.

(** ** The destinations of a pass *)

Lemma NoDup_zrange n : NoDup (zrange n).
Proof.
  unfold zrange. apply Injective_map_NoDup_in; [|apply seq_NoDup].
  intros x y _ _ H. lia.
Qed.

Lemma stable_dest_inj dig size i j :
  0 <= i < size -> 0 <= j < size ->
  stable_dest dig size i = stable_dest dig size j -> i = j.
Proof.
  intros Hi Hj E.
  destruct (Z.lt_trichotomy (dig i) (dig j)) as [H|[H|H]].
  - pose proof (stable_dest_smaller_digit dig size i j Hi Hj H). lia.
  - destruct (Z.lt_trichotomy i j) as [L|[L|L]]; [|assumption|].
    + pose proof (stable_dest_same_digit dig size i j ltac:(lia) ltac:(lia) H). lia.
    + pose proof (stable_dest_same_digit dig size j i ltac:(lia) ltac:(lia)
                    (eq_sym H)). lia.
  - pose proof (stable_dest_smaller_digit dig size j i Hj Hi H). lia.
Qed.

(** The places of the stable partition are the indices of the input, each
    taken once. *)
Lemma stable_dest_perm dig size :
  Permutation (map (stable_dest dig size) (zrange size)) (zrange size).
Proof.
  apply NoDup_Permutation_bis.
  - apply Injective_map_NoDup_in; [|apply NoDup_zrange].
    intros x y Hx Hy. apply in_zrange in Hx, Hy. now apply stable_dest_inj.
  - rewrite length_map. lia.
  - intros d Hd. apply in_map_iff in Hd. destruct Hd as (g & <- & Hg).
    apply in_zrange in Hg. apply in_zrange. now apply stable_dest_bounds.
Qed.

(** ** The output arrays *)

(** The arrays [keys_output] and [values_output], and the effect of the
    stores of a launch on them. *)
Definition output (KeyOut Value : Type) : Type := ((Z -> KeyOut) * (Z -> Value))%type.

Definition apply_store {KeyOut Value : Type} (mem : output KeyOut Value)
    (s : store KeyOut Value) : output KeyOut Value :=
  match s with
  | store_key dst k => (upd (fst mem) dst k, snd mem)
  | store_value dst v => (fst mem, upd (snd mem) dst v)
  end.

Definition apply_stores {KeyOut Value : Type} (stores : list (store KeyOut Value))
    (mem : output KeyOut Value) : output KeyOut Value :=
  fold_left apply_store stores mem.

Section Output.
Context {KeyOut Value : Type}.
Implicit Types (l : list (store KeyOut Value)) (mem : output KeyOut Value).

Lemma apply_stores_snoc l s mem :
  apply_stores (l ++ [s]) mem = apply_store (apply_stores l mem) s.
Proof. unfold apply_stores. now rewrite fold_left_app. Qed.

(** An address written with one key only holds that key, whatever the
    order of the stores. *)
Lemma apply_stores_key l mem a k :
  In (store_key a k) l -> (forall k', In (store_key a k') l -> k' = k) ->
  fst (apply_stores l mem) a = k.
Proof.
  induction l as [|s l IH] using rev_ind; [intros []|].
  intros Hin Huniq. rewrite apply_stores_snoc.
  assert (Hprev : forall k', In (store_key a k') l -> k' = k).
  { intros k' H'. apply Huniq. apply in_or_app. now left. }
  destruct s as [dst k0 | dst v]; cbn [apply_store fst].
  - unfold upd. destruct (Z.eqb_spec a dst) as [->|Hne].
    + apply Huniq. apply in_or_app. right. now left.
    + apply IH; [|exact Hprev].
      apply in_app_or in Hin. destruct Hin as [H|[H|[]]]; [exact H | congruence].
  - apply IH; [|exact Hprev].
    apply in_app_or in Hin. destruct Hin as [H|[H|[]]]; [exact H | discriminate].
Qed.

Lemma apply_stores_key_frame l mem a :
  (forall k, ~ In (store_key a k) l) -> fst (apply_stores l mem) a = fst mem a.
Proof.
  induction l as [|s l IH] using rev_ind; [reflexivity|].
  intros Hno. rewrite apply_stores_snoc.
  assert (Hprev : forall k, ~ In (store_key a k) l).
  { intros k H'. apply (Hno k). apply in_or_app. now left. }
  destruct s as [dst k0 | dst v]; cbn [apply_store fst]; [|now apply IH].
  unfold upd. destruct (Z.eqb_spec a dst) as [->|Hne]; [|now apply IH].
  exfalso. apply (Hno k0). apply in_or_app. right. now left.
Qed.

Lemma apply_stores_value l mem a v :
  In (store_value a v) l -> (forall v', In (store_value a v') l -> v' = v) ->
  snd (apply_stores l mem) a = v.
Proof.
  induction l as [|s l IH] using rev_ind; [intros []|].
  intros Hin Huniq. rewrite apply_stores_snoc.
  assert (Hprev : forall v', In (store_value a v') l -> v' = v).
  { intros v' H'. apply Huniq. apply in_or_app. now left. }
  destruct s as [dst k0 | dst v0]; cbn [apply_store snd].
  - apply IH; [|exact Hprev].
    apply in_app_or in Hin. destruct Hin as [H|[H|[]]]; [exact H | discriminate].
  - unfold upd. destruct (Z.eqb_spec a dst) as [->|Hne].
    + apply Huniq. apply in_or_app. right. now left.
    + apply IH; [|exact Hprev].
      apply in_app_or in Hin. destruct Hin as [H|[H|[]]]; [exact H | congruence].
Qed.

Lemma apply_stores_value_frame l mem a :
  (forall v, ~ In (store_value a v) l) -> snd (apply_stores l mem) a = snd mem a.
Proof.
  induction l as [|s l IH] using rev_ind; [reflexivity|].
  intros Hno. rewrite apply_stores_snoc.
  assert (Hprev : forall v, ~ In (store_value a v) l).
  { intros v H'. apply (Hno v). apply in_or_app. now left. }
  destruct s as [dst k0 | dst v0]; cbn [apply_store snd]; [now apply IH|].
  unfold upd. destruct (Z.eqb_spec a dst) as [->|Hne]; [|now apply IH].
  exfalso. apply (Hno v0). apply in_or_app. right. now left.
Qed.
End Output.

(** ** The arrays after a launch of the scatter stage *)

Section PassOutput.
Context {KeyIn KeyOut Value : Type}.
Context {key_in_codec : radix_key_codec KeyIn}.
Context {key_out_codec : radix_key_codec KeyOut}.
Context {value_payload : payload Value}.
Variables (keys_input : Z -> KeyIn) (values_input : Z -> Value).
Variables (size : Z) (dest : Z -> Z).
Hypothesis dest_inj :
  forall i j, 0 <= i < size -> 0 <= j < size -> dest i = dest j -> i = j.
Variable log : list (store KeyOut Value).
Hypothesis log_perm :
  Permutation log
    (flat_map (fun g => stores_of_item keys_input values_input (dest g) g)
              (zrange size)).
Variable mem : output KeyOut Value.

Lemma in_log_key a k :
  In (store_key a k) log <->
  exists g, 0 <= g < size /\ a = dest g /\ k = decode (encode (keys_input g)).
Proof.
  split.
  - intros Hin. apply (Permutation_in _ log_perm) in Hin.
    apply in_flat_map in Hin. destruct Hin as (g & Hg & Hin).
    apply in_zrange in Hg. exists g. split; [exact Hg|].
    unfold stores_of_item, item_stores in Hin. cbn [fst snd] in Hin.
    destruct Hin as [E|Hin].
    + injection E as <- <-. now split.
    + destruct with_values; [|destruct Hin].
      destruct Hin as [E|[]]. discriminate.
  - intros (g & Hg & -> & ->).
    apply (Permutation_in _ (Permutation_sym log_perm)).
    apply in_flat_map. exists g. split; [now apply in_zrange|]. now left.
Qed.

Lemma in_log_value a v :
  In (store_value a v) log <->
  with_values = true /\
  exists g, 0 <= g < size /\ a = dest g /\ v = values_input g.
Proof.
  split.
  - intros Hin. apply (Permutation_in _ log_perm) in Hin.
    apply in_flat_map in Hin. destruct Hin as (g & Hg & Hin).
    apply in_zrange in Hg.
    unfold stores_of_item, item_stores in Hin. cbn [fst snd] in Hin.
    destruct Hin as [E|Hin]; [discriminate|].
    destruct with_values; [|destruct Hin].
    destruct Hin as [E|[]]. injection E as <- <-.
    split; [reflexivity|]. exists g. now repeat split.
  - intros (Hw & g & Hg & -> & ->).
    apply (Permutation_in _ (Permutation_sym log_perm)).
    apply in_flat_map. exists g. split; [now apply in_zrange|].
    unfold stores_of_item, item_stores. rewrite Hw. right. now left.
Qed.

Lemma pass_output_key g :
  0 <= g < size ->
  fst (apply_stores log mem) (dest g) = decode (encode (keys_input g)).
Proof.
  intros Hg. apply apply_stores_key.
  - apply in_log_key. exists g. now repeat split.
  - intros k' Hk'. apply in_log_key in Hk'. destruct Hk' as (g' & Hg' & E & ->).
    now rewrite (dest_inj g g' Hg Hg' E).
Qed.

Lemma pass_output_value g :
  with_values = true -> 0 <= g < size ->
  snd (apply_stores log mem) (dest g) = values_input g.
Proof.
  intros Hw Hg. apply apply_stores_value.
  - apply in_log_value. split; [exact Hw|]. exists g. now repeat split.
  - intros v' Hv'. apply in_log_value in Hv'.
    destruct Hv' as (_ & g' & Hg' & E & ->).
    now rewrite (dest_inj g g' Hg Hg' E).
Qed.

Lemma pass_output_key_frame a :
  (forall g, 0 <= g < size -> a <> dest g) ->
  fst (apply_stores log mem) a = fst mem a.
Proof.
  intros Hno. apply apply_stores_key_frame. intros k Hk.
  apply in_log_key in Hk. destruct Hk as (g & Hg & E & _). exact (Hno g Hg E).
Qed.

Lemma pass_output_value_frame a :
  (forall g, 0 <= g < size -> a <> dest g) ->
  snd (apply_stores log mem) a = snd mem a.
Proof.
  intros Hno. apply apply_stores_value_frame. intros v Hv.
  apply in_log_value in Hv. destruct Hv as (_ & g & Hg & E & _).
  exact (Hno g Hg E).
Qed.

Lemma pass_output_no_values a :
  with_values = false -> snd (apply_stores log mem) a = snd mem a.
Proof.
  intros Hw. apply apply_stores_value_frame. intros v Hv.
  apply in_log_value in Hv. destruct Hv as (Hw' & _). congruence.
Qed.
End PassOutput.

(** ** The sort *)

(** Modelled from the spec: the host orchestrator is not part of the
    sources at hand.  It repeats the pipeline once per radix window, from
    the low bits of the key to the high bits, until the width of the key is
    covered; the last window may be narrower than [RadixBits].  The output
    arrays of a pass are the input arrays of the next one, and the arrays
    that a pass read are written by the next one. *)
Section RadixSort.
Variables BlockSize ItemsPerThread RadixBits warp_size key_bits : Z.
Variables ScanBlockSize ScanItemsPerThread : Z.
Context {Key Value : Type}.
Context {key_codec : radix_key_codec Key}.
Context {value_payload : payload Value}.
(** The indeterminate contents of registers, shared memory and tables, for
    every pass. *)
Variable junk : Z -> indeterminate (KeyIn := Key) (Value := Value).
Variables size batches blocks_per_full_batch full_batches : Z.

Definition pass_output (pass bit current_radix_bits : Z)
    (input scratch : output Key Value) : output Key Value :=
  apply_stores
    (radix_pass BlockSize ItemsPerThread RadixBits warp_size key_bits
       ScanBlockSize ScanItemsPerThread (junk pass) (fst input) (snd input)
       size bit current_radix_bits batches blocks_per_full_batch full_batches)
    scratch.

Fixpoint radix_sort_passes (iterations : nat) (pass bit end_bit : Z)
    (input scratch : output Key Value) : output Key Value * output Key Value :=
  match iterations with
  | O => (input, scratch)
  | S iterations =>
      let current_radix_bits := Z.min RadixBits (end_bit - bit) in
      radix_sort_passes iterations (pass + 1) (bit + RadixBits) end_bit
        (pass_output pass bit current_radix_bits input scratch) input
  end.

Definition radix_sort (input scratch : output Key Value) : output Key Value :=
  let iterations := (key_bits + RadixBits - 1) / RadixBits in
  fst (radix_sort_passes (Z.to_nat iterations) 0 0 key_bits input scratch).

(** *** The invariant of the passes *)

Variables (key_le : Key -> Key -> Prop) (Descending : bool).
Hypothesis codec_ok : codec_contract key_codec key_bits key_le Descending.
Hypothesis sort_block_ok : payload_ok BlockSize ItemsPerThread value_payload.
Hypothesis RadixBits_pos : 0 < RadixBits.
Hypothesis key_bits_nonneg : 0 <= key_bits.
Hypothesis config_ok :
  forall bit current_radix_bits,
    0 <= bit -> 0 <= current_radix_bits <= RadixBits ->
    bit + current_radix_bits <= key_bits ->
    launch_ok BlockSize ItemsPerThread RadixBits warp_size key_bits
              ScanBlockSize ScanItemsPerThread size bit current_radix_bits
              batches blocks_per_full_batch full_batches.

Variable original : output Key Value.

(** The low [b] bits of the bit key of the item [g] of the input. *)
Let low b g := encode (fst original g) mod 2 ^ b.

(** The order of the items after the passes over the low [b] bits: by
    these bits, then by index. *)
Definition lsd_lt (b i j : Z) : Prop :=
  low b i < low b j \/ (low b i = low b j /\ i < j).

(** [place g] is where the item [g] of the input lies in [mem]. *)
Definition arranged (b : Z) (place : Z -> Z) (mem : output Key Value) : Prop :=
  (forall g, 0 <= g < size ->
     0 <= place g < size /\
     fst mem (place g) = fst original g /\
     (with_values = true -> snd mem (place g) = snd original g)) /\
  (forall i j, 0 <= i < size -> 0 <= j < size ->
     lsd_lt b i j -> place i < place j).

Lemma sentinel_of_codec :
  encode (decode (Z.ones key_bits) : Key) = Z.ones key_bits.
Proof.
  apply (encode_decode _ _ _ _ codec_ok). rewrite Z.ones_equiv.
  pose proof (Z.pow_pos_nonneg 2 key_bits ltac:(lia) key_bits_nonneg). lia.
Qed.

Lemma low_split b c g :
  0 <= b -> 0 <= c ->
  low (b + c) g = low b g + 2 ^ b * digit_of b c (encode (fst original g)).
Proof.
  intros Hb Hc. unfold low, digit_of.
  rewrite Z.land_ones, Z.shiftr_div_pow2 by assumption.
  rewrite Z.pow_add_r by assumption.
  apply Z.rem_mul_r.
  - pose proof (Z.pow_pos_nonneg 2 b ltac:(lia) Hb). lia.
  - apply Z.pow_pos_nonneg; lia.
Qed.

Lemma low_range b g : 0 <= b -> 0 <= low b g < 2 ^ b.
Proof.
  intros Hb. unfold low. apply Z.mod_pos_bound. apply Z.pow_pos_nonneg; lia.
Qed.

(** One pass over the window of [c] bits at [b] extends the order to the
    low [b + c] bits. *)
Lemma pass_arranged pass b c place input scratch :
  0 <= b -> 0 <= c <= RadixBits -> b + c <= key_bits ->
  arranged b place input ->
  arranged (b + c)
    (fun g => stable_dest (fun p => digit_of b c (encode (fst input p))) size
                          (place g))
    (pass_output pass b c input scratch).
Proof.
  intros Hb Hc Hbc [Hitems Horder].
  set (G := fun p => digit_of b c (encode (fst input p))).
  pose proof (@radix_pass_spec BlockSize ItemsPerThread RadixBits warp_size
                key_bits ScanBlockSize ScanItemsPerThread Key Key Value _ _ _
                (junk pass) (fst input) (snd input) size b c batches
                blocks_per_full_batch full_batches
                (config_ok b c Hb Hc Hbc) sentinel_of_codec sort_block_ok)
    as Hperm.
  fold G in Hperm.
  assert (Hinj : forall i j, 0 <= i < size -> 0 <= j < size ->
                   stable_dest G size i = stable_dest G size j -> i = j)
    by (intros i j; apply stable_dest_inj).
  assert (HG : forall g, 0 <= g < size ->
                 G (place g) = digit_of b c (encode (fst original g))).
  { intros g Hg. unfold G. destruct (Hitems g Hg) as (_ & -> & _). reflexivity. }
  split.
  - intros g Hg. destruct (Hitems g Hg) as (Hp & Hk & Hv).
    split; [now apply stable_dest_bounds|]. split.
    + unfold pass_output.
      rewrite (pass_output_key (fst input) (snd input) size (stable_dest G size)
                 Hinj _ Hperm scratch (place g) Hp).
      rewrite (decode_encode _ _ _ _ codec_ok). exact Hk.
    + intros Hw. unfold pass_output.
      rewrite (pass_output_value (fst input) (snd input) size (stable_dest G size)
                 Hinj _ Hperm scratch (place g) Hw Hp).
      now apply Hv.
  - intros i j Hi Hj Hlt.
    destruct (Hitems i Hi) as (Hpi & _), (Hitems j Hj) as (Hpj & _).
    pose proof (low_split b c i Hb ltac:(lia)) as Hli.
    pose proof (low_split b c j Hb ltac:(lia)) as Hlj.
    pose proof (low_range b i Hb) as Hri. pose proof (low_range b j Hb) as Hrj.
    rewrite <- (HG i Hi) in Hli. rewrite <- (HG j Hj) in Hlj.
    destruct (Z.lt_trichotomy (G (place i)) (G (place j))) as [Hd|[Hd|Hd]].
    + now apply stable_dest_smaller_digit.
    + assert (Hlow : lsd_lt b i j).
      { destruct Hlt as [H|[H H']]; [left | right]; rewrite Hli, Hlj, Hd in H;
          [lia | split; [lia | exact H']]. }
      pose proof (Horder i j Hi Hj Hlow).
      apply stable_dest_same_digit; [lia | lia | exact Hd].
    + exfalso. destruct Hlt as [H|[H _]]; rewrite Hli, Hlj in H; nia.
Qed.

(** The passes of the host, from any bit on. *)
Lemma radix_sort_passes_arranged iterations :
  forall pass bit place input scratch,
    0 <= bit <= key_bits ->
    key_bits - bit <= Z.of_nat iterations * RadixBits ->
    Z.of_nat iterations * RadixBits < key_bits - bit + RadixBits ->
    arranged bit place input ->
    exists place',
      arranged key_bits place'
        (fst (radix_sort_passes iterations pass bit key_bits input scratch)).
Proof.
  induction iterations as [|n IH]; intros pass bit place input scratch Hbit Hup Hlo Harr.
  - exists place. cbn [radix_sort_passes fst].
    replace key_bits with bit by lia. exact Harr.
  - cbn [radix_sort_passes].
    set (c := Z.min RadixBits (key_bits - bit)).
    pose proof (pass_arranged pass bit c place input scratch ltac:(lia)
                  ltac:(lia) ltac:(lia) Harr) as Hnext.
    destruct (Z.le_gt_cases RadixBits (key_bits - bit)) as [Hfull|Hshort].
    + replace (bit + c) with (bit + RadixBits) in Hnext by lia.
      rewrite Nat2Z.inj_succ in Hup, Hlo.
      eapply (IH (pass + 1) (bit + RadixBits)); [lia | lia | lia | exact Hnext].
    + assert (n = O)
        by (destruct n; [reflexivity | exfalso; rewrite !Nat2Z.inj_succ in Hlo; nia]).
      subst n. cbn [radix_sort_passes fst].
      replace (bit + c) with key_bits in Hnext by lia.
      eexists. exact Hnext.
Qed.

Lemma arranged_initial : arranged 0 (fun g => g) original.
Proof.
  split.
  - intros g Hg. split; [exact Hg|]. split; [reflexivity | intros _; reflexivity].
  - intros i j _ _ [H|[_ H]]; [|exact H].
    unfold low in H. rewrite Z.pow_0_r, !Z.mod_1_r in H. lia.
Qed.

Lemma radix_sort_arranged scratch :
  exists place, arranged key_bits place (radix_sort original scratch).
Proof.
  unfold radix_sort. cbv zeta.
  pose proof (Z.div_mod (key_bits + RadixBits - 1) RadixBits ltac:(lia)) as Hdm.
  pose proof (Z.mod_pos_bound (key_bits + RadixBits - 1) RadixBits RadixBits_pos).
  assert (0 <= (key_bits + RadixBits - 1) / RadixBits)
    by (apply Z.div_pos; lia).
  apply (radix_sort_passes_arranged _ 0 0 (fun g => g));
    [lia | rewrite Z2Nat.id by lia; nia | rewrite Z2Nat.id by lia; nia
    | exact arranged_initial].
Qed.

Lemma low_full g : low key_bits g = encode (fst original g).
Proof.
  unfold low. apply Z.mod_small. apply (encode_range _ _ _ _ codec_ok).
Qed.

(** The sort: the output holds the items of the input, each once, in the
    requested order of the keys, and equal keys keep their order. *)
Lemma radix_sort_spec scratch :
  let out := radix_sort original scratch in
  exists place,
    Permutation (map place (zrange size)) (zrange size) /\
    (forall g, 0 <= g < size ->
       fst out (place g) = fst original g /\
       (with_values = true -> snd out (place g) = snd original g)) /\
    (forall i j, 0 <= i < j -> j < size ->
       fst original i = fst original j -> place i < place j) /\
    (forall p q, 0 <= p <= q -> q < size ->
       if Descending then key_le (fst out q) (fst out p)
       else key_le (fst out p) (fst out q)).
Proof.
  cbv zeta. destruct (radix_sort_arranged scratch) as (place & Hitems & Horder).
  assert (Htotal : forall i j, 0 <= i < size -> 0 <= j < size -> i <> j ->
                     lsd_lt key_bits i j \/ lsd_lt key_bits j i).
  { intros i j _ _ Hne. unfold lsd_lt. lia. }
  assert (Hperm : Permutation (map place (zrange size)) (zrange size)).
  { apply NoDup_Permutation_bis.
    - apply Injective_map_NoDup_in; [|apply NoDup_zrange].
      intros i j Hi Hj E. apply in_zrange in Hi, Hj.
      destruct (Z.eq_dec i j) as [|Hne]; [assumption|].
      destruct (Htotal i j Hi Hj Hne) as [H|H];
        [pose proof (Horder i j Hi Hj H) | pose proof (Horder j i Hj Hi H)]; lia.
    - rewrite length_map. lia.
    - intros d Hd. apply in_map_iff in Hd. destruct Hd as (g & <- & Hg).
      apply in_zrange in Hg. apply in_zrange. now apply Hitems. }
  exists place. split; [exact Hperm|]. split; [|split].
  - intros g Hg. destruct (Hitems g Hg) as (_ & Hk & Hv). now split.
  - intros i j Hi Hj E. apply Horder; [lia | lia |].
    right. rewrite !low_full, E. lia.
  - intros p q Hp Hq.
    assert (Hsrc : forall p, 0 <= p < size ->
                     exists g, 0 <= g < size /\ place g = p).
    { intros p' Hp'. apply in_zrange in Hp'.
      apply (Permutation_in _ (Permutation_sym Hperm)) in Hp'.
      apply in_map_iff in Hp'. destruct Hp' as (g & E & Hg).
      apply in_zrange in Hg. now exists g. }
    destruct (Hsrc p ltac:(lia)) as (i & Hi & <-).
    destruct (Hsrc q ltac:(lia)) as (j & Hj & <-).
    destruct (Hitems i Hi) as (_ & -> & _), (Hitems j Hj) as (_ & -> & _).
    apply (encode_order _ _ _ _ codec_ok).
    destruct (Z.le_gt_cases (encode (fst original i)) (encode (fst original j)))
      as [Hle|Hgt]; [exact Hle|].
    assert (Hlt : lsd_lt key_bits j i) by (left; rewrite !low_full; lia).
    pose proof (Horder j i Hj Hi Hlt). lia.
Qed.
End RadixSort.

(** ** The destinations and the payload of the stores *)

Definition key_dsts {KeyOut Value : Type} (log : list (store KeyOut Value)) : list Z :=
  flat_map (fun s => match s with
                     | store_key dst _ => [dst]
                     | store_value _ _ => []
                     end) log.

Definition value_dsts {KeyOut Value : Type} (log : list (store KeyOut Value)) : list Z :=
  flat_map (fun s => match s with
                     | store_key _ _ => []
                     | store_value dst _ => [dst]
                     end) log.

Lemma key_dsts_perm {KeyOut Value : Type} (l l' : list (store KeyOut Value)) :
  Permutation l l' -> Permutation (key_dsts l) (key_dsts l').
Proof. apply Permutation_flat_map. Qed.

Lemma value_dsts_perm {KeyOut Value : Type} (l l' : list (store KeyOut Value)) :
  Permutation l l' -> Permutation (value_dsts l) (value_dsts l').
Proof. apply Permutation_flat_map. Qed.

Section Destinations.
Context {KeyIn KeyOut Value : Type}.
Context {key_in_codec : radix_key_codec KeyIn}.
Context {key_out_codec : radix_key_codec KeyOut}.
Context {value_payload : payload Value}.
Variables (keys_input : Z -> KeyIn) (values_input : Z -> Value) (dest : Z -> Z).

Lemma key_dsts_items l :
  key_dsts (flat_map (fun g => stores_of_item (KeyOut := KeyOut) keys_input
                                 values_input (dest g) g) l)
  = map dest l.
Proof.
  unfold key_dsts. rewrite flat_map_flat_map.
  induction l as [|g l IH]; [reflexivity|].
  cbn [flat_map map]. rewrite IH. f_equal.
  unfold stores_of_item, item_stores. cbn [flat_map].
  destruct with_values; reflexivity.
Qed.

Lemma value_dsts_items l :
  value_dsts (flat_map (fun g => stores_of_item (KeyOut := KeyOut) keys_input
                                   values_input (dest g) g) l)
  = if with_values then map dest l else [].
Proof.
  unfold value_dsts. rewrite flat_map_flat_map.
  induction l as [|g l IH]; [now destruct with_values|].
  cbn [flat_map map]. rewrite IH.
  unfold stores_of_item, item_stores. cbn [flat_map].
  destruct with_values; reflexivity.
Qed.
End Destinations.

Section ValueStores.
Variables BlockSize ItemsPerThread RadixBits key_bits : Z.
Context {KeyIn KeyOut Value : Type}.
Context {key_in_codec : radix_key_codec KeyIn}.
Context {key_out_codec : radix_key_codec KeyOut}.
Context {value_payload : payload Value}.

(** The states of one iteration of [scatter_block], by name. *)
Lemma scatter_block_stages values_uninit (keys_input : Z -> KeyIn)
    (values_input : Z -> Value) size bit current_radix_bits bi block_offset storage :
  let valid_count := block_valid_count BlockSize ItemsPerThread size block_offset in
  let tile := sorted_tile BlockSize ItemsPerThread key_bits values_uninit
                keys_input values_input size bit current_radix_bits bi block_offset in
  let runs := block_runs BlockSize ItemsPerThread RadixBits (fst tile) bit
                current_radix_bits valid_count storage in
  scatter_block (KeyOut := KeyOut) BlockSize ItemsPerThread RadixBits key_bits
    values_uninit keys_input values_input size bit current_radix_bits bi
    (block_offset, storage) =
  (add32 block_offset (items_per_block BlockSize ItemsPerThread),
   advance_block_starts BlockSize RadixBits valid_count runs,
   scatter_stores BlockSize ItemsPerThread
     (blocked_to_striped BlockSize ItemsPerThread (fst tile))
     (if with_values
      then blocked_to_striped BlockSize ItemsPerThread (snd tile) else snd tile)
     bit (sub32 (shl32 1 current_radix_bits) 1) valid_count runs).
Proof. cbv zeta. apply scatter_block_unfold. Qed.

(** Line 421: a value is stored only when there is a payload. *)
Lemma scatter_stores_values (bit_keys : regs Z) (values : regs Value)
    bit radix_mask valid_count storage dst v :
  In (store_value dst v)
     (scatter_stores (KeyOut := KeyOut) BlockSize ItemsPerThread bit_keys values
        bit radix_mask valid_count storage) ->
  with_values = true.
Proof.
  unfold scatter_stores, for_stores. intros Hin.
  apply in_flat_map in Hin. destruct Hin as (i & _ & Hin).
  apply in_flat_map in Hin. destruct Hin as (flat_id & _ & Hin).
  cbv zeta in Hin.
  destruct (_ <? valid_count); [|destruct Hin].
  destruct Hin as [E|Hin]; [discriminate|].
  destruct with_values; [reflexivity | destruct Hin].
Qed.

Lemma sort_and_scatter_values values_uninit storage_uninit (keys_input : Z -> KeyIn)
    (values_input : Z -> Value) size batch_digit_starts digit_starts bit
    current_radix_bits blocks_per_full_batch full_batches batch_id dst v :
  In (store_value dst v)
     (sort_and_scatter (KeyOut := KeyOut) BlockSize ItemsPerThread RadixBits
        key_bits values_uninit storage_uninit keys_input values_input size
        batch_digit_starts digit_starts bit current_radix_bits
        blocks_per_full_batch full_batches batch_id) ->
  with_values = true.
Proof.
  unfold sort_and_scatter, sort_and_scatter_run.
  destruct (batch_blocks _ _ _ _ _) as [block_offset blocks_per_batch].
  match goal with
  | |- In _ (snd (for_loop _ ?body ?init)) -> _ =>
      set (step := body); set (s0 := init)
  end.
  destruct (Z.le_gt_cases blocks_per_batch 0) as [Hle|Hgt].
  { rewrite for_loop_nonpos by assumption. intros []. }
  revert dst v.
  apply (for_loop_inv
           (fun _ acc => forall dst v, In (store_value dst v) (snd acc) ->
                                       with_values = true));
    [lia | intros dst v [] |].
  intros bi [[off storage] log] _ IH dst v. unfold step.
  rewrite scatter_block_stages. cbv zeta. cbn [snd].
  intros Hin. apply in_app_or in Hin. destruct Hin as [Hin|Hin].
  - exact (IH dst v Hin).
  - exact (scatter_stores_values _ _ _ _ _ _ _ _ Hin).
Qed.
End ValueStores.

(** ** The slices of the batches *)

Section BatchSlices.
Variables T B blocks_per_full_batch full_batches : Z.
Variables BlockSize ItemsPerThread size : Z.
Hypothesis full_le : 0 <= full_batches <= B.
Hypothesis B_range : B < 2 ^ 32.
Hypothesis per_batch_range : 0 <= blocks_per_full_batch < 2 ^ 32.
Hypothesis batching :
  full_batches * blocks_per_full_batch
  + (B - full_batches) * (blocks_per_full_batch - 1) = T.
Hypothesis tile_pos : 0 < BlockSize * ItemsPerThread.
Hypothesis size_range : 0 <= size.
Hypothesis size_small : size + BlockSize * ItemsPerThread <= 2 ^ 32.
Hypothesis T_blocks :
  T = (size + BlockSize * ItemsPerThread - 1) / (BlockSize * ItemsPerThread).

Let ipb := BlockSize * ItemsPerThread.
Let first b := fst (batch_block_range blocks_per_full_batch full_batches b).
Let blocks b := snd (batch_block_range blocks_per_full_batch full_batches b).

Lemma T_covers : 0 <= T /\ size <= T * ipb < size + ipb.
Proof.
  rewrite T_blocks. fold ipb.
  pose proof (Z.div_mod (size + ipb - 1) ipb ltac:(unfold ipb; lia)).
  pose proof (Z.mod_pos_bound (size + ipb - 1) ipb tile_pos).
  assert (0 <= (size + ipb - 1) / ipb) by (apply Z.div_pos; unfold ipb; lia).
  nia.
Qed.

Lemma T_small : 0 <= T < 2 ^ 32.
Proof. destruct T_covers. unfold ipb in *. nia. Qed.

Lemma batch_slice_blocks b :
  0 <= b < B ->
  batch_slice BlockSize ItemsPerThread size blocks_per_full_batch full_batches b =
  (Z.min size (first b * ipb), Z.min size (first b * ipb + blocks b * ipb)).
Proof.
  intros Hb. unfold batch_slice.
  rewrite (batch_blocks_items T B blocks_per_full_batch full_batches full_le
             B_range per_batch_range T_small batching BlockSize ItemsPerThread b
             Hb ltac:(lia) ltac:(destruct T_covers; unfold ipb in *; lia)).
  reflexivity.
Qed.

(** Every item of the input lies in the slice of one batch. *)
Lemma slice_owner g :
  0 <= g < size ->
  exists b, 0 <= b < B /\
    (fst (batch_slice BlockSize ItemsPerThread size blocks_per_full_batch
            full_batches b) <= g
     < snd (batch_slice BlockSize ItemsPerThread size blocks_per_full_batch
              full_batches b)) /\
    forall b', 0 <= b' < B ->
      (fst (batch_slice BlockSize ItemsPerThread size blocks_per_full_batch
              full_batches b') <= g
       < snd (batch_slice BlockSize ItemsPerThread size blocks_per_full_batch
                full_batches b')) ->
      b' = b.
Proof.
  intros Hg. destruct T_covers as [HT0 HT].
  pose proof (Z.div_mod g ipb ltac:(unfold ipb; lia)) as Hdm.
  pose proof (Z.mod_pos_bound g ipb tile_pos) as Hr.
  assert (Hk : 0 <= g / ipb < T).
  { split; [apply Z.div_pos; unfold ipb; lia|].
    apply Z.div_lt_upper_bound; [exact tile_pos | lia]. }
  destruct (block_owner T B blocks_per_full_batch full_batches full_le B_range
              per_batch_range T_small batching (g / ipb) Hk)
    as (b & Hb & Hin & Huniq).
  fold (first b) (blocks b) in Hin.
  assert (Hslice : forall b', 0 <= b' < B ->
    (fst (batch_slice BlockSize ItemsPerThread size blocks_per_full_batch
            full_batches b') <= g
     < snd (batch_slice BlockSize ItemsPerThread size blocks_per_full_batch
              full_batches b')) <->
    first b' <= g / ipb < first b' + blocks b').
  { intros b' Hb'. rewrite batch_slice_blocks by assumption. cbn [fst snd].
    replace (first b' * ipb + blocks b' * ipb)
      with ((first b' + blocks b') * ipb) by ring.
    generalize (first b'), (first b' + blocks b'). intros lo hi.
    assert (Hlo : lo * ipb <= g <-> lo <= g / ipb).
    { split; intros H.
      - apply Z.div_le_lower_bound; [exact tile_pos | lia].
      - assert (lo * ipb <= g / ipb * ipb)
          by (apply Z.mul_le_mono_nonneg_r; [unfold ipb; lia | exact H]).
        lia. }
    assert (Hhi : g < hi * ipb <-> g / ipb < hi).
    { split; intros H.
      - apply Z.div_lt_upper_bound; [exact tile_pos | lia].
      - assert ((g / ipb + 1) * ipb <= hi * ipb)
          by (apply Z.mul_le_mono_nonneg_r; [unfold ipb; lia | lia]).
        lia. }
    lia. }
  exists b. split; [exact Hb|]. split; [now apply Hslice|].
  intros b' Hb' Hin'. apply Huniq; [exact Hb'|]. now apply Hslice.
Qed.
End BatchSlices.

Lemma radix_pass_values
    BlockSize ItemsPerThread RadixBits warp_size key_bits
    ScanBlockSize ScanItemsPerThread
    {KeyIn KeyOut Value : Type}
    {key_in_codec : radix_key_codec KeyIn} {key_out_codec : radix_key_codec KeyOut}
    {value_payload : payload Value}
    (junk : indeterminate (KeyIn := KeyIn) (Value := Value))
    (keys_input : Z -> KeyIn) (values_input : Z -> Value)
    size bit current_radix_bits batches blocks_per_full_batch full_batches dst v :
  In (store_value dst v)
     (radix_pass (KeyOut := KeyOut) BlockSize ItemsPerThread RadixBits warp_size
        key_bits ScanBlockSize ScanItemsPerThread junk keys_input values_input
        size bit current_radix_bits batches blocks_per_full_batch full_batches) ->
  with_values = true.
Proof.
  unfold radix_pass. destruct (pass_tables _ _ _ _ _ _ _ _ _ _ _ _ _ _)
    as [[batch_digit_starts digit_counts] digit_starts].
  unfold scatter_stage, for_stores. intros Hin.
  apply in_flat_map in Hin. destruct Hin as (b & _ & Hin).
  exact (sort_and_scatter_values _ _ _ _ _ _ _ _ _ _ _ _ _ _ _ _ _ _ Hin).
Qed.

(** ** A configuration *)

(** Modelled from the spec: the codec of the unsigned keys of 8 bits in
    ascending order, whose bit key is the value of the key. *)
#[export] Instance byte_codec : radix_key_codec Byte.byte :=
  {| encode k := Z.of_N (Byte.to_N k);
     decode b := match Byte.of_N (Z.to_N b) with
                 | Some k => k
                 | None => Byte.x00
                 end |}.

Definition byte_le (a b : Byte.byte) : Prop := (Byte.to_N a <= Byte.to_N b)%N.

Lemma byte_codec_contract : codec_contract byte_codec 8 byte_le false.
Proof.
  constructor; cbn [encode decode byte_codec].
  - intros k. pose proof (Byte.to_N_bounded k). change (2 ^ 8) with 256. lia.
  - intros k. now rewrite N2Z.id, Byte.of_to_N.
  - intros b Hb. change (2 ^ 8) with 256 in Hb.
    destruct (Byte.of_N (Z.to_N b)) as [k|] eqn:E.
    + apply Byte.to_of_N in E. lia.
    + apply Byte.of_N_None_iff in E. lia.
  - intros a b. unfold byte_le. lia.
Defined.

(** The batching example of the specification: ten keys, blocks of four
    threads with one item each, two batches; digits of two bits, warps of
    two lanes. *)
Definition example_keys (g : Z) : Byte.byte :=
  decode (radix_key_codec := byte_codec) ((g * 37 + 11) mod 256).

Definition example_values (g : Z) : Z := 100 + g.

Definition example_junk : indeterminate (KeyIn := Byte.byte) (Value := Z) :=
  {| keys_uninit_of := fun _ _ _ _ => Byte.x2a;
     counts_uninit_of := fun _ _ _ => 7;
     values_uninit_of := fun _ _ _ _ => 5;
     storage_uninit_of := fun _ =>
       {| starts := fun _ => 3; ends := fun _ => 1; block_starts := fun _ => 9 |};
     table_uninit := fun _ => 13;
     totals_uninit := fun _ => 17 |}.

Lemma example_launch_ok bit current_radix_bits :
  0 <= bit -> 0 <= current_radix_bits <= 2 -> bit + current_radix_bits <= 8 ->
  launch_ok 4 1 2 2 8 4 1 10 bit current_radix_bits 2 2 1.
Proof.
  intros Hb Hc Hbc.
  constructor; try (vm_compute; intuition congruence); try lia; try reflexivity.
Defined.

(** ** The properties *)

(** C1: a pass stores every item of its input once, and is a stable
    partition by the digit of the window: of two items with equal digits the
    earlier one is stored at the smaller index, and an item with a smaller
    digit is stored before an item with a greater one.  The passes of the
    host over the whole key, low window first, leave the keys in the
    requested order (non-decreasing, or non-increasing for the descending
    codec), equal keys in the order of the input, every value with its
    key. *)
Theorem C1_stable_partition_and_sort
    BlockSize ItemsPerThread RadixBits warp_size key_bits
    ScanBlockSize ScanItemsPerThread
    {Key Value : Type} {key_codec : radix_key_codec Key}
    {value_payload : payload Value}
    (key_le : Key -> Key -> Prop) (Descending : bool)
    (junk : Z -> indeterminate (KeyIn := Key) (Value := Value))
    size batches blocks_per_full_batch full_batches :
  codec_contract key_codec key_bits key_le Descending ->
  payload_ok BlockSize ItemsPerThread value_payload ->
  0 < RadixBits -> 0 <= key_bits ->
  (forall bit current_radix_bits,
     0 <= bit -> 0 <= current_radix_bits <= RadixBits ->
     bit + current_radix_bits <= key_bits ->
     launch_ok BlockSize ItemsPerThread RadixBits warp_size key_bits
               ScanBlockSize ScanItemsPerThread size bit current_radix_bits
               batches blocks_per_full_batch full_batches) ->
  (forall pass bit current_radix_bits
          (keys_input : Z -> Key) (values_input : Z -> Value),
     0 <= bit -> 0 <= current_radix_bits <= RadixBits ->
     bit + current_radix_bits <= key_bits ->
     let digit g := digit_of bit current_radix_bits (encode (keys_input g)) in
     exists dest,
       Permutation
         (radix_pass (KeyOut := Key) BlockSize ItemsPerThread RadixBits
            warp_size key_bits ScanBlockSize ScanItemsPerThread (junk pass)
            keys_input values_input size bit current_radix_bits batches
            blocks_per_full_batch full_batches)
         (flat_map
            (fun g =>
               store_key (dest g) (decode (encode (keys_input g)))
               :: (if with_values
                   then [store_value (dest g) (values_input g)] else []))
            (zrange size)) /\
       (forall i j, 0 <= i < j -> j < size -> digit i = digit j ->
          dest i < dest j) /\
       (forall i j, 0 <= i < size -> 0 <= j < size -> digit i < digit j ->
          dest i < dest j)) /\
  (forall input scratch : output Key Value,
     let out :=
       radix_sort BlockSize ItemsPerThread RadixBits warp_size key_bits
         ScanBlockSize ScanItemsPerThread junk size batches
         blocks_per_full_batch full_batches input scratch in
     exists place,
       Permutation (map place (zrange size)) (zrange size) /\
       (forall g, 0 <= g < size ->
          fst out (place g) = fst input g /\
          (with_values = true -> snd out (place g) = snd input g)) /\
       (forall i j, 0 <= i < j -> j < size ->
          fst input i = fst input j -> place i < place j) /\
       (forall p q, 0 <= p <= q -> q < size ->
          if Descending then key_le (fst out q) (fst out p)
          else key_le (fst out p) (fst out q))).
Proof.
  intros Hcodec Hpay HR Hkb Hconfig. split.
  - intros pass bit current_radix_bits keys_input values_input Hbit Hwin Hfit digit.
    exists (stable_dest digit size). split; [|split].
    + exact (radix_pass_spec BlockSize ItemsPerThread RadixBits warp_size
               key_bits ScanBlockSize ScanItemsPerThread (KeyOut := Key)
               (junk pass) keys_input values_input size bit current_radix_bits
               batches blocks_per_full_batch full_batches
               (Hconfig bit current_radix_bits Hbit Hwin Hfit)
               (sentinel_of_codec key_bits key_le Descending Hcodec Hkb) Hpay).
    + intros i j Hi Hj. now apply stable_dest_same_digit.
    + intros i j Hi Hj. now apply stable_dest_smaller_digit.
  - intros input scratch.
    exact (radix_sort_spec BlockSize ItemsPerThread RadixBits warp_size key_bits
             ScanBlockSize ScanItemsPerThread junk size batches
             blocks_per_full_batch full_batches key_le Descending Hcodec Hpay
             HR Hkb Hconfig input scratch).
Qed.

Lemma C1_stable_partition_and_sort_witness :
  (forall (pass bit current_radix_bits : Z)
          (keys_input : Z -> Byte.byte) (values_input : Z -> Z),
     0 <= bit -> 0 <= current_radix_bits <= 2 ->
     bit + current_radix_bits <= 8 ->
     let digit g := digit_of bit current_radix_bits (encode (keys_input g)) in
     exists dest,
       Permutation
         (radix_pass (KeyOut := Byte.byte) (value_payload := payload_values 4 1 Z)
            4 1 2 2 8 4 1 example_junk keys_input values_input 10 bit
            current_radix_bits 2 2 1)
         (flat_map
            (fun g =>
               [store_key (dest g) (decode (encode (keys_input g)));
                store_value (dest g) (values_input g)])
            (zrange 10)) /\
       (forall i j, 0 <= i < j -> j < 10 -> digit i = digit j ->
          dest i < dest j) /\
       (forall i j, 0 <= i < 10 -> 0 <= j < 10 -> digit i < digit j ->
          dest i < dest j)) /\
  (forall input scratch : output Byte.byte Z,
     let out :=
       radix_sort (value_payload := payload_values 4 1 Z) 4 1 2 2 8 4 1
         (fun _ => example_junk) 10 2 2 1 input scratch in
     exists place,
       Permutation (map place (zrange 10)) (zrange 10) /\
       (forall g, 0 <= g < 10 ->
          fst out (place g) = fst input g /\
          (true = true -> snd out (place g) = snd input g)) /\
       (forall i j, 0 <= i < j -> j < 10 ->
          fst input i = fst input j -> place i < place j) /\
       (forall p q, 0 <= p <= q -> q < 10 ->
          byte_le (fst out p) (fst out q))).
Proof.
  apply (C1_stable_partition_and_sort 4 1 2 2 8 4 1
           (value_payload := payload_values 4 1 Z) byte_le false
           (fun _ => example_junk) 10 2 2 1).
  - exact byte_codec_contract.
  - apply payload_values_ok.
  - lia.
  - lia.
  - exact example_launch_ok.
Defined.

(** C2: [sort_and_scatter] stores every item of the slice of its batch
    once, the key and with it the value when there is a payload, at the
    start of the digit of the item, plus the offset of the batch for the
    digit, plus the number of earlier items of the batch that hold the
    digit, in [unsigned int] arithmetic; the sum is the index itself when it
    is representable. *)
Theorem C2_scatter_destination
    BlockSize ItemsPerThread RadixBits key_bits
    {KeyIn KeyOut Value : Type}
    {key_in_codec : radix_key_codec KeyIn} {key_out_codec : radix_key_codec KeyOut}
    {value_payload : payload Value}
    (values_uninit : Z -> regs Value) (storage_uninit : scatter_storage)
    (keys_input : Z -> KeyIn) (values_input : Z -> Value)
    size bit current_radix_bits (batch_digit_starts digit_starts : Z -> Z)
    blocks_per_full_batch full_batches batch_id block_offset blocks_per_batch :
  0 < BlockSize -> 0 < ItemsPerThread -> 0 <= RadixBits < 32 ->
  radix_size RadixBits <= BlockSize -> BlockSize * ItemsPerThread < 2 ^ 16 ->
  0 <= current_radix_bits <= RadixBits ->
  0 <= bit /\ bit + current_radix_bits <= key_bits -> key_bits < 2 ^ 32 ->
  size + BlockSize * ItemsPerThread <= 2 ^ 32 ->
  encode (decode (Z.ones key_bits) : KeyIn) = Z.ones key_bits ->
  payload_ok BlockSize ItemsPerThread value_payload ->
  batch_blocks BlockSize ItemsPerThread blocks_per_full_batch full_batches batch_id
  = (block_offset, blocks_per_batch) ->
  0 <= block_offset -> 0 <= blocks_per_batch ->
  (forall k, 0 <= k < blocks_per_batch ->
     block_offset + k * (BlockSize * ItemsPerThread) < size) ->
  0 <= batch_id ->
  batch_id * radix_size RadixBits + radix_size RadixBits <= 2 ^ 32 ->
  let digit g := digit_of bit current_radix_bits (encode (keys_input g)) in
  let local_rank g :=
    count_between (fun g' => digit g' =? digit g) block_offset g in
  let dst g :=
    digit_starts (digit g)
    + batch_digit_starts (batch_id * radix_size RadixBits + digit g)
    + local_rank g in
  let slice_end :=
    Z.min size (block_offset
                + blocks_per_batch * items_per_block BlockSize ItemsPerThread) in
  Permutation
    (sort_and_scatter (KeyOut := KeyOut) BlockSize ItemsPerThread RadixBits
       key_bits values_uninit storage_uninit keys_input values_input size
       batch_digit_starts digit_starts bit current_radix_bits
       blocks_per_full_batch full_batches batch_id)
    (flat_map
       (fun g =>
          store_key (wrap32 (dst g)) (decode (encode (keys_input g)))
          :: (if with_values
              then [store_value (wrap32 (dst g)) (values_input g)] else []))
       (map (Z.add block_offset) (zrange (slice_end - block_offset)))) /\
  (forall g, 0 <= dst g < 2 ^ 32 -> wrap32 (dst g) = dst g).
Proof.
  intros HBS HIPT HR Hfits Htile Hwin Hkey Hkb Hsize Hsent Hpay Hbatch Hoff
         Hblocks Hin Hid Hrow digit local_rank dst slice_end.
  split; [|intros g Hg; now apply wrap32_small].
  exact (sort_and_scatter_spec BlockSize ItemsPerThread RadixBits key_bits
           values_uninit storage_uninit keys_input values_input size bit
           current_radix_bits batch_digit_starts digit_starts HBS HIPT HR Hfits
           Htile Hwin Hkey Hkb Hsize Hsent Hpay blocks_per_full_batch
           full_batches batch_id block_offset blocks_per_batch Hbatch Hoff
           Hblocks Hin Hid Hrow).
Qed.

Lemma C2_scatter_destination_witness :
  let storage_uninit :=
    {| starts := fun _ => 3; ends := fun _ => 1; block_starts := fun _ => 9 |} in
  let digit g := digit_of 0 2 (encode (example_keys g)) in
  let local_rank g := count_between (fun g' => digit g' =? digit g) 8 g in
  let dst g := 2 * digit g + 3 * (1 * radix_size 2 + digit g) + local_rank g in
  let slice_end := Z.min 10 (8 + 1 * items_per_block 4 1) in
  Permutation
    (sort_and_scatter (KeyOut := Byte.byte)
       (value_payload := payload_values 4 1 Z) 4 1 2 8
       (fun _ _ _ => 5) storage_uninit example_keys example_values 10
       (fun a => 3 * a) (fun d => 2 * d) 0 2 2 1 1)
    (flat_map
       (fun g =>
          [store_key (wrap32 (dst g)) (decode (encode (example_keys g)));
           store_value (wrap32 (dst g)) (example_values g)])
       (map (Z.add 8) (zrange (slice_end - 8)))) /\
  (forall g, 0 <= dst g < 2 ^ 32 -> wrap32 (dst g) = dst g).
Proof.
  apply (C2_scatter_destination 4 1 2 8 (value_payload := payload_values 4 1 Z)
           (fun _ _ _ => 5)
           {| starts := fun _ => 3; ends := fun _ => 1; block_starts := fun _ => 9 |}
           example_keys example_values 10 0 2 (fun a => 3 * a) (fun d => 2 * d)
           2 1 1 8 1);
    try apply payload_values_ok; try lia; try reflexivity;
    try (vm_compute; intuition congruence).
Defined.

(** C3: after stage 1 the entry of a batch and a digit is the number of
    keys of the slice of the batch, a part of [0, size), whose bit key holds
    the digit in the window, whatever the registers, the shared counters and
    the table held before; this holds for each block of the grid on its own.
    The positions of the last block past the end of the input are counted
    nowhere, and the entries of all batches and digits sum up to [size]. *)
Theorem C3_histogram_counts
    BlockSize ItemsPerThread RadixBits warp_size key_bits
    ScanBlockSize ScanItemsPerThread
    {KeyIn Value : Type} {key_in_codec : radix_key_codec KeyIn}
    (junk : indeterminate (KeyIn := KeyIn) (Value := Value))
    (keys_input : Z -> KeyIn)
    size bit current_radix_bits batches blocks_per_full_batch full_batches :
  launch_ok BlockSize ItemsPerThread RadixBits warp_size key_bits
            ScanBlockSize ScanItemsPerThread size bit current_radix_bits
            batches blocks_per_full_batch full_batches ->
  let rs := radix_size RadixBits in
  let digit g := digit_of bit current_radix_bits (encode (keys_input g)) in
  let slice b := batch_slice BlockSize ItemsPerThread size blocks_per_full_batch
                   full_batches b in
  let table := histogram_stage BlockSize ItemsPerThread RadixBits warp_size junk
                 keys_input size bit current_radix_bits batches
                 blocks_per_full_batch full_batches in
  (forall keys_uninit counts_uninit table0 b d,
     0 <= b < batches -> 0 <= d < rs ->
     fill_digit_counts BlockSize ItemsPerThread RadixBits warp_size keys_uninit
       counts_uninit keys_input size table0 bit current_radix_bits
       blocks_per_full_batch full_batches b (b * rs + d) =
     count_between (fun g => digit g =? d) (fst (slice b)) (snd (slice b))) /\
  (forall b d, 0 <= b < batches -> 0 <= d < rs ->
     table (b * rs + d) =
     count_between (fun g => digit g =? d) (fst (slice b)) (snd (slice b))) /\
  (forall b, 0 <= b < batches ->
     0 <= fst (slice b) <= snd (slice b) /\ snd (slice b) <= size) /\
  zsum (fun b => zsum (fun d => table (b * rs + d)) rs) batches = size.
Proof.
  intros Hok rs digit slice table.
  split; [|split; [|split]].
  - intros keys_uninit counts_uninit table0 b d Hb Hd. unfold slice.
    rewrite (batch_slice_cuts _ _ _ _ _ _ _ _ _ _ _ _ _ Hok b Hb). cbn [fst snd].
    eapply fill_digit_counts_batch; [exact Hok | assumption | assumption].
  - intros b d Hb Hd. unfold slice.
    rewrite (batch_slice_cuts _ _ _ _ _ _ _ _ _ _ _ _ _ Hok b Hb). cbn [fst snd].
    eapply histogram_entry; [exact Hok | assumption | assumption].
  - intros b Hb. exact (batch_slice_bounds _ _ _ _ _ _ _ _ _ _ _ _ _ Hok b Hb).
  - eapply histogram_total. exact Hok.
Qed.

Lemma C3_histogram_counts_witness :
  let rs := radix_size 2 in
  let digit g := digit_of 0 2 (encode (example_keys g)) in
  let slice b := batch_slice 4 1 10 2 1 b in
  let table := histogram_stage 4 1 2 2 example_junk example_keys 10 0 2 2 2 1 in
  (forall keys_uninit counts_uninit table0 b d,
     0 <= b < 2 -> 0 <= d < rs ->
     fill_digit_counts 4 1 2 2 keys_uninit counts_uninit example_keys 10 table0
       0 2 2 1 b (b * rs + d) =
     count_between (fun g => digit g =? d) (fst (slice b)) (snd (slice b))) /\
  (forall b d, 0 <= b < 2 -> 0 <= d < rs ->
     table (b * rs + d) =
     count_between (fun g => digit g =? d) (fst (slice b)) (snd (slice b))) /\
  (forall b, 0 <= b < 2 ->
     0 <= fst (slice b) <= snd (slice b) /\ snd (slice b) <= 10) /\
  zsum (fun b => zsum (fun d => table (b * rs + d)) rs) 2 = 10.
Proof.
  apply (C3_histogram_counts 4 1 2 2 8 4 1 example_junk example_keys 10 0 2 2 2 1).
  apply example_launch_ok; lia.
Defined.

(** C4: with the counts of stage 1, after [scan_batches] and [scan_digits]
    the ranges [DigitStarts[d], DigitStarts[d] + DigitCounts[d]) of the
    digits lie one after the other, every index of [0, size) lies in the
    range of one digit only, and the ranges hold nothing else. *)
Theorem C4_partition_invariant
    BlockSize ItemsPerThread RadixBits warp_size key_bits
    ScanBlockSize ScanItemsPerThread
    {KeyIn Value : Type} {key_in_codec : radix_key_codec KeyIn}
    (junk : indeterminate (KeyIn := KeyIn) (Value := Value))
    (keys_input : Z -> KeyIn)
    size bit current_radix_bits batches blocks_per_full_batch full_batches :
  launch_ok BlockSize ItemsPerThread RadixBits warp_size key_bits
            ScanBlockSize ScanItemsPerThread size bit current_radix_bits
            batches blocks_per_full_batch full_batches ->
  let rs := radix_size RadixBits in
  let tables := pass_tables BlockSize ItemsPerThread RadixBits warp_size
                  ScanBlockSize ScanItemsPerThread junk keys_input size bit
                  current_radix_bits batches blocks_per_full_batch full_batches in
  let digit_counts := snd (fst tables) in
  let digit_starts := snd tables in
  (forall d, 0 <= d < rs -> 0 <= digit_counts d) /\
  (forall d d', 0 <= d < d' -> d' < rs ->
     digit_starts d + digit_counts d <= digit_starts d') /\
  (forall x, 0 <= x < size ->
     exists d, 0 <= d < rs /\
       digit_starts d <= x < digit_starts d + digit_counts d /\
       forall d', 0 <= d' < rs ->
         digit_starts d' <= x < digit_starts d' + digit_counts d' -> d' = d) /\
  (forall d x, 0 <= d < rs ->
     digit_starts d <= x < digit_starts d + digit_counts d -> 0 <= x < size).
Proof.
  intros Hok rs tables digit_counts digit_starts.
  pose proof (pass_tables_spec _ _ _ _ _ _ _ junk keys_input _ _ _ _ _ _ Hok)
    as Htables.
  cbv zeta in Htables. destruct Htables as (_ & Hdc & Hds).
  pose proof (digit_ranges_partition _ _ _ _ _ _ _ keys_input _ _ _ _ _ _ Hok
                digit_counts digit_starts Hdc Hds)
    as (Hnn & _ & _ & Hord & Hcover & Hin).
  split; [exact Hnn | split; [exact Hord | split; [exact Hcover | exact Hin]]].
Qed.

Lemma C4_partition_invariant_witness :
  let rs := radix_size 2 in
  let tables := pass_tables 4 1 2 2 4 1 example_junk example_keys 10 0 2 2 2 1 in
  let digit_counts := snd (fst tables) in
  let digit_starts := snd tables in
  (forall d, 0 <= d < rs -> 0 <= digit_counts d) /\
  (forall d d', 0 <= d < d' -> d' < rs ->
     digit_starts d + digit_counts d <= digit_starts d') /\
  (forall x, 0 <= x < 10 ->
     exists d, 0 <= d < rs /\
       digit_starts d <= x < digit_starts d + digit_counts d /\
       forall d', 0 <= d' < rs ->
         digit_starts d' <= x < digit_starts d' + digit_counts d' -> d' = d) /\
  (forall d x, 0 <= d < rs ->
     digit_starts d <= x < digit_starts d + digit_counts d -> 0 <= x < 10).
Proof.
  apply (C4_partition_invariant 4 1 2 2 8 4 1 example_junk example_keys 10 0 2 2 2 1).
  apply example_launch_ok; lia.
Defined.

(** C5: when the batches hold the [T] blocks of the input ([full_batches]
    batches of [blocks_per_full_batch] blocks, then batches of one block
    less), the ranges of blocks that [fill_digit_counts] and
    [sort_and_scatter] compute for the batches follow one another from block
    0 to block [T], every block lies in the range of one batch only, and
    every item of the input in the slice of one batch only.  In the example
    of the specification batch 0 has the blocks [0, 2) and the items [0, 8),
    batch 1 the block [2, 3) and the items [8, 10). *)
Theorem C5_batching_partition (T B blocks_per_full_batch full_batches : Z) :
  0 <= full_batches <= B -> B < 2 ^ 32 ->
  0 <= blocks_per_full_batch < 2 ^ 32 -> 0 <= T < 2 ^ 32 ->
  full_batches * blocks_per_full_batch
  + (B - full_batches) * (blocks_per_full_batch - 1) = T ->
  let first b := fst (batch_block_range blocks_per_full_batch full_batches b) in
  let blocks b := snd (batch_block_range blocks_per_full_batch full_batches b) in
  (forall b, 0 <= b < B -> 0 <= blocks b) /\
  (0 < B -> first 0 = 0) /\
  (forall b, 0 <= b -> b + 1 < B -> first (b + 1) = first b + blocks b) /\
  (0 < B -> first (B - 1) + blocks (B - 1) = T) /\
  (forall k, 0 <= k < T ->
     exists b, 0 <= b < B /\ first b <= k < first b + blocks b /\
       forall b', 0 <= b' < B -> first b' <= k < first b' + blocks b' -> b' = b) /\
  (forall b k, 0 <= b < B -> first b <= k < first b + blocks b -> 0 <= k < T) /\
  (forall BlockSize ItemsPerThread size,
     0 < BlockSize * ItemsPerThread -> 0 <= size ->
     size + BlockSize * ItemsPerThread <= 2 ^ 32 ->
     T = (size + BlockSize * ItemsPerThread - 1) / (BlockSize * ItemsPerThread) ->
     forall g, 0 <= g < size ->
       exists b, 0 <= b < B /\
         (fst (batch_slice BlockSize ItemsPerThread size blocks_per_full_batch
                 full_batches b) <= g
          < snd (batch_slice BlockSize ItemsPerThread size blocks_per_full_batch
                   full_batches b)) /\
         forall b', 0 <= b' < B ->
           (fst (batch_slice BlockSize ItemsPerThread size blocks_per_full_batch
                   full_batches b') <= g
            < snd (batch_slice BlockSize ItemsPerThread size blocks_per_full_batch
                     full_batches b')) ->
           b' = b) /\
  batch_block_range 2 1 0 = (0, 2) /\ batch_block_range 2 1 1 = (2, 1) /\
  batch_slice 4 1 10 2 1 0 = (0, 8) /\ batch_slice 4 1 10 2 1 1 = (8, 10).
Proof.
  intros Hfull HB Hper HT Hbatching first blocks.
  assert (Hnn : forall b, 0 <= b < B -> 0 <= blocks b)
    by (apply (blocks_nonneg T B); assumption).
  assert (Hfirst : forall b, 0 <= b < B -> first b = zsum blocks b)
    by (apply (first_block_sum T B); assumption).
  assert (Htotal : zsum blocks B = T) by (apply blocks_total; assumption).
  assert (Hend : forall b, 0 <= b < B -> first b + blocks b = zsum blocks (b + 1)).
  { intros b Hb. rewrite Hfirst, zsum_succ by lia. reflexivity. }
  split; [exact Hnn|]. split; [|split; [|split; [|split; [|split; [|split]]]]].
  - intros Hpos. rewrite Hfirst by lia. apply zsum_nonpos. lia.
  - intros b Hb0 Hb. rewrite (Hfirst (b + 1)) by lia. rewrite <- Hend by lia.
    reflexivity.
  - intros Hpos. rewrite Hend by lia. rewrite <- Htotal. f_equal. lia.
  - apply block_owner; assumption.
  - intros b k Hb Hk. rewrite Hend in Hk by assumption.
    rewrite Hfirst in Hk by assumption.
    pose proof (zsum_nonneg blocks b ltac:(intros; apply Hnn; lia)).
    pose proof (zsum_mono blocks B (b + 1) B Hnn ltac:(lia) ltac:(lia)).
    lia.
  - intros BlockSize ItemsPerThread size Htile Hsize Hsmall HTsize.
    apply (slice_owner T B); assumption.
  - vm_compute. repeat split; reflexivity.
Qed.

Lemma C5_batching_partition_witness :
  let first b := fst (batch_block_range 2 1 b) in
  let blocks b := snd (batch_block_range 2 1 b) in
  (forall b, 0 <= b < 2 -> 0 <= blocks b) /\
  (0 < 2 -> first 0 = 0) /\
  (forall b, 0 <= b -> b + 1 < 2 -> first (b + 1) = first b + blocks b) /\
  (0 < 2 -> first (2 - 1) + blocks (2 - 1) = 3) /\
  (forall k, 0 <= k < 3 ->
     exists b, 0 <= b < 2 /\ first b <= k < first b + blocks b /\
       forall b', 0 <= b' < 2 -> first b' <= k < first b' + blocks b' -> b' = b) /\
  (forall b k, 0 <= b < 2 -> first b <= k < first b + blocks b -> 0 <= k < 3) /\
  (forall BlockSize ItemsPerThread size,
     0 < BlockSize * ItemsPerThread -> 0 <= size ->
     size + BlockSize * ItemsPerThread <= 2 ^ 32 ->
     3 = (size + BlockSize * ItemsPerThread - 1) / (BlockSize * ItemsPerThread) ->
     forall g, 0 <= g < size ->
       exists b, 0 <= b < 2 /\
         (fst (batch_slice BlockSize ItemsPerThread size 2 1 b) <= g
          < snd (batch_slice BlockSize ItemsPerThread size 2 1 b)) /\
         forall b', 0 <= b' < 2 ->
           (fst (batch_slice BlockSize ItemsPerThread size 2 1 b') <= g
            < snd (batch_slice BlockSize ItemsPerThread size 2 1 b')) ->
           b' = b) /\
  batch_block_range 2 1 0 = (0, 2) /\ batch_block_range 2 1 1 = (2, 1) /\
  batch_slice 4 1 10 2 1 0 = (0, 8) /\ batch_slice 4 1 10 2 1 1 = (8, 10).
Proof.
  apply (C5_batching_partition 3 2 2 1); [lia | reflexivity | lia | lia | reflexivity].
Defined.

(** C6: for a digit, when the batches fit the tile of the block and the
    column of the digit sums up within [unsigned int], [scan_batches] leaves
    in the entry of every batch the sum of the entries of the earlier
    batches of the column (0 for the first batch), and in [digit_counts] the
    sum of the whole column; it writes nothing else. *)
Theorem C6_scan_batches_postcondition BlockSize ItemsPerThread RadixBits
    (batch_digit_counts digit_counts : Z -> Z) batches digit :
  0 < BlockSize -> 0 < ItemsPerThread -> BlockSize * ItemsPerThread < 2 ^ 32 ->
  0 <= batches <= BlockSize * ItemsPerThread ->
  0 <= digit < radix_size RadixBits ->
  batches * radix_size RadixBits <= 2 ^ 32 ->
  (forall b, 0 <= b < batches ->
     0 <= batch_digit_counts (b * radix_size RadixBits + digit)) ->
  zsum (fun b => batch_digit_counts (b * radix_size RadixBits + digit)) batches
  < 2 ^ 32 ->
  let scanned := scan_batches BlockSize ItemsPerThread RadixBits
                   batch_digit_counts digit_counts batches digit in
  (forall b, 0 <= b < batches ->
     fst scanned (b * radix_size RadixBits + digit) =
     zsum (fun b' => batch_digit_counts (b' * radix_size RadixBits + digit)) b) /\
  snd scanned digit =
  zsum (fun b => batch_digit_counts (b * radix_size RadixBits + digit)) batches /\
  (forall a, (forall b, 0 <= b < batches -> a <> b * radix_size RadixBits + digit) ->
     fst scanned a = batch_digit_counts a) /\
  (forall d, d <> digit -> snd scanned d = digit_counts d).
Proof.
  intros HBS HIPT Htile Hbatches Hdigit Htable Hnn Hsum scanned.
  split; [|split; [|split]].
  - intros b Hb. now apply scan_batches_entry.
  - now apply scan_batches_total.
  - intros a Ha. now apply scan_batches_other.
  - intros d Hd. now apply scan_batches_total_other.
Qed.

Lemma C6_scan_batches_postcondition_witness :
  let scanned := scan_batches 4 1 2 (fun a => 2 * a) (fun _ => 0) 3 1 in
  (forall b, 0 <= b < 3 ->
     fst scanned (b * radix_size 2 + 1) =
     zsum (fun b' => 2 * (b' * radix_size 2 + 1)) b) /\
  snd scanned 1 = zsum (fun b => 2 * (b * radix_size 2 + 1)) 3 /\
  (forall a, (forall b, 0 <= b < 3 -> a <> b * radix_size 2 + 1) ->
     fst scanned a = 2 * a) /\
  (forall d, d <> 1 -> snd scanned d = 0).
Proof.
  apply (C6_scan_batches_postcondition 4 1 2 (fun a => 2 * a) (fun _ => 0) 3 1);
    [lia | lia | reflexivity | lia | vm_compute; intuition congruence
    | vm_compute; congruence
    | intros b Hb; change (radix_size 2) with 4; lia
    | reflexivity].
Defined.

(** C7: one iteration of the loop of [sort_and_scatter] over the blocks of
    the batch moves the running offset of every digit by the number of items
    of the block inside the input that hold the digit.  The amount is
    [min(valid_count - 1, ends[d]) - starts[d] + 1] under the guard
    [starts[d] < valid_count], and nothing for a digit that no valid item
    holds, also when padding holds it. *)
Theorem C7_running_offset_advance
    BlockSize ItemsPerThread RadixBits key_bits
    {KeyIn KeyOut Value : Type}
    {key_in_codec : radix_key_codec KeyIn} {key_out_codec : radix_key_codec KeyOut}
    {value_payload : payload Value}
    (values_uninit : Z -> regs Value)
    (keys_input : Z -> KeyIn) (values_input : Z -> Value)
    size bit current_radix_bits bi block_offset (storage : scatter_storage) :
  0 < BlockSize -> 0 < ItemsPerThread -> 0 <= RadixBits < 32 ->
  radix_size RadixBits <= BlockSize -> BlockSize * ItemsPerThread < 2 ^ 16 ->
  0 <= current_radix_bits <= RadixBits ->
  0 <= bit /\ bit + current_radix_bits <= key_bits -> key_bits < 2 ^ 32 ->
  size + BlockSize * ItemsPerThread <= 2 ^ 32 ->
  encode (decode (Z.ones key_bits) : KeyIn) = Z.ones key_bits ->
  payload_ok BlockSize ItemsPerThread value_payload ->
  0 <= block_offset < size ->
  (forall d, 0 <= d < radix_size RadixBits ->
     0 <= block_starts storage d < 2 ^ 32) ->
  let valid_count := block_valid_count BlockSize ItemsPerThread size block_offset in
  let tile := sorted_tile BlockSize ItemsPerThread key_bits values_uninit
                keys_input values_input size bit current_radix_bits bi
                block_offset in
  let runs := block_runs BlockSize ItemsPerThread RadixBits (fst tile) bit
                current_radix_bits valid_count storage in
  let digit g := digit_of bit current_radix_bits (encode (keys_input g)) in
  let storage' :=
    snd (fst (scatter_block (KeyOut := KeyOut) BlockSize ItemsPerThread RadixBits
                key_bits values_uninit keys_input values_input size bit
                current_radix_bits bi (block_offset, storage))) in
  forall d, 0 <= d < radix_size RadixBits ->
    let valid_items :=
      count_between (fun g => digit g =? d) block_offset
                    (block_offset + valid_count) in
    let amount :=
      add32 (sub32 (min (sub32 valid_count 1) (ends runs d)) (starts runs d)) 1 in
    block_starts storage' d =
      (if starts runs d <? valid_count
       then add32 (block_starts storage d) amount
       else block_starts storage d) /\
    (if starts runs d <? valid_count then amount else 0) = valid_items /\
    block_starts storage' d = add32 (block_starts storage d) valid_items /\
    (valid_items = 0 -> block_starts storage' d = block_starts storage d).
Proof.
  intros HBS HIPT HR Hfits Htile Hwin Hkey Hkb Hsize Hsent Hpay Hoff Hbs
         valid_count tile runs digit storage' d Hd valid_items amount.
  assert (Hformula :
    block_starts storage' d =
      (if starts runs d <? valid_count
       then add32 (block_starts storage d) amount
       else block_starts storage d)).
  { unfold storage'. rewrite scatter_block_stages. cbv zeta. cbn [fst snd].
    exact (block_advance_formula BlockSize ItemsPerThread RadixBits key_bits
             values_uninit keys_input values_input size bit current_radix_bits
             HBS HIPT Hfits bi block_offset storage d Hd). }
  assert (Hamount :
    (if starts runs d <? valid_count then amount else 0) = valid_items).
  { exact (block_advance_amount BlockSize ItemsPerThread RadixBits key_bits
             values_uninit keys_input values_input size bit current_radix_bits
             HBS HIPT HR Hfits Htile Hwin Hkey Hkb Hsize Hsent Hpay bi
             block_offset Hoff storage d Hd). }
  assert (Hzero : add32 (block_starts storage d) 0 = block_starts storage d).
  { unfold add32. rewrite Z.add_0_r. apply wrap32_small. now apply Hbs. }
  assert (Hadv : block_starts storage' d = add32 (block_starts storage d) valid_items).
  { rewrite Hformula, <- Hamount.
    destruct (starts runs d <? valid_count); [reflexivity | now rewrite Hzero]. }
  split; [exact Hformula|]. split; [exact Hamount|]. split; [exact Hadv|].
  intros Hnone. now rewrite Hadv, Hnone.
Qed.

Lemma C7_running_offset_advance_witness :
  let storage :=
    {| starts := fun _ => 3; ends := fun _ => 1; block_starts := fun _ => 9 |} in
  let valid_count := block_valid_count 4 1 10 8 in
  let tile := sorted_tile 4 1 8 (value_payload := payload_values 4 1 Z)
                (fun _ _ _ => 5) example_keys example_values 10 0 2 0 8 in
  let runs := block_runs 4 1 2 (fst tile) 0 2 valid_count storage in
  let digit g := digit_of 0 2 (encode (example_keys g)) in
  let storage' :=
    snd (fst (scatter_block (KeyOut := Byte.byte)
                (value_payload := payload_values 4 1 Z) 4 1 2 8
                (fun _ _ _ => 5) example_keys example_values 10 0 2 0
                (8, storage))) in
  let valid_items := count_between (fun g => digit g =? 3) 8 (8 + valid_count) in
  let amount :=
    add32 (sub32 (min (sub32 valid_count 1) (ends runs 3)) (starts runs 3)) 1 in
  block_starts storage' 3 =
    (if starts runs 3 <? valid_count
     then add32 (block_starts storage 3) amount
     else block_starts storage 3) /\
  (if starts runs 3 <? valid_count then amount else 0) = valid_items /\
  block_starts storage' 3 = add32 (block_starts storage 3) valid_items /\
  (valid_items = 0 -> block_starts storage' 3 = block_starts storage 3).
Proof.
  apply (C7_running_offset_advance 4 1 2 8 (KeyOut := Byte.byte)
           (value_payload := payload_values 4 1 Z)
           (fun _ _ _ => 5) example_keys example_values 10 0 2 0 8
           {| starts := fun _ => 3; ends := fun _ => 1; block_starts := fun _ => 9 |});
    try apply payload_values_ok; try lia; try reflexivity;
    try (vm_compute; intuition congruence).
Defined.

(** C8: with a payload, a pass stores the value of every item at the index
    at which it stores the key of the item, so that the output arrays hold
    every value where they hold its key.  With the empty payload the
    overload of [sort_block] without values is the one that runs; the run
    does not depend on the values, in registers or in memory, and it stores
    no value, so the array of values is left as it was. *)
Theorem C8_value_colocation_and_elision
    BlockSize ItemsPerThread RadixBits warp_size key_bits
    ScanBlockSize ScanItemsPerThread
    {KeyIn KeyOut Value : Type}
    {key_in_codec : radix_key_codec KeyIn} {key_out_codec : radix_key_codec KeyOut}
    (junk : indeterminate (KeyIn := KeyIn) (Value := Value))
    (keys_input : Z -> KeyIn) (values_input : Z -> Value)
    size bit current_radix_bits batches blocks_per_full_batch full_batches :
  launch_ok BlockSize ItemsPerThread RadixBits warp_size key_bits
            ScanBlockSize ScanItemsPerThread size bit current_radix_bits
            batches blocks_per_full_batch full_batches ->
  encode (decode (Z.ones key_bits) : KeyIn) = Z.ones key_bits ->
  (let log :=
     radix_pass (KeyOut := KeyOut)
       (value_payload := payload_values BlockSize ItemsPerThread Value)
       BlockSize ItemsPerThread RadixBits warp_size key_bits ScanBlockSize
       ScanItemsPerThread junk keys_input values_input size bit
       current_radix_bits batches blocks_per_full_batch full_batches in
   exists dest,
     Permutation log
       (flat_map
          (fun g => [store_key (dest g) (decode (encode (keys_input g)));
                     store_value (dest g) (values_input g)])
          (zrange size)) /\
     (forall i j, 0 <= i < size -> 0 <= j < size -> dest i = dest j -> i = j) /\
     (forall mem g, 0 <= g < size ->
        fst (apply_stores log mem) (dest g) = decode (encode (keys_input g)) /\
        snd (apply_stores log mem) (dest g) = values_input g)) /\
  (sort_block (payload := payload_empty BlockSize ItemsPerThread)
   = sort_block_empty BlockSize ItemsPerThread /\
   with_values (payload := payload_empty BlockSize ItemsPerThread) = false /\
   (forall values_uninit values_uninit' storage_uninit
           (values values' : Z -> empty_type)
           batch_digit_starts digit_starts batch_id,
      sort_and_scatter (KeyOut := KeyOut)
        (value_payload := payload_empty BlockSize ItemsPerThread)
        BlockSize ItemsPerThread RadixBits key_bits values_uninit storage_uninit
        keys_input values size batch_digit_starts digit_starts bit
        current_radix_bits blocks_per_full_batch full_batches batch_id
      = sort_and_scatter (KeyOut := KeyOut)
          (value_payload := payload_empty BlockSize ItemsPerThread)
          BlockSize ItemsPerThread RadixBits key_bits values_uninit'
          storage_uninit keys_input values' size batch_digit_starts digit_starts
          bit current_radix_bits blocks_per_full_batch full_batches batch_id) /\
   (forall (junk0 : indeterminate (KeyIn := KeyIn) (Value := empty_type))
           (values : Z -> empty_type) mem,
      let log :=
        radix_pass (KeyOut := KeyOut)
          (value_payload := payload_empty BlockSize ItemsPerThread)
          BlockSize ItemsPerThread RadixBits warp_size key_bits ScanBlockSize
          ScanItemsPerThread junk0 keys_input values size bit
          current_radix_bits batches blocks_per_full_batch full_batches in
      (forall dst v, ~ In (store_value dst v) log) /\
      value_dsts log = [] /\
      (forall a, snd (apply_stores log mem) a = snd mem a))).
Proof.
  intros Hok Hsent. split.
  - intros log.
    set (dest := stable_dest
                   (fun g => digit_of bit current_radix_bits (encode (keys_input g)))
                   size).
    pose proof (radix_pass_spec BlockSize ItemsPerThread RadixBits warp_size
                  key_bits ScanBlockSize ScanItemsPerThread (KeyOut := KeyOut)
                  (value_payload := payload_values BlockSize ItemsPerThread Value)
                  junk keys_input values_input size bit current_radix_bits
                  batches blocks_per_full_batch full_batches Hok Hsent
                  (payload_values_ok BlockSize ItemsPerThread Value))
      as Hperm.
    fold log dest in Hperm.
    assert (Hinj : forall i j, 0 <= i < size -> 0 <= j < size ->
                     dest i = dest j -> i = j)
      by (intros i j; apply stable_dest_inj).
    exists dest. split; [exact Hperm|]. split; [exact Hinj|].
    intros mem g Hg. split.
    + exact (pass_output_key keys_input values_input size dest Hinj log Hperm
               mem g Hg).
    + exact (pass_output_value keys_input values_input size dest Hinj log Hperm
               mem g eq_refl Hg).
  - split; [reflexivity|]. split; [reflexivity|]. split; [reflexivity|].
    intros junk0 values mem log.
    assert (Hnone : forall dst v, ~ In (store_value dst v) log).
    { intros dst v Hin. apply radix_pass_values in Hin. discriminate Hin. }
    split; [exact Hnone|]. split.
    + unfold value_dsts.
      induction log as [|s l IH]; [reflexivity|].
      cbn [flat_map]. rewrite IH by (intros dst v H; apply (Hnone dst v); now right).
      destruct s as [dst k|dst v]; [reflexivity|].
      exfalso. apply (Hnone dst v). now left.
    + intros a. apply apply_stores_value_frame. intros v. apply Hnone.
Qed.

Lemma C8_value_colocation_and_elision_witness :
  (let log :=
     radix_pass (KeyOut := Byte.byte) (value_payload := payload_values 4 1 Z)
       4 1 2 2 8 4 1 example_junk example_keys example_values 10 0 2 2 2 1 in
   exists dest,
     Permutation log
       (flat_map
          (fun g => [store_key (dest g) (decode (encode (example_keys g)));
                     store_value (dest g) (example_values g)])
          (zrange 10)) /\
     (forall i j, 0 <= i < 10 -> 0 <= j < 10 -> dest i = dest j -> i = j) /\
     (forall mem g, 0 <= g < 10 ->
        fst (apply_stores log mem) (dest g) = decode (encode (example_keys g)) /\
        snd (apply_stores log mem) (dest g) = example_values g)) /\
  (sort_block (payload := payload_empty 4 1) = sort_block_empty 4 1 /\
   with_values (payload := payload_empty 4 1) = false /\
   (forall values_uninit values_uninit' storage_uninit
           (values values' : Z -> empty_type)
           batch_digit_starts digit_starts batch_id,
      sort_and_scatter (KeyOut := Byte.byte) (value_payload := payload_empty 4 1)
        4 1 2 8 values_uninit storage_uninit example_keys values 10
        batch_digit_starts digit_starts 0 2 2 1 batch_id
      = sort_and_scatter (KeyOut := Byte.byte)
          (value_payload := payload_empty 4 1)
          4 1 2 8 values_uninit' storage_uninit example_keys values' 10
          batch_digit_starts digit_starts 0 2 2 1 batch_id) /\
   (forall (junk0 : indeterminate (KeyIn := Byte.byte) (Value := empty_type))
           (values : Z -> empty_type) mem,
      let log :=
        radix_pass (KeyOut := Byte.byte) (value_payload := payload_empty 4 1)
          4 1 2 2 8 4 1 junk0 example_keys values 10 0 2 2 2 1 in
      (forall dst v, ~ In (store_value dst v) log) /\
      value_dsts log = [] /\
      (forall a, snd (apply_stores log mem) a = snd mem a))).
Proof.
  apply (C8_value_colocation_and_elision 4 1 2 2 8 4 1 (KeyOut := Byte.byte)
           example_junk example_keys example_values 10 0 2 2 2 1).
  - apply example_launch_ok; lia.
  - reflexivity.
Defined.

(** C9: in a block that reaches past the end of the input, the positions
    past the end are loaded with the key that decodes the bit key of all
    ones; after the block sort the valid items, keys and values, fill the
    positions below [valid_count] and the padding the positions from
    [valid_count] on, also when a valid key has the bit key of all ones; and
    the stores of the block are those of its valid items, each once. *)
Theorem C9_padding_safety
    BlockSize ItemsPerThread RadixBits key_bits
    {KeyIn KeyOut Value : Type}
    {key_in_codec : radix_key_codec KeyIn} {key_out_codec : radix_key_codec KeyOut}
    {value_payload : payload Value}
    (values_uninit : Z -> regs Value)
    (keys_input : Z -> KeyIn) (values_input : Z -> Value)
    size bit current_radix_bits bi block_offset (storage : scatter_storage) :
  0 < BlockSize -> 0 < ItemsPerThread -> 0 <= RadixBits < 32 ->
  radix_size RadixBits <= BlockSize -> BlockSize * ItemsPerThread < 2 ^ 16 ->
  0 <= current_radix_bits <= RadixBits ->
  0 <= bit /\ bit + current_radix_bits <= key_bits -> key_bits < 2 ^ 32 ->
  size + BlockSize * ItemsPerThread <= 2 ^ 32 ->
  encode (decode (Z.ones key_bits) : KeyIn) = Z.ones key_bits ->
  payload_ok BlockSize ItemsPerThread value_payload ->
  0 <= block_offset < size ->
  (forall d, 0 <= d < radix_size RadixBits ->
     0 <= block_starts storage d < 2 ^ 32) ->
  let ipb := items_per_block BlockSize ItemsPerThread in
  let valid_count := block_valid_count BlockSize ItemsPerThread size block_offset in
  let keys := load_keys BlockSize ItemsPerThread key_bits keys_input size
                block_offset in
  let tile := sorted_tile BlockSize ItemsPerThread key_bits values_uninit
                keys_input values_input size bit current_radix_bits bi
                block_offset in
  let digit g := digit_of bit current_radix_bits (encode (keys_input g)) in
  let stores :=
    snd (scatter_block (KeyOut := KeyOut) BlockSize ItemsPerThread RadixBits
           key_bits values_uninit keys_input values_input size bit
           current_radix_bits bi (block_offset, storage)) in
  valid_count = Z.min ipb (size - block_offset) /\
  (forall p, valid_count <= p < ipb ->
     keys (p / ItemsPerThread) (p mod ItemsPerThread) = decode (Z.ones key_bits)) /\
  (forall p, 0 <= p < valid_count ->
     exists j, 0 <= j < valid_count /\
       fst tile (p / ItemsPerThread) (p mod ItemsPerThread)
       = encode (keys_input (block_offset + j)) /\
       (with_values = true ->
        snd tile (p / ItemsPerThread) (p mod ItemsPerThread)
        = values_input (block_offset + j))) /\
  (forall p, valid_count <= p < ipb ->
     fst tile (p / ItemsPerThread) (p mod ItemsPerThread) = Z.ones key_bits /\
     (with_values = true ->
      snd tile (p / ItemsPerThread) (p mod ItemsPerThread)
      = values_uninit bi (p / ItemsPerThread) (p mod ItemsPerThread))) /\
  Permutation stores
    (for_stores valid_count
       (fun j =>
          let g := block_offset + j in
          let dst :=
            add32 (count_between (fun g' => digit g' =? digit g) block_offset g)
                  (block_starts storage (digit g)) in
          store_key dst (decode (encode (keys_input g)))
          :: (if with_values then [store_value dst (values_input g)] else []))).
Proof.
  intros HBS HIPT HR Hfits Htile Hwin Hkey Hkb Hsize Hsent Hpay Hoff Hbs
         ipb valid_count keys tile digit stores.
  split; [|split; [|split; [|split]]].
  - apply (vc_spec BlockSize ItemsPerThread RadixBits size HBS HIPT Hsize
             block_offset Hoff).
  - intros p Hp.
    exact (@load_keys_pad BlockSize ItemsPerThread 0 key_bits KeyIn key_in_codec
             keys_input size 0 HBS HIPT Hsize block_offset Hoff p Hp).
  - intros p Hp.
    exact (sorted_tile_valid BlockSize ItemsPerThread RadixBits key_bits
             values_uninit keys_input values_input size bit current_radix_bits
             HBS HIPT Hwin Hkey Hkb Hsize Hsent Hpay bi block_offset Hoff p Hp).
  - intros p Hp.
    exact (sorted_tile_padding BlockSize ItemsPerThread RadixBits key_bits
             values_uninit keys_input values_input size bit current_radix_bits
             HBS HIPT Hwin Hkey Hkb Hsize Hsent Hpay bi block_offset Hoff p Hp).
  - destruct (scatter_block_correct BlockSize ItemsPerThread RadixBits key_bits
                (KeyOut := KeyOut) values_uninit keys_input values_input size bit
                current_radix_bits HBS HIPT HR Hfits Htile Hwin Hkey Hkb Hsize
                Hsent Hpay bi block_offset Hoff storage Hbs)
      as (storage' & log & Hrun & _ & Hperm).
    unfold stores. rewrite Hrun. cbn [snd]. exact Hperm.
Qed.

Lemma C9_padding_safety_witness :
  let storage :=
    {| starts := fun _ => 3; ends := fun _ => 1; block_starts := fun _ => 9 |} in
  let ipb := items_per_block 4 1 in
  let valid_count := block_valid_count 4 1 10 8 in
  let keys := load_keys 4 1 8 example_keys 10 8 in
  let tile := sorted_tile 4 1 8 (value_payload := payload_values 4 1 Z)
                (fun _ _ _ => 5) example_keys example_values 10 0 2 0 8 in
  let digit g := digit_of 0 2 (encode (example_keys g)) in
  let stores :=
    snd (scatter_block (KeyOut := Byte.byte)
           (value_payload := payload_values 4 1 Z) 4 1 2 8
           (fun _ _ _ => 5) example_keys example_values 10 0 2 0 (8, storage)) in
  valid_count = Z.min ipb (10 - 8) /\
  (forall p, valid_count <= p < ipb ->
     keys (p / 1) (p mod 1) = decode (Z.ones 8)) /\
  (forall p, 0 <= p < valid_count ->
     exists j, 0 <= j < valid_count /\
       fst tile (p / 1) (p mod 1) = encode (example_keys (8 + j)) /\
       (true = true -> snd tile (p / 1) (p mod 1) = example_values (8 + j))) /\
  (forall p, valid_count <= p < ipb ->
     fst tile (p / 1) (p mod 1) = Z.ones 8 /\
     (true = true -> snd tile (p / 1) (p mod 1) = 5)) /\
  Permutation stores
    (for_stores valid_count
       (fun j =>
          let g := 8 + j in
          let dst :=
            add32 (count_between (fun g' => digit g' =? digit g) 8 g)
                  (block_starts storage (digit g)) in
          [store_key dst (decode (encode (example_keys g)));
           store_value dst (example_values g)])).
Proof.
  apply (C9_padding_safety 4 1 2 8 (KeyOut := Byte.byte)
           (value_payload := payload_values 4 1 Z)
           (fun _ _ _ => 5) example_keys example_values 10 0 2 0 8
           {| starts := fun _ => 3; ends := fun _ => 1; block_starts := fun _ => 9 |});
    try apply payload_values_ok; try lia; try reflexivity;
    try (vm_compute; intuition congruence).
Defined.

(** C10: over all blocks of all batches of a pass, with the tables of
    stages 1 to 3, the indices at which keys are stored are the indices of
    [0, size), each once, and so are the indices at which values are stored
    when there is a payload.  In every block, for every stored item,
    [starts[digit]] is the position of the first item of the sorted tile
    that holds the digit, at or before the item, so the subtraction
    [pos - starts[digit]] does not wrap. *)
Theorem C10_scatter_indices_permutation
    BlockSize ItemsPerThread RadixBits warp_size key_bits
    ScanBlockSize ScanItemsPerThread
    {KeyIn KeyOut Value : Type}
    {key_in_codec : radix_key_codec KeyIn} {key_out_codec : radix_key_codec KeyOut}
    {value_payload : payload Value}
    (junk : indeterminate (KeyIn := KeyIn) (Value := Value))
    (keys_input : Z -> KeyIn) (values_input : Z -> Value)
    size bit current_radix_bits batches blocks_per_full_batch full_batches :
  launch_ok BlockSize ItemsPerThread RadixBits warp_size key_bits
            ScanBlockSize ScanItemsPerThread size bit current_radix_bits
            batches blocks_per_full_batch full_batches ->
  encode (decode (Z.ones key_bits) : KeyIn) = Z.ones key_bits ->
  payload_ok BlockSize ItemsPerThread value_payload ->
  let log :=
    radix_pass (KeyOut := KeyOut) BlockSize ItemsPerThread RadixBits warp_size
      key_bits ScanBlockSize ScanItemsPerThread junk keys_input values_input
      size bit current_radix_bits batches blocks_per_full_batch full_batches in
  Permutation (key_dsts log) (zrange size) /\
  Permutation (value_dsts log) (if with_values then zrange size else []) /\
  (forall values_uninit bi block_offset storage i flat_id,
     0 <= block_offset < size ->
     0 <= i < ItemsPerThread -> 0 <= flat_id < BlockSize ->
     let valid_count :=
       block_valid_count BlockSize ItemsPerThread size block_offset in
     let tile := sorted_tile BlockSize ItemsPerThread key_bits values_uninit
                   keys_input values_input size bit current_radix_bits bi
                   block_offset in
     let digits := tile_digits (fst tile) bit current_radix_bits in
     let runs := block_runs BlockSize ItemsPerThread RadixBits (fst tile) bit
                   current_radix_bits valid_count storage in
     let pos := add32 (mul32 i BlockSize) flat_id in
     let digit :=
       tile_digits (blocked_to_striped BlockSize ItemsPerThread (fst tile))
                   bit current_radix_bits flat_id i in
     let start := starts runs digit in
     pos < valid_count ->
     0 <= start <= pos /\ sub32 pos start = pos - start /\
     digits (start / ItemsPerThread) (start mod ItemsPerThread) = digit /\
     (forall q, 0 <= q < start ->
        digits (q / ItemsPerThread) (q mod ItemsPerThread) <> digit)).
Proof.
  intros Hok Hsent Hpay log.
  pose proof (radix_pass_spec BlockSize ItemsPerThread RadixBits warp_size
                key_bits ScanBlockSize ScanItemsPerThread (KeyOut := KeyOut)
                junk keys_input values_input size bit current_radix_bits
                batches blocks_per_full_batch full_batches Hok Hsent Hpay)
    as Hperm.
  fold log in Hperm.
  split; [|split].
  - rewrite (key_dsts_perm _ _ Hperm), key_dsts_items. apply stable_dest_perm.
  - rewrite (value_dsts_perm _ _ Hperm), value_dsts_items.
    destruct with_values; [apply stable_dest_perm | constructor].
  - intros values_uninit bi block_offset storage i flat_id Hoff Hi Hf.
    destruct Hok.
    exact (scatter_no_underflow BlockSize ItemsPerThread RadixBits key_bits
             values_uninit keys_input values_input size bit current_radix_bits
             ok_BlockSize0 ok_ItemsPerThread0 ok_RadixBits0 ok_tile0 ok_window0
             ok_window_in_key0 ok_key_bits0 ok_size0 ok_size_small0 Hpay bi
             block_offset Hoff storage i flat_id Hi Hf).
Qed.

Lemma C10_scatter_indices_permutation_witness :
  let log :=
    radix_pass (KeyOut := Byte.byte) (value_payload := payload_values 4 1 Z)
      4 1 2 2 8 4 1 example_junk example_keys example_values 10 0 2 2 2 1 in
  Permutation (key_dsts log) (zrange 10) /\
  Permutation (value_dsts log) (zrange 10) /\
  (forall values_uninit bi block_offset storage i flat_id,
     0 <= block_offset < 10 -> 0 <= i < 1 -> 0 <= flat_id < 4 ->
     let valid_count := block_valid_count 4 1 10 block_offset in
     let tile := sorted_tile 4 1 8 (value_payload := payload_values 4 1 Z)
                   values_uninit example_keys example_values 10 0 2 bi
                   block_offset in
     let digits := tile_digits (fst tile) 0 2 in
     let runs := block_runs 4 1 2 (fst tile) 0 2 valid_count storage in
     let pos := add32 (mul32 i 4) flat_id in
     let digit := tile_digits (blocked_to_striped 4 1 (fst tile)) 0 2 flat_id i in
     let start := starts runs digit in
     pos < valid_count ->
     0 <= start <= pos /\ sub32 pos start = pos - start /\
     digits (start / 1) (start mod 1) = digit /\
     (forall q, 0 <= q < start -> digits (q / 1) (q mod 1) <> digit)).
Proof.
  apply (C10_scatter_indices_permutation 4 1 2 2 8 4 1 (KeyOut := Byte.byte)
           (value_payload := payload_values 4 1 Z)
           example_junk example_keys example_values 10 0 2 2 2 1).
  - apply example_launch_ok; lia.
  - reflexivity.
  - apply payload_values_ok.
Defined.

(** ** Further properties of the kernels *)

(** A grid of four batches for the three blocks of the example: the last
    batch has no block. *)
Lemma example_launch_ok_spare bit current_radix_bits :
  0 <= bit -> 0 <= current_radix_bits <= 2 -> bit + current_radix_bits <= 8 ->
  launch_ok 4 1 2 2 8 4 1 10 bit current_radix_bits 4 1 3.
Proof.
  intros Hb Hc Hbc.
  constructor; try (vm_compute; intuition congruence); try lia; try reflexivity.
Defined.

Lemma fill_digit_counts_rows
    BlockSize ItemsPerThread RadixBits warp_size key_bits
    ScanBlockSize ScanItemsPerThread
    {KeyIn : Type} {key_in_codec : radix_key_codec KeyIn}
    (keys_uninit : Z -> regs KeyIn) (counts_uninit : Z -> Z -> Z)
    (keys_input : Z -> KeyIn) size (table : Z -> Z)
    bit current_radix_bits batches blocks_per_full_batch full_batches b :
  launch_ok BlockSize ItemsPerThread RadixBits warp_size key_bits
            ScanBlockSize ScanItemsPerThread size bit current_radix_bits
            batches blocks_per_full_batch full_batches ->
  0 <= b < batches ->
  let out := fill_digit_counts BlockSize ItemsPerThread RadixBits warp_size
               keys_uninit counts_uninit keys_input size table bit
               current_radix_bits blocks_per_full_batch full_batches b in
  (forall d, 0 <= d < radix_size RadixBits ->
     out (b * radix_size RadixBits + d) =
     count_between
       (fun g => digit_of bit current_radix_bits (encode (keys_input g)) =? d)
       (fst (batch_slice BlockSize ItemsPerThread size blocks_per_full_batch
               full_batches b))
       (snd (batch_slice BlockSize ItemsPerThread size blocks_per_full_batch
               full_batches b))) /\
  (forall a, ~ b * radix_size RadixBits <= a
               < b * radix_size RadixBits + radix_size RadixBits ->
     out a = table a).
Proof.
  intros Hok Hb out.
  destruct (batch_geometry _ _ _ _ _ _ _ _ _ _ _ _ _ Hok b Hb)
    as (Hbb & H0 & Hnn & Hin).
  assert (Hrs : 0 < radix_size RadixBits)
    by (apply radix_size_pos; destruct Hok; lia).
  assert (Hrow : b * radix_size RadixBits + radix_size RadixBits <= 2 ^ 32).
  { pose proof (ok_table _ _ _ _ _ _ _ _ _ _ _ _ _ Hok) as Ht.
    assert ((b + 1) * radix_size RadixBits <= batches * radix_size RadixBits)
      by (apply Z.mul_le_mono_nonneg_r; lia).
    lia. }
  assert (Hb0 : 0 <= b) by lia.
  pose proof (fill_digit_counts_spec BlockSize ItemsPerThread RadixBits warp_size
                keys_uninit counts_uninit keys_input size bit current_radix_bits
                (ok_warp_size _ _ _ _ _ _ _ _ _ _ _ _ _ Hok)
                (ok_BlockSize _ _ _ _ _ _ _ _ _ _ _ _ _ Hok)
                (ok_whole_warps _ _ _ _ _ _ _ _ _ _ _ _ _ Hok)
                (ok_ItemsPerThread _ _ _ _ _ _ _ _ _ _ _ _ _ Hok)
                (ok_RadixBits _ _ _ _ _ _ _ _ _ _ _ _ _ Hok)
                (ok_radix_fits _ _ _ _ _ _ _ _ _ _ _ _ _ Hok)
                (ok_window _ _ _ _ _ _ _ _ _ _ _ _ _ Hok)
                (ok_size _ _ _ _ _ _ _ _ _ _ _ _ _ Hok)
                (ok_size_small _ _ _ _ _ _ _ _ _ _ _ _ _ Hok)
                table blocks_per_full_batch full_batches b _ _
                Hbb H0 Hnn Hin Hb0 Hrow) as Hfill.
  cbv zeta in Hfill. destruct Hfill as [Hrowb Hother].
  split; [|exact Hother].
  intros d Hd. unfold out. rewrite (Hrowb d Hd).
  unfold batch_slice. rewrite Hbb. cbn [fst snd].
  destruct (Z.eq_dec (snd (batch_block_range blocks_per_full_batch full_batches b)) 0)
    as [Hz|Hnz].
  - rewrite Hz, Z.mul_0_l, Z.add_0_r.
    rewrite !count_between_empty by lia. reflexivity.
  - specialize (Hin 0 ltac:(lia)). rewrite Z.mul_0_l, Z.add_0_r in Hin.
    match goal with
    | |- count_between _ ?lo _ = _ => rewrite (Z.min_r size lo) by lia
    end.
    reflexivity.
Qed.

(** X1: the block of a batch writes the row of its batch in the table of
    stage 1 and nothing else: every other entry of [batch_digit_counts]
    keeps its value, whatever the input. *)
Theorem X1_fill_digit_counts_writes_only_its_row
    BlockSize ItemsPerThread RadixBits warp_size key_bits
    ScanBlockSize ScanItemsPerThread
    {KeyIn : Type} {key_in_codec : radix_key_codec KeyIn}
    (keys_uninit : Z -> regs KeyIn) (counts_uninit : Z -> Z -> Z)
    (keys_input : Z -> KeyIn) size (table : Z -> Z)
    bit current_radix_bits batches blocks_per_full_batch full_batches b :
  launch_ok BlockSize ItemsPerThread RadixBits warp_size key_bits
            ScanBlockSize ScanItemsPerThread size bit current_radix_bits
            batches blocks_per_full_batch full_batches ->
  0 <= b < batches ->
  forall a, ~ b * radix_size RadixBits <= a
              < b * radix_size RadixBits + radix_size RadixBits ->
    fill_digit_counts BlockSize ItemsPerThread RadixBits warp_size
      keys_uninit counts_uninit keys_input size table bit current_radix_bits
      blocks_per_full_batch full_batches b a = table a.
Proof.
  intros Hok Hb.
  exact (proj2 (fill_digit_counts_rows BlockSize ItemsPerThread RadixBits
                  warp_size key_bits ScanBlockSize ScanItemsPerThread
                  keys_uninit counts_uninit keys_input size table bit
                  current_radix_bits batches blocks_per_full_batch full_batches
                  b Hok Hb)).
Qed.

Lemma X1_fill_digit_counts_writes_only_its_row_witness :
  fill_digit_counts 4 1 2 2 (fun _ _ _ => Byte.x2a) (fun _ _ => 7)
    example_keys 10 (fun a => 13 + a) 0 2 2 1 1 3 = 13 + 3.
Proof.
  apply (X1_fill_digit_counts_writes_only_its_row 4 1 2 2 8 4 1
           (fun _ _ _ => Byte.x2a) (fun _ _ => 7) example_keys 10
           (fun a => 13 + a) 0 2 2 2 1 1).
  - apply example_launch_ok; lia.
  - lia.
  - vm_compute. intuition congruence.
Defined.

(** X2: a batch without blocks ends stage 1 with a row of zeros: the
    shared counters are cleared before the loop over the blocks, which then
    does not run, and the row is written all the same. *)
Theorem X2_fill_digit_counts_empty_batch
    BlockSize ItemsPerThread RadixBits warp_size key_bits
    ScanBlockSize ScanItemsPerThread
    {KeyIn : Type} {key_in_codec : radix_key_codec KeyIn}
    (keys_uninit : Z -> regs KeyIn) (counts_uninit : Z -> Z -> Z)
    (keys_input : Z -> KeyIn) size (table : Z -> Z)
    bit current_radix_bits batches blocks_per_full_batch full_batches b :
  launch_ok BlockSize ItemsPerThread RadixBits warp_size key_bits
            ScanBlockSize ScanItemsPerThread size bit current_radix_bits
            batches blocks_per_full_batch full_batches ->
  0 <= b < batches ->
  snd (batch_blocks BlockSize ItemsPerThread blocks_per_full_batch full_batches b)
  = 0 ->
  forall d, 0 <= d < radix_size RadixBits ->
    fill_digit_counts BlockSize ItemsPerThread RadixBits warp_size
      keys_uninit counts_uninit keys_input size table bit current_radix_bits
      blocks_per_full_batch full_batches b (b * radix_size RadixBits + d) = 0.
Proof.
  intros Hok Hb Hnone d Hd.
  rewrite (proj1 (fill_digit_counts_rows BlockSize ItemsPerThread RadixBits
                    warp_size key_bits ScanBlockSize ScanItemsPerThread
                    keys_uninit counts_uninit keys_input size table bit
                    current_radix_bits batches blocks_per_full_batch
                    full_batches b Hok Hb) d Hd).
  apply count_between_empty. unfold batch_slice.
  destruct (batch_blocks _ _ _ _ _) as [off nb]. cbn [snd] in Hnone.
  subst nb. cbn [fst snd]. lia.
Qed.

Lemma X2_fill_digit_counts_empty_batch_witness :
  fill_digit_counts 4 1 2 2 (fun _ _ _ => Byte.x2a) (fun _ _ => 7)
    example_keys 10 (fun a => 13 + a) 0 2 1 3 3 (3 * radix_size 2 + 1) = 0.
Proof.
  apply (X2_fill_digit_counts_empty_batch 4 1 2 2 8 4 1
           (fun _ _ _ => Byte.x2a) (fun _ _ => 7) example_keys 10
           (fun a => 13 + a) 0 2 4 1 3 3).
  - apply example_launch_ok_spare; lia.
  - lia.
  - reflexivity.
  - vm_compute. intuition congruence.
Defined.

(** X3: the mask that a lane builds from the ballots of lines 133-139 has
    the bits of the lanes of its warp that are inside the input and hold the
    digit of the lane, and no other bit.  So [same_digit_count] is the
    number of these lanes, [prev_same_digit_count] the number of them below
    the lane, and the guard of line 142 holds for the lanes that have none
    of them below. *)
Theorem X3_same_digit_lanes_mask
    RadixBits warp_size (digit : Z -> Z) (in_range : Z -> bool) w l0 :
  0 < warp_size <= 64 -> 0 <= RadixBits < 32 ->
  (forall t, 0 <= digit t < 2 ^ RadixBits) ->
  0 <= l0 < warp_size ->
  let mask := same_digit_lanes RadixBits warp_size digit in_range
                (w * warp_size + l0) in
  let same l := in_range (w * warp_size + l)
                && (digit (w * warp_size + l) =? digit (w * warp_size + l0)) in
  (forall l, 0 <= l -> Z.testbit mask l = (l <? warp_size) && same l) /\
  bit_count mask = zcount same warp_size /\
  masked_bit_count mask l0 = zcount same l0 /\
  (masked_bit_count mask l0 = 0 <-> forall l, 0 <= l < l0 -> same l = false).
Proof.
  intros Hws HR Hdigit Hl0 mask same.
  assert (Hprev : masked_bit_count mask l0 = zcount same l0)
    by (apply prev_same_digit_count_spec; assumption).
  split; [|split; [|split]].
  - intros l Hl. apply same_digit_lanes_spec; assumption.
  - unfold mask. rewrite same_digit_count_spec by assumption. reflexivity.
  - exact Hprev.
  - rewrite Hprev. split.
    + intros Hz l Hl. exact (zcount_zero_none same l0 l Hz Hl).
    + intros Hnone. now apply zcount_none.
Qed.

Lemma X3_same_digit_lanes_mask_witness :
  let digit t := t mod 4 in
  let in_range t := t <? 7 in
  let mask := same_digit_lanes 2 4 digit in_range (1 * 4 + 2) in
  let same l := in_range (1 * 4 + l) && (digit (1 * 4 + l) =? digit (1 * 4 + 2)) in
  (forall l, 0 <= l -> Z.testbit mask l = (l <? 4) && same l) /\
  bit_count mask = zcount same 4 /\
  masked_bit_count mask 2 = zcount same 2 /\
  (masked_bit_count mask 2 = 0 <-> forall l, 0 <= l < 2 -> same l = false).
Proof.
  apply (X3_same_digit_lanes_mask 2 4 (fun t => t mod 4) (fun t => t <? 7) 1 2).
  - lia.
  - lia.
  - intros t. change (2 ^ 2) with 4. apply Z.mod_pos_bound. lia.
  - lia.
Defined.

(** X4: with a window of at most [RadixBits] bits the digit that both
    kernels cut out of a bit key with [radix_mask] is below [radix_size],
    whatever the bit key and the bit offset: the accesses to [digit_counts],
    [starts], [ends] and [block_starts] by digit stay inside the arrays.  A
    window of no bits gives the digit 0. *)
Theorem X4_digit_within_radix_size RadixBits current_radix_bits bit bit_key :
  0 <= current_radix_bits <= RadixBits -> RadixBits < 32 ->
  let radix_mask := sub32 (shl32 1 current_radix_bits) 1 in
  let digit := Z.land (Z.shiftr bit_key bit) radix_mask in
  0 <= digit < 2 ^ current_radix_bits /\
  digit < radix_size RadixBits /\
  (current_radix_bits = 0 -> digit = 0).
Proof.
  intros Hwin HR radix_mask digit.
  assert (Hmask : radix_mask = Z.ones current_radix_bits)
    by (apply radix_mask_ones; lia).
  assert (Hrange : 0 <= digit < 2 ^ current_radix_bits).
  { unfold digit. rewrite Hmask, Z.land_ones by lia.
    apply Z.mod_pos_bound. apply Z.pow_pos_nonneg; lia. }
  split; [exact Hrange|]. split.
  - rewrite radix_size_pow by lia.
    assert (2 ^ current_radix_bits <= 2 ^ RadixBits)
      by (apply Z.pow_le_mono_r; lia).
    lia.
  - intros Hz. rewrite Hz in Hrange. change (2 ^ 0) with 1 in Hrange. lia.
Qed.

Lemma X4_digit_within_radix_size_witness :
  let radix_mask := sub32 (shl32 1 3) 1 in
  let digit := Z.land (Z.shiftr 233 4) radix_mask in
  0 <= digit < 2 ^ 3 /\ digit < radix_size 5 /\ (3 = 0 -> digit = 0).
Proof.
  apply (X4_digit_within_radix_size 5 3 4 233); lia.
Defined.

(** X5: [scan_digits] replaces the counts of the digits by their exclusive
    prefix sums, when the counts sum up within [unsigned int]: the first
    start is 0, every start is the start before plus the count before, the
    last range ends at the total, and the entries past [radix_size] are not
    written. *)
Theorem X5_scan_digits_postcondition RadixBits (digit_counts : Z -> Z) :
  0 <= RadixBits ->
  (forall d, 0 <= d < radix_size RadixBits -> 0 <= digit_counts d) ->
  zsum digit_counts (radix_size RadixBits) < 2 ^ 32 ->
  let digit_starts := scan_digits RadixBits digit_counts in
  digit_starts 0 = 0 /\
  (forall d, 0 <= d < radix_size RadixBits ->
     digit_starts d = zsum digit_counts d) /\
  (forall d, 0 <= d -> d + 1 < radix_size RadixBits ->
     digit_starts (d + 1) = digit_starts d + digit_counts d) /\
  (forall d, 0 <= d < radix_size RadixBits ->
     digit_starts d + digit_counts d <= zsum digit_counts (radix_size RadixBits)) /\
  (forall d, ~ 0 <= d < radix_size RadixBits ->
     digit_starts d = digit_counts d).
Proof.
  intros HR Hnn Hsum digit_starts.
  pose proof (radix_size_pos RadixBits HR) as Hrs.
  assert (Hentry : forall d, 0 <= d < radix_size RadixBits ->
                     digit_starts d = zsum digit_counts d)
    by (intros d Hd; now apply scan_digits_entry).
  split; [|split; [exact Hentry|split; [|split]]].
  - rewrite Hentry by lia. apply zsum_nonpos. lia.
  - intros d Hd0 Hd. rewrite !Hentry by lia. now rewrite zsum_succ.
  - intros d Hd. rewrite Hentry by assumption.
    rewrite <- zsum_succ by lia.
    apply (zsum_mono digit_counts (radix_size RadixBits)); [exact Hnn | lia | lia].
  - intros d Hd. now apply scan_digits_other.
Qed.

Lemma X5_scan_digits_postcondition_witness :
  let digit_starts := scan_digits 2 (fun d => 3 * d + 1) in
  digit_starts 0 = 0 /\
  (forall d, 0 <= d < radix_size 2 ->
     digit_starts d = zsum (fun d => 3 * d + 1) d) /\
  (forall d, 0 <= d -> d + 1 < radix_size 2 ->
     digit_starts (d + 1) = digit_starts d + (3 * d + 1)) /\
  (forall d, 0 <= d < radix_size 2 ->
     digit_starts d + (3 * d + 1) <= zsum (fun d => 3 * d + 1) (radix_size 2)) /\
  (forall d, ~ 0 <= d < radix_size 2 -> digit_starts d = 3 * d + 1).
Proof.
  apply (X5_scan_digits_postcondition 2 (fun d => 3 * d + 1)).
  - lia.
  - intros d Hd. lia.
  - reflexivity.
Defined.

Section ScanBatchesExcess.
Variables BlockSize ItemsPerThread RadixBits : Z.
Hypothesis BlockSize_pos : 0 < BlockSize.
Hypothesis ItemsPerThread_pos : 0 < ItemsPerThread.
Hypothesis RadixBits_nonneg : 0 <= RadixBits.

Variables (batch_digit_counts digit_counts : Z -> Z) (batches digit : Z).
Let rs := radix_size RadixBits.
Let tile := BlockSize * ItemsPerThread.
Let column b := batch_digit_counts (b * rs + digit).

Hypothesis batches_exceed : tile <= batches.
Hypothesis digit_range : 0 <= digit < rs.
Hypothesis table_range : tile * rs <= 2 ^ 32.
Hypothesis column_nonneg : forall b, 0 <= b < tile -> 0 <= column b.
Hypothesis column_small : zsum column tile < 2 ^ 32.

Let values : regs Z := fun flat_id i =>
  let batch_id := add32 (mul32 flat_id ItemsPerThread) i in
  if batch_id <? batches
  then batch_digit_counts (add32 (mul32 batch_id rs) digit) else 0.
Let at_pos p := values (p / ItemsPerThread) (p mod ItemsPerThread).

Lemma excess_tile_small : 0 < tile <= 2 ^ 32.
Proof.
  assert (0 < rs) by (apply radix_size_pos; exact RadixBits_nonneg).
  assert (0 < tile) by (unfold tile; nia).
  assert (tile * 1 <= tile * rs) by (apply Z.mul_le_mono_nonneg_l; lia).
  lia.
Qed.

Lemma excess_batch_of_pos p :
  0 <= p < tile ->
  add32 (mul32 (p / ItemsPerThread) ItemsPerThread) (p mod ItemsPerThread) = p.
Proof.
  intros Hp. pose proof excess_tile_small.
  pose proof (Z.div_mod p ItemsPerThread ltac:(lia)).
  pose proof (Z.mod_pos_bound p ItemsPerThread ltac:(lia)).
  assert (0 <= p / ItemsPerThread) by (apply Z.div_pos; lia).
  unwrap. lia.
Qed.

Lemma excess_entry_address b :
  0 <= b < tile -> add32 (mul32 b rs) digit = b * rs + digit.
Proof.
  intros Hb.
  assert ((b + 1) * rs <= tile * rs) by (apply Z.mul_le_mono_nonneg_r; lia).
  unwrap. reflexivity.
Qed.

Lemma excess_at_pos p : 0 <= p < tile -> at_pos p = column p.
Proof.
  intros Hp. unfold at_pos, values. cbv zeta.
  rewrite excess_batch_of_pos by assumption.
  replace (p <? batches) with true by (symmetry; apply Z.ltb_lt; lia).
  now rewrite excess_entry_address.
Qed.

Lemma excess_inputs_nonneg p : 0 <= p < tile -> 0 <= at_pos p.
Proof. intros Hp. rewrite excess_at_pos by assumption. now apply column_nonneg. Qed.

Lemma excess_inputs_small : zsum at_pos tile < 2 ^ 32.
Proof.
  rewrite (zsum_ext at_pos column) by (intros; now apply excess_at_pos).
  exact column_small.
Qed.

Lemma scan_batches_excess_total :
  snd (scan_batches BlockSize ItemsPerThread RadixBits
         batch_digit_counts digit_counts batches digit) digit =
  zsum column tile.
Proof.
  rewrite scan_batches_unfold. cbn [snd]. unfold upd. rewrite Z.eqb_refl.
  fold rs. fold values.
  rewrite (exclusive_scan_total BlockSize ItemsPerThread values
             excess_inputs_nonneg excess_inputs_small).
  apply zsum_ext. intros p Hp. now apply excess_at_pos.
Qed.

Lemma scan_batches_excess_table :
  fst (scan_batches BlockSize ItemsPerThread RadixBits
         batch_digit_counts digit_counts batches digit) =
  writes (fun p => p <? batches) (fun p => p * rs + digit)
         (fun p => fst (exclusive_scan BlockSize ItemsPerThread values 0)
                       (p / ItemsPerThread) (p mod ItemsPerThread))
         tile batch_digit_counts.
Proof.
  rewrite scan_batches_unfold. cbn [fst]. fold rs. fold values.
  rewrite for_loop_nested by lia. unfold writes.
  apply for_loop_ext. intros p acc Hp. cbv zeta.
  rewrite excess_batch_of_pos by assumption.
  destruct (p <? batches) eqn:E; [|reflexivity].
  now rewrite excess_entry_address by assumption.
Qed.

Lemma scan_batches_excess_entry b :
  0 <= b < tile ->
  fst (scan_batches BlockSize ItemsPerThread RadixBits
         batch_digit_counts digit_counts batches digit) (b * rs + digit) =
  zsum column b.
Proof.
  intros Hb. rewrite scan_batches_excess_table.
  assert (Hrs : 0 < rs) by (apply radix_size_pos; exact RadixBits_nonneg).
  apply writes_hit with (q0 := b);
    [exact Hb | apply Z.ltb_lt; lia | reflexivity |].
  intros q Hq Hc Ha. assert (q = b) by nia. subst q.
  pose proof (Z.div_mod b ItemsPerThread ltac:(lia)).
  pose proof (Z.mod_pos_bound b ItemsPerThread ltac:(lia)).
  assert (0 <= b / ItemsPerThread < BlockSize).
  { split; [apply Z.div_pos; lia|].
    apply Z.div_lt_upper_bound; unfold tile in *; nia. }
  rewrite (exclusive_scan_values BlockSize ItemsPerThread BlockSize_pos
             ItemsPerThread_pos values excess_inputs_nonneg
             excess_inputs_small) by lia.
  replace (b / ItemsPerThread * ItemsPerThread + b mod ItemsPerThread) with b by lia.
  apply zsum_ext. intros p Hp. apply excess_at_pos. lia.
Qed.

Lemma scan_batches_excess_other a :
  (forall b, 0 <= b < tile -> a <> b * rs + digit) ->
  fst (scan_batches BlockSize ItemsPerThread RadixBits
         batch_digit_counts digit_counts batches digit) a =
  batch_digit_counts a.
Proof.
  intros Ha. rewrite scan_batches_excess_table.
  apply writes_miss. intros q Hq _ E. exact (Ha q Hq (eq_sym E)).
Qed.
End ScanBatchesExcess.

(** X6: [scan_batches] reads and writes the entries of the first
    [BlockSize * ItemsPerThread] batches only.  With more batches than that,
    the entries of the batches past the tile keep their counts and are
    missing from the total of the digit, which is the sum over the tile. *)
Theorem X6_scan_batches_past_the_tile
    BlockSize ItemsPerThread RadixBits
    (batch_digit_counts digit_counts : Z -> Z) batches digit :
  0 < BlockSize -> 0 < ItemsPerThread -> 0 <= RadixBits ->
  BlockSize * ItemsPerThread <= batches ->
  0 <= digit < radix_size RadixBits ->
  BlockSize * ItemsPerThread * radix_size RadixBits <= 2 ^ 32 ->
  (forall b, 0 <= b < BlockSize * ItemsPerThread ->
     0 <= batch_digit_counts (b * radix_size RadixBits + digit)) ->
  zsum (fun b => batch_digit_counts (b * radix_size RadixBits + digit))
       (BlockSize * ItemsPerThread) < 2 ^ 32 ->
  let scanned := scan_batches BlockSize ItemsPerThread RadixBits
                   batch_digit_counts digit_counts batches digit in
  (forall b, 0 <= b < BlockSize * ItemsPerThread ->
     fst scanned (b * radix_size RadixBits + digit) =
     zsum (fun b' => batch_digit_counts (b' * radix_size RadixBits + digit)) b) /\
  (forall b, BlockSize * ItemsPerThread <= b ->
     fst scanned (b * radix_size RadixBits + digit) =
     batch_digit_counts (b * radix_size RadixBits + digit)) /\
  snd scanned digit =
  zsum (fun b => batch_digit_counts (b * radix_size RadixBits + digit))
       (BlockSize * ItemsPerThread).
Proof.
  intros HBS HIPT HR Hexceed Hdigit Htable Hnn Hsum scanned.
  split; [|split].
  - intros b Hb. now apply scan_batches_excess_entry.
  - intros b Hb. apply scan_batches_excess_other; try assumption.
    intros b' Hb' E.
    assert (0 < radix_size RadixBits) by (now apply radix_size_pos).
    nia.
  - now apply scan_batches_excess_total.
Qed.

Lemma X6_scan_batches_past_the_tile_witness :
  let scanned := scan_batches 2 1 2 (fun a => 2 * a) (fun _ => 0) 3 1 in
  (forall b, 0 <= b < 2 * 1 ->
     fst scanned (b * radix_size 2 + 1) =
     zsum (fun b' => 2 * (b' * radix_size 2 + 1)) b) /\
  (forall b, 2 * 1 <= b ->
     fst scanned (b * radix_size 2 + 1) = 2 * (b * radix_size 2 + 1)) /\
  snd scanned 1 = zsum (fun b => 2 * (b * radix_size 2 + 1)) (2 * 1).
Proof.
  apply (X6_scan_batches_past_the_tile 2 1 2 (fun a => 2 * a) (fun _ => 0) 3 1);
    [lia | lia | lia | lia | vm_compute; intuition congruence
    | vm_compute; congruence
    | intros b Hb; change (radix_size 2) with 4; lia
    | reflexivity].
Defined.

(** X7: for a batch without blocks [sort_and_scatter] stores nothing,
    whatever the tables and the input. *)
Theorem X7_sort_and_scatter_empty_batch
    BlockSize ItemsPerThread RadixBits key_bits
    {KeyIn KeyOut Value : Type}
    {key_in_codec : radix_key_codec KeyIn} {key_out_codec : radix_key_codec KeyOut}
    {value_payload : payload Value}
    (values_uninit : Z -> regs Value) (storage_uninit : scatter_storage)
    (keys_input : Z -> KeyIn) (values_input : Z -> Value)
    size (batch_digit_starts digit_starts : Z -> Z) bit current_radix_bits
    blocks_per_full_batch full_batches batch_id :
  snd (batch_blocks BlockSize ItemsPerThread blocks_per_full_batch full_batches
         batch_id) = 0 ->
  sort_and_scatter (KeyOut := KeyOut) BlockSize ItemsPerThread RadixBits key_bits
    values_uninit storage_uninit keys_input values_input size
    batch_digit_starts digit_starts bit current_radix_bits
    blocks_per_full_batch full_batches batch_id = [].
Proof.
  intros Hnone. unfold sort_and_scatter, sort_and_scatter_run.
  destruct (batch_blocks _ _ _ _ _) as [block_offset blocks_per_batch].
  cbn [snd] in Hnone. subst blocks_per_batch.
  rewrite for_loop_nonpos by lia. reflexivity.
Qed.

Lemma X7_sort_and_scatter_empty_batch_witness :
  sort_and_scatter (KeyOut := Byte.byte) (value_payload := payload_values 4 1 Z)
    4 1 2 8 (fun _ _ _ => 5)
    {| starts := fun _ => 3; ends := fun _ => 1; block_starts := fun _ => 9 |}
    example_keys example_values 10 (fun a => 3 * a) (fun d => 2 * d) 0 2 1 3 3
  = [].
Proof.
  apply (X7_sort_and_scatter_empty_batch 4 1 2 8). reflexivity.
Defined.

(** The places of a stable partition reach every index. *)
Lemma stable_dest_surj dig size p :
  0 <= p < size -> exists g, 0 <= g < size /\ stable_dest dig size g = p.
Proof.
  intros Hp. apply in_zrange in Hp.
  apply (Permutation_in _ (Permutation_sym (stable_dest_perm dig size))) in Hp.
  apply in_map_iff in Hp. destruct Hp as (g & E & Hg).
  apply in_zrange in Hg. now exists g.
Qed.

(** A stable partition leaves an input that is ordered by digit in place. *)
Lemma stable_dest_sorted dig size g :
  (forall i j, 0 <= i <= j -> j < size -> dig i <= dig j) ->
  0 <= g < size -> stable_dest dig size g = g.
Proof.
  intros Hmono Hg. unfold stable_dest.
  replace size with (g + (size - g)) at 1 by lia.
  rewrite zcount_split by lia.
  rewrite (zcount_none (fun q => dig (g + q) <? dig g)).
  - rewrite Z.add_0_r. unfold zcount. rewrite <- zsum_add.
    rewrite (zsum_ext _ (fun _ => 1)).
    + destruct Hg as [Hg0 _]. clear - Hg0. revert g Hg0.
      apply zrange_ind; [apply zsum_nonpos; lia|].
      intros n Hn IH. rewrite zsum_succ by lia. lia.
    + intros i Hi. pose proof (Hmono i g ltac:(lia) ltac:(lia)).
      destruct (Z.ltb_spec (dig i) (dig g)), (Z.eqb_spec (dig i) (dig g));
        simpl; lia.
  - intros q Hq. apply Z.ltb_ge. apply Hmono; lia.
Qed.

Section PassMemory.
Variables BlockSize ItemsPerThread RadixBits warp_size key_bits : Z.
Variables ScanBlockSize ScanItemsPerThread : Z.
Context {Key Value : Type}.
Context {key_codec : radix_key_codec Key}.
Context {value_payload : payload Value}.
Variable junk : indeterminate (KeyIn := Key) (Value := Value).
Variable keys_input : Z -> Key.
Variable values_input : Z -> Value.
Variables size bit current_radix_bits : Z.
Variables batches blocks_per_full_batch full_batches : Z.
Hypothesis ok :
  launch_ok BlockSize ItemsPerThread RadixBits warp_size key_bits
            ScanBlockSize ScanItemsPerThread size bit current_radix_bits
            batches blocks_per_full_batch full_batches.
Hypothesis sentinel : encode (decode (Z.ones key_bits) : Key) = Z.ones key_bits.
Hypothesis sort_block_ok : payload_ok BlockSize ItemsPerThread value_payload.
Hypothesis round_trip : forall k : Key, decode (encode k) = k.
Variable mem : output Key Value.

Let G g := digit_of bit current_radix_bits (encode (keys_input g)).
Let log :=
  radix_pass (KeyOut := Key) BlockSize ItemsPerThread RadixBits warp_size
    key_bits ScanBlockSize ScanItemsPerThread junk keys_input values_input size
    bit current_radix_bits batches blocks_per_full_batch full_batches.
Let out := apply_stores log mem.

Lemma pass_log :
  Permutation log
    (flat_map (fun g => stores_of_item keys_input values_input
                          (stable_dest G size g) g) (zrange size)).
Proof. apply radix_pass_spec; assumption. Qed.

Lemma pass_dest_inj i j :
  0 <= i < size -> 0 <= j < size ->
  stable_dest G size i = stable_dest G size j -> i = j.
Proof. apply stable_dest_inj. Qed.

Lemma pass_memory_key g :
  0 <= g < size -> fst out (stable_dest G size g) = keys_input g.
Proof.
  intros Hg. unfold out.
  rewrite (pass_output_key keys_input values_input size (stable_dest G size)
             pass_dest_inj log pass_log mem g Hg).
  apply round_trip.
Qed.

Lemma pass_memory_value g :
  with_values = true -> 0 <= g < size ->
  snd out (stable_dest G size g) = values_input g.
Proof.
  intros Hw Hg. unfold out.
  exact (pass_output_value keys_input values_input size (stable_dest G size)
           pass_dest_inj log pass_log mem g Hw Hg).
Qed.

Lemma pass_memory_frame a :
  ~ 0 <= a < size -> fst out a = fst mem a /\ snd out a = snd mem a.
Proof.
  intros Ha.
  assert (Hno : forall g, 0 <= g < size -> a <> stable_dest G size g).
  { intros g Hg E. pose proof (stable_dest_bounds G size g Hg). lia. }
  split.
  - exact (pass_output_key_frame keys_input values_input size (stable_dest G size)
             log pass_log mem a Hno).
  - exact (pass_output_value_frame keys_input values_input size
             (stable_dest G size) log pass_log mem a Hno).
Qed.

Lemma pass_memory_ordered p q :
  0 <= p <= q -> q < size ->
  digit_of bit current_radix_bits (encode (fst out p))
  <= digit_of bit current_radix_bits (encode (fst out q)).
Proof.
  intros Hp Hq.
  destruct (stable_dest_surj G size p ltac:(lia)) as (i & Hi & Ep).
  destruct (stable_dest_surj G size q ltac:(lia)) as (j & Hj & Eq).
  rewrite <- Ep, <- Eq, !pass_memory_key by assumption.
  change (G i <= G j).
  destruct (Z.le_gt_cases (G i) (G j)) as [H|H]; [exact H|].
  pose proof (stable_dest_smaller_digit G size j i Hj Hi H). lia.
Qed.

Lemma pass_memory_items :
  Permutation (map (fst out) (zrange size)) (map keys_input (zrange size)) /\
  (with_values = true ->
   Permutation (map (fun p => (fst out p, snd out p)) (zrange size))
               (map (fun g => (keys_input g, values_input g)) (zrange size))).
Proof.
  pose proof (stable_dest_perm G size) as Hperm.
  split.
  - rewrite <- Hperm at 1. rewrite map_map.
    erewrite map_ext_in; [reflexivity|].
    intros g Hg. apply in_zrange in Hg. now apply pass_memory_key.
  - intros Hw. rewrite <- Hperm at 1. rewrite map_map.
    erewrite map_ext_in; [reflexivity|].
    intros g Hg. apply in_zrange in Hg. cbv beta.
    now rewrite pass_memory_key, pass_memory_value.
Qed.

Lemma pass_memory_sorted_input g :
  (forall i j, 0 <= i <= j -> j < size -> G i <= G j) ->
  0 <= g < size ->
  fst out g = keys_input g /\ (with_values = true -> snd out g = values_input g).
Proof.
  intros Hmono Hg.
  pose proof (stable_dest_sorted G size g Hmono Hg) as E.
  split.
  - rewrite <- E at 1. now apply pass_memory_key.
  - intros Hw. rewrite <- E at 1. now apply pass_memory_value.
Qed.
End PassMemory.

(** The batching of an empty input over two batches. *)
Lemma example_launch_ok_empty bit current_radix_bits :
  0 <= bit -> 0 <= current_radix_bits <= 2 -> bit + current_radix_bits <= 8 ->
  launch_ok 4 1 2 2 8 4 1 0 bit current_radix_bits 2 1 0.
Proof.
  intros Hb Hc Hbc.
  constructor; try (vm_compute; intuition congruence); try lia; try reflexivity.
Defined.

(** X8: on an empty input a pass counts nothing and stores nothing: every
    entry of the table of stage 1 is 0, the totals and the starts of the
    digits are 0, and no block of the scatter stage performs a store. *)
Theorem X8_empty_input
    BlockSize ItemsPerThread RadixBits warp_size key_bits
    ScanBlockSize ScanItemsPerThread
    {KeyIn KeyOut Value : Type}
    {key_in_codec : radix_key_codec KeyIn} {key_out_codec : radix_key_codec KeyOut}
    {value_payload : payload Value}
    (junk : indeterminate (KeyIn := KeyIn) (Value := Value))
    (keys_input : Z -> KeyIn) (values_input : Z -> Value)
    bit current_radix_bits batches blocks_per_full_batch full_batches :
  launch_ok BlockSize ItemsPerThread RadixBits warp_size key_bits
            ScanBlockSize ScanItemsPerThread 0 bit current_radix_bits
            batches blocks_per_full_batch full_batches ->
  let rs := radix_size RadixBits in
  let table := histogram_stage BlockSize ItemsPerThread RadixBits warp_size junk
                 keys_input 0 bit current_radix_bits batches
                 blocks_per_full_batch full_batches in
  let tables := pass_tables BlockSize ItemsPerThread RadixBits warp_size
                  ScanBlockSize ScanItemsPerThread junk keys_input 0 bit
                  current_radix_bits batches blocks_per_full_batch full_batches in
  (forall b d, 0 <= b < batches -> 0 <= d < rs -> table (b * rs + d) = 0) /\
  (forall d, 0 <= d < rs -> snd (fst tables) d = 0 /\ snd tables d = 0) /\
  radix_pass (KeyOut := KeyOut) BlockSize ItemsPerThread RadixBits warp_size
    key_bits ScanBlockSize ScanItemsPerThread junk keys_input values_input 0
    bit current_radix_bits batches blocks_per_full_batch full_batches = [].
Proof.
  intros Hok rs table tables. split; [|split].
  - intros b d Hb Hd. unfold table.
    pose proof (batch_slice_bounds _ _ _ _ _ _ _ _ _ _ _ _ _ Hok b Hb) as Hbounds.
    rewrite (batch_slice_cuts _ _ _ _ _ _ _ _ _ _ _ _ _ Hok b Hb) in Hbounds.
    cbn [fst snd] in Hbounds.
    erewrite histogram_entry; [|exact Hok | exact Hb | exact Hd].
    apply count_between_empty. lia.
  - intros d Hd.
    pose proof (pass_tables_spec _ _ _ _ _ _ _ junk keys_input _ _ _ _ _ _ Hok)
      as Htables.
    cbv zeta in Htables. destruct Htables as (_ & Hdc & Hds).
    unfold tables. rewrite (Hdc d Hd), (Hds d Hd).
    unfold zcount. now rewrite !zsum_nonpos by lia.
  - unfold radix_pass.
    destruct (pass_tables _ _ _ _ _ _ _ _ _ _ _ _ _ _)
      as [[batch_digit_starts digit_counts] digit_starts].
    unfold scatter_stage, for_stores.
    apply flat_map_nil. intros b Hb. apply in_zrange in Hb.
    destruct (batch_geometry _ _ _ _ _ _ _ _ _ _ _ _ _ Hok b Hb)
      as (Hbb & H0 & Hnn & Hin).
    unfold sort_and_scatter, sort_and_scatter_run. rewrite Hbb.
    rewrite for_loop_nonpos; [reflexivity|].
    destruct (Z.le_gt_cases
                (snd (batch_block_range blocks_per_full_batch full_batches b)) 0)
      as [Hle|Hgt]; [exact Hle|].
    specialize (Hin 0 ltac:(lia)).
    pose proof (ok_BlockSize _ _ _ _ _ _ _ _ _ _ _ _ _ Hok).
    pose proof (ok_ItemsPerThread _ _ _ _ _ _ _ _ _ _ _ _ _ Hok).
    nia.
Qed.

Lemma X8_empty_input_witness :
  let rs := radix_size 2 in
  let table := histogram_stage 4 1 2 2 example_junk example_keys 0 0 2 2 1 0 in
  let tables := pass_tables 4 1 2 2 4 1 example_junk example_keys 0 0 2 2 1 0 in
  (forall b d, 0 <= b < 2 -> 0 <= d < rs -> table (b * rs + d) = 0) /\
  (forall d, 0 <= d < rs -> snd (fst tables) d = 0 /\ snd tables d = 0) /\
  radix_pass (KeyOut := Byte.byte) (value_payload := payload_values 4 1 Z)
    4 1 2 2 8 4 1 example_junk example_keys example_values 0 0 2 2 1 0 = [].
Proof.
  apply (X8_empty_input 4 1 2 2 8 4 1 (KeyOut := Byte.byte)
           (value_payload := payload_values 4 1 Z)
           example_junk example_keys example_values 0 2 2 1 0).
  apply example_launch_ok_empty; lia.
Defined.

(** X9: a pass writes the output arrays at the indices below [size] only:
    from [size] on, and below 0, the arrays of keys and of values keep what
    they held. *)
Theorem X9_pass_writes_inside_the_output
    BlockSize ItemsPerThread RadixBits warp_size key_bits
    ScanBlockSize ScanItemsPerThread
    {Key Value : Type} {key_codec : radix_key_codec Key}
    {value_payload : payload Value}
    (junk : indeterminate (KeyIn := Key) (Value := Value))
    (keys_input : Z -> Key) (values_input : Z -> Value)
    size bit current_radix_bits batches blocks_per_full_batch full_batches
    (mem : output Key Value) :
  launch_ok BlockSize ItemsPerThread RadixBits warp_size key_bits
            ScanBlockSize ScanItemsPerThread size bit current_radix_bits
            batches blocks_per_full_batch full_batches ->
  encode (decode (Z.ones key_bits) : Key) = Z.ones key_bits ->
  payload_ok BlockSize ItemsPerThread value_payload ->
  let out :=
    apply_stores
      (radix_pass (KeyOut := Key) BlockSize ItemsPerThread RadixBits warp_size
         key_bits ScanBlockSize ScanItemsPerThread junk keys_input values_input
         size bit current_radix_bits batches blocks_per_full_batch full_batches)
      mem in
  forall a, ~ 0 <= a < size -> fst out a = fst mem a /\ snd out a = snd mem a.
Proof.
  intros Hok Hsent Hpay out a Ha.
  exact (pass_memory_frame BlockSize ItemsPerThread RadixBits warp_size key_bits
           ScanBlockSize ScanItemsPerThread junk keys_input values_input size
           bit current_radix_bits batches blocks_per_full_batch full_batches
           Hok Hsent Hpay mem a Ha).
Qed.

Lemma X9_pass_writes_inside_the_output_witness :
  let mem : output Byte.byte Z := (fun _ => Byte.x00, fun _ => -1) in
  let out :=
    apply_stores
      (radix_pass (KeyOut := Byte.byte) (value_payload := payload_values 4 1 Z)
         4 1 2 2 8 4 1 example_junk example_keys example_values 10 0 2 2 2 1)
      mem in
  fst out 10 = fst mem 10 /\ snd out 10 = snd mem 10.
Proof.
  apply (X9_pass_writes_inside_the_output 4 1 2 2 8 4 1
           (value_payload := payload_values 4 1 Z)
           example_junk example_keys example_values 10 0 2 2 2 1
           (fun _ => Byte.x00, fun _ => -1)).
  - apply example_launch_ok; lia.
  - reflexivity.
  - apply payload_values_ok.
  - lia.
Defined.

(** X10: after a pass the keys of the output are ordered by the digit of
    the window: the digit does not decrease along the indices below
    [size]. *)
Theorem X10_pass_output_ordered_by_digit
    BlockSize ItemsPerThread RadixBits warp_size key_bits
    ScanBlockSize ScanItemsPerThread
    {Key Value : Type} {key_codec : radix_key_codec Key}
    {value_payload : payload Value}
    (junk : indeterminate (KeyIn := Key) (Value := Value))
    (keys_input : Z -> Key) (values_input : Z -> Value)
    size bit current_radix_bits batches blocks_per_full_batch full_batches
    (mem : output Key Value) :
  launch_ok BlockSize ItemsPerThread RadixBits warp_size key_bits
            ScanBlockSize ScanItemsPerThread size bit current_radix_bits
            batches blocks_per_full_batch full_batches ->
  encode (decode (Z.ones key_bits) : Key) = Z.ones key_bits ->
  payload_ok BlockSize ItemsPerThread value_payload ->
  (forall k : Key, decode (encode k) = k) ->
  let out :=
    apply_stores
      (radix_pass (KeyOut := Key) BlockSize ItemsPerThread RadixBits warp_size
         key_bits ScanBlockSize ScanItemsPerThread junk keys_input values_input
         size bit current_radix_bits batches blocks_per_full_batch full_batches)
      mem in
  forall p q, 0 <= p <= q -> q < size ->
    digit_of bit current_radix_bits (encode (fst out p))
    <= digit_of bit current_radix_bits (encode (fst out q)).
Proof.
  intros Hok Hsent Hpay Hround out p q Hp Hq.
  exact (pass_memory_ordered BlockSize ItemsPerThread RadixBits warp_size key_bits
           ScanBlockSize ScanItemsPerThread junk keys_input values_input size
           bit current_radix_bits batches blocks_per_full_batch full_batches
           Hok Hsent Hpay Hround mem p q Hp Hq).
Qed.

Lemma X10_pass_output_ordered_by_digit_witness :
  let mem : output Byte.byte Z := (fun _ => Byte.x00, fun _ => -1) in
  let out :=
    apply_stores
      (radix_pass (KeyOut := Byte.byte) (value_payload := payload_values 4 1 Z)
         4 1 2 2 8 4 1 example_junk example_keys example_values 10 0 2 2 2 1)
      mem in
  digit_of 0 2 (encode (fst out 3)) <= digit_of 0 2 (encode (fst out 7)).
Proof.
  apply (X10_pass_output_ordered_by_digit 4 1 2 2 8 4 1
           (value_payload := payload_values 4 1 Z)
           example_junk example_keys example_values 10 0 2 2 2 1
           (fun _ => Byte.x00, fun _ => -1)).
  - apply example_launch_ok; lia.
  - reflexivity.
  - apply payload_values_ok.
  - exact (decode_encode _ _ _ _ byte_codec_contract).
  - lia.
  - lia.
Defined.

(** X11: a pass loses and invents nothing: the keys of the output below
    [size] are the keys of the input, each as often as there, and with a
    payload the pairs of key and value of the output are the pairs of the
    input. *)
Theorem X11_pass_keeps_the_items
    BlockSize ItemsPerThread RadixBits warp_size key_bits
    ScanBlockSize ScanItemsPerThread
    {Key Value : Type} {key_codec : radix_key_codec Key}
    {value_payload : payload Value}
    (junk : indeterminate (KeyIn := Key) (Value := Value))
    (keys_input : Z -> Key) (values_input : Z -> Value)
    size bit current_radix_bits batches blocks_per_full_batch full_batches
    (mem : output Key Value) :
  launch_ok BlockSize ItemsPerThread RadixBits warp_size key_bits
            ScanBlockSize ScanItemsPerThread size bit current_radix_bits
            batches blocks_per_full_batch full_batches ->
  encode (decode (Z.ones key_bits) : Key) = Z.ones key_bits ->
  payload_ok BlockSize ItemsPerThread value_payload ->
  (forall k : Key, decode (encode k) = k) ->
  let out :=
    apply_stores
      (radix_pass (KeyOut := Key) BlockSize ItemsPerThread RadixBits warp_size
         key_bits ScanBlockSize ScanItemsPerThread junk keys_input values_input
         size bit current_radix_bits batches blocks_per_full_batch full_batches)
      mem in
  Permutation (map (fst out) (zrange size)) (map keys_input (zrange size)) /\
  (with_values = true ->
   Permutation (map (fun p => (fst out p, snd out p)) (zrange size))
               (map (fun g => (keys_input g, values_input g)) (zrange size))).
Proof.
  intros Hok Hsent Hpay Hround out.
  exact (pass_memory_items BlockSize ItemsPerThread RadixBits warp_size key_bits
           ScanBlockSize ScanItemsPerThread junk keys_input values_input size
           bit current_radix_bits batches blocks_per_full_batch full_batches
           Hok Hsent Hpay Hround mem).
Qed.

Lemma X11_pass_keeps_the_items_witness :
  let mem : output Byte.byte Z := (fun _ => Byte.x00, fun _ => -1) in
  let out :=
    apply_stores
      (radix_pass (KeyOut := Byte.byte) (value_payload := payload_values 4 1 Z)
         4 1 2 2 8 4 1 example_junk example_keys example_values 10 0 2 2 2 1)
      mem in
  Permutation (map (fst out) (zrange 10)) (map example_keys (zrange 10)) /\
  (true = true ->
   Permutation (map (fun p => (fst out p, snd out p)) (zrange 10))
               (map (fun g => (example_keys g, example_values g)) (zrange 10))).
Proof.
  apply (X11_pass_keeps_the_items 4 1 2 2 8 4 1
           (value_payload := payload_values 4 1 Z)
           example_junk example_keys example_values 10 0 2 2 2 1
           (fun _ => Byte.x00, fun _ => -1)).
  - apply example_launch_ok; lia.
  - reflexivity.
  - apply payload_values_ok.
  - exact (decode_encode _ _ _ _ byte_codec_contract).
Defined.

(** X12: a pass leaves in place an input that is already ordered by the
    digit of the window: every key, and every value of a payload, is stored
    at the index it was read from.  This is so for every input when the
    window has no bits. *)
Theorem X12_pass_on_ordered_input
    BlockSize ItemsPerThread RadixBits warp_size key_bits
    ScanBlockSize ScanItemsPerThread
    {Key Value : Type} {key_codec : radix_key_codec Key}
    {value_payload : payload Value}
    (junk : indeterminate (KeyIn := Key) (Value := Value))
    (keys_input : Z -> Key) (values_input : Z -> Value)
    size bit current_radix_bits batches blocks_per_full_batch full_batches
    (mem : output Key Value) :
  launch_ok BlockSize ItemsPerThread RadixBits warp_size key_bits
            ScanBlockSize ScanItemsPerThread size bit current_radix_bits
            batches blocks_per_full_batch full_batches ->
  encode (decode (Z.ones key_bits) : Key) = Z.ones key_bits ->
  payload_ok BlockSize ItemsPerThread value_payload ->
  (forall k : Key, decode (encode k) = k) ->
  let digit g := digit_of bit current_radix_bits (encode (keys_input g)) in
  let out :=
    apply_stores
      (radix_pass (KeyOut := Key) BlockSize ItemsPerThread RadixBits warp_size
         key_bits ScanBlockSize ScanItemsPerThread junk keys_input values_input
         size bit current_radix_bits batches blocks_per_full_batch full_batches)
      mem in
  ((forall i j, 0 <= i <= j -> j < size -> digit i <= digit j)
   \/ current_radix_bits = 0) ->
  forall g, 0 <= g < size ->
    fst out g = keys_input g /\
    (with_values = true -> snd out g = values_input g).
Proof.
  intros Hok Hsent Hpay Hround digit out Hordered g Hg.
  apply (pass_memory_sorted_input BlockSize ItemsPerThread RadixBits warp_size
           key_bits ScanBlockSize ScanItemsPerThread junk keys_input values_input
           size bit current_radix_bits batches blocks_per_full_batch full_batches
           Hok Hsent Hpay Hround mem g); [|exact Hg].
  destruct Hordered as [Hmono | Hzero]; [exact Hmono|].
  intros i j _ _. subst current_radix_bits. unfold digit_of.
  change (Z.ones 0) with 0. rewrite !Z.land_0_r. lia.
Qed.

Lemma X12_pass_on_ordered_input_witness :
  let mem : output Byte.byte Z := (fun _ => Byte.x00, fun _ => -1) in
  let out :=
    apply_stores
      (radix_pass (KeyOut := Byte.byte) (value_payload := payload_values 4 1 Z)
         4 1 2 2 8 4 1 example_junk example_keys example_values 10 8 0 2 2 1)
      mem in
  fst out 6 = example_keys 6 /\ (true = true -> snd out 6 = example_values 6).
Proof.
  apply (X12_pass_on_ordered_input 4 1 2 2 8 4 1
           (value_payload := payload_values 4 1 Z)
           example_junk example_keys example_values 10 8 0 2 2 1
           (fun _ => Byte.x00, fun _ => -1)).
  - apply example_launch_ok; lia.
  - reflexivity.
  - apply payload_values_ok.
  - exact (decode_encode _ _ _ _ byte_codec_contract).
  - right. reflexivity.
  - lia.
Defined.

(** X13: the four kernels fit together: with the tables that stages 1 to
    3 compute, the index that [sort_and_scatter] forms for an item of the
    slice of a batch -- the start of its digit, plus the start of the batch
    for the digit, plus the number of earlier items of the batch with the
    digit -- is the number of items of the input with a smaller digit plus
    the number of earlier items of the input with the same digit; it lies
    below [size]. *)
Theorem X13_tables_give_the_partition_index
    BlockSize ItemsPerThread RadixBits warp_size key_bits
    ScanBlockSize ScanItemsPerThread
    {KeyIn Value : Type} {key_in_codec : radix_key_codec KeyIn}
    (junk : indeterminate (KeyIn := KeyIn) (Value := Value))
    (keys_input : Z -> KeyIn)
    size bit current_radix_bits batches blocks_per_full_batch full_batches b g :
  launch_ok BlockSize ItemsPerThread RadixBits warp_size key_bits
            ScanBlockSize ScanItemsPerThread size bit current_radix_bits
            batches blocks_per_full_batch full_batches ->
  0 <= b < batches ->
  fst (batch_slice BlockSize ItemsPerThread size blocks_per_full_batch
         full_batches b) <= g
  < snd (batch_slice BlockSize ItemsPerThread size blocks_per_full_batch
           full_batches b) ->
  let rs := radix_size RadixBits in
  let digit g := digit_of bit current_radix_bits (encode (keys_input g)) in
  let tables := pass_tables BlockSize ItemsPerThread RadixBits warp_size
                  ScanBlockSize ScanItemsPerThread junk keys_input size bit
                  current_radix_bits batches blocks_per_full_batch full_batches in
  let batch_digit_starts := fst (fst tables) in
  let digit_starts := snd tables in
  let dst :=
    digit_starts (digit g) + batch_digit_starts (b * rs + digit g)
    + count_between (fun g' => digit g' =? digit g)
        (fst (batch_slice BlockSize ItemsPerThread size blocks_per_full_batch
                full_batches b)) g in
  dst = zcount (fun g' => digit g' <? digit g) size
        + zcount (fun g' => digit g' =? digit g) g /\
  0 <= dst < size.
Proof.
  intros Hok Hb Hg rs digit tables batch_digit_starts digit_starts dst.
  pose proof (batch_slice_bounds _ _ _ _ _ _ _ _ _ _ _ _ _ Hok b Hb) as Hbounds.
  pose proof (batch_slice_cuts _ _ _ _ _ _ _ _ _ _ _ _ _ Hok b Hb) as Hcuts.
  pose proof (pass_tables_spec _ _ _ _ _ _ _ junk keys_input _ _ _ _ _ _ Hok)
    as Htables.
  cbv zeta in Htables. destruct Htables as (Hbds & _ & Hds).
  assert (Hd : 0 <= digit g < rs).
  { pose proof (ok_window _ _ _ _ _ _ _ _ _ _ _ _ _ Hok) as Hwin.
    pose proof (ok_RadixBits _ _ _ _ _ _ _ _ _ _ _ _ _ Hok) as HR.
    pose proof (digit_of_range bit current_radix_bits (encode (keys_input g))
                  ltac:(lia)) as Hr.
    assert (2 ^ current_radix_bits <= 2 ^ RadixBits)
      by (apply Z.pow_le_mono_r; lia).
    unfold rs. rewrite radix_size_pow by lia. unfold digit. lia. }
  assert (Hdst : dst = stable_dest digit size g).
  { unfold dst, digit_starts, batch_digit_starts, tables, stable_dest, rs.
    rewrite (Hds (digit g) Hd), (Hbds b (digit g) Hb Hd).
    rewrite <- Z.add_assoc. f_equal.
    rewrite Hcuts. cbn [fst].
    rewrite Hcuts in Hbounds, Hg. cbn [fst snd] in Hbounds, Hg.
    match goal with
    | |- zcount ?P ?lo + count_between _ ?lo g = _ =>
        rewrite <- (count_between_zero P lo);
        rewrite <- (count_between_zero (fun g' => digit g' =? digit g) g);
        symmetry; apply (count_between_split P 0 lo g); lia
    end. }
  split; [exact Hdst|]. rewrite Hdst. apply stable_dest_bounds.
  lia.
Qed.

Lemma X13_tables_give_the_partition_index_witness :
  let rs := radix_size 2 in
  let digit g := digit_of 0 2 (encode (example_keys g)) in
  let tables := pass_tables 4 1 2 2 4 1 example_junk example_keys 10 0 2 2 2 1 in
  let batch_digit_starts := fst (fst tables) in
  let digit_starts := snd tables in
  let dst :=
    digit_starts (digit 9) + batch_digit_starts (1 * rs + digit 9)
    + count_between (fun g' => digit g' =? digit 9)
        (fst (batch_slice 4 1 10 2 1 1)) 9 in
  dst = zcount (fun g' => digit g' <? digit 9) 10
        + zcount (fun g' => digit g' =? digit 9) 9 /\
  0 <= dst < 10.
Proof.
  apply (X13_tables_give_the_partition_index 4 1 2 2 8 4 1 example_junk
           example_keys 10 0 2 2 2 1 1 9).
  - apply example_launch_ok; lia.
  - lia.
  - vm_compute. intuition congruence.
Defined.

(** X14: a pass over the output of a pass with the same window moves
    nothing: below [size] the second output holds the keys, and the values
    of a payload, of the first. *)
Theorem X14_pass_is_idempotent
    BlockSize ItemsPerThread RadixBits warp_size key_bits
    ScanBlockSize ScanItemsPerThread
    {Key Value : Type} {key_codec : radix_key_codec Key}
    {value_payload : payload Value}
    (junk junk' : indeterminate (KeyIn := Key) (Value := Value))
    (keys_input : Z -> Key) (values_input : Z -> Value)
    size bit current_radix_bits batches blocks_per_full_batch full_batches
    (mem mem' : output Key Value) :
  launch_ok BlockSize ItemsPerThread RadixBits warp_size key_bits
            ScanBlockSize ScanItemsPerThread size bit current_radix_bits
            batches blocks_per_full_batch full_batches ->
  encode (decode (Z.ones key_bits) : Key) = Z.ones key_bits ->
  payload_ok BlockSize ItemsPerThread value_payload ->
  (forall k : Key, decode (encode k) = k) ->
  let once :=
    apply_stores
      (radix_pass (KeyOut := Key) BlockSize ItemsPerThread RadixBits warp_size
         key_bits ScanBlockSize ScanItemsPerThread junk keys_input values_input
         size bit current_radix_bits batches blocks_per_full_batch full_batches)
      mem in
  let twice :=
    apply_stores
      (radix_pass (KeyOut := Key) BlockSize ItemsPerThread RadixBits warp_size
         key_bits ScanBlockSize ScanItemsPerThread junk' (fst once) (snd once)
         size bit current_radix_bits batches blocks_per_full_batch full_batches)
      mem' in
  forall g, 0 <= g < size ->
    fst twice g = fst once g /\
    (with_values = true -> snd twice g = snd once g).
Proof.
  intros Hok Hsent Hpay Hround once twice g Hg.
  apply (pass_memory_sorted_input BlockSize ItemsPerThread RadixBits warp_size
           key_bits ScanBlockSize ScanItemsPerThread junk' (fst once) (snd once)
           size bit current_radix_bits batches blocks_per_full_batch full_batches
           Hok Hsent Hpay Hround mem' g); [|exact Hg].
  intros i j Hi Hj.
  exact (pass_memory_ordered BlockSize ItemsPerThread RadixBits warp_size key_bits
           ScanBlockSize ScanItemsPerThread junk keys_input values_input size
           bit current_radix_bits batches blocks_per_full_batch full_batches
           Hok Hsent Hpay Hround mem i j Hi Hj).
Qed.

Lemma X14_pass_is_idempotent_witness :
  let mem : output Byte.byte Z := (fun _ => Byte.x00, fun _ => -1) in
  let once :=
    apply_stores
      (radix_pass (KeyOut := Byte.byte) (value_payload := payload_values 4 1 Z)
         4 1 2 2 8 4 1 example_junk example_keys example_values 10 2 2 2 2 1)
      mem in
  let twice :=
    apply_stores
      (radix_pass (KeyOut := Byte.byte) (value_payload := payload_values 4 1 Z)
         4 1 2 2 8 4 1 example_junk (fst once) (snd once) 10 2 2 2 2 1)
      mem in
  fst twice 4 = fst once 4 /\ (true = true -> snd twice 4 = snd once 4).
Proof.
  apply (X14_pass_is_idempotent 4 1 2 2 8 4 1
           (value_payload := payload_values 4 1 Z)
           example_junk example_junk example_keys example_values 10 2 2 2 2 1
           (fun _ => Byte.x00, fun _ => -1) (fun _ => Byte.x00, fun _ => -1)).
  - apply example_launch_ok; lia.
  - reflexivity.
  - apply payload_values_ok.
  - exact (decode_encode _ _ _ _ byte_codec_contract).
  - lia.
Defined.

(** ** Shuffles of values of any type (intrinsics/warp_shuffle.hpp) *)

(** [detail::warp_shuffle_op] shuffles a value of a type [T] through an
    operation on [int]: it views the object as [words_no] words of
    [sizeof(int) = 4] bytes, applies [op] to each, and reads the result back
    as a [T].  An object is the list of its [sizeof(T)] bytes; when
    [sizeof(T)] is no multiple of four the last word also holds the bytes
    that follow the object in the memory of the lane, [beyond].  The lanes
    of a warp run the call together and [op] is a collective of the warp:
    from the word that every lane passes it gives the word that a lane
    receives. *)
Definition sizeof_int : nat := 4.

Definition words_no (sizeof_T : nat) : nat :=
  ((sizeof_T + sizeof_int - 1) / sizeof_int)%nat.

Definition memory_at (object : list Byte.byte) (beyond : nat -> Byte.byte)
    (j : nat) : Byte.byte :=
  nth j object (beyond (j - length object)%nat).

Definition shfl_word (object : list Byte.byte) (beyond : nat -> Byte.byte)
    (i : nat) : list Byte.byte :=
  map (memory_at object beyond) (seq (sizeof_int * i) sizeof_int).

Definition warp_shuffle_op (sizeof_T : nat)
    (input : Z -> list Byte.byte) (beyond : Z -> nat -> Byte.byte)
    (op : (Z -> list Byte.byte) -> Z -> list Byte.byte)
    (lane : Z) : list Byte.byte :=
  let shfl_input l i := shfl_word (input l) (beyond l) i in
  let shfl_output_words :=
    map (fun i => op (fun l => shfl_input l i) lane) (seq 0 (words_no sizeof_T)) in
  firstn sizeof_T (concat shfl_output_words).

Lemma words_no_covers sizeof_T :
  (sizeof_T <= sizeof_int * words_no sizeof_T)%nat.
Proof.
  unfold words_no, sizeof_int.
  pose proof (Nat.div_mod_eq (sizeof_T + 4 - 1) 4) as Hdiv.
  pose proof (Nat.mod_upper_bound (sizeof_T + 4 - 1) 4 ltac:(discriminate)) as Hmod.
  lia.
Qed.

Lemma concat_words {A : Type} (f : nat -> A) n :
  concat (map (fun i => map f (seq (sizeof_int * i) sizeof_int)) (seq 0 n))
  = map f (seq 0 (sizeof_int * n)).
Proof.
  induction n as [|n IH].
  - reflexivity.
  - rewrite seq_S, map_app, concat_app, IH. cbn [map concat Nat.add].
    rewrite app_nil_r, <- map_app. f_equal.
    replace (sizeof_int * S n)%nat with (sizeof_int * n + sizeof_int)%nat by lia.
    now rewrite seq_app.
Qed.

Lemma firstn_seq_min n start len :
  firstn n (seq start len) = seq start (Nat.min n len).
Proof.
  revert start len. induction n as [|n IH]; intros start [|len]; try reflexivity.
  cbn [firstn seq Nat.min]. now rewrite IH.
Qed.

Lemma object_bytes (object : list Byte.byte) beyond :
  map (memory_at object beyond) (seq 0 (length object)) = object.
Proof.
  apply (nth_ext _ _ Byte.x00 Byte.x00).
  - now rewrite length_map, length_seq.
  - intros j Hj. rewrite length_map, length_seq in Hj.
    rewrite (nth_indep _ Byte.x00 (memory_at object beyond O))
      by now rewrite length_map, length_seq.
    rewrite map_nth, seq_nth by exact Hj. cbn [Nat.add].
    unfold memory_at. now apply nth_indep.
Qed.

(** X15: [warp_shuffle_op] moves whole values: when [op] hands every lane
    the word of its source lane, a lane receives exactly the object of its
    source lane, although the object travels word by word and its last word
    may hold bytes that lie beyond the object; the result does not depend
    on those bytes. *)
Theorem X15_warp_shuffle_op_moves_whole_values
    sizeof_T input beyond op (src : Z -> Z) lane :
  length (input (src lane)) = sizeof_T ->
  (forall words l, op words l = words (src l)) ->
  warp_shuffle_op sizeof_T input beyond op lane = input (src lane).
Proof.
  intros Hlen Hop. unfold warp_shuffle_op.
  rewrite (map_ext _ (fun i => shfl_word (input (src lane)) (beyond (src lane)) i))
    by (intros i; apply Hop).
  unfold shfl_word. rewrite concat_words, firstn_map, firstn_seq_min.
  rewrite Nat.min_l by apply words_no_covers.
  rewrite <- Hlen. apply object_bytes.
Qed.

Lemma X15_warp_shuffle_op_moves_whole_values_witness :
  let input (l : Z) :=
    if l =? 3
    then (Byte.x30 :: Byte.x31 :: Byte.x32 :: Byte.x33 :: Byte.x34 :: Byte.x35 :: nil)
    else (Byte.x10 :: Byte.x11 :: Byte.x12 :: Byte.x13 :: Byte.x14 :: Byte.x15 :: nil) in
  warp_shuffle_op 6 input (fun _ _ => Byte.xff)
    (fun words l => words (Z.lxor l 1)) 2
  = input 3.
Proof.
  apply (X15_warp_shuffle_op_moves_whole_values 6 _ (fun _ _ => Byte.xff)
           (fun words l => words (Z.lxor l 1)) (fun l => Z.lxor l 1) 2).
  - reflexivity.
  - reflexivity.
Defined.
